(** * Field-sensitive pruned liveness: a shallow embedding

    This development embeds the analysis of
    [lib/SIL/Utils/FieldSensitivePrunedLiveness.cpp] and states its
    properties.  The first part holds the definitions, in the order of the
    source file; the second part holds the lemmas and theorems. *)

From Stdlib Require Import ZArith List Lia Bool Sorted.
From stdpp Require Import gmap sets list.

Local Open Scope Z_scope.

#[local] Set Warnings "-register-all,-clear-no-such-hyp".

(* ===================================================================== *)
(** * Part I: definitions                                                  *)
(* ===================================================================== *)

(** ** Machine arithmetic

    Sub-element counts and offsets are C++ [unsigned] values; additions wrap
    modulo [2^32]. *)

Definition UnsignedModulus : Z := 2 ^ 32.

Definition wrapUnsigned (z : Z) : Z := z mod UnsignedModulus.

(** ** The type tree

    What [TypeSubElementCount] asks of a [SILType]: is it a tuple (with its
    element types), a struct (whether its storage is unreferenceable, whether
    it is a value type with a deinit, and the types of its stored properties
    in declaration order), or an enum (its elements in declaration order,
    each with the type of its associated values when it has any). *)

Inductive SILType : Type :=
| TupleType (elementTypes : list SILType)
| StructType (hasUnreferenceableStorage : bool) (isValueTypeWithDeinit : bool)
             (storedProperties : list SILType)
| EnumType (allElements : list (option SILType))
| OtherType.

(** ** [TypeSubElementCount::TypeSubElementCount] *)

Fixpoint TypeSubElementCount (type : SILType) : Z :=
  match type with
  | TupleType elementTypes =>
      fold_left
        (fun numElements elt => wrapUnsigned (numElements + TypeSubElementCount elt))
        elementTypes 0
  | StructType false withDeinit storedProperties =>
      let numElements :=
        fold_left
          (fun numElements field =>
             wrapUnsigned (numElements + TypeSubElementCount field))
          storedProperties 0 in
      let number := if withDeinit then wrapUnsigned (numElements + 1) else numElements in
      if number =? 0 then 1 else number
  | StructType true _ _ => 1
  | EnumType allElements =>
      let numElements :=
        fold_left
          (fun numElements eltDecl =>
             match eltDecl with
             | None => numElements
             | Some elt => Z.max numElements (TypeSubElementCount elt)
             end)
          allElements 0 in
      wrapUnsigned (numElements + 1)
  | OtherType => 1
  end.

(** The running sum of the loops [finalSubElementOffset += TypeSubElementCount(..)]. *)
Definition addSubElementCounts (offset : Z) (types : list SILType) : Z :=
  fold_left (fun acc ty => wrapUnsigned (acc + TypeSubElementCount ty)) types offset.

(** ** Values and projections

    A value is identified by [valueID] (pointer identity in the source).  A
    projection carries the operand that the offset walk follows:
    [getOperand()] for all kinds but [StoreBorrowInst], where it is
    [getDest()]. *)

Inductive ProjectionKind : Type :=
| ProjectBoxInst
| BeginAccessInst
| StoreBorrowInst
| MoveOnlyWrapperToCopyableAddrInst
| TupleElementAddrInst (fieldIndex : nat)
| StructElementAddrInst (field : nat)
| UncheckedTakeEnumDataAddrInst
| InitEnumDataAddrInst
| BeginBorrowInst
| CopyValueInst
| MoveOnlyWrapperToCopyableValueInst
| TupleExtractInst (fieldIndex : nat)
| DestructureStructResult (index : nat)
| DestructureTupleResult (index : nat)
| OtherMultipleValueInstructionResult
| StructExtractInst (field : nat)
| UncheckedEnumDataInst
| OtherInst.

Inductive SILValue : Type :=
| BaseValue (id : nat) (type : SILType)
| Projection (id : nat) (type : SILType) (kind : ProjectionKind) (operand : SILValue).

Definition valueID (v : SILValue) : nat :=
  match v with
  | BaseValue id _ => id
  | Projection id _ _ _ => id
  end.

Definition getType (v : SILValue) : SILType :=
  match v with
  | BaseValue _ ty => ty
  | Projection _ ty _ _ => ty
  end.

Definition sameValue (a b : SILValue) : bool := Nat.eqb (valueID a) (valueID b).

(** Element types of a tuple type and stored property types of a struct
    type, as [getTupleElementType] and [getFieldType] give them on verified
    SIL (where the operand of a tuple projection has tuple type, and so on). *)
Definition tupleElementTypes (ty : SILType) : list SILType :=
  match ty with
  | TupleType elementTypes => elementTypes
  | _ => []
  end.

Definition storedPropertyTypes (ty : SILType) : list SILType :=
  match ty with
  | StructType _ _ storedProperties => storedProperties
  | _ => []
  end.

(** ** [SubElementOffset::computeForAddress]

    The [while (1)] loop, with the accumulated offset as an argument; every
    [continue] is the recursive call on the operand. *)

Fixpoint computeForAddressFrom (finalSubElementOffset : Z)
    (projectionDerivedFromRoot rootAddress : SILValue) : option Z :=
  if sameValue rootAddress projectionDerivedFromRoot then Some finalSubElementOffset
  else
    match projectionDerivedFromRoot with
    | Projection _ _ kind operand =>
        match kind with
        | ProjectBoxInst
        | BeginAccessInst
        | StoreBorrowInst
        | MoveOnlyWrapperToCopyableAddrInst =>
            computeForAddressFrom finalSubElementOffset operand rootAddress
        | TupleElementAddrInst fieldIndex =>
            computeForAddressFrom
              (addSubElementCounts finalSubElementOffset
                 (firstn fieldIndex (tupleElementTypes (getType operand))))
              operand rootAddress
        | StructElementAddrInst field =>
            computeForAddressFrom
              (addSubElementCounts finalSubElementOffset
                 (firstn field (storedPropertyTypes (getType operand))))
              operand rootAddress
        | UncheckedTakeEnumDataAddrInst
        | InitEnumDataAddrInst =>
            computeForAddressFrom finalSubElementOffset operand rootAddress
        | _ => None
        end
    | BaseValue _ _ => None
    end.

Definition computeForAddress (projectionDerivedFromRoot rootAddress : SILValue)
  : option Z :=
  computeForAddressFrom 0 projectionDerivedFromRoot rootAddress.

(** ** [SubElementOffset::computeForValue] *)

Fixpoint computeForValueFrom (finalSubElementOffset : Z)
    (projectionDerivedFromRoot rootAddress : SILValue) : option Z :=
  if sameValue rootAddress projectionDerivedFromRoot then Some finalSubElementOffset
  else
    match projectionDerivedFromRoot with
    | Projection _ _ kind operand =>
        match kind with
        | BeginBorrowInst
        | CopyValueInst
        | MoveOnlyWrapperToCopyableValueInst =>
            computeForValueFrom finalSubElementOffset operand rootAddress
        | TupleExtractInst fieldIndex =>
            computeForValueFrom
              (addSubElementCounts finalSubElementOffset
                 (firstn fieldIndex (tupleElementTypes (getType operand))))
              operand rootAddress
        | DestructureStructResult resultIndex =>
            computeForValueFrom
              (addSubElementCounts finalSubElementOffset
                 (firstn resultIndex (storedPropertyTypes (getType operand))))
              operand rootAddress
        | DestructureTupleResult resultIndex =>
            computeForValueFrom
              (addSubElementCounts finalSubElementOffset
                 (firstn resultIndex (tupleElementTypes (getType operand))))
              operand rootAddress
        | StructExtractInst field =>
            computeForValueFrom
              (addSubElementCounts finalSubElementOffset
                 (firstn field (storedPropertyTypes (getType operand))))
              operand rootAddress
        | UncheckedEnumDataInst =>
            computeForValueFrom finalSubElementOffset operand rootAddress
        | _ => None
        end
    | BaseValue _ _ => None
    end.

Definition computeForValue (projectionDerivedFromRoot rootAddress : SILValue)
  : option Z :=
  computeForValueFrom 0 projectionDerivedFromRoot rootAddress.

(** The projection kinds each walk knows, and those among them that it only
    looks through. *)
Definition addressKindRecognized (kind : ProjectionKind) : bool :=
  match kind with
  | ProjectBoxInst | BeginAccessInst | StoreBorrowInst
  | MoveOnlyWrapperToCopyableAddrInst
  | TupleElementAddrInst _ | StructElementAddrInst _
  | UncheckedTakeEnumDataAddrInst | InitEnumDataAddrInst => true
  | _ => false
  end.

Definition valueKindRecognized (kind : ProjectionKind) : bool :=
  match kind with
  | BeginBorrowInst | CopyValueInst | MoveOnlyWrapperToCopyableValueInst
  | TupleExtractInst _ | DestructureStructResult _ | DestructureTupleResult _
  | StructExtractInst _ | UncheckedEnumDataInst => true
  | _ => false
  end.

Definition addressKindTransparent (kind : ProjectionKind) : bool :=
  match kind with
  | ProjectBoxInst | BeginAccessInst | StoreBorrowInst
  | MoveOnlyWrapperToCopyableAddrInst
  | UncheckedTakeEnumDataAddrInst | InitEnumDataAddrInst => true
  | _ => false
  end.

Definition valueKindTransparent (kind : ProjectionKind) : bool :=
  match kind with
  | BeginBorrowInst | CopyValueInst | MoveOnlyWrapperToCopyableValueInst
  | UncheckedEnumDataInst => true
  | _ => false
  end.

(** A chain of projections that leads from a value to the root through
    kinds accepted by [ok]. *)
Inductive LeadsToRoot (ok : ProjectionKind -> bool) (root : SILValue)
  : SILValue -> Prop :=
| LeadsToRoot_here v : valueID v = valueID root -> LeadsToRoot ok root v
| LeadsToRoot_step id ty kind operand :
    ok kind = true ->
    LeadsToRoot ok root operand ->
    LeadsToRoot ok root (Projection id ty kind operand).

(** [TypeTreeLeafTypeRange]: the half-open range of leaf bits
    [[startEltOffset, endEltOffset)]. *)
Record TypeTreeLeafTypeRange : Type := mkRange {
  startEltOffset : Z;
  endEltOffset : Z
}.

(** Modelled from the spec: the leaf range of a projection of an address
    (the constructor of [TypeTreeLeafTypeRange] from a projection and its
    root is declared in the header).  The range starts at the projection's
    offset and spans the sub-elements of the projection's own type; it is
    unknown when the offset is. *)
Definition rangeForAddress (projection root : SILValue)
  : option TypeTreeLeafTypeRange :=
  match computeForAddress projection root with
  | Some start =>
      Some (mkRange start (wrapUnsigned (start + TypeSubElementCount (getType projection))))
  | None => None
  end.

(** Modelled from the spec: the leaf range of a projection of a value, as
    for an address. *)
Definition rangeForValue (projection root : SILValue)
  : option TypeTreeLeafTypeRange :=
  match computeForValue projection root with
  | Some start =>
      Some (mkRange start (wrapUnsigned (start + TypeSubElementCount (getType projection))))
  | None => None
  end.

(** Mathematical counterparts used to state the layout properties: the
    integer sum of the stored fields' counts, the extra bit of a deinit, the
    counts of the payload-bearing cases of an enum and their maximum. *)
Definition fieldCountSum (fields : list SILType) : Z :=
  fold_right (fun field acc => TypeSubElementCount field + acc) 0 fields.

Definition deinitBit (withDeinit : bool) : Z := if withDeinit then 1 else 0.

Fixpoint payloadCounts (allElements : list (option SILType)) : list Z :=
  match allElements with
  | [] => []
  | None :: rest => payloadCounts rest
  | Some elt :: rest => TypeSubElementCount elt :: payloadCounts rest
  end.

Fixpoint maxCount (counts : list Z) : Z :=
  match counts with
  | [] => 0
  | c :: rest => Z.max c (maxCount rest)
  end.

(** ** [TypeTreeLeafTypeRange::visitContiguousRanges]

    A [SmallBitVector] is the list of its bits; [testBit] is
    [SmallBitVector::test] (indices the loop uses are below the size).  The
    result lists the ranges passed to the callback, in the order of the
    calls.  [visitContiguousRangesFrom] is the [for] loop followed by the
    final [if (current)]: [rest] holds the bits from index [bit] on. *)

Definition testBit (bits : list bool) (i : nat) : bool := nth i bits false.

Fixpoint visitContiguousRangesFrom (rest : list bool) (bit : Z) (current : option Z)
  : list TypeTreeLeafTypeRange :=
  match rest with
  | [] =>
      match current with
      | Some start => [mkRange start bit]
      | None => []
      end
  | isSet :: rest' =>
      match current with
      | Some start =>
          if negb isSet
          then mkRange start bit :: visitContiguousRangesFrom rest' (bit + 1) None
          else visitContiguousRangesFrom rest' (bit + 1) (Some start)
      | None =>
          if isSet
          then visitContiguousRangesFrom rest' (bit + 1) (Some bit)
          else visitContiguousRangesFrom rest' (bit + 1) None
      end
  end.

Definition visitContiguousRanges (bits : list bool) : list TypeTreeLeafTypeRange :=
  if (length bits =? 0)%nat then []
  else visitContiguousRangesFrom bits 0 None.

(** A range is a maximal contiguous run of set bits of [bits]. *)
Definition MaximalRun (bits : list bool) (r : TypeTreeLeafTypeRange) : Prop :=
  exists s e : nat,
    r = mkRange (Z.of_nat s) (Z.of_nat e)
    /\ (s < e <= length bits)%nat
    /\ (forall i, (s <= i < e)%nat -> testBit bits i = true)
    /\ (s = 0%nat \/ testBit bits (s - 1) = false)
    /\ testBit bits e = false.

(** The bit index lies in the half-open range. *)
Definition rangeContains (r : TypeTreeLeafTypeRange) (i : Z) : Prop :=
  startEltOffset r <= i < endEltOffset r.

(** Each range ends strictly before every later one starts. *)
Definition gapBefore (r1 r2 : TypeTreeLeafTypeRange) : Prop :=
  endEltOffset r1 < startEltOffset r2.

(** ** The control-flow graph

    Blocks, instructions and block arguments are identified by numbers
    (pointer identity in the source); the blocks of a function are
    [0 .. numBlocks - 1].  The function gives, for each block, its
    predecessors, successors, instructions in program order and arguments,
    and for each instruction and argument its parent block. *)

Abbreviation SILBasicBlock := nat (only parsing).
Abbreviation SILInstruction := nat (only parsing).
Abbreviation SILArgument := nat (only parsing).

Inductive SILNode : Type :=
| InstructionNode (inst : SILInstruction)
| ArgumentNode (arg : SILArgument).

#[global] Instance SILNode_eq_dec : EqDecision SILNode.
Proof. solve_decision. Defined.

#[global] Instance SILNode_countable : Countable SILNode.
Proof.
  refine (inj_countable'
            (fun n => match n with
                      | InstructionNode i => inl i
                      | ArgumentNode a => inr a
                      end)
            (fun s => match s with
                      | inl i => InstructionNode i
                      | inr a => ArgumentNode a
                      end) _).
  intros []; reflexivity.
Defined.

Record SILFunction : Type := mkFunction {
  numBlocks : nat;
  getPredecessorBlocks : SILBasicBlock -> list SILBasicBlock;
  getSuccessors : SILBasicBlock -> list SILBasicBlock;
  getInstructions : SILBasicBlock -> list SILInstruction;
  getArguments : SILBasicBlock -> list SILArgument;
  getParent : SILInstruction -> SILBasicBlock;
  getArgumentParent : SILArgument -> SILBasicBlock
}.

Definition getParentBlock (F : SILFunction) (node : SILNode) : SILBasicBlock :=
  match node with
  | InstructionNode inst => getParent F inst
  | ArgumentNode arg => getArgumentParent F arg
  end.

(** Every predecessor of a block is a block of the function. *)
Definition predecessorsInFunction (F : SILFunction) : Prop :=
  forall block pred,
    In pred (getPredecessorBlocks F block) -> (pred < numBlocks F)%nat.

(** ** The liveness lattice *)

Inductive IsLive : Type := Dead | LiveWithin | LiveOut.

#[global] Instance IsLive_eq_dec : EqDecision IsLive.
Proof. solve_decision. Defined.

Definition IsLive_rank (l : IsLive) : nat :=
  match l with
  | Dead => 0
  | LiveWithin => 1
  | LiveOut => 2
  end.

(** The order [Dead < LiveWithin < LiveOut]. *)
Definition IsLive_le (a b : IsLive) : Prop := (IsLive_rank a <= IsLive_rank b)%nat.

Definition IsLive_max (a b : IsLive) : IsLive :=
  if (IsLive_rank a <=? IsLive_rank b)%nat then b else a.

(** ** The block worklist *)

(** Modelled from the spec: [BasicBlockWorklist] (declared in a header) is a
    worklist of blocks with a pushed marker: a block enters the worklist at
    most once.  [pendingBlocks] holds the pushed blocks not yet popped, the
    last pushed first. *)
Record BasicBlockWorklist : Type := mkWorklist {
  pendingBlocks : list SILBasicBlock;
  visitedBlocks : gset nat
}.

(** Which of the pending blocks [pop] hands out next is decided in the
    header; it is a parameter [popFrom] of the traversals, and [LawfulPop]
    says that it removes one pending block and fails only on the empty
    list. *)
Definition PopOrder : Type :=
  list SILBasicBlock -> option (SILBasicBlock * list SILBasicBlock).

Definition LawfulPop (popFrom : PopOrder) : Prop :=
  forall l,
    match popFrom l with
    | Some (b, l') => l ≡ₚ b :: l'
    | None => l = []
    end.

(** Last pushed, first popped; and first pushed, first popped. *)
Definition popNewest : PopOrder :=
  fun l => match l with
           | [] => None
           | b :: l' => Some (b, l')
           end.

Definition popOldest : PopOrder :=
  fun l => match rev l with
           | [] => None
           | b :: l' => Some (b, rev l')
           end.

Definition emptyWorklist : BasicBlockWorklist := mkWorklist [] ∅.

(** Modelled from the spec: [push], [pushIfNotVisited] and [pop] of the
    worklist: a pushed block is pending and marked; a marked block is not
    pushed again; [pop] takes one pending block out and leaves the marks. *)
Definition push (block : SILBasicBlock) (w : BasicBlockWorklist)
  : BasicBlockWorklist :=
  mkWorklist (block :: pendingBlocks w) ({[block]} ∪ visitedBlocks w).

Definition pushIfNotVisited (block : SILBasicBlock) (w : BasicBlockWorklist)
  : BasicBlockWorklist :=
  if decide (block ∈ visitedBlocks w) then w else push block w.

Definition pop (popFrom : PopOrder) (w : BasicBlockWorklist)
  : option (SILBasicBlock * BasicBlockWorklist) :=
  match popFrom (pendingBlocks w) with
  | Some (block, rest) => Some (block, mkWorklist rest (visitedBlocks w))
  | None => None
  end.

(** ** [FieldSensitivePrunedLiveBlocks] *)

(** Modelled from the spec: the state of the live blocks (declared in the
    header): per discovered block, a vector with one liveness state per
    tracked bit; [discoveredBlocks] lists the discovered blocks in the order
    of their first visit. *)
Record FieldSensitivePrunedLiveBlocks : Type := mkLiveBlocks {
  numBitsToTrack : nat;
  liveBlocks : gmap nat (list IsLive);
  discoveredBlocks : list SILBasicBlock
}.

(** Modelled from the spec: [getBlockLiveness(bb, bitNo)] (defined in the
    header).  A block that was never discovered is [Dead] for every bit. *)
Definition getBlockLiveness (live : FieldSensitivePrunedLiveBlocks)
    (bb : SILBasicBlock) (bitNo : nat) : IsLive :=
  match liveBlocks live !! bb with
  | Some bits => default Dead (bits !! bitNo)
  | None => Dead
  end.

(** Modelled from the spec: [markBlockLive(bb, bitNo, isLive)] (defined in
    the header) sets the state of the bit in the block to at least [isLive]:
    a block not seen before is discovered with all its bits [Dead] but this
    one; in a known block the bit is promoted and never demoted. *)
Definition markBlockLive (live : FieldSensitivePrunedLiveBlocks)
    (bb : SILBasicBlock) (bitNo : nat) (isLive : IsLive)
  : FieldSensitivePrunedLiveBlocks :=
  match liveBlocks live !! bb with
  | None =>
      mkLiveBlocks (numBitsToTrack live)
        (<[bb := <[bitNo := isLive]> (replicate (numBitsToTrack live) Dead)]>
           (liveBlocks live))
        (discoveredBlocks live ++ [bb])
  | Some bits =>
      mkLiveBlocks (numBitsToTrack live)
        (<[bb := <[bitNo := IsLive_max (default Dead (bits !! bitNo)) isLive]> bits]>
           (liveBlocks live))
        (discoveredBlocks live)
  end.

(** Pointwise order on the liveness of all (block, bit) pairs. *)
Definition LiveBlocks_le (live live' : FieldSensitivePrunedLiveBlocks) : Prop :=
  forall bb bitNo,
    IsLive_le (getBlockLiveness live bb bitNo) (getBlockLiveness live' bb bitNo).

(** ** [FieldSensitivePrunedLiveBlocks::computeScalarUseBlockLiveness]

    [markPredecessor] is the body of the loop over the predecessors of a
    popped block; [propagateToPredecessors] is the [while] loop over the
    worklist, with a bound on the number of pops. *)

Definition markPredecessor (bitNo : nat)
    (state : FieldSensitivePrunedLiveBlocks * BasicBlockWorklist)
    (predBlock : SILBasicBlock)
  : FieldSensitivePrunedLiveBlocks * BasicBlockWorklist :=
  let (live, worklist) := state in
  match getBlockLiveness live predBlock bitNo with
  | Dead =>
      (markBlockLive live predBlock bitNo LiveOut, pushIfNotVisited predBlock worklist)
  | LiveWithin => (markBlockLive live predBlock bitNo LiveOut, worklist)
  | LiveOut => (live, worklist)
  end.

Fixpoint propagateToPredecessors (F : SILFunction) (popFrom : PopOrder)
    (bitNo : nat) (fuel : nat)
    (live : FieldSensitivePrunedLiveBlocks) (worklist : BasicBlockWorklist)
  : option FieldSensitivePrunedLiveBlocks :=
  match fuel with
  | O => None
  | S fuel' =>
      match pop popFrom worklist with
      | None => Some live
      | Some (block, worklist') =>
          let (live', worklist'') :=
            fold_left (markPredecessor bitNo) (getPredecessorBlocks F block)
                      (live, worklist') in
          propagateToPredecessors F popFrom bitNo fuel' live' worklist''
      end
  end.

Definition computeScalarUseBlockLiveness (F : SILFunction) (popFrom : PopOrder)
    (live : FieldSensitivePrunedLiveBlocks) (userBB : SILBasicBlock) (bitNo : nat)
  : option FieldSensitivePrunedLiveBlocks :=
  let live' := markBlockLive live userBB bitNo LiveWithin in
  let worklist := push userBB emptyWorklist in
  propagateToPredecessors F popFrom bitNo (S (numBlocks F)) live' worklist.

(** ** [FieldSensitivePrunedLiveBlocks::updateForUse]

    [updateForUseBit] is one round of the loop over the bits of the range:
    [isLive] is the state read for the bit before the loop started. *)

Definition updateForUseBit (F : SILFunction) (popFrom : PopOrder)
    (bb : SILBasicBlock) (useBeforeDefBits : list bool)
    (live : FieldSensitivePrunedLiveBlocks) (specificBitNo : nat) (isLive : IsLive)
  : option FieldSensitivePrunedLiveBlocks :=
  let isUseBeforeDef := testBit useBeforeDefBits specificBitNo in
  match isLive with
  | LiveOut | LiveWithin =>
      if negb isUseBeforeDef then Some live
      else computeScalarUseBlockLiveness F popFrom live bb specificBitNo
  | Dead => computeScalarUseBlockLiveness F popFrom live bb specificBitNo
  end.

Fixpoint updateForUseLoop (F : SILFunction) (popFrom : PopOrder)
    (bb : SILBasicBlock) (useBeforeDefBits : list bool)
    (live : FieldSensitivePrunedLiveBlocks)
    (bitsAndLiveness : list (nat * IsLive))
  : option FieldSensitivePrunedLiveBlocks :=
  match bitsAndLiveness with
  | [] => Some live
  | (specificBitNo, isLive) :: rest =>
      match updateForUseBit F popFrom bb useBeforeDefBits live specificBitNo isLive with
      | Some live' => updateForUseLoop F popFrom bb useBeforeDefBits live' rest
      | None => None
      end
  end.

Definition updateForUse (F : SILFunction) (popFrom : PopOrder)
    (live : FieldSensitivePrunedLiveBlocks) (user : SILInstruction)
    (startBitNo endBitNo : nat) (useBeforeDefBits : list bool)
  : option FieldSensitivePrunedLiveBlocks :=
  let bb := getParent F user in
  let bitNos := seq startBitNo (endBitNo - startBitNo) in
  let resultingLivenessInfo := map (getBlockLiveness live bb) bitNos in
  updateForUseLoop F popFrom bb useBeforeDefBits live
    (combine bitNos resultingLivenessInfo).

(** Modelled from the spec: the one-bit [updateForUse(user, bitNo,
    isUserBeforeDef)] of the live blocks (defined in the header), which the
    bit-vector overloads below call for every set bit: the same decision as
    one round of the loop above, on the state read at the time of the call. *)
Definition updateForUseOneBit (F : SILFunction) (popFrom : PopOrder)
    (live : FieldSensitivePrunedLiveBlocks) (user : SILInstruction)
    (bitNo : nat) (isUserBeforeDef : bool)
  : option FieldSensitivePrunedLiveBlocks :=
  let bb := getParent F user in
  match getBlockLiveness live bb bitNo with
  | LiveOut | LiveWithin =>
      if negb isUserBeforeDef then Some live
      else computeScalarUseBlockLiveness F popFrom live bb bitNo
  | Dead => computeScalarUseBlockLiveness F popFrom live bb bitNo
  end.

(** The indices of the set bits of a bit vector, in increasing order
    ([SmallBitVector::set_bits]). *)
Definition set_bits (bits : list bool) : list nat :=
  filter (fun i => testBit bits i = true) (seq 0 (length bits)).

Fixpoint updateForUseSetBits (F : SILFunction) (popFrom : PopOrder)
    (user : SILInstruction) (useBeforeDefBits : list bool)
    (live : FieldSensitivePrunedLiveBlocks) (bitNos : list nat)
  : option FieldSensitivePrunedLiveBlocks :=
  match bitNos with
  | [] => Some live
  | bit :: rest =>
      match updateForUseOneBit F popFrom live user bit (testBit useBeforeDefBits bit) with
      | Some live' => updateForUseSetBits F popFrom user useBeforeDefBits live' rest
      | None => None
      end
  end.

(** ** [FieldSensitivePrunedLiveness]: the four recording operations

    The tracker holds the live blocks and the map of interesting users.  The
    user map and the operations on it are declared in the header and are
    kept abstract: [UserMapOps] gives, for a type of user maps, what
    [addInterestingUser] and the one-instruction [extendToNonUse] do to it. *)

Record UserMapOps (Users : Type) : Type := mkUserMapOps {
  addInterestingUserRange : Users -> SILInstruction -> TypeTreeLeafTypeRange -> bool -> Users;
  addInterestingUserBits : Users -> SILInstruction -> list bool -> bool -> Users;
  extendToNonUseRangeUsers : Users -> SILInstruction -> TypeTreeLeafTypeRange -> Users;
  extendToNonUseBitsUsers : Users -> SILInstruction -> list bool -> Users
}.

Arguments addInterestingUserRange {Users}.
Arguments addInterestingUserBits {Users}.
Arguments extendToNonUseRangeUsers {Users}.
Arguments extendToNonUseBitsUsers {Users}.

Record FieldSensitivePrunedLiveness (Users : Type) : Type := mkLiveness {
  liveBlocksOf : FieldSensitivePrunedLiveBlocks;
  users : Users
}.

Arguments mkLiveness {Users}.
Arguments liveBlocksOf {Users}.
Arguments users {Users}.

Inductive LivenessCall : Type :=
| UpdateForUseRange (user : SILInstruction) (range : TypeTreeLeafTypeRange)
                    (lifetimeEnding : bool) (useBeforeDefBits : list bool)
| UpdateForUseBits (user : SILInstruction) (bits : list bool)
                   (lifetimeEnding : bool) (useBeforeDefBits : list bool)
| ExtendToNonUseRange (user : SILInstruction) (range : TypeTreeLeafTypeRange)
                      (useBeforeDefBits : list bool)
| ExtendToNonUseBits (user : SILInstruction) (bits : list bool)
                     (useBeforeDefBits : list bool).

Definition callUser (call : LivenessCall) : SILInstruction :=
  match call with
  | UpdateForUseRange user _ _ _ => user
  | UpdateForUseBits user _ _ _ => user
  | ExtendToNonUseRange user _ _ => user
  | ExtendToNonUseBits user _ _ => user
  end.

Definition runCall {Users : Type} (F : SILFunction) (popFrom : PopOrder)
    (ops : UserMapOps Users) (liveness : FieldSensitivePrunedLiveness Users)
    (call : LivenessCall) : option (FieldSensitivePrunedLiveness Users) :=
  match call with
  | UpdateForUseRange user range lifetimeEnding useBeforeDefBits =>
      match updateForUse F popFrom (liveBlocksOf liveness) user
              (Z.to_nat (startEltOffset range)) (Z.to_nat (endEltOffset range))
              useBeforeDefBits with
      | Some live' =>
          Some (mkLiveness live'
                  (addInterestingUserRange ops (users liveness) user range lifetimeEnding))
      | None => None
      end
  | UpdateForUseBits user bits lifetimeEnding useBeforeDefBits =>
      match updateForUseSetBits F popFrom user useBeforeDefBits
              (liveBlocksOf liveness) (set_bits bits) with
      | Some live' =>
          Some (mkLiveness live'
                  (addInterestingUserBits ops (users liveness) user bits lifetimeEnding))
      | None => None
      end
  | ExtendToNonUseRange user range useBeforeDefBits =>
      match updateForUse F popFrom (liveBlocksOf liveness) user
              (Z.to_nat (startEltOffset range)) (Z.to_nat (endEltOffset range))
              useBeforeDefBits with
      | Some live' =>
          Some (mkLiveness live' (extendToNonUseRangeUsers ops (users liveness) user range))
      | None => None
      end
  | ExtendToNonUseBits user bits useBeforeDefBits =>
      match updateForUseSetBits F popFrom user useBeforeDefBits
              (liveBlocksOf liveness) (set_bits bits) with
      | Some live' =>
          Some (mkLiveness live' (extendToNonUseBitsUsers ops (users liveness) user bits))
      | None => None
      end
  end.

(** One analysis: a sequence of recording calls. *)
Fixpoint runCalls {Users : Type} (F : SILFunction) (popFrom : PopOrder)
    (ops : UserMapOps Users) (liveness : FieldSensitivePrunedLiveness Users)
    (calls : list LivenessCall) : option (FieldSensitivePrunedLiveness Users) :=
  match calls with
  | [] => Some liveness
  | call :: rest =>
      match runCall F popFrom ops liveness call with
      | Some liveness' => runCalls F popFrom ops liveness' rest
      | None => None
      end
  end.

(** The worklist holds blocks of the function only; and the number of pops
    the worklist loop can still make: the pending blocks, and at most one
    for each block not yet visited. *)
Definition worklistInFunction (F : SILFunction) (w : BasicBlockWorklist) : Prop :=
  visitedBlocks w ⊆ set_seq 0 (numBlocks F).

Definition remainingPops (F : SILFunction) (w : BasicBlockWorklist) : nat :=
  (length (pendingBlocks w) + (numBlocks F - size (visitedBlocks w)))%nat.

(** ** Interesting users and definitions *)

(** Modelled from the spec: the classification of an instruction as a user
    of a bit (the [users] map and [isInterestingUser] are declared in the
    header).  The functions below take the classification as an oracle
    [SILInstruction -> nat -> IsInterestingUser]. *)
Inductive IsInterestingUser : Type :=
| NonUser
| NonLifetimeEndingUse
| LifetimeEndingUse.

Definition UserOracle : Type := SILInstruction -> nat -> IsInterestingUser.

(** Where the source tests the classification as a condition, every answer
    but [NonUser] counts as true. *)
Definition isInteresting (isInterestingUser : UserOracle)
    (inst : SILInstruction) (bitNo : nat) : bool :=
  match isInterestingUser inst bitNo with
  | NonUser => false
  | _ => true
  end.

(** The test [isInterestingUser(..) == IsInterestingUser::LifetimeEndingUse]. *)
Definition isLifetimeEndingUse (isInterestingUser : UserOracle)
    (inst : SILInstruction) (bitNo : nat) : bool :=
  match isInterestingUser inst bitNo with
  | LifetimeEndingUse => true
  | _ => false
  end.

(** [TypeTreeLeafTypeRange::contains]. *)
Definition contains (span : TypeTreeLeafTypeRange) (bitNo : nat) : bool :=
  (startEltOffset span <=? Z.of_nat bitNo) && (Z.of_nat bitNo <? endEltOffset span).

(** ** [FieldSensitivePrunedLivenessBoundary] *)

(** Modelled from the spec: the boundary (declared in the header) is three
    maps, from an instruction, a successor block and a definition to a set
    of bits. *)
Record FieldSensitivePrunedLivenessBoundary : Type := mkBoundary {
  lastUsers : gmap nat (gset nat);
  boundaryEdges : gmap nat (gset nat);
  deadDefs : gmap SILNode (gset nat)
}.

Definition emptyBoundary : FieldSensitivePrunedLivenessBoundary :=
  mkBoundary ∅ ∅ ∅.

(** Modelled from the spec: [getLastUserBits(inst).set(bitNo)],
    [getBoundaryEdgeBits(block).set(bitNo)] and
    [getDeadDefsBits(node).set(bitNo)] (declared in the header) add the bit
    to the entry of the key. *)
Definition setLastUserBit (boundary : FieldSensitivePrunedLivenessBoundary)
    (inst : SILInstruction) (bitNo : nat) : FieldSensitivePrunedLivenessBoundary :=
  mkBoundary
    (<[inst := {[bitNo]} ∪ default ∅ (lastUsers boundary !! inst)]> (lastUsers boundary))
    (boundaryEdges boundary) (deadDefs boundary).

Definition setBoundaryEdgeBit (boundary : FieldSensitivePrunedLivenessBoundary)
    (block : SILBasicBlock) (bitNo : nat) : FieldSensitivePrunedLivenessBoundary :=
  mkBoundary (lastUsers boundary)
    (<[block := {[bitNo]} ∪ default ∅ (boundaryEdges boundary !! block)]>
       (boundaryEdges boundary))
    (deadDefs boundary).

Definition setDeadDefBit (boundary : FieldSensitivePrunedLivenessBoundary)
    (node : SILNode) (bitNo : nat) : FieldSensitivePrunedLivenessBoundary :=
  mkBoundary (lastUsers boundary) (boundaryEdges boundary)
    (<[node := {[bitNo]} ∪ default ∅ (deadDefs boundary !! node)]> (deadDefs boundary)).

Definition isLastUser (boundary : FieldSensitivePrunedLivenessBoundary)
    (inst : SILInstruction) (bitNo : nat) : Prop :=
  bitNo ∈ default ∅ (lastUsers boundary !! inst).

Definition isBoundaryEdge (boundary : FieldSensitivePrunedLivenessBoundary)
    (block : SILBasicBlock) (bitNo : nat) : Prop :=
  bitNo ∈ default ∅ (boundaryEdges boundary !! block).

Definition isDeadDef (boundary : FieldSensitivePrunedLivenessBoundary)
    (node : SILNode) (bitNo : nat) : Prop :=
  bitNo ∈ default ∅ (deadDefs boundary !! node).

(** ** [FieldSensitivePrunedLiveRange::computeBoundary]

    The variant's [findBoundariesInBlock] is an argument.  A result [None]
    stands for a run stopped by [llvm_unreachable] or a failed [cast]; the
    [assert]s of the source are not part of the model.
    [markDeadSuccessors] is the loop over the successors of a live-out
    block. *)

Definition BoundaryFinder : Type :=
  SILBasicBlock -> nat -> bool -> FieldSensitivePrunedLivenessBoundary ->
  option FieldSensitivePrunedLivenessBoundary.

Definition markDeadSuccessors (F : SILFunction) (live : FieldSensitivePrunedLiveBlocks)
    (block : SILBasicBlock) (index : nat)
    (boundary : FieldSensitivePrunedLivenessBoundary)
  : FieldSensitivePrunedLivenessBoundary :=
  fold_left
    (fun boundary succBB =>
       match getBlockLiveness live succBB index with
       | Dead => setBoundaryEdgeBit boundary succBB index
       | _ => boundary
       end)
    (getSuccessors F block) boundary.

Definition computeBoundaryBit (F : SILFunction) (live : FieldSensitivePrunedLiveBlocks)
    (findBoundariesInBlock : BoundaryFinder) (block : SILBasicBlock)
    (boundary : FieldSensitivePrunedLivenessBoundary) (index : nat)
  : option FieldSensitivePrunedLivenessBoundary :=
  match getBlockLiveness live block index with
  | LiveOut =>
      findBoundariesInBlock block index true
        (markDeadSuccessors F live block index boundary)
  | LiveWithin => findBoundariesInBlock block index false boundary
  | Dead => Some boundary
  end.

Fixpoint computeBoundaryBits (F : SILFunction) (live : FieldSensitivePrunedLiveBlocks)
    (findBoundariesInBlock : BoundaryFinder) (block : SILBasicBlock)
    (boundary : FieldSensitivePrunedLivenessBoundary) (indices : list nat)
  : option FieldSensitivePrunedLivenessBoundary :=
  match indices with
  | [] => Some boundary
  | index :: rest =>
      match computeBoundaryBit F live findBoundariesInBlock block boundary index with
      | Some boundary' =>
          computeBoundaryBits F live findBoundariesInBlock block boundary' rest
      | None => None
      end
  end.

Fixpoint computeBoundaryBlocks (F : SILFunction) (live : FieldSensitivePrunedLiveBlocks)
    (findBoundariesInBlock : BoundaryFinder)
    (boundary : FieldSensitivePrunedLivenessBoundary) (blocks : list SILBasicBlock)
  : option FieldSensitivePrunedLivenessBoundary :=
  match blocks with
  | [] => Some boundary
  | block :: rest =>
      match computeBoundaryBits F live findBoundariesInBlock block boundary
              (seq 0 (numBitsToTrack live)) with
      | Some boundary' =>
          computeBoundaryBlocks F live findBoundariesInBlock boundary' rest
      | None => None
      end
  end.

Definition computeBoundary (F : SILFunction) (live : FieldSensitivePrunedLiveBlocks)
    (findBoundariesInBlock : BoundaryFinder)
    (boundary : FieldSensitivePrunedLivenessBoundary)
  : option FieldSensitivePrunedLivenessBoundary :=
  computeBoundaryBlocks F live findBoundariesInBlock boundary (discoveredBlocks live).

(** What a finder does to the boundary edges. *)
Definition finderKeepsEdges (finder : BoundaryFinder) : Prop :=
  forall block bitNo isLiveOut boundary boundary',
    finder block bitNo isLiveOut boundary = Some boundary' ->
    forall S b, isBoundaryEdge boundary S b -> isBoundaryEdge boundary' S b.

Definition finderLeavesEdges (finder : BoundaryFinder) : Prop :=
  forall block bitNo isLiveOut boundary boundary',
    finder block bitNo isLiveOut boundary = Some boundary' ->
    boundaryEdges boundary' = boundaryEdges boundary.

(** ** Boundary computation utilities *)

(** [findBoundaryInNonDefBlock]: the last interesting user of the block. *)
Fixpoint lastInterestingUser (isInterestingUser : UserOracle) (bitNo : nat)
    (reversed : list SILInstruction) : option SILInstruction :=
  match reversed with
  | [] => None
  | inst :: rest =>
      if isInteresting isInterestingUser inst bitNo then Some inst
      else lastInterestingUser isInterestingUser bitNo rest
  end.

Definition findBoundaryInNonDefBlock (F : SILFunction) (isInterestingUser : UserOracle)
    (block : SILBasicBlock) (bitNo : nat)
    (boundary : FieldSensitivePrunedLivenessBoundary)
  : option FieldSensitivePrunedLivenessBoundary :=
  match lastInterestingUser isInterestingUser bitNo (rev (getInstructions F block)) with
  | Some inst => Some (setLastUserBit boundary inst bitNo)
  | None => None
  end.

(** [findBoundaryInSSADefBlock]: walking the block of the definition
    backward, the definition itself (a dead def) or an interesting user (the
    last user), whichever comes first; a definition that is a block argument
    is met after all instructions. *)
Fixpoint findBoundaryInSSADefBlockFrom (isInterestingUser : UserOracle)
    (ssaDef : SILNode) (bitNo : nat)
    (boundary : FieldSensitivePrunedLivenessBoundary) (reversed : list SILInstruction)
  : option FieldSensitivePrunedLivenessBoundary :=
  match reversed with
  | [] =>
      match ssaDef with
      | ArgumentNode deadArg => Some (setDeadDefBit boundary (ArgumentNode deadArg) bitNo)
      | InstructionNode _ => None
      end
  | inst :: rest =>
      if decide (InstructionNode inst = ssaDef)
      then Some (setDeadDefBit boundary (InstructionNode inst) bitNo)
      else if isInteresting isInterestingUser inst bitNo
           then Some (setLastUserBit boundary inst bitNo)
           else findBoundaryInSSADefBlockFrom isInterestingUser ssaDef bitNo boundary rest
  end.

Definition findBoundaryInSSADefBlock (F : SILFunction) (isInterestingUser : UserOracle)
    (ssaDef : SILNode) (bitNo : nat)
    (boundary : FieldSensitivePrunedLivenessBoundary)
  : option FieldSensitivePrunedLivenessBoundary :=
  findBoundaryInSSADefBlockFrom isInterestingUser ssaDef bitNo boundary
    (rev (getInstructions F (getParentBlock F ssaDef))).

(** ** [FieldSensitiveSSAPrunedLiveRange] *)

(** Modelled from the spec: the single-definition range (declared in the
    header) has one definition point, an instruction or a block argument,
    that owns a leaf range. *)
Record FieldSensitiveSSAPrunedLiveRange : Type := mkSSARange {
  ssaDefNode : SILNode;
  ssaDefSpan : TypeTreeLeafTypeRange
}.

Module SSAPrunedLiveRange.

(** Modelled from the spec: [isDefBlock] (declared in the header) holds of
    the block of the definition, for the bits of its range. *)
Definition isDefBlock (F : SILFunction) (range : FieldSensitiveSSAPrunedLiveRange)
    (block : SILBasicBlock) (bitNo : nat) : bool :=
  (getParentBlock F (ssaDefNode range) =? block)%nat && contains (ssaDefSpan range) bitNo.

(** [FieldSensitiveSSAPrunedLiveRange::findBoundariesInBlock]. *)
Definition findBoundariesInBlock (F : SILFunction) (isInterestingUser : UserOracle)
    (range : FieldSensitiveSSAPrunedLiveRange) : BoundaryFinder :=
  fun block bitNo isLiveOut boundary =>
    if isLiveOut then Some boundary
    else if negb (isDefBlock F range block bitNo)
         then findBoundaryInNonDefBlock F isInterestingUser block bitNo boundary
         else findBoundaryInSSADefBlock F isInterestingUser (ssaDefNode range) bitNo boundary.

End SSAPrunedLiveRange.

(** ** [FieldSensitiveMultiDefPrunedLiveRange] *)

(** Modelled from the spec: the multi-definition range (declared in the
    header) has any number of definition points, each with the leaf range it
    defines, in the order of their initialization. *)
Definition DefList : Type := list (SILNode * TypeTreeLeafTypeRange).

(** Modelled from the spec: [isDef] (declared in the header) holds of a
    definition point, for the bits of a range it defines. *)
Definition isDef (defs : DefList) (node : SILNode) (bitNo : nat) : bool :=
  existsb (fun def => bool_decide (def.1 = node) && contains def.2 bitNo) defs.

(** Modelled from the spec: [isDefBlock] (declared in the header) holds of
    the block of a definition point, for the bits of a range it defines. *)
Definition isDefBlock (F : SILFunction) (defs : DefList)
    (block : SILBasicBlock) (bitNo : nat) : bool :=
  existsb (fun def => (getParentBlock F def.1 =? block)%nat && contains def.2 bitNo) defs.

(** [FieldSensitiveMultiDefPrunedLiveRange::findBoundariesInBlock], in the
    order of the source: [scanInstruction] is the body of the loop over the
    instructions in reverse, [markDeadArguments] the loop over the block
    arguments, [markEntryEdge] the test on the predecessors. *)

Definition scanInstruction (defs : DefList) (isInterestingUser : UserOracle) (bitNo : nat)
    (state : FieldSensitivePrunedLivenessBoundary * bool) (inst : SILInstruction)
  : FieldSensitivePrunedLivenessBoundary * bool :=
  let (boundary, isLive) := state in
  let (boundary1, isLive1) :=
    if isDef defs (InstructionNode inst) bitNo
    then ((if negb isLive then setDeadDefBit boundary (InstructionNode inst) bitNo
           else boundary), false)
    else (boundary, isLive) in
  if negb isLive1
  then if isInteresting isInterestingUser inst bitNo
       then (setLastUserBit boundary1 inst bitNo, true)
       else (boundary1, isLive1)
  else (boundary1, isLive1).

Definition scanBlockBackward (F : SILFunction) (defs : DefList)
    (isInterestingUser : UserOracle) (block : SILBasicBlock) (bitNo : nat)
    (isLiveOut : bool) (boundary : FieldSensitivePrunedLivenessBoundary)
  : FieldSensitivePrunedLivenessBoundary * bool :=
  fold_left (scanInstruction defs isInterestingUser bitNo)
    (rev (getInstructions F block)) (boundary, isLiveOut).

Definition markDeadArguments (F : SILFunction) (defs : DefList)
    (block : SILBasicBlock) (bitNo : nat)
    (boundary : FieldSensitivePrunedLivenessBoundary)
  : FieldSensitivePrunedLivenessBoundary :=
  fold_left
    (fun boundary deadArg =>
       if isDef defs (ArgumentNode deadArg) bitNo
       then setDeadDefBit boundary (ArgumentNode deadArg) bitNo
       else boundary)
    (getArguments F block) boundary.

Definition allPredecessorsLiveOut (F : SILFunction) (live : FieldSensitivePrunedLiveBlocks)
    (block : SILBasicBlock) (bitNo : nat) : bool :=
  forallb (fun predBlock => bool_decide (getBlockLiveness live predBlock bitNo = LiveOut))
    (getPredecessorBlocks F block).

Definition markEntryEdge (F : SILFunction) (live : FieldSensitivePrunedLiveBlocks)
    (block : SILBasicBlock) (bitNo : nat)
    (boundary : FieldSensitivePrunedLivenessBoundary)
  : FieldSensitivePrunedLivenessBoundary :=
  match getPredecessorBlocks F block with
  | [] => boundary
  | _ :: _ =>
      if allPredecessorsLiveOut F live block bitNo
      then setBoundaryEdgeBit boundary block bitNo
      else boundary
  end.

Module MultiDefPrunedLiveRange.

Definition findBoundariesInBlock (F : SILFunction)
    (live : FieldSensitivePrunedLiveBlocks) (isInterestingUser : UserOracle)
    (defs : DefList) : BoundaryFinder :=
  fun block bitNo isLiveOut boundary =>
    if negb (isDefBlock F defs block bitNo)
    then if isLiveOut then Some boundary
         else findBoundaryInNonDefBlock F isInterestingUser block bitNo boundary
    else
      match defs with
      | [singleDef] =>
          if isLiveOut then Some boundary
          else findBoundaryInSSADefBlock F isInterestingUser singleDef.1 bitNo boundary
      | _ =>
          let (boundary1, isLive) :=
            scanBlockBackward F defs isInterestingUser block bitNo isLiveOut boundary in
          if negb isLive
          then Some (markEntryEdge F live block bitNo
                       (markDeadArguments F defs block bitNo boundary1))
          else Some boundary1
      end.

End MultiDefPrunedLiveRange.

(** [S] is a successor of [B] that is dead for a bit that is live out of
    [B]. *)
Definition deadSuccessorOfLiveOut (F : SILFunction)
    (live : FieldSensitivePrunedLiveBlocks)
    (B S : SILBasicBlock) (b : nat) : Prop :=
  getBlockLiveness live B b = LiveOut
  /\ In S (getSuccessors F B)
  /\ getBlockLiveness live S b = Dead.

(** What the multi-definition search of a block adds to the boundary edges,
    from the last part of [findBoundariesInBlock]: the edge of the bit on
    block [S] itself, when [S] is searched (it is not dead for the bit), is a
    def block of a range whose number of definitions is not one, the
    backward scan reaches the top of [S] with the bit not live, and [S] has
    predecessors, all of them live out for the bit. *)
Definition searchMarksEntryEdge (F : SILFunction)
    (live : FieldSensitivePrunedLiveBlocks) (isInterestingUser : UserOracle)
    (defs : DefList) (S : SILBasicBlock) (b : nat) : Prop :=
  getBlockLiveness live S b <> Dead
  /\ isDefBlock F defs S b = true
  /\ length defs <> 1%nat
  /\ (scanBlockBackward F defs isInterestingUser S b
        (bool_decide (getBlockLiveness live S b = LiveOut)) emptyBoundary).2 = false
  /\ getPredecessorBlocks F S <> []
  /\ (forall predBlock, In predBlock (getPredecessorBlocks F S) ->
                        getBlockLiveness live predBlock b = LiveOut).

(** ** [FieldSensitiveMultiDefPrunedLiveRange::isUserBeforeDef]

    [previousInstructions] lists what repeated [getPreviousInstruction]
    yields from an instruction back to the start of its block, nearest
    first; [isUserBeforeDefWalk] is the [while (true)] loop over them. *)

Fixpoint instructionsUpTo (inst : SILInstruction) (insts : list SILInstruction)
  : list SILInstruction :=
  match insts with
  | [] => []
  | i :: rest => if (i =? inst)%nat then [] else i :: instructionsUpTo inst rest
  end.

Definition previousInstructions (F : SILFunction) (inst : SILInstruction)
  : list SILInstruction :=
  rev (instructionsUpTo inst (getInstructions F (getParent F inst))).

Fixpoint isUserBeforeDefWalk (defs : DefList) (element : nat)
    (previous : list SILInstruction) : bool :=
  match previous with
  | [] => true
  | current :: rest =>
      if isDef defs (InstructionNode current) element then false
      else isUserBeforeDefWalk defs element rest
  end.

Definition isUserBeforeDef (F : SILFunction) (defs : DefList)
    (user : SILInstruction) (element : nat) : bool :=
  let block := getParent F user in
  if negb (isDefBlock F defs block element) then false
  else if existsb (fun arg => isDef defs (ArgumentNode arg) element) (getArguments F block)
       then false
       else isUserBeforeDefWalk defs element (previousInstructions F user).

(** A definition of the bit is found walking backward from the user before
    the start of its block. *)
Definition defFoundWalkingBack (F : SILFunction) (defs : DefList)
    (user : SILInstruction) (element : nat) : bool :=
  existsb (fun current => isDef defs (InstructionNode current) element)
    (previousInstructions F user).

(** ** [FieldSensitiveMultiDefPrunedLiveRange::findEarlierConsumingUse]

    The callback may keep state: it takes the state and the instruction and
    returns whether to go on, and the new state.  [scanForConsumingUse] is
    the loop over the instructions of a block in reverse, [scanBlock] adds
    the loop over the block arguments, [searchPredecessors] is the [while]
    loop over the worklist with a bound on the number of pops; [Done] stands
    for a [return] inside a loop. *)

Inductive SearchStep (St : Type) : Type :=
| Done (result : bool) (state : St)
| KeepGoing (state : St).

Arguments Done {St}.
Arguments KeepGoing {St}.

Fixpoint scanForConsumingUse {St : Type} (defs : DefList) (isInterestingUser : UserOracle)
    (index : nat) (callback : St -> SILInstruction -> bool * St)
    (reversed : list SILInstruction) (state : St) : SearchStep St :=
  match reversed with
  | [] => KeepGoing state
  | ii :: rest =>
      if isDef defs (InstructionNode ii) index then Done true state
      else if isLifetimeEndingUse isInterestingUser ii index
           then let (goOn, state') := callback state ii in
                if negb goOn then Done false state'
                else scanForConsumingUse defs isInterestingUser index callback rest state'
           else scanForConsumingUse defs isInterestingUser index callback rest state
  end.

Definition scanBlock {St : Type} (defs : DefList) (isInterestingUser : UserOracle)
    (index : nat) (callback : St -> SILInstruction -> bool * St)
    (reversed : list SILInstruction) (arguments : list SILArgument) (state : St)
  : SearchStep St :=
  match scanForConsumingUse defs isInterestingUser index callback reversed state with
  | Done result state' => Done result state'
  | KeepGoing state' =>
      if existsb (fun arg => isDef defs (ArgumentNode arg) index) arguments
      then Done true state'
      else KeepGoing state'
  end.

Definition pushPredecessors (F : SILFunction) (block : SILBasicBlock)
    (worklist : BasicBlockWorklist) : BasicBlockWorklist :=
  fold_left (fun worklist predBlock => pushIfNotVisited predBlock worklist)
    (getPredecessorBlocks F block) worklist.

Fixpoint searchPredecessors {St : Type} (F : SILFunction) (popFrom : PopOrder)
    (defs : DefList) (isInterestingUser : UserOracle) (index : nat)
    (callback : St -> SILInstruction -> bool * St)
    (fuel : nat) (worklist : BasicBlockWorklist) (state : St) : option (bool * St) :=
  match fuel with
  | O => None
  | S fuel' =>
      match pop popFrom worklist with
      | None => Some (true, state)
      | Some (next, worklist') =>
          match scanBlock defs isInterestingUser index callback
                  (rev (getInstructions F next)) (getArguments F next) state with
          | Done result state' => Some (result, state')
          | KeepGoing state' =>
              searchPredecessors F popFrom defs isInterestingUser index callback fuel'
                (pushPredecessors F next worklist') state'
          end
      end
  end.

Definition findEarlierConsumingUse {St : Type} (F : SILFunction) (popFrom : PopOrder)
    (defs : DefList) (isInterestingUser : UserOracle)
    (inst : SILInstruction) (index : nat)
    (callback : St -> SILInstruction -> bool * St) (state : St) : option (bool * St) :=
  match scanBlock defs isInterestingUser index callback
          (previousInstructions F inst) (getArguments F (getParent F inst)) state with
  | Done result state' => Some (result, state')
  | KeepGoing state' =>
      searchPredecessors F popFrom defs isInterestingUser index callback
        (S (numBlocks F))
        (pushPredecessors F (getParent F inst) emptyWorklist) state'
  end.

(** *** The search, as the spec words it

    [predecessorOrder] is the order in which the worklist hands out the
    blocks behind a set of pending blocks, each block once; [nodesOf] lists
    what the search looks at in a block: its instructions from the last to
    the first, then its arguments; [searchOrder] is everything the search
    can look at, in order: the instructions before [inst] walking backward,
    the arguments of its block, then the predecessor blocks.  [searchAlong]
    walks such a list: it returns true at the first definition, calls the
    callback on every lifetime-ending use until then, returns false as soon
    as the callback does, and returns true at the end of the list. *)

Fixpoint predecessorOrder (F : SILFunction) (popFrom : PopOrder)
    (fuel : nat) (worklist : BasicBlockWorklist) : list SILBasicBlock :=
  match fuel with
  | O => []
  | S fuel' =>
      match pop popFrom worklist with
      | None => []
      | Some (next, worklist') =>
          next :: predecessorOrder F popFrom fuel' (pushPredecessors F next worklist')
      end
  end.

Definition nodesOf (F : SILFunction) (block : SILBasicBlock) : list SILNode :=
  map InstructionNode (rev (getInstructions F block))
  ++ map ArgumentNode (getArguments F block).

Definition searchOrder (F : SILFunction) (popFrom : PopOrder) (inst : SILInstruction)
  : list SILNode :=
  map InstructionNode (previousInstructions F inst)
  ++ map ArgumentNode (getArguments F (getParent F inst))
  ++ concat (map (nodesOf F)
               (predecessorOrder F popFrom (S (numBlocks F))
                  (pushPredecessors F (getParent F inst) emptyWorklist))).

Fixpoint searchAlong {St : Type} (defs : DefList) (isInterestingUser : UserOracle)
    (index : nat) (callback : St -> SILInstruction -> bool * St)
    (nodes : list SILNode) (state : St) : bool * St :=
  match nodes with
  | [] => (true, state)
  | node :: rest =>
      if isDef defs node index then (true, state)
      else
        match node with
        | InstructionNode ii =>
            if isLifetimeEndingUse isInterestingUser ii index
            then let (goOn, state') := callback state ii in
                 if goOn then searchAlong defs isInterestingUser index callback rest state'
                 else (false, state')
            else searchAlong defs isInterestingUser index callback rest state
        | ArgumentNode _ =>
            searchAlong defs isInterestingUser index callback rest state
        end
  end.

(** A callback that also keeps the log of its calls: the instruction it
    was called on and what it answered, oldest call first. *)
Definition recordCalls {St : Type} (callback : St -> SILInstruction -> bool * St)
  : St * list (SILInstruction * bool) -> SILInstruction ->
    bool * (St * list (SILInstruction * bool)) :=
  fun state ii =>
    let (goOn, state') := callback state.1 ii in
    (goOn, (state', state.2 ++ [(ii, goOn)])).

(** The lifetime-ending uses of the bit among the nodes, leaving out the
    definitions of the bit (at which the search returns before it looks at
    the use). *)
Fixpoint consumingUsesIn (defs : DefList) (isInterestingUser : UserOracle)
    (index : nat) (nodes : list SILNode) : list SILInstruction :=
  match nodes with
  | [] => []
  | InstructionNode ii :: rest =>
      if negb (isDef defs (InstructionNode ii) index)
         && isLifetimeEndingUse isInterestingUser ii index
      then ii :: consumingUsesIn defs isInterestingUser index rest
      else consumingUsesIn defs isInterestingUser index rest
  | ArgumentNode _ :: rest => consumingUsesIn defs isInterestingUser index rest
  end.

(** Why the search stopped after looking at [examined], leaving
    [unexamined]: it ran out of nodes (true), it met a definition (true), or
    the callback answered false (false); before the last examined node no
    definition was met and the callback answered true every time. *)
Definition StoppedAfter (defs : DefList) (index : nat) (result : bool)
    (examined unexamined : list SILNode) (log : list (SILInstruction * bool)) : Prop :=
  (unexamined = [] /\ result = true
   /\ (forall n, In n examined -> isDef defs n index = false)
   /\ (forall e, In e log -> e.2 = true))
  \/ (exists pre d,
        examined = pre ++ [d] /\ isDef defs d index = true /\ result = true
        /\ (forall n, In n pre -> isDef defs n index = false)
        /\ (forall e, In e log -> e.2 = true))
  \/ (exists pre ii calls,
        examined = pre ++ [InstructionNode ii] /\ log = calls ++ [(ii, false)]
        /\ result = false
        /\ (forall n, In n examined -> isDef defs n index = false)
        /\ (forall e, In e calls -> e.2 = true)).

Definition SearchLog (defs : DefList) (isInterestingUser : UserOracle) (index : nat)
    (nodes : list SILNode) (result : bool) (log : list (SILInstruction * bool)) : Prop :=
  exists examined unexamined,
    nodes = examined ++ unexamined
    /\ map fst log = consumingUsesIn defs isInterestingUser index examined
    /\ StoppedAfter defs index result examined unexamined log.

(** [b] is reached from [x] by following predecessor edges, at least one. *)
Inductive reachesBackward (F : SILFunction) : SILBasicBlock -> SILBasicBlock -> Prop :=
| reachesBackward_pred x b :
    In b (getPredecessorBlocks F x) -> reachesBackward F x b
| reachesBackward_step x y b :
    In y (getPredecessorBlocks F x) -> reachesBackward F y b -> reachesBackward F x b.

(** A path along predecessor edges from a block to [b] on which no block
    satisfies [avoid]. *)
Inductive pathAvoiding (F : SILFunction) (avoid : SILBasicBlock -> Prop)
  : SILBasicBlock -> SILBasicBlock -> Prop :=
| pathAvoiding_here b : ~ avoid b -> pathAvoiding F avoid b b
| pathAvoiding_step x y b :
    ~ avoid x -> In y (getPredecessorBlocks F x) ->
    pathAvoiding F avoid y b -> pathAvoiding F avoid x b.

(** The blocks the worklist has handed out already: visited and no longer
    pending; and the worklist holds each pending block once, marked
    visited. *)
Definition poppedFrom (w : BasicBlockWorklist) (b : SILBasicBlock) : Prop :=
  b ∈ visitedBlocks w /\ ~ In b (pendingBlocks w).

Definition worklistConsistent (w : BasicBlockWorklist) : Prop :=
  List.NoDup (pendingBlocks w)
  /\ forall b, In b (pendingBlocks w) -> b ∈ visitedBlocks w.

(** ** Sample functions

    Small control-flow graphs on which the theorems of the second part are
    exercised. *)

(** A three-block function [Entry -> Mid -> Exit] (blocks 0, 1, 2) with
    instruction 7 in [Mid] and instruction 10 in [Exit]; a tracker for one
    bit in which [Entry], the block of the definition, starts out
    [LiveWithin]; and one in which [Mid] does. *)
Definition straightLine : SILFunction :=
  mkFunction 3
    (fun block => match block with
                  | 1%nat => [0%nat]
                  | 2%nat => [1%nat]
                  | _ => []
                  end)
    (fun block => match block with
                  | 0%nat => [1%nat]
                  | 1%nat => [2%nat]
                  | _ => []
                  end)
    (fun block => match block with
                  | 1%nat => [7%nat]
                  | 2%nat => [10%nat]
                  | _ => []
                  end)
    (fun _ => [])
    (fun inst => match inst with
                 | 7%nat => 1%nat
                 | _ => 2%nat
                 end)
    (fun _ => 0%nat).

Definition entryDefined : FieldSensitivePrunedLiveBlocks :=
  markBlockLive (mkLiveBlocks 1 ∅ []) 0 0 LiveWithin.

Definition midDefined : FieldSensitivePrunedLiveBlocks :=
  markBlockLive (mkLiveBlocks 1 ∅ []) 1 0 LiveWithin.

Definition noUserMap : UserMapOps unit :=
  mkUserMapOps unit (fun u _ _ _ => u) (fun u _ _ _ => u) (fun u _ _ => u) (fun u _ _ => u).

(** A function in which [Entry] (block 0) branches to block 1 and block 2:
    instruction 5 in [Entry], instructions 6 and 10 in block 1, instruction
    11 in block 2.  In the first reading ([branchingUsers], [branchingDef])
    instruction 5 is the single definition, instruction 10 ends the lifetime
    and block 2 never touches the value.  In the second reading
    ([redefiningUsers], [redefiningDefs]) instruction 6 defines the value
    anew before instruction 10 consumes it, and instruction 11 consumes the
    value of instruction 5. *)
Definition branching : SILFunction :=
  mkFunction 3
    (fun block => match block with
                  | 1%nat | 2%nat => [0%nat]
                  | _ => []
                  end)
    (fun block => match block with
                  | 0%nat => [1%nat; 2%nat]
                  | _ => []
                  end)
    (fun block => match block with
                  | 0%nat => [5%nat]
                  | 1%nat => [6%nat; 10%nat]
                  | 2%nat => [11%nat]
                  | _ => []
                  end)
    (fun _ => [])
    (fun inst => match inst with
                 | 6%nat | 10%nat => 1%nat
                 | 11%nat => 2%nat
                 | _ => 0%nat
                 end)
    (fun _ => 0%nat).

Definition branchingUsers : UserOracle :=
  fun inst bitNo =>
    match inst, bitNo with
    | 10%nat, 0%nat => LifetimeEndingUse
    | _, _ => NonUser
    end.

Definition branchingDef : FieldSensitiveSSAPrunedLiveRange :=
  mkSSARange (InstructionNode 5) (mkRange 0 1).

Definition branchingLive : FieldSensitivePrunedLiveBlocks :=
  default entryDefined
    (updateForUse branching popNewest entryDefined 10 0 1 [false]).

Definition redefiningUsers : UserOracle :=
  fun inst bitNo =>
    match inst, bitNo with
    | 10%nat, 0%nat | 11%nat, 0%nat => LifetimeEndingUse
    | _, _ => NonUser
    end.

Definition redefiningDefs : DefList :=
  [(InstructionNode 5, mkRange 0 1); (InstructionNode 6, mkRange 0 1)].

Definition bothDefined : FieldSensitivePrunedLiveBlocks :=
  markBlockLive entryDefined 1 0 LiveWithin.

Definition redefiningLive : FieldSensitivePrunedLiveBlocks :=
  default bothDefined
    (updateForUse branching popNewest bothDefined 11 0 1 [false]).

(** A third reading of [branching]: instruction 5 is the only definition,
    and both instruction 6 and instruction 10 of block 1 end the lifetime of
    bit 0. *)
Definition doubleConsumeUsers : UserOracle :=
  fun inst bitNo =>
    match inst, bitNo with
    | 6%nat, 0%nat | 10%nat, 0%nat => LifetimeEndingUse
    | _, _ => NonUser
    end.

Definition singleDef : DefList := [(InstructionNode 5, mkRange 0 1)].

(** A callback that counts its calls and stops the search at once. *)
Definition stopAtOnce : nat -> SILInstruction -> bool * nat :=
  fun calls _ => (false, S calls).

(** One block with the block argument 7 and the instructions 9 and 10; the
    argument defines bit 0. *)
Definition argumentBlock : SILFunction :=
  mkFunction 1 (fun _ => []) (fun _ => [])
    (fun block => match block with
                  | 0%nat => [9%nat; 10%nat]
                  | _ => []
                  end)
    (fun block => match block with
                  | 0%nat => [7%nat]
                  | _ => []
                  end)
    (fun _ => 0%nat) (fun _ => 0%nat).

Definition argumentDefs : DefList := [(ArgumentNode 7, mkRange 0 1)].

(** In [argumentBlock], a third reading: instruction 9 defines a value with
    two leaf bits, and instruction 10 ends the lifetime of bit 0 only. *)
Definition twoFieldDef : FieldSensitiveSSAPrunedLiveRange :=
  mkSSARange (InstructionNode 9) (mkRange 0 2).

Definition fieldAUsers : UserOracle :=
  fun inst bitNo =>
    match inst, bitNo with
    | 10%nat, 0%nat => LifetimeEndingUse
    | _, _ => NonUser
    end.

Definition twoFieldLive : FieldSensitivePrunedLiveBlocks :=
  markBlockLive (markBlockLive (mkLiveBlocks 2 ∅ []) 0 0 LiveWithin) 0 1 LiveWithin.

(** Block 0 with the predecessors 1 and 2; block 3 is the predecessor of
    block 1 and block 4 the predecessor of block 2. *)
Definition twoChains : SILFunction :=
  mkFunction 5
    (fun block => match block with
                  | 0%nat => [1%nat; 2%nat]
                  | 1%nat => [3%nat]
                  | 2%nat => [4%nat]
                  | _ => []
                  end)
    (fun block => match block with
                  | 1%nat | 2%nat => [0%nat]
                  | 3%nat => [1%nat]
                  | 4%nat => [2%nat]
                  | _ => []
                  end)
    (fun _ => []) (fun _ => []) (fun _ => 0%nat) (fun _ => 0%nat).

(** [twoChains] with code: instruction 20 in block 0, instruction 21 in
    block 1 and instruction 24 in block 4.  Instruction 21 defines bit 0
    and instruction 24 ends its lifetime. *)
Definition twoChainsCode : SILFunction :=
  mkFunction 5 (getPredecessorBlocks twoChains) (getSuccessors twoChains)
    (fun block => match block with
                  | 0%nat => [20%nat]
                  | 1%nat => [21%nat]
                  | 4%nat => [24%nat]
                  | _ => []
                  end)
    (fun _ => [])
    (fun inst => match inst with
                 | 21%nat => 1%nat
                 | 24%nat => 4%nat
                 | _ => 0%nat
                 end)
    (fun _ => 0%nat).

Definition chainDefs : DefList := [(InstructionNode 21, mkRange 0 1)].

Definition chainUsers : UserOracle :=
  fun inst bitNo =>
    match inst, bitNo with
    | 24%nat, 0%nat => LifetimeEndingUse
    | _, _ => NonUser
    end.

(** *** The breadth-first walk of the spec

    Following the words of the spec, not the code: the blocks behind
    [start] level by level, first its predecessors, then the predecessors
    of those that were not listed before, and so on, each block once.
    [newBlocks] keeps the first occurrence of every candidate that was not
    seen; [breadthFirstSearch] walks the instructions before [inst], the
    arguments of its block and then the blocks in breadth-first order. *)
Fixpoint newBlocks (candidates seen : list SILBasicBlock) : list SILBasicBlock :=
  match candidates with
  | [] => []
  | block :: rest =>
      if existsb (Nat.eqb block) seen then newBlocks rest seen
      else block :: newBlocks rest (block :: seen)
  end.

Fixpoint breadthFirstLevels (F : SILFunction) (fuel : nat)
    (level seen : list SILBasicBlock) : list SILBasicBlock :=
  match fuel with
  | O => []
  | S fuel' =>
      match level with
      | [] => []
      | _ :: _ =>
          let next := newBlocks (concat (map (getPredecessorBlocks F) level)) seen in
          level ++ breadthFirstLevels F fuel' next (seen ++ next)
      end
  end.

Definition breadthFirstOrder (F : SILFunction) (start : SILBasicBlock)
  : list SILBasicBlock :=
  let first := newBlocks (getPredecessorBlocks F start) [] in
  breadthFirstLevels F (S (numBlocks F)) first first.

Definition breadthFirstSearch {St : Type} (F : SILFunction)
    (defs : DefList) (isInterestingUser : UserOracle)
    (inst : SILInstruction) (index : nat)
    (callback : St -> SILInstruction -> bool * St) (state : St) : bool * St :=
  searchAlong defs isInterestingUser index callback
    (map InstructionNode (previousInstructions F inst)
     ++ map ArgumentNode (getArguments F (getParent F inst))
     ++ concat (map (nodesOf F) (breadthFirstOrder F (getParent F inst))))
    state.

(** ** Well-typed projection chains

    What the two offset walks do with a projection kind: look through it,
    add the counts of the tuple elements or stored properties that precede
    the projected one, look through an enum payload projection, or give up. *)

Inductive ProjectionStep : Type :=
| LookThrough
| TupleField (fieldIndex : nat)
| StructField (field : nat)
| EnumPayload
| Unrecognized.

Definition addressStep (kind : ProjectionKind) : ProjectionStep :=
  match kind with
  | ProjectBoxInst | BeginAccessInst | StoreBorrowInst
  | MoveOnlyWrapperToCopyableAddrInst => LookThrough
  | TupleElementAddrInst fieldIndex => TupleField fieldIndex
  | StructElementAddrInst field => StructField field
  | UncheckedTakeEnumDataAddrInst | InitEnumDataAddrInst => EnumPayload
  | _ => Unrecognized
  end.

Definition valueStep (kind : ProjectionKind) : ProjectionStep :=
  match kind with
  | BeginBorrowInst | CopyValueInst | MoveOnlyWrapperToCopyableValueInst => LookThrough
  | TupleExtractInst fieldIndex => TupleField fieldIndex
  | DestructureStructResult resultIndex => StructField resultIndex
  | DestructureTupleResult resultIndex => TupleField resultIndex
  | StructExtractInst field => StructField field
  | UncheckedEnumDataInst => EnumPayload
  | _ => Unrecognized
  end.

(** The step of a walk on a projection that is not the root: what
    [computeForAddressFrom] and [computeForValueFrom] do, by the kind of
    step. *)
Definition stepOffset (step : ProjectionStep) (operand : SILValue) (offset : Z)
  : option Z :=
  match step with
  | LookThrough | EnumPayload => Some offset
  | TupleField fieldIndex =>
      Some (addSubElementCounts offset (firstn fieldIndex (tupleElementTypes (getType operand))))
  | StructField field =>
      Some (addSubElementCounts offset (firstn field (storedPropertyTypes (getType operand))))
  | Unrecognized => None
  end.

(** A chain of projections from [root] as verified SIL has them: every
    projection is an instruction other than the root; a looked-through
    instruction has as many sub-elements as its operand; a tuple or struct
    projection has the type of the element it projects, out of an operand of
    tuple type or of struct type, whether the storage of the struct is
    fully referenceable or not (the walks do not ask); an enum payload
    projection has the type of a payload of its operand's enum type.  The
    sums of the sub-element counts of the elements of the aggregates on the
    chain fit the [unsigned] counter. *)
Inductive ProjectionChain (step : ProjectionKind -> ProjectionStep) (root : SILValue)
  : SILValue -> Prop :=
| ProjectionChain_root : ProjectionChain step root root
| ProjectionChain_through id ty kind operand :
    id <> valueID root ->
    step kind = LookThrough ->
    TypeSubElementCount ty = TypeSubElementCount (getType operand) ->
    ProjectionChain step root operand ->
    ProjectionChain step root (Projection id ty kind operand)
| ProjectionChain_tuple id ty kind operand fieldIndex elementTypes :
    id <> valueID root ->
    step kind = TupleField fieldIndex ->
    getType operand = TupleType elementTypes ->
    nth_error elementTypes fieldIndex = Some ty ->
    fieldCountSum elementTypes < UnsignedModulus ->
    ProjectionChain step root operand ->
    ProjectionChain step root (Projection id ty kind operand)
| ProjectionChain_struct id ty kind operand field unref withDeinit storedProperties :
    id <> valueID root ->
    step kind = StructField field ->
    getType operand = StructType unref withDeinit storedProperties ->
    nth_error storedProperties field = Some ty ->
    fieldCountSum storedProperties + deinitBit withDeinit < UnsignedModulus ->
    ProjectionChain step root operand ->
    ProjectionChain step root (Projection id ty kind operand)
| ProjectionChain_enum id ty kind operand allElements :
    id <> valueID root ->
    step kind = EnumPayload ->
    getType operand = EnumType allElements ->
    In (Some ty) allElements ->
    maxCount (payloadCounts allElements) + 1 < UnsignedModulus ->
    ProjectionChain step root operand ->
    ProjectionChain step root (Projection id ty kind operand).

(** Whether every struct out of which a stored property is projected on
    the way from [v] back to [root] has fully referenceable storage, so that
    [TypeSubElementCount] counts its stored properties; the recursion
    follows the walks.  A struct with unreferenceable storage counts as one
    leaf, while a walk through a projection out of it still adds the counts
    of the stored properties that precede the projected one. *)
Fixpoint structsReferenceable (step : ProjectionKind -> ProjectionStep)
    (root v : SILValue) : bool :=
  if sameValue root v then true
  else
    match v with
    | Projection _ _ kind operand =>
        match step kind, getType operand with
        | StructField _, StructType true _ _ => false
        | _, _ => structsReferenceable step root operand
        end
    | BaseValue _ _ => true
    end.

(** A type with no leaf: a tuple of such types, the empty tuple among
    them. *)
Inductive LeaflessTuple : SILType -> Prop :=
| LeaflessTuple_intro elementTypes :
    Forall LeaflessTuple elementTypes -> LeaflessTuple (TupleType elementTypes).

(** The additions and the [+ 1] of [TypeSubElementCount] stay below [2^32]
    everywhere in the type. *)
Inductive CountFits : SILType -> Prop :=
| CountFits_tuple elementTypes :
    Forall CountFits elementTypes ->
    fieldCountSum elementTypes < UnsignedModulus ->
    CountFits (TupleType elementTypes)
| CountFits_struct withDeinit storedProperties :
    Forall CountFits storedProperties ->
    fieldCountSum storedProperties + deinitBit withDeinit < UnsignedModulus ->
    CountFits (StructType false withDeinit storedProperties)
| CountFits_opaque_struct withDeinit storedProperties :
    CountFits (StructType true withDeinit storedProperties)
| CountFits_enum allElements :
    (forall elt, In (Some elt) allElements -> CountFits elt) ->
    maxCount (payloadCounts allElements) + 1 < UnsignedModulus ->
    CountFits (EnumType allElements)
| CountFits_other : CountFits OtherType.

(** A struct with two stored properties, the second a pair; the projection
    of the second element of that pair. *)
Definition pairInStruct : SILType :=
  StructType false false [OtherType; TupleType [OtherType; OtherType]].

Definition pairInStructRoot : SILValue := BaseValue 0 pairInStruct.

Definition secondOfPair : SILValue :=
  Projection 2 OtherType (TupleElementAddrInst 1)
    (Projection 1 (TupleType [OtherType; OtherType]) (StructElementAddrInst 1)
       pairInStructRoot).

Definition secondOfPairValue : SILValue :=
  Projection 2 OtherType (TupleExtractInst 1)
    (Projection 1 (TupleType [OtherType; OtherType]) (StructExtractInst 1)
       pairInStructRoot).


(** A struct with unreferenceable storage and two stored properties, the
    second a pair; the projections of its second stored property and of the
    elements of that pair. *)
Definition opaquePairInStruct : SILType :=
  StructType true false [OtherType; TupleType [OtherType; OtherType]].

Definition opaquePairInStructRoot : SILValue := BaseValue 0 opaquePairInStruct.

Definition pairOfOpaque : SILValue :=
  Projection 1 (TupleType [OtherType; OtherType]) (StructElementAddrInst 1)
    opaquePairInStructRoot.

Definition firstOfOpaquePair : SILValue :=
  Projection 2 OtherType (TupleElementAddrInst 0) pairOfOpaque.

Definition secondOfOpaquePair : SILValue :=
  Projection 3 OtherType (TupleElementAddrInst 1) pairOfOpaque.

(** ** [FieldSensitivePrunedLiveRange::isWithinBoundary]

    The function is a template over the variant of the live range; what it
    asks of the variant ([asImpl()]) is whether an instruction defines a bit
    and whether a block holds a definition of a bit. *)

Record LivenessWithDefs : Type := mkLivenessWithDefs {
  implIsDef : SILInstruction -> nat -> bool;
  implIsDefBlock : SILBasicBlock -> nat -> bool
}.

(** The multi-definition variant. *)
Definition multiDefImpl (F : SILFunction) (defs : DefList) : LivenessWithDefs :=
  mkLivenessWithDefs (fun inst bitNo => isDef defs (InstructionNode inst) bitNo)
                     (isDefBlock F defs).

(** Modelled from the spec: in the single-definition variant an instruction
    defines the bits of the range of the definition when it is the
    definition ([isDef] is declared in the header). *)
Definition ssaImpl (F : SILFunction) (range : FieldSensitiveSSAPrunedLiveRange)
  : LivenessWithDefs :=
  mkLivenessWithDefs
    (fun inst bitNo =>
       bool_decide (ssaDefNode range = InstructionNode inst)
       && contains (ssaDefSpan range) bitNo)
    (SSAPrunedLiveRange.isDefBlock F range).

(** The loop over the instructions of the block in reverse, for one bit:
    [Some isLive] when the loop reaches [inst], [None] when it runs off the
    block ([llvm_unreachable], the instruction is not in its parent
    block). *)
Fixpoint isWithinBoundaryScan (impl : LivenessWithDefs) (isInterestingUser : UserOracle)
    (inst : SILInstruction) (bit : nat)
    (reversed : list SILInstruction) (isLive : bool) : option bool :=
  match reversed with
  | [] => None
  | blockInst :: rest =>
      let isLive1 := if implIsDef impl blockInst bit then false else isLive in
      if (blockInst =? inst)%nat then Some isLive1
      else
        let isLive2 :=
          if negb isLive1
          then isLive1 || isInteresting isInterestingUser blockInst bit
          else isLive1 in
        isWithinBoundaryScan impl isInterestingUser inst bit rest isLive2
  end.

(** The loop over the bits of the span, each with the liveness read for it
    before the loop. *)
Fixpoint isWithinBoundaryBits (impl : LivenessWithDefs) (F : SILFunction)
    (isInterestingUser : UserOracle) (inst : SILInstruction) (block : SILBasicBlock)
    (bitsAndLiveness : list (nat * IsLive)) : option bool :=
  match bitsAndLiveness with
  | [] => Some false
  | (bit, liveness) :: rest =>
      let search isLive :=
        match isWithinBoundaryScan impl isInterestingUser inst bit
                (rev (getInstructions F block)) isLive with
        | Some true => Some true
        | Some false => isWithinBoundaryBits impl F isInterestingUser inst block rest
        | None => None
        end in
      match liveness with
      | Dead => isWithinBoundaryBits impl F isInterestingUser inst block rest
      | LiveOut =>
          if negb (implIsDefBlock impl block bit) then Some true else search true
      | LiveWithin => search false
      end
  end.

(** Modelled from the spec: [span.empty()] and the read of the liveness of
    the bits of a span (both declared in the header): a span is empty when
    its two offsets are equal, and the bits read are those of the span. *)
Definition spanBits (span : TypeTreeLeafTypeRange) : list nat :=
  seq (Z.to_nat (startEltOffset span))
      (Z.to_nat (endEltOffset span) - Z.to_nat (startEltOffset span)).

Definition isWithinBoundary (impl : LivenessWithDefs) (F : SILFunction)
    (live : FieldSensitivePrunedLiveBlocks) (isInterestingUser : UserOracle)
    (inst : SILInstruction) (span : TypeTreeLeafTypeRange) : option bool :=
  if startEltOffset span =? endEltOffset span then Some true
  else
    let block := getParent F inst in
    isWithinBoundaryBits impl F isInterestingUser inst block
      (combine (spanBits span) (map (getBlockLiveness live block) (spanBits span))).

(** The instructions that come after [inst] in a list of instructions in
    program order, and in the block of [inst]. *)
Definition instructionsAfterIn (insts : list SILInstruction) (inst : SILInstruction)
  : list SILInstruction :=
  rev (instructionsUpTo inst (rev insts)).

Definition instructionsAfter (F : SILFunction) (inst : SILInstruction)
  : list SILInstruction :=
  instructionsAfterIn (getInstructions F (getParent F inst)) inst.

(** A bit is live just after an instruction when an interesting user of the
    bit follows in the block with no definition of the bit in between, or
    when the bit is live out of the block and no definition of it
    follows. *)
Definition LiveAfter (impl : LivenessWithDefs) (isInterestingUser : UserOracle)
    (bit : nat) (isLiveOut : bool) (after : list SILInstruction) : Prop :=
  (exists between user rest,
      after = between ++ user :: rest
      /\ isInteresting isInterestingUser user bit = true
      /\ forall i, In i between -> implIsDef impl i bit = false)
  \/ (isLiveOut = true /\ forall i, In i after -> implIsDef impl i bit = false).

(** An instruction is within the boundary for one bit. *)
Definition WithinBoundaryAt (impl : LivenessWithDefs) (F : SILFunction)
    (live : FieldSensitivePrunedLiveBlocks) (isInterestingUser : UserOracle)
    (inst : SILInstruction) (bit : nat) : Prop :=
  let block := getParent F inst in
  match getBlockLiveness live block bit with
  | Dead => False
  | LiveWithin =>
      implIsDef impl inst bit = false
      /\ LiveAfter impl isInterestingUser bit false (instructionsAfter F inst)
  | LiveOut =>
      implIsDefBlock impl block bit = false
      \/ (implIsDef impl inst bit = false
          /\ LiveAfter impl isInterestingUser bit true (instructionsAfter F inst))
  end.

(** Whether the bit is live after the scan has gone over the instructions
    [seen], the last of the block first, starting from [isLive]. *)
Definition liveAfterScan (impl : LivenessWithDefs) (isInterestingUser : UserOracle)
    (bit : nat) (isLive : bool) (seen : list SILInstruction) : bool :=
  fold_left
    (fun isLive blockInst =>
       (negb (implIsDef impl blockInst bit) && isLive)
       || isInteresting isInterestingUser blockInst bit)
    seen isLive.

(** A definition point is listed in its block: an instruction among the
    instructions of its parent block, an argument among the arguments of
    its parent block. *)
Definition nodeListed (F : SILFunction) (node : SILNode) : Prop :=
  match node with
  | InstructionNode inst => In inst (getInstructions F (getParent F inst))
  | ArgumentNode arg => In arg (getArguments F (getArgumentParent F arg))
  end.

(** ** What one use makes live

    The blocks the worklist of [computeScalarUseBlockLiveness] visits, and
    the state it leaves.  [reachesThroughDead] holds of the block of the use
    and of every block reached from it along predecessor edges through
    blocks that were [Dead] for the bit before the call. *)

Inductive reachesThroughDead (F : SILFunction) (live : FieldSensitivePrunedLiveBlocks)
    (bitNo : nat) (userBB : SILBasicBlock) : SILBasicBlock -> Prop :=
| reachesThroughDead_user : reachesThroughDead F live bitNo userBB userBB
| reachesThroughDead_pred block predBlock :
    reachesThroughDead F live bitNo userBB block ->
    In predBlock (getPredecessorBlocks F block) ->
    getBlockLiveness live predBlock bitNo = Dead ->
    reachesThroughDead F live bitNo userBB predBlock.

(** A predecessor of a visited block. *)
Definition predecessorOfVisited (F : SILFunction) (live : FieldSensitivePrunedLiveBlocks)
    (bitNo : nat) (userBB bb : SILBasicBlock) : Prop :=
  exists block,
    reachesThroughDead F live bitNo userBB block /\ In bb (getPredecessorBlocks F block).

(** Every discovered block has a state for each tracked bit. *)
Definition liveBlocksSized (live : FieldSensitivePrunedLiveBlocks) : Prop :=
  forall bb bits, liveBlocks live !! bb = Some bits -> length bits = numBitsToTrack live.

(** The state of a block for the bit when the worklist loop starts: what it
    was, raised to [LiveWithin] for the block of the use. *)
Definition livenessBeforeLoop (live0 : FieldSensitivePrunedLiveBlocks) (bitNo : nat)
    (userBB bb : SILBasicBlock) : IsLive :=
  if decide (bb = userBB)
  then IsLive_max (getBlockLiveness live0 bb bitNo) LiveWithin
  else getBlockLiveness live0 bb bitNo.

(** The state of a block for the bit after the use: [LiveOut] for the
    predecessors of the visited blocks, and for every other block what it
    was when the loop started. *)
Definition LivenessAfterUse (F : SILFunction) (live : FieldSensitivePrunedLiveBlocks)
    (bitNo : nat) (userBB bb : SILBasicBlock) (result : IsLive) : Prop :=
  (predecessorOfVisited F live bitNo userBB bb -> result = LiveOut)
  /\ (predecessorOfVisited F live bitNo userBB bb
      \/ result = livenessBeforeLoop live bitNo userBB bb).

(** What holds each time the worklist loop of
    [computeScalarUseBlockLiveness] tests its worklist: the visited blocks
    are reached through dead blocks and are not dead any more; the
    predecessors of the blocks handed out are [LiveOut]; every other block
    is as it was when the loop started; and a block that was [Dead] and no
    longer is has been visited. *)
Definition propagationInvariant (F : SILFunction) (live0 : FieldSensitivePrunedLiveBlocks)
    (bitNo : nat) (userBB : SILBasicBlock)
    (live : FieldSensitivePrunedLiveBlocks) (w : BasicBlockWorklist) : Prop :=
  liveBlocksSized live
  /\ numBitsToTrack live = numBitsToTrack live0
  /\ worklistConsistent w
  /\ userBB ∈ visitedBlocks w
  /\ (forall b, b ∈ visitedBlocks w -> reachesThroughDead F live0 bitNo userBB b)
  /\ (forall bb bit, bit <> bitNo ->
                     getBlockLiveness live bb bit = getBlockLiveness live0 bb bit)
  /\ (forall bb, (exists y, poppedFrom w y /\ In bb (getPredecessorBlocks F y)) ->
                 getBlockLiveness live bb bitNo = LiveOut)
  /\ (forall bb, getBlockLiveness live bb bitNo = livenessBeforeLoop live0 bitNo userBB bb
                 \/ exists y, poppedFrom w y /\ In bb (getPredecessorBlocks F y))
  /\ (forall b, getBlockLiveness live0 b bitNo = Dead ->
                getBlockLiveness live b bitNo <> Dead -> b ∈ visitedBlocks w)
  /\ (forall b, b ∈ visitedBlocks w -> getBlockLiveness live b bitNo <> Dead).

(** A diamond with a loop: [Entry] (block 0) branches to blocks 1 and 2,
    which join in block 3; block 3 loops back to block 1.  Instruction 30
    is in block 3. *)
Definition diamondLoop : SILFunction :=
  mkFunction 4
    (fun block => match block with
                  | 1%nat => [0%nat; 3%nat]
                  | 2%nat => [0%nat]
                  | 3%nat => [1%nat; 2%nat]
                  | _ => []
                  end)
    (fun block => match block with
                  | 0%nat => [1%nat; 2%nat]
                  | 1%nat => [3%nat]
                  | 2%nat => [3%nat]
                  | 3%nat => [1%nat]
                  | _ => []
                  end)
    (fun block => match block with
                  | 3%nat => [30%nat]
                  | _ => []
                  end)
    (fun _ => [])
    (fun _ => 3%nat)
    (fun _ => 0%nat).

(** What [updateForUse] does for a bit of its range: it propagates the use
    when the block of the user is [Dead] for the bit or the bit is flagged
    as used before its definition. *)
Definition usePropagates (live : FieldSensitivePrunedLiveBlocks) (bb : SILBasicBlock)
    (useBeforeDefBits : list bool) (bitNo : nat) : Prop :=
  getBlockLiveness live bb bitNo = Dead \/ testBit useBeforeDefBits bitNo = true.

(** The bits a recording call names are tracked bits. *)
Definition callInRange (tracked : nat) (call : LivenessCall) : Prop :=
  match call with
  | UpdateForUseRange _ range _ _
  | ExtendToNonUseRange _ range _ =>
      (Z.to_nat (endEltOffset range) <= tracked)%nat
  | UpdateForUseBits _ bits _ _
  | ExtendToNonUseBits _ bits _ =>
      (length bits <= tracked)%nat
  end.

(** From [live] to [live']: no state decreases, and every block that was
    [Dead] for a bit and no longer is has all its predecessors [LiveOut]
    for the bit. *)
Definition closedStep (F : SILFunction) (live live' : FieldSensitivePrunedLiveBlocks)
  : Prop :=
  LiveBlocks_le live live'
  /\ liveBlocksSized live'
  /\ numBitsToTrack live' = numBitsToTrack live
  /\ forall block bit,
       getBlockLiveness live block bit = Dead ->
       getBlockLiveness live' block bit <> Dead ->
       forall predBlock,
         In predBlock (getPredecessorBlocks F block) ->
         getBlockLiveness live' predBlock bit = LiveOut.

(** ** [TypeTreeLeafTypeRange::constructFilteredProjections]

    [noneSet] and [allSet] are the two local tests of the source over the
    bits [[start, end)] of a vector.  The builder creates instructions; a
    new instruction gets the identity [nextID], which no value has yet, and
    the builder goes on with the next one.  A created [struct_element_addr]
    or [tuple_element_addr] has the type of the field it projects.  The
    callback is a parameter of the source; the model lists the pairs it is
    called with, in the order of the calls. *)

Definition noneSet (bv : list bool) (start end_ : Z) : bool :=
  forallb (fun index => negb (testBit bv index))
    (seq (Z.to_nat start) (Z.to_nat end_ - Z.to_nat start)).

Definition allSet (bv : list bool) (start end_ : Z) : bool :=
  forallb (fun index => testBit bv index)
    (seq (Z.to_nat start) (Z.to_nat end_ - Z.to_nat start)).

(** The loop over the stored properties of a struct or the elements of a
    tuple: [index] is the index of the first field of [fields], [start] the
    offset of its first bit.  The result holds the calls of the callback,
    the value of [start] after the loop, and the builder. *)
Fixpoint filterProjections (createElementAddr : nat -> ProjectionKind) (value : SILValue)
    (filterBitVector : list bool) (fields : list SILType) (index : nat)
    (start : Z) (nextID : nat)
  : list (SILValue * TypeTreeLeafTypeRange) * Z * nat :=
  match fields with
  | [] => ([], start, nextID)
  | nextType :: rest =>
      let next := wrapUnsigned (start + TypeSubElementCount nextType) in
      if noneSet filterBitVector start next
      then filterProjections createElementAddr value filterBitVector rest (S index)
             next nextID
      else
        let newValue := Projection nextID nextType (createElementAddr index) value in
        let '(calls, final, nextID') :=
          filterProjections createElementAddr value filterBitVector rest (S index)
            next (S nextID) in
        ((newValue, mkRange start next) :: calls, final, nextID')
  end.

(** What a run of [constructFilteredProjections] leaves: the calls of the
    callback, the builder, and whether the conditions of the [assert]s it
    went through held (the run goes on either way when assertions are
    compiled out). *)
Record FilteredProjections : Type := mkFiltered {
  filteredCalls : list (SILValue * TypeTreeLeafTypeRange);
  builderAfter : nat;
  assertionsHeld : bool
}.

(** [None] stands for [llvm_unreachable]: the type is neither a struct, nor
    an enum, nor a tuple. *)
Definition constructFilteredProjections (range : TypeTreeLeafTypeRange)
    (value : SILValue) (nextID : nat) (filterBitVector : list bool)
  : option FilteredProjections :=
  match getType value with
  | StructType _ withDeinit storedProperties =>
      let '(calls, start, nextID') :=
        filterProjections StructElementAddrInst value filterBitVector storedProperties
          0 (startEltOffset range) nextID in
      let start' := if withDeinit then wrapUnsigned (start + 1) else start in
      Some (mkFiltered calls nextID' (start' =? endEltOffset range))
  | EnumType allElements =>
      let start := startEltOffset range in
      let maxSubEltCount :=
        fold_left
          (fun maxSubEltCount eltDecl =>
             match eltDecl with
             | None => maxSubEltCount
             | Some nextType => Z.max maxSubEltCount (TypeSubElementCount nextType)
             end)
          allElements 0 in
      let next := wrapUnsigned (maxSubEltCount + 1) in
      Some (mkFiltered [(value, mkRange start next)] nextID
              (allSet filterBitVector start next && (next =? endEltOffset range)))
  | TupleType elementTypes =>
      let '(calls, start, nextID') :=
        filterProjections TupleElementAddrInst value filterBitVector elementTypes
          0 (startEltOffset range) nextID in
      Some (mkFiltered calls nextID' (start =? endEltOffset range))
  | OtherType => None
  end.

(** ** [TypeTreeLeafTypeRange::constructProjectionsForNeededElements]

    [tmp] is the temporary vector of the loop: the bits of the range, masked
    by the needed elements.  The worklist is a stack: its head is the pair
    pushed last.  The loop has no bound in the source; the model gives it
    twice the number of nodes of the type tree of the root, which is more
    pops than a run that ends can make (a pair is pushed once for each
    field of the type tree, and once more at most for an enum). *)

(** [rangeMask] is [tmp] after [reset] and [set(start, end)]: the bits of
    the range in a vector of the size of the needed elements ([set] asserts
    that the range lies within the vector; the model sets the bits of the
    range that the vector has). *)
Definition rangeMask (size : nat) (range : TypeTreeLeafTypeRange) : list bool :=
  map (fun index =>
         (startEltOffset range <=? Z.of_nat index) && (Z.of_nat index <? endEltOffset range))
      (seq 0 size).

Definition andBits (a b : list bool) : list bool :=
  map (fun index => testBit a index && testBit b index) (seq 0 (length a)).

Definition noBitSet (bits : list bool) : bool := forallb negb bits.

Definition allInRange (bv : list bool) (span : TypeTreeLeafTypeRange) : bool :=
  forallb (fun index => testBit bv index) (spanBits span).

Fixpoint typeNodes (type : SILType) : nat :=
  match type with
  | TupleType elementTypes =>
      S (fold_right (fun elt acc => (typeNodes elt + acc)%nat) 0%nat elementTypes)
  | StructType _ _ storedProperties =>
      S (fold_right (fun field acc => (typeNodes field + acc)%nat) 0%nat storedProperties)
  | EnumType _ => 1%nat
  | OtherType => 1%nat
  end.

Fixpoint constructProjectionsLoop (fuel : nat) (neededElements : list bool)
    (worklist : list (SILValue * TypeTreeLeafTypeRange)) (nextID : nat)
    (resultingProjections : list (SILValue * TypeTreeLeafTypeRange))
    (assertionsSoFar : bool)
  : option (list (SILValue * TypeTreeLeafTypeRange) * nat * bool) :=
  match fuel with
  | O => None
  | S fuel' =>
      match worklist with
      | [] => Some (resultingProjections, nextID, assertionsSoFar)
      | (value, range) :: worklist' =>
          let tmp := andBits (rangeMask (length neededElements) range) neededElements in
          if noBitSet tmp
          then constructProjectionsLoop fuel' neededElements worklist' nextID
                 resultingProjections assertionsSoFar
          else if allInRange tmp range
          then constructProjectionsLoop fuel' neededElements worklist' nextID
                 (resultingProjections ++ [(value, range)]) assertionsSoFar
          else
            match constructFilteredProjections range value nextID neededElements with
            | None => None
            | Some filtered =>
                constructProjectionsLoop fuel' neededElements
                  (rev (filteredCalls filtered) ++ worklist') (builderAfter filtered)
                  resultingProjections (assertionsSoFar && assertionsHeld filtered)
            end
      end
  end.

(** Modelled from the spec: the leaf range of a root value is [[0, N)] for
    the sub-element count [N] of its type (the constructor of
    [TypeTreeLeafTypeRange] from a value is declared in the header, and so
    is [size], the number of bits of a range, which the opening [assert] of
    [constructProjectionsForNeededElements] compares with the size of the
    needed elements). *)
Definition rangeOfRoot (rootValue : SILValue) : TypeTreeLeafTypeRange :=
  mkRange 0 (TypeSubElementCount (getType rootValue)).

Definition constructProjectionsForNeededElements (rootValue : SILValue) (nextID : nat)
    (neededElements : list bool)
  : option (list (SILValue * TypeTreeLeafTypeRange) * nat * bool) :=
  let rootRange := rangeOfRoot rootValue in
  constructProjectionsLoop (S (2 * typeNodes (getType rootValue))) neededElements
    [(rootValue, rootRange)] nextID []
    (endEltOffset rootRange - startEltOffset rootRange =? Z.of_nat (length neededElements)).

(** The needed elements split along the type tree: the bits of a type at an
    offset are all needed or none is, or the type is a tuple or a fully
    referenceable struct whose fields split, each at its own offset.  In the
    [strict] reading the bit of a deinit, which has no field, is not needed
    where a struct is split. *)
Inductive Splits (strict : bool) (neededElements : list bool) : SILType -> Z -> Prop :=
| Splits_none type start :
    noneSet neededElements start (start + TypeSubElementCount type) = true ->
    Splits strict neededElements type start
| Splits_all type start :
    allSet neededElements start (start + TypeSubElementCount type) = true ->
    Splits strict neededElements type start
| Splits_tuple elementTypes start :
    fieldCountSum elementTypes < UnsignedModulus ->
    SplitsFields strict neededElements elementTypes start ->
    Splits strict neededElements (TupleType elementTypes) start
| Splits_struct withDeinit storedProperties start :
    fieldCountSum storedProperties + deinitBit withDeinit < UnsignedModulus ->
    (strict = true -> withDeinit = true ->
     testBit neededElements (Z.to_nat (start + fieldCountSum storedProperties)) = false) ->
    SplitsFields strict neededElements storedProperties start ->
    Splits strict neededElements (StructType false withDeinit storedProperties) start
with SplitsFields (strict : bool) (neededElements : list bool) : list SILType -> Z -> Prop :=
| SplitsFields_nil start : SplitsFields strict neededElements [] start
| SplitsFields_cons field rest start :
    Splits strict neededElements field start ->
    SplitsFields strict neededElements rest (start + TypeSubElementCount field) ->
    SplitsFields strict neededElements (field :: rest) start.

(** The number of pairs whose range holds the bit. *)
Definition holdsBit (bit : nat) (pair : SILValue * TypeTreeLeafTypeRange) : bool :=
  contains pair.2 bit.

Definition owners (bit : nat) (pairs : list (SILValue * TypeTreeLeafTypeRange)) : nat :=
  length (List.filter (holdsBit bit) pairs).

(** A pair on the worklist: the range of the value starts where the offset
    walk from the root puts it and spans the sub-elements of its type, within
    the root's range; the needed elements split along its type; and the
    value is the root or was created by the builder. *)
Definition pairOfRoot (rootValue : SILValue) (strict : bool) (neededElements : list bool)
    (pair : SILValue * TypeTreeLeafTypeRange) : Prop :=
  let (value, range) := pair in
  0 <= startEltOffset range
  /\ endEltOffset range = startEltOffset range + TypeSubElementCount (getType value)
  /\ endEltOffset range <= TypeSubElementCount (getType rootValue)
  /\ (forall offset,
        0 <= offset -> offset + startEltOffset range < UnsignedModulus ->
        computeForAddressFrom offset value rootValue
        = Some (offset + startEltOffset range))
  /\ Splits strict neededElements (getType value) (startEltOffset range).

(** A resulting projection: a non-empty range of needed elements that
    starts where the offset walk from the root puts the value and spans the
    sub-elements of its type. *)
Definition neededProjection (rootValue : SILValue) (neededElements : list bool)
    (pair : SILValue * TypeTreeLeafTypeRange) : Prop :=
  let (value, range) := pair in
  0 <= startEltOffset range < endEltOffset range
  /\ endEltOffset range <= TypeSubElementCount (getType rootValue)
  /\ endEltOffset range = startEltOffset range + TypeSubElementCount (getType value)
  /\ computeForAddress value rootValue = Some (startEltOffset range)
  /\ forall bit, contains range bit = true -> testBit neededElements bit = true.

(** What is known of a call of the callback in the loop over the fields of
    a value: the projection was created for a field that has a needed bit,
    and its range is the range of the field, [base] being the offset of the
    first field. *)
Definition filteredCall (createElementAddr : nat -> ProjectionKind) (value : SILValue)
    (fields : list SILType) (filterBitVector : list bool) (base : Z)
    (index nextID nextID' : nat) (call : SILValue * TypeTreeLeafTypeRange) : Prop :=
  exists fieldIndex fieldType id,
    nth_error fields fieldIndex = Some fieldType
    /\ (index <= fieldIndex)%nat
    /\ call.1 = Projection id fieldType (createElementAddr fieldIndex) value
    /\ (nextID <= id < nextID')%nat
    /\ startEltOffset call.2 = base + fieldCountSum (firstn fieldIndex fields)
    /\ endEltOffset call.2 = startEltOffset call.2 + TypeSubElementCount fieldType
    /\ noneSet filterBitVector (startEltOffset call.2) (endEltOffset call.2) = false.

(** The nodes of the types of the values of a list of pairs. *)
Definition pairsNodes (pairs : list (SILValue * TypeTreeLeafTypeRange)) : nat :=
  fold_right (fun pair acc => (typeNodes (getType pair.1) + acc)%nat) 0%nat pairs.

(** A pair of two fields in a struct; the projection of the first field of
    the inner pair is needed, and the second field of the struct. *)
Definition nestedPair : SILType :=
  StructType false false [TupleType [OtherType; OtherType]; OtherType].

Definition nestedPairRoot : SILValue := BaseValue 0 nestedPair.

(** The fields [constructFilteredProjections] splits an aggregate into:
    the instruction that projects a field, the types of the fields in
    order, and the bit of the deinit that follows the fields of a struct. *)
Inductive FieldsOf : SILType -> (nat -> ProjectionKind) -> list SILType -> Z -> Prop :=
| FieldsOf_tuple elementTypes :
    FieldsOf (TupleType elementTypes) TupleElementAddrInst elementTypes 0
| FieldsOf_struct unreferenceable withDeinit storedProperties :
    FieldsOf (StructType unreferenceable withDeinit storedProperties)
      StructElementAddrInst storedProperties (deinitBit withDeinit).

(** An enum with an empty case and a case with a payload, and a struct of
    two fields with a deinit. *)
Definition optionalValue : SILValue :=
  BaseValue 0 (EnumType [None; Some OtherType]).

Definition guardedPairRoot : SILValue :=
  BaseValue 0 (StructType false true [OtherType; OtherType]).

(** A definition point of a bit at which the bit is dead in its block: a
    defining instruction of the block after which the bit is not live, or a
    defining argument of the block when the bit is not live at the top of
    the block. *)
Definition DeadDefinitionIn (F : SILFunction) (defs : DefList)
    (isInterestingUser : UserOracle) (block : SILBasicBlock) (bitNo : nat)
    (isLiveOut : bool) (node : SILNode) : Prop :=
  isDef defs node bitNo = true
  /\ match node with
     | InstructionNode def =>
         In def (getInstructions F block)
         /\ ~ LiveAfter (multiDefImpl F defs) isInterestingUser bitNo isLiveOut
                (instructionsAfterIn (getInstructions F block) def)
     | ArgumentNode arg =>
         In arg (getArguments F block)
         /\ ~ LiveAfter (multiDefImpl F defs) isInterestingUser bitNo isLiveOut
                (getInstructions F block)
     end.

(** In the single-definition variant the uses follow the definition (a
    live range with a single definition has no use above the definition in
    its block): a defining instruction is not an interesting user of a bit
    of its range, and neither is an instruction before it in its block. *)
Definition usesFollowDefinition (F : SILFunction) (isInterestingUser : UserOracle)
    (range : FieldSensitiveSSAPrunedLiveRange) : Prop :=
  forall def bitNo,
    ssaDefNode range = InstructionNode def ->
    contains (ssaDefSpan range) bitNo = true ->
    isInteresting isInterestingUser def bitNo = false
    /\ forall before after,
         getInstructions F (getParent F def) = before ++ def :: after ->
         forall inst, In inst before -> isInteresting isInterestingUser inst bitNo = false.

(** ** A whole analysis in closed form

    The bits a recording call names, in the order it goes through them, and
    its use-before-def flags. *)
Definition callBits (call : LivenessCall) : list nat :=
  match call with
  | UpdateForUseRange _ range _ _
  | ExtendToNonUseRange _ range _ =>
      seq (Z.to_nat (startEltOffset range))
          (Z.to_nat (endEltOffset range) - Z.to_nat (startEltOffset range))
  | UpdateForUseBits _ bits _ _
  | ExtendToNonUseBits _ bits _ => set_bits bits
  end.

Definition callFlags (call : LivenessCall) : list bool :=
  match call with
  | UpdateForUseRange _ _ _ useBeforeDefBits
  | UpdateForUseBits _ _ _ useBeforeDefBits
  | ExtendToNonUseRange _ _ useBeforeDefBits
  | ExtendToNonUseBits _ _ useBeforeDefBits => useBeforeDefBits
  end.

(** Seen from the state [live], a call propagates a bit from the block of
    its user: the bit is one of its bits, and the block is [Dead] for the
    bit in [live] or the call flags the bit as used before its
    definition. *)
Definition callPropagates (F : SILFunction) (live : FieldSensitivePrunedLiveBlocks)
    (call : LivenessCall) (bitNo : nat) : Prop :=
  In bitNo (callBits call)
  /\ usePropagates live (getParent F (callUser call)) (callFlags call) bitNo.

(** The blocks that are [LiveOut] for a bit after the calls, told from the
    state [live] before them: the blocks that were, and the predecessors of
    the blocks reached backward, through blocks that were [Dead], from the
    block of a call that propagates the bit. *)
Definition LiveOutAfterCalls (F : SILFunction) (live : FieldSensitivePrunedLiveBlocks)
    (calls : list LivenessCall) (bb : SILBasicBlock) (bitNo : nat) : Prop :=
  getBlockLiveness live bb bitNo = LiveOut
  \/ exists call,
       In call calls
       /\ callPropagates F live call bitNo
       /\ predecessorOfVisited F live bitNo (getParent F (callUser call)) bb.

(** The blocks that are live for a bit after the calls: the blocks that
    were, the blocks of the calls that propagate the bit, and the
    predecessors above. *)
Definition LiveAfterCalls (F : SILFunction) (live : FieldSensitivePrunedLiveBlocks)
    (calls : list LivenessCall) (bb : SILBasicBlock) (bitNo : nat) : Prop :=
  getBlockLiveness live bb bitNo <> Dead
  \/ exists call,
       In call calls
       /\ callPropagates F live call bitNo
       /\ (bb = getParent F (callUser call)
           \/ predecessorOfVisited F live bitNo (getParent F (callUser call)) bb).

(* ===================================================================== *)
(** * Part II: lemmas and theorems                                         *)
(* ===================================================================== *)

Lemma wrapUnsigned_range z : 0 <= wrapUnsigned z < UnsignedModulus.
Proof. unfold wrapUnsigned, UnsignedModulus. apply Z.mod_pos_bound. lia. Qed.

Lemma wrapUnsigned_small z : 0 <= z < UnsignedModulus -> wrapUnsigned z = z.
Proof. intros H. unfold wrapUnsigned. apply Z.mod_small. exact H. Qed.

(** ** Leaf model: counts *)

Lemma fold_wrap_range {A} (f : A -> Z) (l : list A) (acc : Z) :
  0 <= acc < UnsignedModulus ->
  0 <= fold_left (fun a x => wrapUnsigned (a + f x)) l acc < UnsignedModulus.
Proof.
  revert acc. induction l as [|x l IH]; intros acc Hacc; simpl.
  - exact Hacc.
  - apply IH. apply wrapUnsigned_range.
Qed.

Lemma TypeSubElementCount_range (type : SILType) :
  0 <= TypeSubElementCount type < UnsignedModulus.
Proof.
  assert (HM : 1 < UnsignedModulus) by (unfold UnsignedModulus; lia).
  destruct type as [elts | unref deinit fields | elements |]; simpl.
  - apply fold_wrap_range. lia.
  - destruct unref; [lia|].
    pose proof (fold_wrap_range TypeSubElementCount fields 0 ltac:(lia)) as Hf.
    pose proof (wrapUnsigned_range
                  (fold_left (fun a x => wrapUnsigned (a + TypeSubElementCount x)) fields 0 + 1)).
    destruct deinit;
      match goal with |- context [?a =? 0] => destruct (Z.eqb_spec a 0) end; lia.
  - apply wrapUnsigned_range.
  - lia.
Qed.

Lemma fieldCountSum_nonneg (fields : list SILType) : 0 <= fieldCountSum fields.
Proof.
  induction fields as [|f fields IH]; simpl; [lia|].
  pose proof (TypeSubElementCount_range f). lia.
Qed.

Lemma addSubElementCounts_exact (fields : list SILType) (acc : Z) :
  0 <= acc ->
  acc + fieldCountSum fields < UnsignedModulus ->
  addSubElementCounts acc fields = acc + fieldCountSum fields.
Proof.
  unfold addSubElementCounts.
  revert acc. induction fields as [|f fields IH]; intros acc Hacc Hfit; simpl in *.
  - lia.
  - pose proof (TypeSubElementCount_range f) as Hf.
    pose proof (fieldCountSum_nonneg fields) as Hs.
    rewrite wrapUnsigned_small by lia.
    rewrite IH by lia. lia.
Qed.

Lemma maxCount_nonneg (counts : list Z) : 0 <= maxCount counts.
Proof.
  induction counts as [|c counts IH]; cbn [maxCount]; lia.
Qed.

Lemma fold_max_payloads (allElements : list (option SILType)) (acc : Z) :
  0 <= acc ->
  fold_left
    (fun numElements eltDecl =>
       match eltDecl with
       | None => numElements
       | Some elt => Z.max numElements (TypeSubElementCount elt)
       end) allElements acc
  = Z.max acc (maxCount (payloadCounts allElements)).
Proof.
  revert acc. induction allElements as [|[elt|] rest IH]; intros acc Hacc;
    cbn [fold_left maxCount payloadCounts].
  - lia.
  - rewrite IH by lia. lia.
  - apply IH, Hacc.
Qed.

Lemma maxCount_upper (counts : list Z) (c : Z) :
  In c counts -> c <= maxCount counts.
Proof.
  induction counts as [|d counts IH]; cbn [maxCount In]; [tauto|].
  intros [->|Hin]; [lia|]. specialize (IH Hin). lia.
Qed.

Lemma payloadCounts_In (allElements : list (option SILType)) (elt : SILType) :
  In (Some elt) allElements -> In (TypeSubElementCount elt) (payloadCounts allElements).
Proof.
  induction allElements as [|[e|] rest IH]; simpl; [tauto| |].
  - intros [Heq|Hin]; [left; congruence | right; auto].
  - intros [Heq|Hin]; [discriminate | auto].
Qed.

Lemma enum_count_eq (allElements : list (option SILType)) :
  TypeSubElementCount (EnumType allElements)
  = wrapUnsigned (maxCount (payloadCounts allElements) + 1).
Proof.
  cbn [TypeSubElementCount]. rewrite fold_max_payloads by lia.
  pose proof (maxCount_nonneg (payloadCounts allElements)).
  f_equal. lia.
Qed.

(** C4, evaluated on the code: the tuple branch stores the plain sum of the
    element counts, so the empty tuple type gets sub-element count 0 and the
    bound [N >= 1] fails there; the struct branch, next to it, resets a zero
    count to 1. *)
Theorem TypeSubElementCount_empty_tuple :
  TypeSubElementCount (TupleType []) = 0
  /\ ~ (1 <= TypeSubElementCount (TupleType []))
  /\ TypeSubElementCount (StructType false false []) = 1.
Proof.
  split; [reflexivity|]. split; [|reflexivity].
  change (TypeSubElementCount (TupleType [])) with 0. lia.
Qed.

Example TypeSubElementCount_scenarios :
  TypeSubElementCount (StructType false false [OtherType; OtherType]) = 2
  /\ TypeSubElementCount (StructType false true [OtherType; OtherType]) = 3
  /\ TypeSubElementCount
       (EnumType [Some OtherType; Some (TupleType [OtherType; OtherType; OtherType])]) = 4
  /\ TypeSubElementCount (TupleType [TupleType []; OtherType]) = 1
  /\ TypeSubElementCount (StructType false false [TupleType []]) = 1
  /\ TypeSubElementCount (StructType true true [OtherType; OtherType]) = 1.
Proof. repeat split; reflexivity. Qed.

(** C5 as stated fails: a fully referenceable struct with no stored
    property and no deinit has sub-element count 1, not the empty sum 0. *)
Lemma leaf_count_additivity_fails_on_empty_struct :
  TypeSubElementCount (StructType false false [])
  <> fieldCountSum [] + deinitBit false.
Proof. vm_compute. discriminate. Qed.

(** C5, amended: when the total fits the [unsigned] counter, a tuple with at
    least one element has the sum of its elements' counts, and a fully
    referenceable struct has the sum of its stored properties' counts plus
    one for a deinit, except that a total of 0 is reported as 1. *)
Theorem leaf_count_additivity (fields : list SILType) (withDeinit : bool) :
  fieldCountSum fields + deinitBit withDeinit < UnsignedModulus ->
  (fields <> [] -> TypeSubElementCount (TupleType fields) = fieldCountSum fields)
  /\ TypeSubElementCount (StructType false withDeinit fields)
     = Z.max 1 (fieldCountSum fields + deinitBit withDeinit).
Proof.
  intros Hfit.
  pose proof (fieldCountSum_nonneg fields) as Hs.
  assert (Hd : 0 <= deinitBit withDeinit <= 1) by (destruct withDeinit; simpl; lia).
  pose proof (addSubElementCounts_exact fields 0 ltac:(lia) ltac:(lia)) as Hsum.
  unfold addSubElementCounts in Hsum.
  split.
  - intros _. cbn [TypeSubElementCount]. rewrite Hsum. lia.
  - cbn [TypeSubElementCount]. rewrite Hsum. cbn zeta.
    destruct withDeinit; cbn [deinitBit] in *.
    + rewrite wrapUnsigned_small by lia.
      destruct (Z.eqb_spec (0 + fieldCountSum fields + 1) 0); lia.
    + destruct (Z.eqb_spec (0 + fieldCountSum fields) 0); lia.
Qed.

Lemma leaf_count_additivity_witness :
  TypeSubElementCount (TupleType [OtherType; TupleType [OtherType; OtherType]]) = 3
  /\ TypeSubElementCount (StructType false true [OtherType; TupleType [OtherType; OtherType]]) = 4.
Proof.
  assert (Hfit : fieldCountSum [OtherType; TupleType [OtherType; OtherType]]
                 + deinitBit true < UnsignedModulus) by (vm_compute; reflexivity).
  destruct (leaf_count_additivity
              [OtherType; TupleType [OtherType; OtherType]] true Hfit) as [Ht Hs].
  split.
  - rewrite Ht by discriminate. reflexivity.
  - rewrite Hs. reflexivity.
Defined.

(** ** Leaf model: offsets *)

Lemma sameValue_false (root v : SILValue) :
  valueID v <> valueID root -> sameValue root v = false.
Proof. intros H. unfold sameValue. apply Nat.eqb_neq. congruence. Qed.

Lemma computeForAddressFrom_transparent off id ty kind operand root :
  id <> valueID root ->
  addressKindTransparent kind = true ->
  computeForAddressFrom off (Projection id ty kind operand) root
  = computeForAddressFrom off operand root.
Proof.
  intros Hid Hk. cbn [computeForAddressFrom].
  rewrite sameValue_false by exact Hid.
  destruct kind; try discriminate Hk; reflexivity.
Qed.

Lemma computeForValueFrom_transparent off id ty kind operand root :
  id <> valueID root ->
  valueKindTransparent kind = true ->
  computeForValueFrom off (Projection id ty kind operand) root
  = computeForValueFrom off operand root.
Proof.
  intros Hid Hk. cbn [computeForValueFrom].
  rewrite sameValue_false by exact Hid.
  destruct kind; try discriminate Hk; reflexivity.
Qed.

Lemma computeForAddressFrom_unrecognized off id ty kind operand root :
  id <> valueID root ->
  addressKindRecognized kind = false ->
  computeForAddressFrom off (Projection id ty kind operand) root = None.
Proof.
  intros Hid Hk. cbn [computeForAddressFrom].
  rewrite sameValue_false by exact Hid.
  destruct kind; try discriminate Hk; reflexivity.
Qed.

Lemma computeForValueFrom_unrecognized off id ty kind operand root :
  id <> valueID root ->
  valueKindRecognized kind = false ->
  computeForValueFrom off (Projection id ty kind operand) root = None.
Proof.
  intros Hid Hk. cbn [computeForValueFrom].
  rewrite sameValue_false by exact Hid.
  destruct kind; try discriminate Hk; reflexivity.
Qed.

Lemma computeForAddressFrom_at_root off v root :
  valueID v = valueID root -> computeForAddressFrom off v root = Some off.
Proof.
  intros H. destruct v; cbn [computeForAddressFrom]; unfold sameValue;
    rewrite <- H, Nat.eqb_refl; reflexivity.
Qed.

Lemma computeForValueFrom_at_root off v root :
  valueID v = valueID root -> computeForValueFrom off v root = Some off.
Proof.
  intros H. destruct v; cbn [computeForValueFrom]; unfold sameValue;
    rewrite <- H, Nat.eqb_refl; reflexivity.
Qed.

(** Each walk answers exactly on the chains that lead to the root through
    the kinds it knows. *)
Lemma LeadsToRoot_computeForAddressFrom v root :
  LeadsToRoot addressKindRecognized root v ->
  forall off, is_Some (computeForAddressFrom off v root).
Proof.
  induction 1 as [v Hid | id ty kind operand Hk Hlead IH]; intros off.
  - rewrite computeForAddressFrom_at_root by exact Hid. eauto.
  - cbn [computeForAddressFrom].
    destruct (sameValue root _); [eauto|].
    destruct kind; try discriminate Hk; apply IH.
Qed.

Lemma computeForAddressFrom_LeadsToRoot v root :
  forall off, is_Some (computeForAddressFrom off v root) ->
  LeadsToRoot addressKindRecognized root v.
Proof.
  induction v as [id ty | id ty kind operand IH]; intros off [r Hr];
    cbn [computeForAddressFrom] in Hr.
  - destruct (sameValue root (BaseValue id ty)) eqn:E; [|discriminate].
    apply LeadsToRoot_here. apply Nat.eqb_eq in E. congruence.
  - destruct (sameValue root (Projection id ty kind operand)) eqn:E.
    + apply LeadsToRoot_here. apply Nat.eqb_eq in E. congruence.
    + destruct kind; try discriminate Hr;
        (apply LeadsToRoot_step; [reflexivity | eapply IH; eexists; exact Hr]).
Qed.

Lemma LeadsToRoot_computeForValueFrom v root :
  LeadsToRoot valueKindRecognized root v ->
  forall off, is_Some (computeForValueFrom off v root).
Proof.
  induction 1 as [v Hid | id ty kind operand Hk Hlead IH]; intros off.
  - rewrite computeForValueFrom_at_root by exact Hid. eauto.
  - cbn [computeForValueFrom].
    destruct (sameValue root _); [eauto|].
    destruct kind; try discriminate Hk; apply IH.
Qed.

Lemma computeForValueFrom_LeadsToRoot v root :
  forall off, is_Some (computeForValueFrom off v root) ->
  LeadsToRoot valueKindRecognized root v.
Proof.
  induction v as [id ty | id ty kind operand IH]; intros off [r Hr];
    cbn [computeForValueFrom] in Hr.
  - destruct (sameValue root (BaseValue id ty)) eqn:E; [|discriminate].
    apply LeadsToRoot_here. apply Nat.eqb_eq in E. congruence.
  - destruct (sameValue root (Projection id ty kind operand)) eqn:E.
    + apply LeadsToRoot_here. apply Nat.eqb_eq in E. congruence.
    + destruct kind; try discriminate Hr;
        (apply LeadsToRoot_step; [reflexivity | eapply IH; eexists; exact Hr]).
Qed.

Lemma computeForAddressFrom_range v root :
  forall off r, 0 <= off < UnsignedModulus ->
  computeForAddressFrom off v root = Some r -> 0 <= r < UnsignedModulus.
Proof.
  induction v as [id ty | id ty kind operand IH]; intros off r Hoff Hr;
    cbn [computeForAddressFrom] in Hr.
  - destruct (sameValue root _); [|discriminate]. congruence.
  - destruct (sameValue root _); [congruence|].
    destruct kind; try discriminate Hr;
      (eapply IH; [|exact Hr]); try exact Hoff;
      apply fold_wrap_range; exact Hoff.
Qed.

Lemma computeForValueFrom_range v root :
  forall off r, 0 <= off < UnsignedModulus ->
  computeForValueFrom off v root = Some r -> 0 <= r < UnsignedModulus.
Proof.
  induction v as [id ty | id ty kind operand IH]; intros off r Hoff Hr;
    cbn [computeForValueFrom] in Hr.
  - destruct (sameValue root _); [|discriminate]. congruence.
  - destruct (sameValue root _); [congruence|].
    destruct kind; try discriminate Hr;
      (eapply IH; [|exact Hr]); try exact Hoff;
      apply fold_wrap_range; exact Hoff.
Qed.

(** C6: an enum has one more sub-element than its largest payload (when
    that fits the [unsigned] counter), every payload fits in the bits before
    the last one, looking through an enum payload projection leaves the
    accumulated offset as it is, and the payload projection of a root enum
    starts at 0 and spans the payload's own count. *)
Theorem enum_layout (allElements : list (option SILType)) :
  maxCount (payloadCounts allElements) + 1 < UnsignedModulus ->
  TypeSubElementCount (EnumType allElements)
  = 1 + maxCount (payloadCounts allElements)
  /\ (forall elt, In (Some elt) allElements ->
        0 <= TypeSubElementCount elt
          <= TypeSubElementCount (EnumType allElements) - 1)
  /\ (forall off id ty kind operand root,
        kind = UncheckedTakeEnumDataAddrInst \/ kind = InitEnumDataAddrInst ->
        id <> valueID root ->
        computeForAddressFrom off (Projection id ty kind operand) root
        = computeForAddressFrom off operand root)
  /\ (forall off id ty operand root,
        id <> valueID root ->
        computeForValueFrom off (Projection id ty UncheckedEnumDataInst operand) root
        = computeForValueFrom off operand root)
  /\ (forall id elt kind enumValue,
        In (Some elt) allElements ->
        kind = UncheckedTakeEnumDataAddrInst \/ kind = InitEnumDataAddrInst ->
        id <> valueID enumValue ->
        rangeForAddress (Projection id elt kind enumValue) enumValue
        = Some (mkRange 0 (TypeSubElementCount elt)))
  /\ (forall id elt enumValue,
        In (Some elt) allElements ->
        id <> valueID enumValue ->
        rangeForValue (Projection id elt UncheckedEnumDataInst enumValue) enumValue
        = Some (mkRange 0 (TypeSubElementCount elt))).
Proof.
  intros Hfit.
  pose proof (maxCount_nonneg (payloadCounts allElements)) as Hmax.
  assert (Hcount : TypeSubElementCount (EnumType allElements)
                   = 1 + maxCount (payloadCounts allElements)).
  { rewrite enum_count_eq, wrapUnsigned_small by lia. lia. }
  split; [exact Hcount|].
  split.
  { intros elt Hin. rewrite Hcount.
    pose proof (TypeSubElementCount_range elt).
    pose proof (maxCount_upper _ _ (payloadCounts_In _ _ Hin)). lia. }
  split.
  { intros off id ty kind operand root Hk Hid.
    apply computeForAddressFrom_transparent; [exact Hid|].
    destruct Hk as [-> | ->]; reflexivity. }
  split.
  { intros off id ty operand root Hid.
    apply computeForValueFrom_transparent; [exact Hid | reflexivity]. }
  split.
  - intros id elt kind enumValue Hin Hk Hid.
    unfold rangeForAddress, computeForAddress.
    rewrite computeForAddressFrom_transparent;
      [| exact Hid | destruct Hk as [-> | ->]; reflexivity].
    rewrite computeForAddressFrom_at_root by reflexivity.
    cbn [getType]. rewrite Z.add_0_l.
    rewrite wrapUnsigned_small by apply TypeSubElementCount_range. reflexivity.
  - intros id elt enumValue Hin Hid.
    unfold rangeForValue, computeForValue.
    rewrite computeForValueFrom_transparent; [| exact Hid | reflexivity].
    rewrite computeForValueFrom_at_root by reflexivity.
    cbn [getType]. rewrite Z.add_0_l.
    rewrite wrapUnsigned_small by apply TypeSubElementCount_range. reflexivity.
Qed.

Lemma enum_layout_witness :
  let payloadB := TupleType [OtherType; OtherType; OtherType] in
  let elements := [Some OtherType; None; Some payloadB] in
  let enumValue := BaseValue 0 (EnumType elements) in
  TypeSubElementCount (EnumType elements) = 4
  /\ rangeForAddress (Projection 1 OtherType UncheckedTakeEnumDataAddrInst enumValue) enumValue
     = Some (mkRange 0 1)
  /\ rangeForAddress (Projection 2 payloadB UncheckedTakeEnumDataAddrInst enumValue) enumValue
     = Some (mkRange 0 3).
Proof.
  intros payloadB elements enumValue.
  assert (Hfit : maxCount (payloadCounts elements) + 1 < UnsignedModulus)
    by (vm_compute; reflexivity).
  destruct (enum_layout elements Hfit) as (Hcount & _ & _ & _ & Hrange & _).
  split; [rewrite Hcount; reflexivity|].
  split.
  - rewrite (Hrange 1%nat OtherType UncheckedTakeEnumDataAddrInst enumValue);
      [reflexivity | simpl; auto | auto | simpl; lia].
  - rewrite (Hrange 2%nat payloadB UncheckedTakeEnumDataAddrInst enumValue);
      [reflexivity | simpl; auto | auto | simpl; lia].
Defined.

(** C8: both offset walks are total functions into an optional offset.  Each
    returns an offset (below [2^32]) exactly when the chain leads to the root
    through projection kinds it knows, and the explicit unknown result [None]
    otherwise, in particular at the first projection of a kind it does not
    know; the wrappers it looks through leave the accumulated offset as it
    is. *)
Theorem offset_computation_total (v root : SILValue) :
  (is_Some (computeForAddress v root) <-> LeadsToRoot addressKindRecognized root v)
  /\ (computeForAddress v root = None <-> ~ LeadsToRoot addressKindRecognized root v)
  /\ (is_Some (computeForValue v root) <-> LeadsToRoot valueKindRecognized root v)
  /\ (computeForValue v root = None <-> ~ LeadsToRoot valueKindRecognized root v)
  /\ (forall r, computeForAddress v root = Some r \/ computeForValue v root = Some r ->
        0 <= r < UnsignedModulus)
  /\ (forall off id ty kind,
        id <> valueID root ->
        (addressKindRecognized kind = false ->
         computeForAddressFrom off (Projection id ty kind v) root = None)
        /\ (valueKindRecognized kind = false ->
            computeForValueFrom off (Projection id ty kind v) root = None))
  /\ (forall off id ty kind,
        id <> valueID root ->
        (In kind [ProjectBoxInst; BeginAccessInst; StoreBorrowInst;
                  MoveOnlyWrapperToCopyableAddrInst] ->
         computeForAddressFrom off (Projection id ty kind v) root
         = computeForAddressFrom off v root)
        /\ (In kind [BeginBorrowInst; CopyValueInst;
                     MoveOnlyWrapperToCopyableValueInst] ->
            computeForValueFrom off (Projection id ty kind v) root
            = computeForValueFrom off v root)).
Proof.
  assert (Ha : is_Some (computeForAddress v root)
               <-> LeadsToRoot addressKindRecognized root v).
  { split; [apply computeForAddressFrom_LeadsToRoot|].
    intros H. apply LeadsToRoot_computeForAddressFrom, H. }
  assert (Hv : is_Some (computeForValue v root)
               <-> LeadsToRoot valueKindRecognized root v).
  { split; [apply computeForValueFrom_LeadsToRoot|].
    intros H. apply LeadsToRoot_computeForValueFrom, H. }
  split; [exact Ha|].
  split; [rewrite <- Ha, eq_None_not_Some; reflexivity|].
  split; [exact Hv|].
  split; [rewrite <- Hv, eq_None_not_Some; reflexivity|].
  split.
  { assert (H0 : 0 <= 0 < UnsignedModulus) by (unfold UnsignedModulus; lia).
    intros r [Hr | Hr].
    - exact (computeForAddressFrom_range _ _ _ _ H0 Hr).
    - exact (computeForValueFrom_range _ _ _ _ H0 Hr). }
  split.
  - intros off id ty kind Hid. split; intros Hk.
    + apply computeForAddressFrom_unrecognized; assumption.
    + apply computeForValueFrom_unrecognized; assumption.
  - intros off id ty kind Hid. split; intros Hk.
    + apply computeForAddressFrom_transparent; [exact Hid|].
      cbn [In] in Hk. destruct Hk as [<-|[<-|[<-|[<-|[]]]]]; reflexivity.
    + apply computeForValueFrom_transparent; [exact Hid|].
      cbn [In] in Hk. destruct Hk as [<-|[<-|[<-|[]]]]; reflexivity.
Qed.

Lemma offset_computation_total_witness :
  let pair := TupleType [OtherType; OtherType] in
  let root := BaseValue 0 (TupleType [pair; OtherType]) in
  let access := Projection 1 (TupleType [pair; OtherType]) BeginAccessInst root in
  let second := Projection 2 OtherType (TupleElementAddrInst 1) access in
  computeForAddress second root = Some 2
  /\ computeForAddress (Projection 3 OtherType OtherInst second) root = None
  /\ computeForAddress (Projection 4 OtherType StoreBorrowInst second) root = Some 2.
Proof.
  intros pair root access second.
  destruct (offset_computation_total second root)
    as (_ & _ & _ & _ & _ & Hunknown & Hwrapper).
  split; [reflexivity|].
  split.
  - apply (Hunknown 0 3%nat OtherType OtherInst); [simpl; lia | reflexivity].
  - unfold computeForAddress.
    rewrite (proj1 (Hwrapper 0 4%nat OtherType StoreBorrowInst ltac:(simpl; lia)));
      [reflexivity | simpl; auto].
Defined.

(** ** Contiguous ranges of a bit vector *)

Lemma visitContiguousRangesFrom_spec (rest : list bool) :
  forall bit current,
    (forall c, current = Some c -> c < bit) ->
    let out := visitContiguousRangesFrom rest bit current in
    match current with
    | None => forall r, In r out -> bit <= startEltOffset r
    | Some c => exists e out', out = mkRange c e :: out' /\ bit <= e
                               /\ forall r, In r out' -> e < startEltOffset r
    end
    /\ (forall r, In r out ->
          startEltOffset r < endEltOffset r <= bit + Z.of_nat (length rest))
    /\ StronglySorted gapBefore out
    /\ (forall j : nat, (j < length rest)%nat ->
          nth j rest false = true <-> exists r, In r out /\ rangeContains r (bit + Z.of_nat j)).
Proof.
  induction rest as [|isSet rest IH]; intros bit current Hcur.
  - destruct current as [c|]; cbn [visitContiguousRangesFrom length].
    + specialize (Hcur c eq_refl).
      split; [exists bit, []; repeat split; [lia | intros r []]|].
      split; [intros r [<-|[]]; simpl; lia|].
      split; [repeat constructor|]. intros j Hj. lia.
    + split; [intros r []|]. split; [intros r []|].
      split; [constructor|]. intros j Hj. lia.
  - cbn [visitContiguousRangesFrom length].
    destruct current as [c|]; destruct isSet; cbn [negb].
    + (* inside a run, the bit is set: the run goes on *)
      specialize (Hcur c eq_refl).
      destruct (IH (bit + 1) (Some c)) as ((e & out' & Hout & He & Hlater) & Hb & Hs & Hc).
      { intros c' [= <-]. lia. }
      split; [exists e, out'; repeat split; [exact Hout | lia | exact Hlater]|].
      split; [intros r Hr; specialize (Hb r Hr); lia|].
      split; [exact Hs|].
      intros [|j] Hj; cbn [nth].
      * split; [intros _|reflexivity].
        exists (mkRange c e). rewrite Hout. split; [left; reflexivity|].
        unfold rangeContains; simpl. lia.
      * rewrite (Hc j) by lia.
        replace (bit + 1 + Z.of_nat j) with (bit + Z.of_nat (S j)) by lia. reflexivity.
    + (* inside a run, the bit is clear: the run is reported *)
      specialize (Hcur c eq_refl).
      destruct (IH (bit + 1) None) as (Hlater & Hb & Hs & Hc).
      { intros c' [=]. }
      split.
      { exists bit, (visitContiguousRangesFrom rest (bit + 1) None).
        repeat split; [lia|]. intros r Hr. specialize (Hlater r Hr). lia. }
      split.
      { intros r [<-|Hr]; [simpl; lia|]. specialize (Hb r Hr). lia. }
      split.
      { constructor; [exact Hs|]. apply List.Forall_forall. intros r Hr.
        specialize (Hlater r Hr). unfold gapBefore; simpl. lia. }
      intros [|j] Hj; cbn [nth].
      * split; [discriminate|]. intros (r & [<-|Hr] & Hin).
        -- unfold rangeContains in Hin; simpl in Hin. lia.
        -- specialize (Hlater r Hr). unfold rangeContains in Hin. lia.
      * rewrite (Hc j) by lia.
        replace (bit + 1 + Z.of_nat j) with (bit + Z.of_nat (S j)) by lia.
        split.
        -- intros (r & Hr & Hin). exists r. split; [right; exact Hr | exact Hin].
        -- intros (r & [<-|Hr] & Hin).
           ++ unfold rangeContains in Hin; simpl in Hin. lia.
           ++ exists r. split; assumption.
    + (* outside a run, the bit is set: a run starts here *)
      destruct (IH (bit + 1) (Some bit)) as ((e & out' & Hout & He & Hlater) & Hb & Hs & Hc).
      { intros c' [= <-]. lia. }
      split.
      { intros r Hr. rewrite Hout in Hr. destruct Hr as [<-|Hr]; [simpl; lia|].
        specialize (Hlater r Hr). lia. }
      split; [intros r Hr; specialize (Hb r Hr); lia|].
      split; [exact Hs|].
      intros [|j] Hj; cbn [nth].
      * split; [intros _|reflexivity].
        exists (mkRange bit e). rewrite Hout. split; [left; reflexivity|].
        unfold rangeContains; simpl. lia.
      * rewrite (Hc j) by lia.
        replace (bit + 1 + Z.of_nat j) with (bit + Z.of_nat (S j)) by lia. reflexivity.
    + (* outside a run, the bit is clear *)
      destruct (IH (bit + 1) None) as (Hlater & Hb & Hs & Hc).
      { intros c' [=]. }
      split; [intros r Hr; specialize (Hlater r Hr); lia|].
      split; [intros r Hr; specialize (Hb r Hr); lia|].
      split; [exact Hs|].
      intros [|j] Hj; cbn [nth].
      * split; [discriminate|]. intros (r & Hr & Hin).
        specialize (Hlater r Hr). unfold rangeContains in Hin. lia.
      * rewrite (Hc j) by lia.
        replace (bit + 1 + Z.of_nat j) with (bit + Z.of_nat (S j)) by lia. reflexivity.
Qed.
Lemma StronglySorted_trichotomy {A} (R : A -> A -> Prop) (l : list A) :
  StronglySorted R l ->
  forall a b, In a l -> In b l -> a = b \/ R a b \/ R b a.
Proof.
  induction 1 as [|x l Hsorted IH Hall]; intros a b Ha Hb; [destruct Ha|].
  rewrite List.Forall_forall in Hall.
  destruct Ha as [<-|Ha], Hb as [<-|Hb]; auto.
Qed.

Lemma StronglySorted_NoDup {A} (R : A -> A -> Prop) (l : list A) :
  StronglySorted R l -> (forall a, In a l -> ~ R a a) -> List.NoDup l.
Proof.
  induction 1 as [|x l Hsorted IH Hall]; intros Hirr; constructor.
  - intros Hin. rewrite List.Forall_forall in Hall.
    apply (Hirr x); [left; reflexivity | apply Hall, Hin].
  - apply IH. intros a Ha. apply Hirr. right. exact Ha.
Qed.

Lemma visitContiguousRanges_unfold (bits : list bool) :
  visitContiguousRanges bits = visitContiguousRangesFrom bits 0 None.
Proof. destruct bits; reflexivity. Qed.

Lemma testBit_beyond (bits : list bool) (i : nat) :
  (length bits <= i)%nat -> testBit bits i = false.
Proof. intros H. unfold testBit. apply nth_overflow. exact H. Qed.

Example visitContiguousRanges_example :
  visitContiguousRanges [true; true; false; true; false] = [mkRange 0 2; mkRange 3 4]
  /\ visitContiguousRanges [false; true] = [mkRange 1 2]
  /\ visitContiguousRanges [false; false] = []
  /\ visitContiguousRanges [] = [].
Proof. repeat split; reflexivity. Qed.

(** C10: the callback is called exactly once per maximal contiguous run of
    set bits, in increasing order; the ranges are non-empty, lie within the
    vector, are pairwise disjoint (each ends strictly before the next
    starts), and together contain exactly the set bits; an empty vector or
    one with no set bit yields no call. *)
Theorem visitContiguousRanges_spec (bits : list bool) :
  let calls := visitContiguousRanges bits in
  (forall r, In r calls <-> MaximalRun bits r)
  /\ List.NoDup calls
  /\ StronglySorted gapBefore calls
  /\ (forall r, In r calls ->
        0 <= startEltOffset r < endEltOffset r
        /\ endEltOffset r <= Z.of_nat (length bits))
  /\ (forall r1 r2 i, In r1 calls -> In r2 calls ->
        rangeContains r1 i -> rangeContains r2 i -> r1 = r2)
  /\ (forall i : nat, testBit bits i = true
                      <-> exists r, In r calls /\ rangeContains r (Z.of_nat i))
  /\ (bits = [] \/ (forall i, testBit bits i = false) -> calls = []).
Proof.
  intros calls. subst calls. rewrite visitContiguousRanges_unfold.
  destruct (visitContiguousRangesFrom_spec bits 0 None) as (Hlo & Hb & Hs & Hc).
  { intros c [=]. }
  cbn zeta in *. rewrite Z.add_0_l in Hb.
  set (calls := visitContiguousRangesFrom bits 0 None) in *.
  assert (Hbounds : forall r, In r calls ->
            0 <= startEltOffset r < endEltOffset r
            /\ endEltOffset r <= Z.of_nat (length bits)).
  { intros r Hr. specialize (Hlo r Hr). specialize (Hb r Hr). lia. }
  assert (Hcover : forall i : nat, testBit bits i = true
            <-> exists r, In r calls /\ rangeContains r (Z.of_nat i)).
  { intros i. destruct (Nat.lt_ge_cases i (length bits)) as [Hi|Hi].
    - unfold testBit. rewrite (Hc i Hi). rewrite Z.add_0_l. reflexivity.
    - rewrite testBit_beyond by exact Hi. split; [discriminate|].
      intros (r & Hr & Hin). specialize (Hbounds r Hr).
      unfold rangeContains in Hin. lia. }
  assert (Hdisj : forall r1 r2 i, In r1 calls -> In r2 calls ->
            rangeContains r1 i -> rangeContains r2 i -> r1 = r2).
  { intros r1 r2 i H1 H2 Hi1 Hi2.
    destruct (StronglySorted_trichotomy _ _ Hs r1 r2 H1 H2) as [Heq|[Hg|Hg]];
      [exact Heq | |]; unfold gapBefore, rangeContains in *; lia. }
  assert (Hmax : forall r, In r calls -> MaximalRun bits r).
  { intros r Hr. destruct (Hbounds r Hr) as [Hr1 Hr2].
    exists (Z.to_nat (startEltOffset r)), (Z.to_nat (endEltOffset r)).
    split; [destruct r; simpl in *; f_equal; lia|].
    split; [lia|].
    split.
    { intros i Hi. apply Hcover. exists r. split; [exact Hr|].
      unfold rangeContains. lia. }
    split.
    - destruct (Nat.eq_dec (Z.to_nat (startEltOffset r)) 0%nat) as [Hz|Hnz]; [left; exact Hz|].
      right. destruct (testBit bits (Z.to_nat (startEltOffset r) - 1)) eqn:Ht; [|reflexivity].
      apply Hcover in Ht. destruct Ht as (r' & Hr' & Hin).
      destruct (Hbounds r' Hr') as [Hr1' Hr2'].
      destruct (StronglySorted_trichotomy _ _ Hs r r' Hr Hr') as [Heq|[Hg|Hg]];
        [subst r'| |]; unfold gapBefore, rangeContains in *; lia.
    - destruct (testBit bits (Z.to_nat (endEltOffset r))) eqn:Ht; [|reflexivity].
      apply Hcover in Ht. destruct Ht as (r' & Hr' & Hin).
      destruct (Hbounds r' Hr') as [Hr1' Hr2'].
      destruct (StronglySorted_trichotomy _ _ Hs r r' Hr Hr') as [Heq|[Hg|Hg]];
        [subst r'| |]; unfold gapBefore, rangeContains in *; lia. }
  split.
  { intros r. split; [apply Hmax|].
    intros (s & e & -> & Hse & Hset & Hbefore & Hafter).
    assert (Hs_set : testBit bits s = true) by (apply Hset; lia).
    apply Hcover in Hs_set. destruct Hs_set as (r' & Hr' & Hin).
    destruct (Hmax r' Hr') as (s' & e' & -> & Hse' & Hset' & Hbefore' & Hafter').
    unfold rangeContains in Hin. simpl in Hin.
    assert (s' = s).
    { destruct (Nat.eq_dec s' s) as [|Hne]; [assumption|].
      assert (Hp : testBit bits (s - 1) = true) by (apply Hset'; lia).
      destruct Hbefore as [->|Hbefore]; [lia | congruence]. }
    subst s'.
    assert (e' = e).
    { destruct (Nat.lt_trichotomy e' e) as [Hlt|[Heq|Hgt]]; [|assumption|].
      - rewrite Hset in Hafter' by lia. discriminate.
      - rewrite Hset' in Hafter by lia. discriminate. }
    subst e'. exact Hr'. }
  split.
  { apply (StronglySorted_NoDup _ _ Hs). intros r Hr Hg.
    specialize (Hbounds r Hr). unfold gapBefore in Hg. lia. }
  split; [exact Hs|].
  split; [exact Hbounds|].
  split; [exact Hdisj|].
  split; [exact Hcover|].
  intros Hnone. destruct calls as [|r calls'] eqn:Hcalls; [reflexivity|].
  exfalso.
  assert (Hr : In r (r :: calls')) by (left; reflexivity).
  destruct (Hmax r Hr) as (s & e & -> & Hse & Hset & _).
  destruct Hnone as [->|Hnone]; [simpl in Hse; lia|].
  specialize (Hset s ltac:(lia)). rewrite Hnone in Hset. discriminate.
Qed.
(** ** Block liveness: promotion is monotone *)

Lemma IsLive_le_refl a : IsLive_le a a.
Proof. unfold IsLive_le. lia. Qed.

Lemma IsLive_le_trans a b c : IsLive_le a b -> IsLive_le b c -> IsLive_le a c.
Proof. unfold IsLive_le. lia. Qed.

Lemma IsLive_le_max_l a b : IsLive_le a (IsLive_max a b).
Proof. destruct a, b; unfold IsLive_le; simpl; lia. Qed.

Lemma IsLive_le_LiveOut a : IsLive_le LiveOut a -> a = LiveOut.
Proof. destruct a; unfold IsLive_le; simpl; intros H; try lia; reflexivity. Qed.

Lemma LiveBlocks_le_refl live : LiveBlocks_le live live.
Proof. intros bb bitNo. apply IsLive_le_refl. Qed.

Lemma LiveBlocks_le_trans a b c :
  LiveBlocks_le a b -> LiveBlocks_le b c -> LiveBlocks_le a c.
Proof. intros H1 H2 bb bitNo. eapply IsLive_le_trans; [apply H1 | apply H2]. Qed.

Lemma getBlockLiveness_markBlockLive live bb bitNo isLive bb' bitNo' :
  getBlockLiveness (markBlockLive live bb bitNo isLive) bb' bitNo'
  = if decide (bb' = bb /\ bitNo' = bitNo
               /\ (bitNo < match liveBlocks live !! bb with
                           | Some bits => length bits
                           | None => numBitsToTrack live
                           end)%nat)
    then IsLive_max (getBlockLiveness live bb bitNo) isLive
    else getBlockLiveness live bb' bitNo'.
Proof.
  unfold getBlockLiveness, markBlockLive.
  destruct (liveBlocks live !! bb) as [bits|] eqn:Hbb; cbn [liveBlocks].
  - destruct (decide (bb' = bb)) as [->|Hne].
    + rewrite lookup_insert_eq, Hbb.
      destruct (decide (bitNo' = bitNo)) as [->|Hnb].
      * destruct (decide (bitNo < length bits)%nat) as [Hlt|Hge].
        -- rewrite list_lookup_insert_eq by exact Hlt.
           rewrite decide_True by auto. reflexivity.
        -- rewrite list_insert_ge by lia.
           rewrite decide_False by tauto. reflexivity.
      * rewrite list_lookup_insert_ne by congruence.
        rewrite decide_False by tauto. reflexivity.
    + rewrite lookup_insert_ne by congruence.
      rewrite decide_False by tauto. reflexivity.
  - destruct (decide (bb' = bb)) as [->|Hne].
    + rewrite lookup_insert_eq, Hbb.
      destruct (decide (bitNo' = bitNo)) as [->|Hnb].
      * destruct (decide (bitNo < numBitsToTrack live)%nat) as [Hlt|Hge].
        -- rewrite list_lookup_insert_eq by (rewrite length_replicate; exact Hlt).
           rewrite decide_True by auto. reflexivity.
        -- rewrite list_insert_ge by (rewrite length_replicate; lia).
           rewrite decide_False by tauto.
           rewrite (proj1 (lookup_replicate_None _ _ _)) by lia. reflexivity.
      * rewrite list_lookup_insert_ne by congruence.
        rewrite decide_False by tauto.
        destruct (decide (bitNo' < numBitsToTrack live)%nat) as [Hlt|Hge].
        -- rewrite lookup_replicate_2 by exact Hlt. reflexivity.
        -- rewrite (proj1 (lookup_replicate_None _ _ _)) by lia. reflexivity.
    + rewrite lookup_insert_ne by congruence.
      rewrite decide_False by tauto. reflexivity.
Qed.

Lemma markBlockLive_le live bb bitNo isLive :
  LiveBlocks_le live (markBlockLive live bb bitNo isLive).
Proof.
  intros bb' bitNo'. rewrite getBlockLiveness_markBlockLive.
  case_decide as H; [|apply IsLive_le_refl].
  destruct H as (-> & -> & _). apply IsLive_le_max_l.
Qed.

Lemma markPredecessor_le bitNo live worklist predBlock :
  LiveBlocks_le live (markPredecessor bitNo (live, worklist) predBlock).1.
Proof.
  unfold markPredecessor.
  destruct (getBlockLiveness live predBlock bitNo); cbn [fst];
    first [apply markBlockLive_le | apply LiveBlocks_le_refl].
Qed.

Lemma fold_markPredecessor_le bitNo preds :
  forall live worklist,
    LiveBlocks_le live (fold_left (markPredecessor bitNo) preds (live, worklist)).1.
Proof.
  induction preds as [|p preds IH]; intros live worklist; cbn [fold_left].
  - apply LiveBlocks_le_refl.
  - destruct (markPredecessor bitNo (live, worklist) p) as [live1 w1] eqn:E.
    eapply LiveBlocks_le_trans; [|apply IH].
    pose proof (markPredecessor_le bitNo live worklist p) as H.
    rewrite E in H. exact H.
Qed.

Lemma propagateToPredecessors_le F popFrom bitNo fuel :
  forall live worklist live',
    propagateToPredecessors F popFrom bitNo fuel live worklist = Some live' ->
    LiveBlocks_le live live'.
Proof.
  induction fuel as [|fuel IH]; intros live worklist live' H;
    cbn [propagateToPredecessors] in H; [discriminate|].
  destruct (pop popFrom worklist) as [[block worklist']|].
  - destruct (fold_left (markPredecessor bitNo) (getPredecessorBlocks F block)
                (live, worklist')) as [live1 w1] eqn:E.
    eapply LiveBlocks_le_trans; [|eapply IH; exact H].
    pose proof (fold_markPredecessor_le bitNo (getPredecessorBlocks F block)
                  live worklist') as Hf.
    rewrite E in Hf. exact Hf.
  - injection H as <-. apply LiveBlocks_le_refl.
Qed.

Lemma computeScalarUseBlockLiveness_le F popFrom live userBB bitNo live' :
  computeScalarUseBlockLiveness F popFrom live userBB bitNo = Some live' ->
  LiveBlocks_le live live'.
Proof.
  unfold computeScalarUseBlockLiveness. intros H.
  eapply LiveBlocks_le_trans; [apply markBlockLive_le|].
  eapply propagateToPredecessors_le. exact H.
Qed.

Lemma updateForUseBit_le F popFrom bb useBeforeDefBits live bitNo isLive live' :
  updateForUseBit F popFrom bb useBeforeDefBits live bitNo isLive = Some live' ->
  LiveBlocks_le live live'.
Proof.
  unfold updateForUseBit. intros H.
  destruct isLive; [eapply computeScalarUseBlockLiveness_le; exact H | |];
    (destruct (negb (testBit useBeforeDefBits bitNo));
     [injection H as <-; apply LiveBlocks_le_refl
     | eapply computeScalarUseBlockLiveness_le; exact H]).
Qed.

Lemma updateForUseLoop_le F popFrom bb useBeforeDefBits bitsAndLiveness :
  forall live live',
    updateForUseLoop F popFrom bb useBeforeDefBits live bitsAndLiveness = Some live' ->
    LiveBlocks_le live live'.
Proof.
  induction bitsAndLiveness as [|[bitNo isLive] rest IH]; intros live live' H;
    cbn [updateForUseLoop] in H.
  - injection H as <-. apply LiveBlocks_le_refl.
  - destruct (updateForUseBit F popFrom bb useBeforeDefBits live bitNo isLive)
      as [live1|] eqn:E; [|discriminate].
    eapply LiveBlocks_le_trans; [eapply updateForUseBit_le; exact E | eapply IH; exact H].
Qed.

Lemma updateForUse_le F popFrom live user startBitNo endBitNo useBeforeDefBits live' :
  updateForUse F popFrom live user startBitNo endBitNo useBeforeDefBits = Some live' ->
  LiveBlocks_le live live'.
Proof. unfold updateForUse. apply updateForUseLoop_le. Qed.

Lemma updateForUseOneBit_le F popFrom live user bitNo isUserBeforeDef live' :
  updateForUseOneBit F popFrom live user bitNo isUserBeforeDef = Some live' ->
  LiveBlocks_le live live'.
Proof.
  unfold updateForUseOneBit. intros H.
  destruct (getBlockLiveness live (getParent F user) bitNo);
    [eapply computeScalarUseBlockLiveness_le; exact H | |];
    (destruct (negb isUserBeforeDef);
     [injection H as <-; apply LiveBlocks_le_refl
     | eapply computeScalarUseBlockLiveness_le; exact H]).
Qed.

Lemma updateForUseSetBits_le F popFrom user useBeforeDefBits bitNos :
  forall live live',
    updateForUseSetBits F popFrom user useBeforeDefBits live bitNos = Some live' ->
    LiveBlocks_le live live'.
Proof.
  induction bitNos as [|bitNo rest IH]; intros live live' H;
    cbn [updateForUseSetBits] in H.
  - injection H as <-. apply LiveBlocks_le_refl.
  - destruct (updateForUseOneBit F popFrom live user bitNo _) as [live1|] eqn:E;
      [|discriminate].
    eapply LiveBlocks_le_trans; [eapply updateForUseOneBit_le; exact E | eapply IH; exact H].
Qed.

Lemma runCall_le {Users} F popFrom (ops : UserMapOps Users) liveness call liveness' :
  runCall F popFrom ops liveness call = Some liveness' ->
  LiveBlocks_le (liveBlocksOf liveness) (liveBlocksOf liveness').
Proof.
  unfold runCall. intros H.
  destruct call;
    match type of H with
    | match ?c with _ => _ end = _ => destruct c as [live1|] eqn:E; [|discriminate]
    end;
    injection H as <-; cbn [liveBlocksOf];
    first [eapply updateForUse_le; exact E | eapply updateForUseSetBits_le; exact E].
Qed.

Lemma runCalls_le {Users} F popFrom (ops : UserMapOps Users) calls :
  forall liveness liveness',
    runCalls F popFrom ops liveness calls = Some liveness' ->
    LiveBlocks_le (liveBlocksOf liveness) (liveBlocksOf liveness').
Proof.
  induction calls as [|call rest IH]; intros liveness liveness' H; cbn [runCalls] in H.
  - injection H as <-. apply LiveBlocks_le_refl.
  - destruct (runCall F popFrom ops liveness call) as [liveness1|] eqn:E; [|discriminate].
    eapply LiveBlocks_le_trans; [eapply runCall_le; exact E | eapply IH; exact H].
Qed.

(** ** Block liveness: the worklist loop ends *)

Lemma worklistInFunction_size F w :
  worklistInFunction F w -> (size (visitedBlocks w) <= numBlocks F)%nat.
Proof.
  intros H. unfold worklistInFunction in H.
  apply subseteq_size in H. rewrite size_set_seq in H. exact H.
Qed.

Lemma push_remaining F block w :
  (block < numBlocks F)%nat ->
  block ∉ visitedBlocks w ->
  worklistInFunction F w ->
  worklistInFunction F (push block w)
  /\ remainingPops F (push block w) = remainingPops F w.
Proof.
  intros Hlt Hnew Hin.
  assert (Hin' : worklistInFunction F (push block w)).
  { unfold worklistInFunction, push in *. cbn [visitedBlocks].
    intros x Hx. apply elem_of_union in Hx as [Hx|Hx].
    - apply elem_of_singleton in Hx as ->. apply elem_of_set_seq. lia.
    - apply Hin, Hx. }
  split; [exact Hin'|].
  pose proof (worklistInFunction_size F _ Hin') as Hsize.
  unfold remainingPops, push in *. cbn [visitedBlocks pendingBlocks length] in *.
  assert (Hdisj : ({[block]} : gset nat) ## visitedBlocks w)
    by (apply disjoint_singleton_l; exact Hnew).
  rewrite (size_union _ _ Hdisj) in Hsize. rewrite (size_union _ _ Hdisj).
  rewrite size_singleton in Hsize. rewrite size_singleton. lia.
Qed.

Lemma pushIfNotVisited_remaining F block w :
  (block < numBlocks F)%nat ->
  worklistInFunction F w ->
  worklistInFunction F (pushIfNotVisited block w)
  /\ remainingPops F (pushIfNotVisited block w) = remainingPops F w.
Proof.
  intros Hlt Hin. unfold pushIfNotVisited.
  case_decide as Hv; [split; [exact Hin | reflexivity]|].
  apply push_remaining; assumption.
Qed.

Lemma fold_markPredecessor_remaining F bitNo preds :
  (forall p, In p preds -> (p < numBlocks F)%nat) ->
  forall live w,
    worklistInFunction F w ->
    worklistInFunction F (fold_left (markPredecessor bitNo) preds (live, w)).2
    /\ remainingPops F (fold_left (markPredecessor bitNo) preds (live, w)).2
       = remainingPops F w.
Proof.
  induction preds as [|p preds IH]; intros Hpreds live w Hin; cbn [fold_left].
  - split; [exact Hin | reflexivity].
  - assert (Hp : (p < numBlocks F)%nat) by (apply Hpreds; left; reflexivity).
    assert (Hrest : forall q, In q preds -> (q < numBlocks F)%nat)
      by (intros q Hq; apply Hpreds; right; exact Hq).
    unfold markPredecessor at 2 4.
    destruct (getBlockLiveness live p bitNo).
    + destruct (pushIfNotVisited_remaining F p w Hp Hin) as [Hin' Hrem].
      destruct (IH Hrest (markBlockLive live p bitNo LiveOut)
                  (pushIfNotVisited p w) Hin') as [H1 H2].
      split; [exact H1 | rewrite H2; exact Hrem].
    + apply IH; assumption.
    + apply IH; assumption.
Qed.

Lemma pop_remaining F popFrom w block w' :
  LawfulPop popFrom ->
  pop popFrom w = Some (block, w') ->
  visitedBlocks w' = visitedBlocks w
  /\ remainingPops F w = S (remainingPops F w').
Proof.
  intros Hlawful Hpop. unfold pop in Hpop.
  specialize (Hlawful (pendingBlocks w)).
  destruct (popFrom (pendingBlocks w)) as [[b rest]|]; [|discriminate].
  injection Hpop as <- <-. cbn [visitedBlocks].
  split; [reflexivity|].
  unfold remainingPops. cbn [pendingBlocks visitedBlocks].
  apply Permutation_length in Hlawful. rewrite Hlawful. simpl. lia.
Qed.

Lemma propagateToPredecessors_terminates F popFrom bitNo :
  LawfulPop popFrom ->
  predecessorsInFunction F ->
  forall fuel live w,
    worklistInFunction F w ->
    (remainingPops F w < fuel)%nat ->
    is_Some (propagateToPredecessors F popFrom bitNo fuel live w).
Proof.
  intros Hlawful Hpreds.
  induction fuel as [|fuel IH]; intros live w Hin Hfuel; [lia|].
  cbn [propagateToPredecessors].
  destruct (pop popFrom w) as [[block w']|] eqn:Hpop; [|eauto].
  destruct (pop_remaining F popFrom w block w' Hlawful Hpop) as [Hvis Hrem].
  assert (Hin' : worklistInFunction F w').
  { unfold worklistInFunction in *. rewrite Hvis. exact Hin. }
  destruct (fold_markPredecessor_remaining F bitNo (getPredecessorBlocks F block)
              (Hpreds block) live w' Hin') as [Hin'' Hrem''].
  destruct (fold_left (markPredecessor bitNo) (getPredecessorBlocks F block) (live, w'))
    as [live1 w1].
  cbn [snd] in *. apply IH; [exact Hin''|]. lia.
Qed.

Lemma computeScalarUseBlockLiveness_terminates F popFrom live userBB bitNo :
  LawfulPop popFrom ->
  predecessorsInFunction F ->
  (userBB < numBlocks F)%nat ->
  is_Some (computeScalarUseBlockLiveness F popFrom live userBB bitNo).
Proof.
  intros Hlawful Hpreds Huser. unfold computeScalarUseBlockLiveness.
  assert (Hempty : worklistInFunction F emptyWorklist).
  { unfold worklistInFunction, emptyWorklist. cbn [visitedBlocks]. set_solver. }
  destruct (push_remaining F userBB emptyWorklist Huser) as [Hin Hrem];
    [cbn; set_solver | exact Hempty |].
  apply propagateToPredecessors_terminates; try assumption.
  rewrite Hrem. unfold remainingPops, emptyWorklist.
  cbn [pendingBlocks visitedBlocks length]. rewrite size_empty. lia.
Qed.

Lemma updateForUseLoop_terminates F popFrom bb useBeforeDefBits bitsAndLiveness :
  LawfulPop popFrom ->
  predecessorsInFunction F ->
  (bb < numBlocks F)%nat ->
  forall live,
    is_Some (updateForUseLoop F popFrom bb useBeforeDefBits live bitsAndLiveness).
Proof.
  intros Hlawful Hpreds Hbb.
  induction bitsAndLiveness as [|[bitNo isLive] rest IH]; intros live;
    cbn [updateForUseLoop]; [eauto|].
  assert (Hbit : is_Some (updateForUseBit F popFrom bb useBeforeDefBits live bitNo isLive)).
  { unfold updateForUseBit.
    destruct isLive; try destruct (negb _); eauto;
      apply computeScalarUseBlockLiveness_terminates; assumption. }
  destruct Hbit as [live1 ->]. apply IH.
Qed.

Lemma updateForUseSetBits_terminates F popFrom user useBeforeDefBits bitNos :
  LawfulPop popFrom ->
  predecessorsInFunction F ->
  (getParent F user < numBlocks F)%nat ->
  forall live,
    is_Some (updateForUseSetBits F popFrom user useBeforeDefBits live bitNos).
Proof.
  intros Hlawful Hpreds Hbb.
  induction bitNos as [|bitNo rest IH]; intros live;
    cbn [updateForUseSetBits]; [eauto|].
  assert (Hbit : is_Some (updateForUseOneBit F popFrom live user bitNo
                            (testBit useBeforeDefBits bitNo))).
  { unfold updateForUseOneBit.
    destruct (getBlockLiveness live (getParent F user) bitNo);
      try destruct (negb _); eauto;
      apply computeScalarUseBlockLiveness_terminates; assumption. }
  destruct Hbit as [live1 ->]. apply IH.
Qed.

Lemma runCall_terminates {Users} F popFrom (ops : UserMapOps Users) liveness call :
  LawfulPop popFrom ->
  predecessorsInFunction F ->
  (getParent F (callUser call) < numBlocks F)%nat ->
  is_Some (runCall F popFrom ops liveness call).
Proof.
  intros Hlawful Hpreds Hbb. unfold runCall.
  destruct call; cbn [callUser] in Hbb.
  - destruct (updateForUseLoop_terminates F popFrom (getParent F user) useBeforeDefBits
                (combine (seq (Z.to_nat (startEltOffset range))
                            (Z.to_nat (endEltOffset range) - Z.to_nat (startEltOffset range)))
                   (map (getBlockLiveness (liveBlocksOf liveness) (getParent F user))
                      (seq (Z.to_nat (startEltOffset range))
                         (Z.to_nat (endEltOffset range) - Z.to_nat (startEltOffset range)))))
                Hlawful Hpreds Hbb (liveBlocksOf liveness)) as [live1 H1].
    unfold updateForUse. rewrite H1. eauto.
  - destruct (updateForUseSetBits_terminates F popFrom user useBeforeDefBits (set_bits bits)
                Hlawful Hpreds Hbb (liveBlocksOf liveness)) as [live1 H1].
    rewrite H1. eauto.
  - destruct (updateForUseLoop_terminates F popFrom (getParent F user) useBeforeDefBits
                (combine (seq (Z.to_nat (startEltOffset range))
                            (Z.to_nat (endEltOffset range) - Z.to_nat (startEltOffset range)))
                   (map (getBlockLiveness (liveBlocksOf liveness) (getParent F user))
                      (seq (Z.to_nat (startEltOffset range))
                         (Z.to_nat (endEltOffset range) - Z.to_nat (startEltOffset range)))))
                Hlawful Hpreds Hbb (liveBlocksOf liveness)) as [live1 H1].
    unfold updateForUse. rewrite H1. eauto.
  - destruct (updateForUseSetBits_terminates F popFrom user useBeforeDefBits (set_bits bits)
                Hlawful Hpreds Hbb (liveBlocksOf liveness)) as [live1 H1].
    rewrite H1. eauto.
Qed.

Lemma runCalls_terminates {Users} F popFrom (ops : UserMapOps Users) calls :
  LawfulPop popFrom ->
  predecessorsInFunction F ->
  (forall call, In call calls -> (getParent F (callUser call) < numBlocks F)%nat) ->
  forall liveness, is_Some (runCalls F popFrom ops liveness calls).
Proof.
  intros Hlawful Hpreds.
  induction calls as [|call rest IH]; intros Hcalls liveness; cbn [runCalls]; [eauto|].
  destruct (runCall_terminates F popFrom ops liveness call Hlawful Hpreds) as [l1 H1].
  { apply Hcalls. left. reflexivity. }
  rewrite H1. apply IH. intros c Hc. apply Hcalls. right. exact Hc.
Qed.

Lemma runCalls_app {Users} F popFrom (ops : UserMapOps Users) calls1 calls2 :
  forall liveness,
    runCalls F popFrom ops liveness (calls1 ++ calls2)
    = match runCalls F popFrom ops liveness calls1 with
      | Some mid => runCalls F popFrom ops mid calls2
      | None => None
      end.
Proof.
  induction calls1 as [|call rest IH]; intros liveness; cbn [runCalls app]; [reflexivity|].
  destruct (runCall F popFrom ops liveness call); [apply IH | reflexivity].
Qed.

Lemma popNewest_lawful : LawfulPop popNewest.
Proof. intros [|b l]; cbn; reflexivity. Qed.

Lemma popOldest_lawful : LawfulPop popOldest.
Proof.
  intros l. unfold popOldest.
  destruct (rev l) as [|b l'] eqn:E.
  - apply (f_equal (@rev nat)) in E. rewrite rev_involutive in E. exact E.
  - rewrite <- (rev_involutive l), E. cbn [rev].
    rewrite Permutation_app_comm. reflexivity.
Qed.

Lemma straightLine_predecessors : predecessorsInFunction straightLine.
Proof.
  intros block pred. cbn.
  destruct block as [|[|[|block]]]; cbn; intros H;
    repeat (destruct H as [<-|H]; [lia|]); destruct H.
Qed.

Lemma updateForUseLoop_noop F popFrom bb useBeforeDefBits live bitsAndLiveness :
  (forall bitNo isLive, In (bitNo, isLive) bitsAndLiveness ->
     isLive <> Dead /\ testBit useBeforeDefBits bitNo = false) ->
  updateForUseLoop F popFrom bb useBeforeDefBits live bitsAndLiveness = Some live.
Proof.
  induction bitsAndLiveness as [|[bitNo isLive] rest IH]; intros H;
    cbn [updateForUseLoop]; [reflexivity|].
  destruct (H bitNo isLive (or_introl eq_refl)) as [Hlive Hbefore].
  unfold updateForUseBit. rewrite Hbefore. cbn [negb].
  destruct isLive; [congruence | |];
    (apply IH; intros b l Hin; apply H; right; exact Hin).
Qed.

Lemma updateForUse_noop F popFrom live user startBitNo endBitNo useBeforeDefBits :
  (forall bitNo, (startBitNo <= bitNo < endBitNo)%nat ->
     getBlockLiveness live (getParent F user) bitNo <> Dead
     /\ testBit useBeforeDefBits bitNo = false) ->
  updateForUse F popFrom live user startBitNo endBitNo useBeforeDefBits = Some live.
Proof.
  intros H. unfold updateForUse. apply updateForUseLoop_noop.
  intros bitNo isLive Hin.
  pose proof (in_combine_l _ _ _ _ Hin) as Hbit.
  apply in_seq in Hbit.
  assert (HisLive : isLive = getBlockLiveness live (getParent F user) bitNo).
  { clear -Hin. revert Hin.
    generalize (seq startBitNo (endBitNo - startBitNo)) as l.
    induction l as [|x l IH]; cbn; [tauto|].
    intros [[= -> ->]|Hin]; [reflexivity | apply IH, Hin]. }
  subst isLive. apply H. lia.
Qed.

(** A use flagged as before the definition runs the propagation again even
    in a block that is [LiveOut]: the block stays [LiveOut], its predecessors
    are promoted.  Here [Mid] holds the definition; the use in [Exit] makes
    [Mid] live out and leaves [Entry] dead; the flagged use in [Mid] then
    makes [Entry] live out. *)
Example use_before_def_propagates_again :
  exists live1 live2,
    updateForUse straightLine popNewest midDefined 10 0 1 [false] = Some live1
    /\ updateForUse straightLine popNewest live1 7 0 1 [true] = Some live2
    /\ getBlockLiveness live1 1 0 = LiveOut
    /\ getBlockLiveness live1 0 0 = Dead
    /\ getBlockLiveness live2 1 0 = LiveOut
    /\ getBlockLiveness live2 0 0 = LiveOut.
Proof.
  assert (H1 : is_Some (updateForUse straightLine popNewest midDefined 10 0 1 [false]))
    by (vm_compute; eauto).
  destruct H1 as [live1 H1]. exists live1.
  assert (H2 : is_Some (updateForUse straightLine popNewest live1 7 0 1 [true])).
  { vm_compute in H1. injection H1 as <-. vm_compute. eauto. }
  destruct H2 as [live2 H2]. exists live2.
  split; [exact H1|]. split; [exact H2|].
  vm_compute in H1. injection H1 as <-.
  vm_compute in H2. injection H2 as <-.
  repeat split; vm_compute; reflexivity.
Qed.

(** C1: over one analysis, that is any sequence of recording calls, cut at
    any point, every call returns and the liveness of every (block, bit)
    pair never decreases; a pair that is [LiveOut] stays [LiveOut]; and
    recording a use of bits that are [LiveOut] in the user's block and not
    flagged as used before their definition changes nothing at all. *)
Theorem liveness_never_decreases {Users : Type} (F : SILFunction) (popFrom : PopOrder)
    (ops : UserMapOps Users) (liveness : FieldSensitivePrunedLiveness Users)
    (calls1 calls2 : list LivenessCall) :
  LawfulPop popFrom ->
  predecessorsInFunction F ->
  (forall call, In call (calls1 ++ calls2) ->
     (getParent F (callUser call) < numBlocks F)%nat) ->
  exists mid final,
    runCalls F popFrom ops liveness calls1 = Some mid
    /\ runCalls F popFrom ops mid calls2 = Some final
    /\ runCalls F popFrom ops liveness (calls1 ++ calls2) = Some final
    /\ (forall bb bitNo,
          IsLive_le (getBlockLiveness (liveBlocksOf liveness) bb bitNo)
                    (getBlockLiveness (liveBlocksOf mid) bb bitNo)
          /\ IsLive_le (getBlockLiveness (liveBlocksOf mid) bb bitNo)
                       (getBlockLiveness (liveBlocksOf final) bb bitNo))
    /\ (forall bb bitNo,
          getBlockLiveness (liveBlocksOf mid) bb bitNo = LiveOut ->
          getBlockLiveness (liveBlocksOf final) bb bitNo = LiveOut)
    /\ (forall user startBitNo endBitNo useBeforeDefBits,
          (forall bitNo, (startBitNo <= bitNo < endBitNo)%nat ->
             getBlockLiveness (liveBlocksOf mid) (getParent F user) bitNo = LiveOut
             /\ testBit useBeforeDefBits bitNo = false) ->
          updateForUse F popFrom (liveBlocksOf mid) user startBitNo endBitNo
            useBeforeDefBits = Some (liveBlocksOf mid)).
Proof.
  intros Hlawful Hpreds Hcalls.
  destruct (runCalls_terminates F popFrom ops calls1 Hlawful Hpreds) with (liveness := liveness)
    as [mid Hmid].
  { intros call Hc. apply Hcalls, in_or_app. left. exact Hc. }
  destruct (runCalls_terminates F popFrom ops calls2 Hlawful Hpreds) with (liveness := mid)
    as [final Hfinal].
  { intros call Hc. apply Hcalls, in_or_app. right. exact Hc. }
  exists mid, final.
  split; [exact Hmid|]. split; [exact Hfinal|].
  split; [rewrite runCalls_app, Hmid; exact Hfinal|].
  pose proof (runCalls_le F popFrom ops calls1 _ _ Hmid) as Hle1.
  pose proof (runCalls_le F popFrom ops calls2 _ _ Hfinal) as Hle2.
  split; [intros bb bitNo; split; [apply Hle1 | apply Hle2]|].
  split.
  - intros bb bitNo Hout. apply IsLive_le_LiveOut. rewrite <- Hout. apply Hle2.
  - intros user startBitNo endBitNo useBeforeDefBits H.
    apply updateForUse_noop. intros bitNo Hbit.
    destruct (H bitNo Hbit) as [Hout Hbefore]. split; [congruence | exact Hbefore].
Qed.

Lemma liveness_never_decreases_witness :
  let use := UpdateForUseRange 10 (mkRange 0 1) true [false] in
  exists mid final,
    runCalls straightLine popNewest noUserMap (mkLiveness entryDefined tt) [use] = Some mid
    /\ runCalls straightLine popNewest noUserMap mid [use] = Some final
    /\ getBlockLiveness (liveBlocksOf mid) 0 0 = LiveOut
    /\ getBlockLiveness (liveBlocksOf mid) 1 0 = LiveOut
    /\ getBlockLiveness (liveBlocksOf mid) 2 0 = LiveWithin
    /\ getBlockLiveness (liveBlocksOf final) 0 0 = LiveOut.
Proof.
  intros use.
  destruct (liveness_never_decreases straightLine popNewest noUserMap
              (mkLiveness entryDefined tt) [use] [use]
              popNewest_lawful straightLine_predecessors)
    as (mid & final & Hmid & Hfinal & _ & _ & Hout & _).
  { intros call Hc. cbn in Hc. destruct Hc as [<-|[<-|[]]]; cbn; lia. }
  exists mid, final.
  split; [exact Hmid|]. split; [exact Hfinal|].
  assert (Hm : Some mid = runCalls straightLine popNewest noUserMap
                            (mkLiveness entryDefined tt) [use])
    by (symmetry; exact Hmid).
  vm_compute in Hm. injection Hm as ->.
  split; [reflexivity|]. split; [reflexivity|]. split; [reflexivity|].
  apply Hout. reflexivity.
Defined.
(** ** The boundary: edges out of live-out blocks *)

Lemma isBoundaryEdge_setBoundaryEdgeBit boundary block bitNo S b :
  isBoundaryEdge (setBoundaryEdgeBit boundary block bitNo) S b
  <-> isBoundaryEdge boundary S b \/ (S = block /\ b = bitNo).
Proof.
  unfold isBoundaryEdge, setBoundaryEdgeBit. cbn [boundaryEdges].
  destruct (decide (S = block)) as [->|Hne].
  - rewrite lookup_insert_eq. cbn [default]. set_solver.
  - rewrite lookup_insert_ne by congruence. tauto.
Qed.

Lemma markDeadSuccessors_edges F live block index boundary S b :
  isBoundaryEdge (markDeadSuccessors F live block index boundary) S b
  <-> isBoundaryEdge boundary S b
      \/ (b = index /\ In S (getSuccessors F block)
          /\ getBlockLiveness live S index = Dead).
Proof.
  unfold markDeadSuccessors.
  generalize (getSuccessors F block) as succs. intros succs. revert boundary.
  induction succs as [|succBB succs IH]; intros boundary; cbn [fold_left In].
  - tauto.
  - rewrite IH.
    destruct (getBlockLiveness live succBB index) eqn:Hlive.
    + rewrite isBoundaryEdge_setBoundaryEdgeBit. split.
      * intros [[H|[-> ->]]|(Hb & Hin & Hd)]; [left; exact H | right; auto | right; auto].
      * intros [H|(Hb & [Heq|Hin] & Hd)];
          [left; left; exact H | left; right; auto | right; auto].
    + split.
      * intros [H|(Hb & Hin & Hd)]; [left; exact H | right; auto].
      * intros [H|(Hb & [Heq|Hin] & Hd)];
          [left; exact H | subst; congruence | right; auto].
    + split.
      * intros [H|(Hb & Hin & Hd)]; [left; exact H | right; auto].
      * intros [H|(Hb & [Heq|Hin] & Hd)];
          [left; exact H | subst; congruence | right; auto].
Qed.

Lemma markDeadSuccessors_users F live block index boundary :
  lastUsers (markDeadSuccessors F live block index boundary) = lastUsers boundary
  /\ deadDefs (markDeadSuccessors F live block index boundary) = deadDefs boundary.
Proof.
  unfold markDeadSuccessors.
  generalize (getSuccessors F block) as succs. intros succs. revert boundary.
  induction succs as [|succBB succs IH]; intros boundary; cbn [fold_left].
  - split; reflexivity.
  - destruct (getBlockLiveness live succBB index);
      destruct (IH (setBoundaryEdgeBit boundary succBB index)) as [H1 H2];
      destruct (IH boundary) as [H3 H4]; split; assumption.
Qed.

Lemma findBoundaryInNonDefBlock_edges F isInterestingUser block bitNo boundary boundary' :
  findBoundaryInNonDefBlock F isInterestingUser block bitNo boundary = Some boundary' ->
  boundaryEdges boundary' = boundaryEdges boundary.
Proof.
  unfold findBoundaryInNonDefBlock.
  destruct (lastInterestingUser _ _ _); [|discriminate].
  intros [= <-]. reflexivity.
Qed.

Lemma findBoundaryInSSADefBlock_edges F isInterestingUser ssaDef bitNo boundary boundary' :
  findBoundaryInSSADefBlock F isInterestingUser ssaDef bitNo boundary = Some boundary' ->
  boundaryEdges boundary' = boundaryEdges boundary.
Proof.
  unfold findBoundaryInSSADefBlock.
  generalize (rev (getInstructions F (getParentBlock F ssaDef))) as reversed.
  induction reversed as [|inst rest IH]; cbn [findBoundaryInSSADefBlockFrom].
  - destruct ssaDef; [discriminate|]. intros [= <-]. reflexivity.
  - case_decide; [intros [= <-]; reflexivity|].
    destruct (isInteresting isInterestingUser inst bitNo); [intros [= <-]; reflexivity|].
    exact IH.
Qed.

Lemma ssaFindBoundariesInBlock_leaves_edges F isInterestingUser range :
  finderLeavesEdges (SSAPrunedLiveRange.findBoundariesInBlock F isInterestingUser range).
Proof.
  intros block bitNo isLiveOut boundary boundary'. unfold SSAPrunedLiveRange.findBoundariesInBlock.
  destruct isLiveOut; [intros [= <-]; reflexivity|].
  destruct (negb (SSAPrunedLiveRange.isDefBlock F range block bitNo)).
  - apply findBoundaryInNonDefBlock_edges.
  - apply findBoundaryInSSADefBlock_edges.
Qed.

Lemma isBoundaryEdge_same_edges boundary boundary' S b :
  boundaryEdges boundary' = boundaryEdges boundary ->
  isBoundaryEdge boundary' S b <-> isBoundaryEdge boundary S b.
Proof. intros H. unfold isBoundaryEdge. rewrite H. tauto. Qed.

Lemma computeBoundaryBit_exact F live finder block boundary index boundary' :
  finderLeavesEdges finder ->
  computeBoundaryBit F live finder block boundary index = Some boundary' ->
  forall S b,
    isBoundaryEdge boundary' S b
    <-> isBoundaryEdge boundary S b
        \/ (b = index /\ deadSuccessorOfLiveOut F live block S b).
Proof.
  intros Hleaves Hbit S b. unfold computeBoundaryBit, deadSuccessorOfLiveOut in *.
  destruct (getBlockLiveness live block index) eqn:Hlive.
  - injection Hbit as <-. split; [tauto|].
    intros [H|(-> & Hout & _)]; [exact H | congruence].
  - rewrite (isBoundaryEdge_same_edges _ _ _ _ (Hleaves _ _ _ _ _ Hbit)).
    split; [tauto|]. intros [H|(-> & Hout & _)]; [exact H | congruence].
  - rewrite (isBoundaryEdge_same_edges _ _ _ _ (Hleaves _ _ _ _ _ Hbit)).
    rewrite markDeadSuccessors_edges. split.
    + intros [H|(-> & Hin & Hd)]; [left; exact H | right; auto].
    + intros [H|(-> & Hout & Hin & Hd)]; [left; exact H | right; auto].
Qed.

Lemma computeBoundaryBits_exact F live finder block indices :
  finderLeavesEdges finder ->
  forall boundary boundary',
    computeBoundaryBits F live finder block boundary indices = Some boundary' ->
    forall S b,
      isBoundaryEdge boundary' S b
      <-> isBoundaryEdge boundary S b
          \/ (In b indices /\ deadSuccessorOfLiveOut F live block S b).
Proof.
  intros Hleaves.
  induction indices as [|index rest IH]; intros boundary boundary' H S b;
    cbn [computeBoundaryBits In] in *.
  - injection H as <-. tauto.
  - destruct (computeBoundaryBit F live finder block boundary index)
      as [boundary1|] eqn:E; [|discriminate].
    rewrite (IH _ _ H), (computeBoundaryBit_exact _ _ _ _ _ _ _ Hleaves E).
    split.
    + intros [[H1|(-> & Hd)]|(Hin & Hd)]; [left; exact H1 | right; auto | right; auto].
    + intros [H1|([->|Hin] & Hd)]; [left; left; exact H1 | left; right; auto | right; auto].
Qed.

Lemma computeBoundaryBlocks_exact F live finder blocks :
  finderLeavesEdges finder ->
  forall boundary boundary',
    computeBoundaryBlocks F live finder boundary blocks = Some boundary' ->
    forall S b,
      isBoundaryEdge boundary' S b
      <-> isBoundaryEdge boundary S b
          \/ (exists B, In B blocks /\ (b < numBitsToTrack live)%nat
                        /\ deadSuccessorOfLiveOut F live B S b).
Proof.
  intros Hleaves.
  induction blocks as [|block rest IH]; intros boundary boundary' H S b;
    cbn [computeBoundaryBlocks In] in *.
  - injection H as <-. split; [tauto|]. intros [H|(B & [] & _)]. exact H.
  - destruct (computeBoundaryBits F live finder block boundary (seq 0 (numBitsToTrack live)))
      as [boundary1|] eqn:E; [|discriminate].
    rewrite (IH _ _ H), (computeBoundaryBits_exact _ _ _ _ _ Hleaves _ _ E).
    rewrite in_seq. split.
    + intros [[H1|(Hb & Hd)]|(B & Hin & Hb & Hd)].
      * left. exact H1.
      * right. exists block. split; [left; reflexivity|]. split; [lia | exact Hd].
      * right. exists B. auto.
    + intros [H1|(B & [<-|Hin] & Hb & Hd)].
      * left. left. exact H1.
      * left. right. split; [lia | exact Hd].
      * right. exists B. auto.
Qed.

Lemma computeBoundaryBit_at_least F live finder block boundary index boundary' :
  finderKeepsEdges finder ->
  computeBoundaryBit F live finder block boundary index = Some boundary' ->
  forall S b,
    isBoundaryEdge boundary S b
    \/ (b = index /\ deadSuccessorOfLiveOut F live block S b) ->
    isBoundaryEdge boundary' S b.
Proof.
  intros Hkeeps Hbit S b. unfold computeBoundaryBit, deadSuccessorOfLiveOut in *.
  destruct (getBlockLiveness live block index) eqn:Hlive.
  - injection Hbit as <-. intros [H|(-> & Hout & _)]; [exact H | congruence].
  - intros [H|(-> & Hout & _)]; [|congruence].
    exact (Hkeeps _ _ _ _ _ Hbit S b H).
  - intros H. apply (Hkeeps _ _ _ _ _ Hbit S b).
    apply markDeadSuccessors_edges.
    destruct H as [H|(-> & Hout & Hin & Hd)]; [left; exact H | right; auto].
Qed.

Lemma computeBoundaryBits_at_least F live finder block indices :
  finderKeepsEdges finder ->
  forall boundary boundary',
    computeBoundaryBits F live finder block boundary indices = Some boundary' ->
    forall S b,
      isBoundaryEdge boundary S b
      \/ (In b indices /\ deadSuccessorOfLiveOut F live block S b) ->
      isBoundaryEdge boundary' S b.
Proof.
  intros Hkeeps.
  induction indices as [|index rest IH]; intros boundary boundary' H S b;
    cbn [computeBoundaryBits In] in *.
  - injection H as <-. intros [H|[[] _]]. exact H.
  - destruct (computeBoundaryBit F live finder block boundary index)
      as [boundary1|] eqn:E; [|discriminate].
    intros Hor. apply (IH _ _ H).
    destruct Hor as [H1|([->|Hin] & Hd)].
    + left. apply (computeBoundaryBit_at_least _ _ _ _ _ _ _ Hkeeps E). left. exact H1.
    + left. apply (computeBoundaryBit_at_least _ _ _ _ _ _ _ Hkeeps E). right. auto.
    + right. auto.
Qed.

Lemma computeBoundaryBlocks_at_least F live finder blocks :
  finderKeepsEdges finder ->
  forall boundary boundary',
    computeBoundaryBlocks F live finder boundary blocks = Some boundary' ->
    forall S b,
      isBoundaryEdge boundary S b
      \/ (exists B, In B blocks /\ (b < numBitsToTrack live)%nat
                    /\ deadSuccessorOfLiveOut F live B S b) ->
      isBoundaryEdge boundary' S b.
Proof.
  intros Hkeeps.
  induction blocks as [|block rest IH]; intros boundary boundary' H S b;
    cbn [computeBoundaryBlocks In] in *.
  - injection H as <-. intros [H|(B & [] & _)]. exact H.
  - destruct (computeBoundaryBits F live finder block boundary (seq 0 (numBitsToTrack live)))
      as [boundary1|] eqn:E; [|discriminate].
    intros Hor. apply (IH _ _ H).
    destruct Hor as [H1|(B & [<-|Hin] & Hb & Hd)].
    + left. apply (computeBoundaryBits_at_least _ _ _ _ _ Hkeeps _ _ E). left. exact H1.
    + left. apply (computeBoundaryBits_at_least _ _ _ _ _ Hkeeps _ _ E).
      right. split; [apply in_seq; lia | exact Hd].
    + right. exists B. auto.
Qed.

(** The multi-definition finder only adds to the boundary edges. *)
Lemma scanInstruction_edges defs isInterestingUser bitNo boundary isLive inst :
  boundaryEdges (scanInstruction defs isInterestingUser bitNo (boundary, isLive) inst).1
  = boundaryEdges boundary.
Proof.
  unfold scanInstruction.
  destruct (isDef defs (InstructionNode inst) bitNo), isLive;
    cbn [negb]; destruct (isInteresting isInterestingUser inst bitNo); reflexivity.
Qed.

Lemma scanBlockBackward_edges F defs isInterestingUser block bitNo isLiveOut boundary :
  boundaryEdges (scanBlockBackward F defs isInterestingUser block bitNo isLiveOut boundary).1
  = boundaryEdges boundary.
Proof.
  unfold scanBlockBackward.
  generalize (rev (getInstructions F block)) as reversed. intros reversed.
  revert boundary isLiveOut.
  induction reversed as [|inst rest IH]; intros boundary isLive; cbn [fold_left];
    [reflexivity|].
  destruct (scanInstruction defs isInterestingUser bitNo (boundary, isLive) inst)
    as [boundary1 isLive1] eqn:E.
  rewrite IH.
  pose proof (scanInstruction_edges defs isInterestingUser bitNo boundary isLive inst) as H.
  rewrite E in H. exact H.
Qed.

Lemma markDeadArguments_edges F defs block bitNo boundary :
  boundaryEdges (markDeadArguments F defs block bitNo boundary) = boundaryEdges boundary.
Proof.
  unfold markDeadArguments.
  generalize (getArguments F block) as args. intros args. revert boundary.
  induction args as [|arg rest IH]; intros boundary; cbn [fold_left]; [reflexivity|].
  rewrite IH. destruct (isDef defs (ArgumentNode arg) bitNo); reflexivity.
Qed.

Lemma markEntryEdge_edges F live block bitNo boundary S b :
  isBoundaryEdge (markEntryEdge F live block bitNo boundary) S b
  <-> isBoundaryEdge boundary S b
      \/ (S = block /\ b = bitNo /\ getPredecessorBlocks F block <> []
          /\ allPredecessorsLiveOut F live block bitNo = true).
Proof.
  unfold markEntryEdge.
  destruct (getPredecessorBlocks F block) as [|p preds] eqn:Hp.
  - split; [tauto|]. intros [H|(_ & _ & Hne & _)]; [exact H | congruence].
  - destruct (allPredecessorsLiveOut F live block bitNo).
    + rewrite isBoundaryEdge_setBoundaryEdgeBit. split.
      * intros [H|[-> ->]]; [left; exact H | right; repeat split; congruence].
      * intros [H|(-> & -> & _)]; [left; exact H | right; auto].
    + split; [tauto|]. intros [H|(_ & _ & _ & Hf)]; [exact H | discriminate].
Qed.

Lemma multiDefFindBoundariesInBlock_keeps_edges F live isInterestingUser defs :
  finderKeepsEdges (MultiDefPrunedLiveRange.findBoundariesInBlock F live isInterestingUser defs).
Proof.
  intros block bitNo isLiveOut boundary boundary' Hf S b Hedge.
  unfold MultiDefPrunedLiveRange.findBoundariesInBlock in Hf.
  assert (Hsame : forall bd, boundaryEdges bd = boundaryEdges boundary ->
                             isBoundaryEdge bd S b)
    by (intros bd Hbd; apply (isBoundaryEdge_same_edges _ _ _ _ Hbd); exact Hedge).
  destruct (negb (isDefBlock F defs block bitNo)).
  { destruct isLiveOut; [injection Hf as <-; exact Hedge|].
    apply Hsame. eapply findBoundaryInNonDefBlock_edges. exact Hf. }
  assert (Hmulti :
    (let (boundary1, isLive) :=
       scanBlockBackward F defs isInterestingUser block bitNo isLiveOut boundary in
     if negb isLive
     then Some (markEntryEdge F live block bitNo
                  (markDeadArguments F defs block bitNo boundary1))
     else Some boundary1) = Some boundary' -> isBoundaryEdge boundary' S b).
  { pose proof (scanBlockBackward_edges F defs isInterestingUser block bitNo
                  isLiveOut boundary) as Hscan.
    destruct (scanBlockBackward F defs isInterestingUser block bitNo isLiveOut boundary)
      as [boundary1 isLive]. cbn [fst] in Hscan.
    destruct (negb isLive); intros [= <-].
    - apply markEntryEdge_edges. left. apply Hsame.
      rewrite markDeadArguments_edges. exact Hscan.
    - apply Hsame. exact Hscan. }
  destruct defs as [|def1 [|def2 defs']]; [exact (Hmulti Hf) | | exact (Hmulti Hf)].
  destruct isLiveOut; [injection Hf as <-; exact Hedge|].
  apply Hsame. eapply findBoundaryInSSADefBlock_edges. exact Hf.
Qed.

Example computeBoundary_two_fields :
  computeBoundary argumentBlock twoFieldLive
    (SSAPrunedLiveRange.findBoundariesInBlock argumentBlock fieldAUsers twoFieldDef) emptyBoundary
  = Some (mkBoundary {[10%nat := {[0%nat]}]} ∅ {[InstructionNode 9 := {[1%nat]}]}).
Proof. vm_compute. reflexivity. Qed.

Lemma multiDefFindBoundariesInBlock_own_edge F live isInterestingUser defs
    block bitNo isLiveOut boundary boundary' :
  MultiDefPrunedLiveRange.findBoundariesInBlock F live isInterestingUser defs
    block bitNo isLiveOut boundary
  = Some boundary' ->
  forall S b, S <> block \/ b <> bitNo ->
              isBoundaryEdge boundary' S b <-> isBoundaryEdge boundary S b.
Proof.
  intros Hf S b Hother.
  unfold MultiDefPrunedLiveRange.findBoundariesInBlock in Hf.
  assert (Hsame : forall bd, boundaryEdges bd = boundaryEdges boundary ->
                             isBoundaryEdge bd S b <-> isBoundaryEdge boundary S b)
    by (intros bd Hbd; apply isBoundaryEdge_same_edges; exact Hbd).
  destruct (negb (isDefBlock F defs block bitNo)).
  { destruct isLiveOut; [injection Hf as <-; tauto|].
    apply Hsame. eapply findBoundaryInNonDefBlock_edges. exact Hf. }
  assert (Hmulti :
    (let (boundary1, isLive) :=
       scanBlockBackward F defs isInterestingUser block bitNo isLiveOut boundary in
     if negb isLive
     then Some (markEntryEdge F live block bitNo
                  (markDeadArguments F defs block bitNo boundary1))
     else Some boundary1) = Some boundary' ->
    isBoundaryEdge boundary' S b <-> isBoundaryEdge boundary S b).
  { pose proof (scanBlockBackward_edges F defs isInterestingUser block bitNo
                  isLiveOut boundary) as Hscan.
    destruct (scanBlockBackward F defs isInterestingUser block bitNo isLiveOut boundary)
      as [boundary1 isLive]. cbn [fst] in Hscan.
    destruct (negb isLive); intros [= <-].
    - rewrite markEntryEdge_edges.
      rewrite (Hsame (markDeadArguments F defs block bitNo boundary1))
        by (rewrite markDeadArguments_edges; exact Hscan).
      split; [|tauto]. intros [H|(-> & -> & _)]; [exact H | tauto].
    - apply Hsame. exact Hscan. }
  destruct defs as [|def1 [|def2 defs']]; [exact (Hmulti Hf) | | exact (Hmulti Hf)].
  destruct isLiveOut; [injection Hf as <-; tauto|].
  apply Hsame. eapply findBoundaryInSSADefBlock_edges. exact Hf.
Qed.

Lemma isBoundaryEdge_emptyBoundary S b : ~ isBoundaryEdge emptyBoundary S b.
Proof.
  unfold isBoundaryEdge, emptyBoundary. cbn [boundaryEdges].
  rewrite lookup_empty. cbn [default]. apply not_elem_of_empty.
Qed.

(** ** The boundary: the entry edge of a multi-definition block *)

Lemma allPredecessorsLiveOut_true F live block bitNo :
  allPredecessorsLiveOut F live block bitNo = true
  <-> forall predBlock, In predBlock (getPredecessorBlocks F block) ->
                        getBlockLiveness live predBlock bitNo = LiveOut.
Proof.
  unfold allPredecessorsLiveOut. rewrite forallb_forall.
  split; intros H p Hp; specialize (H p Hp).
  - apply bool_decide_eq_true in H. exact H.
  - apply bool_decide_eq_true. exact H.
Qed.

(** Whether the bit is live at the top of the block after the backward scan
    does not depend on the boundary the scan adds to. *)
Lemma scanInstruction_isLive defs isInterestingUser bitNo boundary1 boundary2 isLive inst :
  (scanInstruction defs isInterestingUser bitNo (boundary1, isLive) inst).2
  = (scanInstruction defs isInterestingUser bitNo (boundary2, isLive) inst).2.
Proof.
  unfold scanInstruction.
  destruct (isDef defs (InstructionNode inst) bitNo), isLive;
    cbn [negb]; destruct (isInteresting isInterestingUser inst bitNo); reflexivity.
Qed.

Lemma scanBlockBackward_isLive F defs isInterestingUser block bitNo isLiveOut
    boundary1 boundary2 :
  (scanBlockBackward F defs isInterestingUser block bitNo isLiveOut boundary1).2
  = (scanBlockBackward F defs isInterestingUser block bitNo isLiveOut boundary2).2.
Proof.
  unfold scanBlockBackward.
  generalize (rev (getInstructions F block)) as reversed. intros reversed.
  revert boundary1 boundary2 isLiveOut.
  induction reversed as [|inst rest IH]; intros boundary1 boundary2 isLive;
    cbn [fold_left]; [reflexivity|].
  pose proof (scanInstruction_isLive defs isInterestingUser bitNo
                boundary1 boundary2 isLive inst) as Hstep.
  destruct (scanInstruction defs isInterestingUser bitNo (boundary1, isLive) inst)
    as [boundary1' isLive1].
  destruct (scanInstruction defs isInterestingUser bitNo (boundary2, isLive) inst)
    as [boundary2' isLive2].
  cbn [snd] in Hstep. subst isLive2. apply IH.
Qed.

(** The edges after one multi-definition block search: those before it, and
    the entry edge of the block when the last part of the search marks it. *)
Lemma multiDefFindBoundariesInBlock_edges F live isInterestingUser defs
    block bitNo isLiveOut boundary boundary' :
  MultiDefPrunedLiveRange.findBoundariesInBlock F live isInterestingUser defs
    block bitNo isLiveOut boundary
  = Some boundary' ->
  forall S b,
    isBoundaryEdge boundary' S b
    <-> isBoundaryEdge boundary S b
        \/ (S = block /\ b = bitNo
            /\ isDefBlock F defs block bitNo = true
            /\ length defs <> 1%nat
            /\ (scanBlockBackward F defs isInterestingUser block bitNo
                  isLiveOut emptyBoundary).2 = false
            /\ getPredecessorBlocks F block <> []
            /\ (forall predBlock, In predBlock (getPredecessorBlocks F block) ->
                                  getBlockLiveness live predBlock bitNo = LiveOut)).
Proof.
  intros Hf S b.
  unfold MultiDefPrunedLiveRange.findBoundariesInBlock in Hf.
  assert (Hsame : forall bd, boundaryEdges bd = boundaryEdges boundary ->
                             isBoundaryEdge bd S b <-> isBoundaryEdge boundary S b)
    by (intros bd Hbd; apply isBoundaryEdge_same_edges; exact Hbd).
  destruct (isDefBlock F defs block bitNo) eqn:Hdb; cbn [negb] in Hf.
  2:{ assert (Hedges : boundaryEdges boundary' = boundaryEdges boundary).
      { destruct isLiveOut; [injection Hf as <-; reflexivity|].
        eapply findBoundaryInNonDefBlock_edges. exact Hf. }
      rewrite (Hsame _ Hedges). split; [tauto|].
      intros [H|(_ & _ & Hfalse & _)]; [exact H | discriminate]. }
  assert (Hmulti :
    length defs <> 1%nat ->
    (let (boundary1, isLive) :=
       scanBlockBackward F defs isInterestingUser block bitNo isLiveOut boundary in
     if negb isLive
     then Some (markEntryEdge F live block bitNo
                  (markDeadArguments F defs block bitNo boundary1))
     else Some boundary1) = Some boundary' ->
    isBoundaryEdge boundary' S b
    <-> isBoundaryEdge boundary S b
        \/ (S = block /\ b = bitNo /\ true = true /\ length defs <> 1%nat
            /\ (scanBlockBackward F defs isInterestingUser block bitNo
                  isLiveOut emptyBoundary).2 = false
            /\ getPredecessorBlocks F block <> []
            /\ (forall predBlock, In predBlock (getPredecessorBlocks F block) ->
                                  getBlockLiveness live predBlock bitNo = LiveOut))).
  { intros Hmany.
    pose proof (scanBlockBackward_edges F defs isInterestingUser block bitNo
                  isLiveOut boundary) as Hscan.
    rewrite (scanBlockBackward_isLive F defs isInterestingUser block bitNo isLiveOut
               emptyBoundary boundary).
    destruct (scanBlockBackward F defs isInterestingUser block bitNo isLiveOut boundary)
      as [boundary1 isLive]. cbn [fst snd] in *.
    destruct isLive; cbn [negb]; intros [= <-].
    - rewrite (Hsame _ Hscan). split; [tauto|].
      intros [H|(_ & _ & _ & _ & Hfalse & _)]; [exact H | discriminate].
    - rewrite markEntryEdge_edges, allPredecessorsLiveOut_true.
      rewrite (Hsame (markDeadArguments F defs block bitNo boundary1))
        by (rewrite markDeadArguments_edges; exact Hscan).
      split.
      + intros [H|(-> & -> & Hne & Hall)]; [left; exact H|].
        right. repeat split; auto.
      + intros [H|(-> & -> & _ & _ & _ & Hne & Hall)]; [left; exact H|].
        right. auto. }
  destruct defs as [|def1 [|def2 defs']].
  - apply Hmulti; [cbn; lia | exact Hf].
  - assert (Hedges : boundaryEdges boundary' = boundaryEdges boundary).
    { destruct isLiveOut; [injection Hf as <-; reflexivity|].
      eapply findBoundaryInSSADefBlock_edges. exact Hf. }
    rewrite (Hsame _ Hedges). split; [tauto|].
    intros [H|(_ & _ & _ & Hone & _)]; [exact H|]. cbn in Hone. lia.
  - apply Hmulti; [cbn; lia | exact Hf].
Qed.

(** The edges of the multi-definition boundary, through the three loops of
    [computeBoundary]. *)
Lemma multiDef_computeBoundaryBit_edges F live isInterestingUser defs
    block boundary index boundary' :
  computeBoundaryBit F live
    (MultiDefPrunedLiveRange.findBoundariesInBlock F live isInterestingUser defs)
    block boundary index = Some boundary' ->
  forall S b,
    isBoundaryEdge boundary' S b
    <-> isBoundaryEdge boundary S b
        \/ (b = index /\ deadSuccessorOfLiveOut F live block S b)
        \/ (S = block /\ b = index
            /\ searchMarksEntryEdge F live isInterestingUser defs S b).
Proof.
  intros Hbit S b. unfold computeBoundaryBit in Hbit.
  unfold deadSuccessorOfLiveOut, searchMarksEntryEdge.
  destruct (getBlockLiveness live block index) eqn:Hlive.
  - injection Hbit as <-. split; [tauto|].
    intros [H|[(-> & Hout & _)|(-> & -> & Hnd & _)]]; [exact H | congruence | congruence].
  - rewrite (multiDefFindBoundariesInBlock_edges _ _ _ _ _ _ _ _ _ Hbit). split.
    + intros [H|(-> & -> & Hdb & Hmany & Hscan & Hne & Hall)]; [left; exact H|].
      right. right. rewrite Hlive.
      rewrite bool_decide_eq_false_2 by discriminate.
      repeat split; auto; discriminate.
    + intros [H|[(-> & Hout & _)|(-> & -> & Hnd & Hdb & Hmany & Hscan & Hne & Hall)]];
        [left; exact H | congruence |].
      right. rewrite Hlive in Hscan.
      rewrite bool_decide_eq_false_2 in Hscan by discriminate.
      repeat split; auto.
  - rewrite (multiDefFindBoundariesInBlock_edges _ _ _ _ _ _ _ _ _ Hbit).
    rewrite markDeadSuccessors_edges. split.
    + intros [[H|(-> & Hin & Hd)]|(-> & -> & Hdb & Hmany & Hscan & Hne & Hall)].
      * left. exact H.
      * right. left. auto.
      * right. right. rewrite Hlive.
        rewrite bool_decide_eq_true_2 by reflexivity.
        repeat split; auto; discriminate.
    + intros [H|[(-> & Hout & Hin & Hd)
                |(-> & -> & Hnd & Hdb & Hmany & Hscan & Hne & Hall)]].
      * left. left. exact H.
      * left. right. auto.
      * right. rewrite Hlive in Hscan.
        rewrite bool_decide_eq_true_2 in Hscan by reflexivity.
        repeat split; auto.
Qed.

Lemma multiDef_computeBoundaryBits_edges F live isInterestingUser defs block indices :
  forall boundary boundary',
    computeBoundaryBits F live
      (MultiDefPrunedLiveRange.findBoundariesInBlock F live isInterestingUser defs)
      block boundary indices = Some boundary' ->
    forall S b,
      isBoundaryEdge boundary' S b
      <-> isBoundaryEdge boundary S b
          \/ (In b indices /\ deadSuccessorOfLiveOut F live block S b)
          \/ (S = block /\ In b indices
              /\ searchMarksEntryEdge F live isInterestingUser defs S b).
Proof.
  induction indices as [|index rest IH]; intros boundary boundary' H S b;
    cbn [computeBoundaryBits In] in *.
  - injection H as <-. tauto.
  - destruct (computeBoundaryBit F live _ block boundary index)
      as [boundary1|] eqn:E; [|discriminate].
    rewrite (IH _ _ H), (multiDef_computeBoundaryBit_edges _ _ _ _ _ _ _ _ E).
    split.
    + intros [[H1|[(-> & Hd)|(-> & -> & Hm)]]|[(Hin & Hd)|(-> & Hin & Hm)]];
        [left; exact H1 | right; left; auto | right; right; auto
         | right; left; auto | right; right; auto].
    + intros [H1|[([->|Hin] & Hd)|(-> & [->|Hin] & Hm)]];
        [left; left; exact H1 | left; right; left; auto | right; left; auto
         | left; right; right; auto | right; right; auto].
Qed.

Lemma multiDef_computeBoundaryBlocks_edges F live isInterestingUser defs blocks :
  forall boundary boundary',
    computeBoundaryBlocks F live
      (MultiDefPrunedLiveRange.findBoundariesInBlock F live isInterestingUser defs)
      boundary blocks = Some boundary' ->
    forall S b,
      isBoundaryEdge boundary' S b
      <-> isBoundaryEdge boundary S b
          \/ (exists B, In B blocks /\ (b < numBitsToTrack live)%nat
                        /\ deadSuccessorOfLiveOut F live B S b)
          \/ (In S blocks /\ (b < numBitsToTrack live)%nat
              /\ searchMarksEntryEdge F live isInterestingUser defs S b).
Proof.
  induction blocks as [|block rest IH]; intros boundary boundary' H S b;
    cbn [computeBoundaryBlocks In] in *.
  - injection H as <-. split; [tauto|].
    intros [H|[(B & [] & _)|([] & _)]]. exact H.
  - destruct (computeBoundaryBits F live _ block boundary (seq 0 (numBitsToTrack live)))
      as [boundary1|] eqn:E; [|discriminate].
    rewrite (IH _ _ H), (multiDef_computeBoundaryBits_edges _ _ _ _ _ _ _ _ E).
    rewrite in_seq. split.
    + intros [[H1|[(Hb & Hd)|(-> & Hb & Hm)]]|[(B & Hin & Hb & Hd)|(Hin & Hb & Hm)]].
      * left. exact H1.
      * right. left. exists block. split; [left; reflexivity|]. split; [lia | exact Hd].
      * right. right. split; [left; reflexivity|]. split; [lia | exact Hm].
      * right. left. exists B. auto.
      * right. right. auto.
    + intros [H1|[(B & [<-|Hin] & Hb & Hd)|([<-|Hin] & Hb & Hm)]].
      * left. left. exact H1.
      * left. right. left. split; [lia | exact Hd].
      * right. left. exists B. auto.
      * left. right. right. split; [reflexivity|]. split; [lia | exact Hm].
      * right. right. auto.
Qed.

(** C2 as stated fails in the multi-definition variant: in [branching] with
    the definitions 5 (block 0) and 6 (block 1) and the consuming uses 10
    (block 1) and 11 (block 2), bit 0 is live out of the discovered block 0
    and live within its successor block 1, which is not dead; the scan of
    block 1 ends at the definition 6 with the bit not live, the only
    predecessor of block 1 is live out, and [computeBoundary] records the
    boundary edge of bit 0 on block 1. *)
Lemma boundary_edge_on_live_successor :
  exists result,
    computeBoundary branching redefiningLive
      (MultiDefPrunedLiveRange.findBoundariesInBlock branching redefiningLive
         redefiningUsers redefiningDefs)
      emptyBoundary
    = Some result
    /\ In 0%nat (discoveredBlocks redefiningLive)
    /\ (0 < numBitsToTrack redefiningLive)%nat
    /\ getBlockLiveness redefiningLive 0 0 = LiveOut
    /\ In 1%nat (getSuccessors branching 0)
    /\ getBlockLiveness redefiningLive 1 0 = LiveWithin
    /\ isBoundaryEdge result 1 0
    /\ ~ (isBoundaryEdge result 1 0 <-> getBlockLiveness redefiningLive 1 0 = Dead).
Proof.
  eexists. split; [vm_compute; reflexivity|].
  assert (Hedge : isBoundaryEdge
                    (mkBoundary {[10%nat := {[0%nat]}; 11%nat := {[0%nat]}]}
                       {[1%nat := {[0%nat]}]} ∅) 1 0).
  { unfold isBoundaryEdge. cbn [boundaryEdges].
    rewrite lookup_singleton_eq. cbn [default]. set_solver. }
  split; [vm_compute; auto|].
  split; [vm_compute; lia|].
  split; [vm_compute; reflexivity|].
  split; [vm_compute; auto|].
  split; [vm_compute; reflexivity|].
  split.
  - exact Hedge.
  - intros [Hdead _]. specialize (Hdead Hedge). vm_compute in Hdead. discriminate.
Qed.

(** C2, amended: in [computeBoundary], the loop over the successors of a
    block that is live out for a bit marks a boundary edge for that bit on
    exactly the successors that are dead for it.  In the single-definition
    variant nothing else marks an edge: the finder called with
    [isLiveOut = true] returns the boundary as it got it, so a live-out
    block adds no last user and no dead definition, and from the empty
    boundary a successor of a discovered block that is live out for a bit
    has the edge if and only if it is dead for the bit.  In the
    multi-definition variant the search of a block also marks the edge of
    the bit on the block itself when [searchMarksEntryEdge] holds of it,
    whatever the liveness of the block: the edges of the result are those
    of the start, the dead successors of the discovered live-out blocks and
    the discovered blocks whose search marks their entry edge; so from the
    empty boundary a successor of a discovered block that is live out for a
    bit has the edge if and only if it is dead for the bit or it is a
    discovered block whose own search marks its entry edge. *)
Theorem boundary_edges_of_live_out_blocks (F : SILFunction)
    (live : FieldSensitivePrunedLiveBlocks)
    (isInterestingUser : UserOracle) (range : FieldSensitiveSSAPrunedLiveRange)
    (defs : DefList) :
  (forall block index boundary S b,
     isBoundaryEdge (markDeadSuccessors F live block index boundary) S b
     <-> isBoundaryEdge boundary S b
         \/ (b = index /\ In S (getSuccessors F block)
             /\ getBlockLiveness live S index = Dead))
  /\ (forall block bitNo boundary,
        SSAPrunedLiveRange.findBoundariesInBlock F isInterestingUser range
          block bitNo true boundary
        = Some boundary)
  /\ (forall block index boundary,
        getBlockLiveness live block index = LiveOut ->
        computeBoundaryBit F live
          (SSAPrunedLiveRange.findBoundariesInBlock F isInterestingUser range)
          block boundary index
        = Some (markDeadSuccessors F live block index boundary)
        /\ lastUsers (markDeadSuccessors F live block index boundary) = lastUsers boundary
        /\ deadDefs (markDeadSuccessors F live block index boundary) = deadDefs boundary)
  /\ (forall boundary result,
        computeBoundary F live
          (SSAPrunedLiveRange.findBoundariesInBlock F isInterestingUser range) boundary
        = Some result ->
        forall S b,
          isBoundaryEdge result S b
          <-> isBoundaryEdge boundary S b
              \/ (exists B, In B (discoveredBlocks live)
                            /\ (b < numBitsToTrack live)%nat
                            /\ deadSuccessorOfLiveOut F live B S b))
  /\ (forall result,
        computeBoundary F live
          (SSAPrunedLiveRange.findBoundariesInBlock F isInterestingUser range)
          emptyBoundary = Some result ->
        forall B b S,
          In B (discoveredBlocks live) -> (b < numBitsToTrack live)%nat ->
          getBlockLiveness live B b = LiveOut ->
          In S (getSuccessors F B) ->
          (isBoundaryEdge result S b <-> getBlockLiveness live S b = Dead))
  /\ (forall block index boundary result,
        getBlockLiveness live block index = LiveOut ->
        computeBoundaryBit F live
          (MultiDefPrunedLiveRange.findBoundariesInBlock F live isInterestingUser defs)
          block boundary index = Some result ->
        forall S b,
          isBoundaryEdge result S b
          <-> isBoundaryEdge boundary S b
              \/ (b = index /\ In S (getSuccessors F block)
                  /\ getBlockLiveness live S index = Dead)
              \/ (S = block /\ b = index
                  /\ searchMarksEntryEdge F live isInterestingUser defs block index))
  /\ (forall boundary result,
        computeBoundary F live
          (MultiDefPrunedLiveRange.findBoundariesInBlock F live isInterestingUser defs)
          boundary = Some result ->
        forall S b,
          isBoundaryEdge result S b
          <-> isBoundaryEdge boundary S b
              \/ (exists B, In B (discoveredBlocks live)
                            /\ (b < numBitsToTrack live)%nat
                            /\ deadSuccessorOfLiveOut F live B S b)
              \/ (In S (discoveredBlocks live)
                  /\ (b < numBitsToTrack live)%nat
                  /\ searchMarksEntryEdge F live isInterestingUser defs S b))
  /\ (forall result,
        computeBoundary F live
          (MultiDefPrunedLiveRange.findBoundariesInBlock F live isInterestingUser defs)
          emptyBoundary = Some result ->
        forall B b S,
          In B (discoveredBlocks live) -> (b < numBitsToTrack live)%nat ->
          getBlockLiveness live B b = LiveOut ->
          In S (getSuccessors F B) ->
          (isBoundaryEdge result S b
           <-> getBlockLiveness live S b = Dead
               \/ (In S (discoveredBlocks live)
                   /\ searchMarksEntryEdge F live isInterestingUser defs S b))).
Proof.
  split; [intros; apply markDeadSuccessors_edges|].
  split; [reflexivity|].
  split.
  { intros block index boundary Hout. unfold computeBoundaryBit. rewrite Hout.
    split; [reflexivity | apply markDeadSuccessors_users]. }
  assert (Hexact : forall boundary result,
            computeBoundary F live
              (SSAPrunedLiveRange.findBoundariesInBlock F isInterestingUser range)
              boundary = Some result ->
            forall S b,
              isBoundaryEdge result S b
              <-> isBoundaryEdge boundary S b
                  \/ (exists B, In B (discoveredBlocks live)
                                /\ (b < numBitsToTrack live)%nat
                                /\ deadSuccessorOfLiveOut F live B S b)).
  { intros boundary result H.
    apply (computeBoundaryBlocks_exact F live _ (discoveredBlocks live)
             (ssaFindBoundariesInBlock_leaves_edges F isInterestingUser range) _ _ H). }
  split; [exact Hexact|].
  split.
  { intros result H B b S HB Hb Hout HS. rewrite (Hexact _ _ H). split.
    - intros [Hempty|(B' & _ & _ & _ & _ & Hdead)]; [|exact Hdead].
      destruct (isBoundaryEdge_emptyBoundary _ _ Hempty).
    - intros Hdead. right. exists B. unfold deadSuccessorOfLiveOut. auto. }
  split.
  { intros block index boundary result Hout H S b.
    rewrite (multiDef_computeBoundaryBit_edges _ _ _ _ _ _ _ _ H S b).
    unfold deadSuccessorOfLiveOut. split.
    - intros [H1|[(-> & _ & Hin & Hd)|(-> & -> & Hm)]];
        [left; exact H1 | right; left; auto | right; right; auto].
    - intros [H1|[(-> & Hin & Hd)|(-> & -> & Hm)]];
        [left; exact H1 | right; left; auto | right; right; auto]. }
  assert (Hmulti : forall boundary result,
            computeBoundary F live
              (MultiDefPrunedLiveRange.findBoundariesInBlock F live isInterestingUser defs)
              boundary = Some result ->
            forall S b,
              isBoundaryEdge result S b
              <-> isBoundaryEdge boundary S b
                  \/ (exists B, In B (discoveredBlocks live)
                                /\ (b < numBitsToTrack live)%nat
                                /\ deadSuccessorOfLiveOut F live B S b)
                  \/ (In S (discoveredBlocks live)
                      /\ (b < numBitsToTrack live)%nat
                      /\ searchMarksEntryEdge F live isInterestingUser defs S b)).
  { intros boundary result H.
    apply (multiDef_computeBoundaryBlocks_edges F live isInterestingUser defs
             (discoveredBlocks live) _ _ H). }
  split; [exact Hmulti|].
  intros result H B b S HB Hb Hout HS. rewrite (Hmulti _ _ H). split.
  - intros [Hempty|[(B' & _ & _ & _ & _ & Hdead)|(Hin & _ & Hm)]].
    + destruct (isBoundaryEdge_emptyBoundary _ _ Hempty).
    + left. exact Hdead.
    + right. auto.
  - intros [Hdead|(Hin & Hm)].
    + right. left. exists B. unfold deadSuccessorOfLiveOut. auto.
    + right. right. auto.
Qed.

Lemma boundary_edges_of_live_out_blocks_witness :
  (exists result,
     computeBoundary branching branchingLive
       (SSAPrunedLiveRange.findBoundariesInBlock branching branchingUsers branchingDef)
       emptyBoundary
     = Some result
     /\ getBlockLiveness branchingLive 0 0 = LiveOut
     /\ isBoundaryEdge result 2 0
     /\ ~ isBoundaryEdge result 1 0
     /\ lastUsers result = {[10%nat := {[0%nat]}]}
     /\ deadDefs result = ∅)
  /\ (exists result,
        computeBoundary branching branchingLive
          (MultiDefPrunedLiveRange.findBoundariesInBlock branching branchingLive
             branchingUsers redefiningDefs)
          emptyBoundary
        = Some result
        /\ getBlockLiveness branchingLive 0 0 = LiveOut
        /\ getBlockLiveness branchingLive 1 0 = LiveWithin
        /\ getBlockLiveness branchingLive 2 0 = Dead
        /\ isBoundaryEdge result 2 0
        /\ isBoundaryEdge result 1 0
        /\ ~ isBoundaryEdge result 0 0).
Proof.
  destruct (boundary_edges_of_live_out_blocks branching branchingLive branchingUsers
              branchingDef redefiningDefs)
    as (_ & _ & _ & Hexact & _ & _ & Hmulti & Hsucc).
  split.
  - assert (Hr : is_Some
                   (computeBoundary branching branchingLive
                      (SSAPrunedLiveRange.findBoundariesInBlock branching branchingUsers
                         branchingDef)
                      emptyBoundary))
      by (vm_compute; eauto).
    destruct Hr as [result Hr]. exists result.
    specialize (Hexact emptyBoundary result Hr).
    split; [exact Hr|].
    split; [vm_compute; reflexivity|].
    split; [|split].
    + apply Hexact.
      right. exists 0%nat. split; [vm_compute; auto|].
      split; [vm_compute; lia|].
      split; [vm_compute; reflexivity|].
      split; [vm_compute; auto | vm_compute; reflexivity].
    + intros Hedge. apply Hexact in Hedge.
      destruct Hedge as [Hedge|(B & _ & _ & _ & _ & Hdead)].
      * vm_compute in Hedge. set_solver.
      * vm_compute in Hdead. discriminate.
    + vm_compute in Hr. injection Hr as <-. split; vm_compute; reflexivity.
  - assert (Hr : is_Some
                   (computeBoundary branching branchingLive
                      (MultiDefPrunedLiveRange.findBoundariesInBlock branching
                         branchingLive branchingUsers redefiningDefs)
                      emptyBoundary))
      by (vm_compute; eauto).
    destruct Hr as [result Hr]. exists result.
    specialize (Hmulti emptyBoundary result Hr).
    specialize (Hsucc result Hr 0%nat 0%nat).
    split; [exact Hr|].
    split; [vm_compute; reflexivity|].
    split; [vm_compute; reflexivity|].
    split; [vm_compute; reflexivity|].
    split; [|split].
    + apply (Hsucc 2%nat); [vm_compute; auto | vm_compute; lia
                           | vm_compute; reflexivity | vm_compute; auto |].
      left. vm_compute. reflexivity.
    + apply (Hsucc 1%nat); [vm_compute; auto | vm_compute; lia
                           | vm_compute; reflexivity | vm_compute; auto |].
      right. split; [vm_compute; auto|].
      split; [vm_compute; discriminate|].
      split; [vm_compute; reflexivity|].
      split; [simpl; lia|].
      split; [vm_compute; reflexivity|].
      split; [simpl; discriminate|].
      intros predBlock Hin. simpl in Hin. destruct Hin as [<-|[]].
      vm_compute. reflexivity.
    + intros Hedge. apply Hmulti in Hedge.
      destruct Hedge as [Hedge|[(B & _ & _ & _ & _ & Hdead)|(_ & _ & _ & _ & _ & _ & Hne & _)]].
      * destruct (isBoundaryEdge_emptyBoundary _ _ Hedge).
      * vm_compute in Hdead. discriminate.
      * apply Hne. reflexivity.
Defined.

(** C3: in the multi-definition block search, when the backward scan of a
    def block (with several definitions in the range) reaches the top of the
    block with the bit not live and the block has a predecessor, the search
    returns, and it has marked the boundary edge of the bit on the block if
    and only if every predecessor is [LiveOut] for the bit (or the edge was
    marked before); no other edge changes. *)
Theorem entry_edge_iff_all_predecessors_live_out
    (F : SILFunction) (live : FieldSensitivePrunedLiveBlocks)
    (isInterestingUser : UserOracle) (defs : DefList)
    (block : SILBasicBlock) (bitNo : nat) (isLiveOut : bool)
    (boundary : FieldSensitivePrunedLivenessBoundary) :
  isDefBlock F defs block bitNo = true ->
  length defs <> 1%nat ->
  (scanBlockBackward F defs isInterestingUser block bitNo isLiveOut boundary).2 = false ->
  getPredecessorBlocks F block <> [] ->
  exists result,
    MultiDefPrunedLiveRange.findBoundariesInBlock F live isInterestingUser defs
      block bitNo isLiveOut
      boundary = Some result
    /\ (isBoundaryEdge result block bitNo
        <-> isBoundaryEdge boundary block bitNo
            \/ (forall predBlock, In predBlock (getPredecessorBlocks F block) ->
                                  getBlockLiveness live predBlock bitNo = LiveOut))
    /\ (forall S b, (S, b) <> (block, bitNo) ->
                    isBoundaryEdge result S b <-> isBoundaryEdge boundary S b).
Proof.
  intros Hdef Hmany Htop Hpreds.
  pose proof (scanBlockBackward_edges F defs isInterestingUser block bitNo
                isLiveOut boundary) as Hscan.
  destruct (scanBlockBackward F defs isInterestingUser block bitNo isLiveOut boundary)
    as [boundary1 isLive] eqn:Escan.
  cbn [fst snd] in *. subst isLive.
  exists (markEntryEdge F live block bitNo
            (markDeadArguments F defs block bitNo boundary1)).
  assert (Hedges : forall S b,
            isBoundaryEdge (markDeadArguments F defs block bitNo boundary1) S b
            <-> isBoundaryEdge boundary S b).
  { intros S b. apply isBoundaryEdge_same_edges.
    rewrite markDeadArguments_edges. exact Hscan. }
  split.
  { unfold MultiDefPrunedLiveRange.findBoundariesInBlock. rewrite Hdef. cbn [negb].
    destruct defs as [|def1 [|def2 defs']]; [| cbn in Hmany; congruence |];
      rewrite Escan; reflexivity. }
  split.
  - rewrite markEntryEdge_edges, Hedges, allPredecessorsLiveOut_true.
    split.
    + intros [H|(_ & _ & _ & H)]; [left; exact H | right; exact H].
    + intros [H|H]; [left; exact H | right; auto].
  - intros S b Hne. rewrite markEntryEdge_edges, Hedges.
    split; [|tauto]. intros [H|(-> & -> & _)]; [exact H | congruence].
Qed.

Lemma entry_edge_iff_all_predecessors_live_out_witness :
  exists result,
    MultiDefPrunedLiveRange.findBoundariesInBlock branching redefiningLive redefiningUsers
      redefiningDefs
      1%nat 0%nat false emptyBoundary = Some result
    /\ getBlockLiveness redefiningLive 0 0 = LiveOut
    /\ getBlockLiveness redefiningLive 1 0 = LiveWithin
    /\ isBoundaryEdge result 1 0.
Proof.
  destruct (entry_edge_iff_all_predecessors_live_out branching redefiningLive
              redefiningUsers redefiningDefs 1 0 false emptyBoundary)
    as (result & Hresult & Hedge & _).
  - vm_compute. reflexivity.
  - simpl. lia.
  - vm_compute. reflexivity.
  - simpl. discriminate.
  - exists result. split; [exact Hresult|].
    split; [vm_compute; reflexivity|].
    split; [vm_compute; reflexivity|].
    apply Hedge. right. intros predBlock Hin. simpl in Hin.
    destruct Hin as [<-|[]]. vm_compute. reflexivity.
Defined.
(** ** Use before definition *)

Lemma isUserBeforeDefWalk_defFound F defs user element :
  isUserBeforeDefWalk defs element (previousInstructions F user)
  = negb (defFoundWalkingBack F defs user element).
Proof.
  unfold defFoundWalkingBack.
  induction (previousInstructions F user) as [|current rest IH];
    cbn [isUserBeforeDefWalk existsb]; [reflexivity|].
  destruct (isDef defs (InstructionNode current) element); [reflexivity | exact IH].
Qed.

(** C7 as stated fails: in a block whose argument defines the bit, walking
    backward from instruction 10 reaches the start of the block without
    finding a definition, and [isUserBeforeDef] still answers false (not
    before the definition), where the spec has it answer true; the same
    holds in a block that holds no definition of the bit at all. *)
Lemma isUserBeforeDef_false_without_def_found :
  isDef argumentDefs (ArgumentNode 7) 0 = true
  /\ defFoundWalkingBack argumentBlock argumentDefs 10 0 = false
  /\ isUserBeforeDef argumentBlock argumentDefs 10 0 = false
  /\ isUserBeforeDef argumentBlock argumentDefs 10 0
     <> negb (defFoundWalkingBack argumentBlock argumentDefs 10 0)
  /\ isDefBlock argumentBlock [] 0 0 = false
  /\ defFoundWalkingBack argumentBlock [] 10 0 = false
  /\ isUserBeforeDef argumentBlock [] 10 0
     <> negb (defFoundWalkingBack argumentBlock [] 10 0).
Proof. repeat split; try reflexivity; vm_compute; discriminate. Qed.

(** C7, amended: [isUserBeforeDef] answers true exactly when the user's
    block is a def block for the bit, no argument of the block defines the
    bit, and no definition of the bit is found walking backward from the
    user to the start of the block; it answers false otherwise: when a
    definition is found on the way, when a block argument defines the bit,
    and when the block is not a def block for the bit. *)
Theorem isUserBeforeDef_spec (F : SILFunction) (defs : DefList)
    (user : SILInstruction) (element : nat) :
  (isUserBeforeDef F defs user element = true
   <-> isDefBlock F defs (getParent F user) element = true
       /\ (forall arg, In arg (getArguments F (getParent F user)) ->
                       isDef defs (ArgumentNode arg) element = false)
       /\ defFoundWalkingBack F defs user element = false)
  /\ (isUserBeforeDef F defs user element = false
      <-> isDefBlock F defs (getParent F user) element = false
          \/ (exists arg, In arg (getArguments F (getParent F user))
                          /\ isDef defs (ArgumentNode arg) element = true)
          \/ defFoundWalkingBack F defs user element = true)
  /\ (defFoundWalkingBack F defs user element = true
      <-> exists current, In current (previousInstructions F user)
                          /\ isDef defs (InstructionNode current) element = true).
Proof.
  assert (Hfound : defFoundWalkingBack F defs user element = true
            <-> exists current, In current (previousInstructions F user)
                                /\ isDef defs (InstructionNode current) element = true).
  { unfold defFoundWalkingBack. apply existsb_exists. }
  assert (Hargs : existsb (fun arg => isDef defs (ArgumentNode arg) element)
                    (getArguments F (getParent F user)) = true
            <-> exists arg, In arg (getArguments F (getParent F user))
                            /\ isDef defs (ArgumentNode arg) element = true).
  { apply existsb_exists. }
  unfold isUserBeforeDef. rewrite isUserBeforeDefWalk_defFound.
  destruct (isDefBlock F defs (getParent F user) element); cbn [negb].
  - destruct (existsb (fun arg => isDef defs (ArgumentNode arg) element)
                (getArguments F (getParent F user))) eqn:Eargs.
    + destruct (proj1 Hargs eq_refl) as (arg & Hin & Harg).
      split; [|split; [|exact Hfound]].
      * split; [discriminate|]. intros (_ & Hno & _).
        rewrite (Hno arg Hin) in Harg. discriminate.
      * split; [|reflexivity]. intros _. right. left. exists arg. auto.
    + assert (Hno : forall arg, In arg (getArguments F (getParent F user)) ->
                                isDef defs (ArgumentNode arg) element = false).
      { intros arg Hin.
        destruct (isDef defs (ArgumentNode arg) element) eqn:E; [|reflexivity].
        assert (Hex : false = true) by (apply Hargs; exists arg; auto).
        discriminate. }
      destruct (defFoundWalkingBack F defs user element); cbn [negb].
      * split; [|split; [|exact Hfound]].
        -- split; [discriminate|]. intros (_ & _ & H). discriminate.
        -- split; auto.
      * split; [|split; [|exact Hfound]].
        -- split; auto.
        -- split; [discriminate|].
           intros [H|[(arg & Hin & Harg)|H]]; try discriminate.
           rewrite (Hno arg Hin) in Harg. discriminate.
  - split; [|split; [|exact Hfound]].
    + split; [discriminate|]. intros (H & _). discriminate.
    + split; auto.
Qed.

(** ** The search for an earlier consuming use *)

Section ConsumingUseSearch.
Context {St : Type}.
Variable F : SILFunction.
Variable popFrom : PopOrder.
Variable defs : DefList.
Variable isInterestingUser : UserOracle.
Variable index : nat.
Variable callback : St -> SILInstruction -> bool * St.

Lemma searchAlong_arguments arguments rest state :
  searchAlong defs isInterestingUser index callback
    (map ArgumentNode arguments ++ rest) state
  = if existsb (fun arg => isDef defs (ArgumentNode arg) index) arguments
    then (true, state)
    else searchAlong defs isInterestingUser index callback rest state.
Proof.
  induction arguments as [|arg arguments IH]; cbn [map app searchAlong existsb];
    [reflexivity|].
  destruct (isDef defs (ArgumentNode arg) index); cbn [orb]; [reflexivity | exact IH].
Qed.

Lemma searchAlong_instructions reversed rest :
  forall state,
    searchAlong defs isInterestingUser index callback
      (map InstructionNode reversed ++ rest) state
    = match scanForConsumingUse defs isInterestingUser index callback reversed state with
      | Done result state' => (result, state')
      | KeepGoing state' =>
          searchAlong defs isInterestingUser index callback rest state'
      end.
Proof.
  induction reversed as [|ii reversed IH]; intros state;
    cbn [map app searchAlong scanForConsumingUse]; [reflexivity|].
  destruct (isDef defs (InstructionNode ii) index); [reflexivity|].
  destruct (isLifetimeEndingUse isInterestingUser ii index); [|apply IH].
  destruct (callback state ii) as [goOn state'].
  destruct goOn; cbn [negb]; [apply IH | reflexivity].
Qed.

Lemma searchAlong_block reversed arguments rest state :
  searchAlong defs isInterestingUser index callback
    (map InstructionNode reversed ++ map ArgumentNode arguments ++ rest) state
  = match scanBlock defs isInterestingUser index callback reversed arguments state with
    | Done result state' => (result, state')
    | KeepGoing state' =>
        searchAlong defs isInterestingUser index callback rest state'
    end.
Proof.
  rewrite searchAlong_instructions. unfold scanBlock.
  destruct (scanForConsumingUse defs isInterestingUser index callback reversed state)
    as [result state'|state']; [reflexivity|].
  rewrite searchAlong_arguments.
  destruct (existsb _ arguments); reflexivity.
Qed.

Lemma pushPredecessors_remaining block w :
  predecessorsInFunction F ->
  worklistInFunction F w ->
  worklistInFunction F (pushPredecessors F block w)
  /\ remainingPops F (pushPredecessors F block w) = remainingPops F w.
Proof.
  intros Hpreds. unfold pushPredecessors.
  specialize (Hpreds block). revert w.
  induction (getPredecessorBlocks F block) as [|p preds IH]; intros w Hin;
    cbn [fold_left]; [split; [exact Hin | reflexivity]|].
  destruct (pushIfNotVisited_remaining F p w) as [Hin' Hrem];
    [apply Hpreds; left; reflexivity | exact Hin |].
  destruct (IH (fun q Hq => Hpreds q (or_intror Hq)) _ Hin') as [H1 H2].
  split; [exact H1 | rewrite H2; exact Hrem].
Qed.

Lemma searchPredecessors_refines :
  LawfulPop popFrom ->
  predecessorsInFunction F ->
  forall fuel w state,
    worklistInFunction F w ->
    (remainingPops F w < fuel)%nat ->
    searchPredecessors F popFrom defs isInterestingUser index callback fuel w state
    = Some (searchAlong defs isInterestingUser index callback
              (concat (map (nodesOf F) (predecessorOrder F popFrom fuel w))) state).
Proof.
  intros Hlawful Hpreds.
  induction fuel as [|fuel IH]; intros w state Hin Hfuel; [lia|].
  cbn [searchPredecessors predecessorOrder].
  destruct (pop popFrom w) as [[next w']|] eqn:Hpop; [|reflexivity].
  cbn [map concat]. unfold nodesOf at 1. rewrite <- app_assoc.
  rewrite searchAlong_block.
  destruct (scanBlock defs isInterestingUser index callback
              (rev (getInstructions F next)) (getArguments F next) state)
    as [result state'|state']; [reflexivity|].
  destruct (pop_remaining F popFrom w next w' Hlawful Hpop) as [Hvis Hrem].
  assert (Hin' : worklistInFunction F w').
  { unfold worklistInFunction in *. rewrite Hvis. exact Hin. }
  destruct (pushPredecessors_remaining next w' Hpreds Hin') as [Hin'' Hrem''].
  apply IH; [exact Hin''|]. lia.
Qed.

Lemma findEarlierConsumingUse_refines inst state :
  LawfulPop popFrom ->
  predecessorsInFunction F ->
  findEarlierConsumingUse F popFrom defs isInterestingUser inst index callback state
  = Some (searchAlong defs isInterestingUser index callback
            (searchOrder F popFrom inst) state).
Proof.
  intros Hlawful Hpreds. unfold findEarlierConsumingUse, searchOrder.
  rewrite searchAlong_block.
  destruct (scanBlock defs isInterestingUser index callback
              (previousInstructions F inst) (getArguments F (getParent F inst)) state)
    as [result state'|state']; [reflexivity|].
  assert (Hempty : worklistInFunction F emptyWorklist).
  { unfold worklistInFunction, emptyWorklist. cbn [visitedBlocks].
    apply empty_subseteq. }
  destruct (pushPredecessors_remaining (getParent F inst) emptyWorklist Hpreds Hempty)
    as [Hin Hrem].
  apply searchPredecessors_refines; try assumption.
  rewrite Hrem. unfold remainingPops, emptyWorklist.
  cbn [pendingBlocks visitedBlocks length]. rewrite size_empty. lia.
Qed.

Lemma consumingUsesIn_app nodes1 nodes2 :
  consumingUsesIn defs isInterestingUser index (nodes1 ++ nodes2)
  = consumingUsesIn defs isInterestingUser index nodes1
    ++ consumingUsesIn defs isInterestingUser index nodes2.
Proof.
  induction nodes1 as [|[ii|arg] nodes1 IH]; cbn [app consumingUsesIn];
    [reflexivity | | exact IH].
  destruct (negb _ && _); [cbn [app]; f_equal; exact IH | exact IH].
Qed.

(** With a callback that keeps the log of its calls, the search gives the
    same answer and the same state, and the log tells how it went. *)
Lemma searchAlong_recordCalls nodes :
  forall state log0,
  exists log,
    searchAlong defs isInterestingUser index (recordCalls callback) nodes (state, log0)
    = ((searchAlong defs isInterestingUser index callback nodes state).1,
       ((searchAlong defs isInterestingUser index callback nodes state).2, log0 ++ log))
    /\ SearchLog defs isInterestingUser index nodes
         (searchAlong defs isInterestingUser index callback nodes state).1 log.
Proof.
  induction nodes as [|node rest IH]; intros state log0.
  - exists []. cbn [searchAlong fst snd]. rewrite app_nil_r. split; [reflexivity|].
    exists [], []. split; [reflexivity|]. split; [reflexivity|].
    left. repeat split; intros ? [].
  - cbn [searchAlong].
    destruct (isDef defs node index) eqn:Hdef.
    { exists []. cbn [fst snd]. rewrite app_nil_r. split; [reflexivity|].
      exists [node], rest. split; [reflexivity|].
      split.
      - destruct node as [ii|arg]; cbn [consumingUsesIn map]; [|reflexivity].
        rewrite Hdef. reflexivity.
      - right. left. exists [], node.
        repeat split; [exact Hdef | intros ? [] | intros ? []]. }
    assert (Hskip :
      forall state1 log1 entries,
        consumingUsesIn defs isInterestingUser index [node] = map fst entries ->
        (forall e, In e entries -> e.2 = true) ->
        log1 = log0 ++ entries ->
        exists log,
          searchAlong defs isInterestingUser index (recordCalls callback) rest
            (state1, log1)
          = ((searchAlong defs isInterestingUser index callback rest state1).1,
             ((searchAlong defs isInterestingUser index callback rest state1).2,
              log0 ++ log))
          /\ SearchLog defs isInterestingUser index (node :: rest)
               (searchAlong defs isInterestingUser index callback rest state1).1 log).
    { intros state1 log1 entries Huses Htrue ->.
      destruct (IH state1 (log0 ++ entries)) as (log & Hrun & Hlog).
      exists (entries ++ log). rewrite app_assoc. split; [exact Hrun|].
      destruct Hlog as (examined & unexamined & Hnodes & Hmap & Hstop).
      exists (node :: examined), unexamined.
      split; [cbn [app]; f_equal; exact Hnodes|].
      split.
      { change (node :: examined) with ([node] ++ examined).
        rewrite consumingUsesIn_app, Huses, map_app, Hmap. reflexivity. }
      assert (Hnode : forall n, In n [node] -> isDef defs n index = false)
        by (intros n [<-|[]]; exact Hdef).
      destruct Hstop as [(Hun & Hr & Hnodef & Hall)
                        |[(pre & d & Hex & Hd & Hr & Hnodef & Hall)
                         |(pre & ii & calls & Hex & Hl & Hr & Hnodef & Hall)]].
      - left. repeat split; [exact Hun | exact Hr | |].
        + intros n [<-|Hn]; [exact Hdef | apply Hnodef, Hn].
        + intros e He. apply in_app_or in He as [He|He]; [apply Htrue, He | apply Hall, He].
      - right. left. exists (node :: pre), d.
        repeat split; [cbn [app]; f_equal; exact Hex | exact Hd | exact Hr | |].
        + intros n [<-|Hn]; [exact Hdef | apply Hnodef, Hn].
        + intros e He. apply in_app_or in He as [He|He]; [apply Htrue, He | apply Hall, He].
      - right. right. exists (node :: pre), ii, (entries ++ calls).
        repeat split.
        + cbn [app]. f_equal. exact Hex.
        + rewrite Hl, app_assoc. reflexivity.
        + exact Hr.
        + intros n [<-|Hn]; [exact Hdef | apply Hnodef, Hn].
        + intros e He. apply in_app_or in He as [He|He]; [apply Htrue, He | apply Hall, He]. }
    destruct node as [ii|arg].
    + destruct (isLifetimeEndingUse isInterestingUser ii index) eqn:Huse.
      * unfold recordCalls at 1. cbn [fst snd].
        destruct (callback state ii) as [goOn state1] eqn:Hcall.
        destruct goOn.
        -- apply (Hskip state1 _ [(ii, true)]).
           ++ cbn [consumingUsesIn map fst]. rewrite Hdef, Huse. reflexivity.
           ++ intros e [<-|[]]. reflexivity.
           ++ reflexivity.
        -- exists [(ii, false)]. cbn [fst snd]. split; [reflexivity|].
           exists [InstructionNode ii], rest. split; [reflexivity|].
           split; [cbn [consumingUsesIn map fst]; rewrite Hdef, Huse; reflexivity|].
           right. right. exists [], ii, [].
           repeat split; [intros n [<-|[]]; exact Hdef | intros ? []].
      * apply (Hskip state log0 []).
        -- cbn [consumingUsesIn map]. rewrite Hdef, Huse. reflexivity.
        -- intros ? [].
        -- rewrite app_nil_r. reflexivity.
    + apply (Hskip state log0 []).
      * reflexivity.
      * intros ? [].
      * rewrite app_nil_r. reflexivity.
Qed.
End ConsumingUseSearch.

(** ** The order of the predecessor blocks *)

Section PredecessorOrder.
Variable F : SILFunction.
Variable popFrom : PopOrder.
Hypothesis popFrom_lawful : LawfulPop popFrom.

Lemma pushPredecessors_spec block :
  forall w,
  exists new,
    pendingBlocks (pushPredecessors F block w) = new ++ pendingBlocks w
    /\ List.NoDup new
    /\ (forall b, In b new ->
                  (b ∉ visitedBlocks w) /\ In b (getPredecessorBlocks F block))
    /\ (forall b, b ∈ visitedBlocks (pushPredecessors F block w)
                  <-> b ∈ visitedBlocks w \/ In b (getPredecessorBlocks F block))
    /\ (forall b, In b (getPredecessorBlocks F block) -> b ∉ visitedBlocks w ->
                  In b new).
Proof.
  unfold pushPredecessors.
  induction (getPredecessorBlocks F block) as [|p preds IH]; intros w; cbn [fold_left].
  - exists []. split; [reflexivity|]. split; [constructor|].
    split; [intros b []|]. split; [|intros b []].
    intros b. cbn [In]. tauto.
  - unfold pushIfNotVisited at 2 4. destruct (decide (p ∈ visitedBlocks w)) as [Hv|Hv].
    + destruct (IH w) as (new & Hpend & Hnodup & Hnew & Hvis & Hall).
      exists new. split; [exact Hpend|]. split; [exact Hnodup|].
      split; [intros b Hb; destruct (Hnew b Hb); split; [assumption | right; assumption]|].
      split.
      * intros b. rewrite Hvis. cbn [In]. split; [tauto|].
        intros [H|[<-|H]]; tauto.
      * intros b [<-|Hb] Hnv; [contradiction | apply Hall; assumption].
    + destruct (IH (push p w)) as (new & Hpend & Hnodup & Hnew & Hvis & Hall).
      cbn [push pendingBlocks visitedBlocks] in *.
      exists (new ++ [p]).
      split; [rewrite Hpend, <- app_assoc; reflexivity|].
      split.
      { apply NoDup_ListNoDup, NoDup_app.
        split; [apply NoDup_ListNoDup; exact Hnodup|]. split; [|apply NoDup_singleton].
        intros b Hb Hp. rewrite list_elem_of_In in Hb.
        apply list_elem_of_singleton in Hp as ->.
        destruct (Hnew p Hb) as [Hnot _]. apply Hnot.
        apply elem_of_union. left. apply elem_of_singleton. reflexivity. }
      split.
      { intros b Hb. apply in_app_or in Hb as [Hb|[<-|[]]].
        - destruct (Hnew b Hb) as [Hnot Hin]. split; [|right; exact Hin].
          intros Hb'. apply Hnot, elem_of_union. right. exact Hb'.
        - split; [exact Hv | left; reflexivity]. }
      split.
      * intros b. rewrite Hvis. cbn [In].
        rewrite elem_of_union, elem_of_singleton. split.
        -- intros [[->|H]|H]; tauto.
        -- intros [H|[<-|H]]; tauto.
      * intros b [<-|Hb] Hnv; [apply in_or_app; right; left; reflexivity|].
        destruct (decide (b = p)) as [->|Hne];
          [apply in_or_app; right; left; reflexivity|].
        apply in_or_app. left. apply Hall; [exact Hb|].
        rewrite elem_of_union, elem_of_singleton. tauto.
Qed.

Lemma pop_spec w next w' :
  pop popFrom w = Some (next, w') ->
  visitedBlocks w' = visitedBlocks w
  /\ pendingBlocks w ≡ₚ next :: pendingBlocks w'.
Proof.
  unfold pop. intros H. pose proof (popFrom_lawful (pendingBlocks w)) as Hl.
  destruct (popFrom (pendingBlocks w)) as [[b rest]|]; [|discriminate].
  injection H as <- <-. split; [reflexivity | exact Hl].
Qed.

Lemma pop_push_consistent w next w' :
  worklistConsistent w ->
  pop popFrom w = Some (next, w') ->
  In next (pendingBlocks w)
  /\ ~ In next (pendingBlocks w')
  /\ (forall b, In b (pendingBlocks w) <-> b = next \/ In b (pendingBlocks w'))
  /\ worklistConsistent (pushPredecessors F next w').
Proof.
  intros [Hnodup Hvisited] Hpop.
  destruct (pop_spec w next w' Hpop) as [Hvis Hperm].
  assert (Hin : forall b, In b (pendingBlocks w) <-> b = next \/ In b (pendingBlocks w')).
  { intros b. rewrite <- !list_elem_of_In, Hperm, elem_of_cons. reflexivity. }
  apply NoDup_ListNoDup in Hnodup.
  rewrite Hperm, NoDup_cons in Hnodup. destruct Hnodup as [Hfresh Hnodup'].
  rewrite list_elem_of_In in Hfresh.
  split; [apply Hin; left; reflexivity|]. split; [exact Hfresh|]. split; [exact Hin|].
  destruct (pushPredecessors_spec next w') as (new & Hpend & Hnew_nodup & Hnew & Hvis' & _).
  split.
  - rewrite Hpend. apply NoDup_ListNoDup, NoDup_app.
    split; [apply NoDup_ListNoDup; exact Hnew_nodup|].
    split; [|exact Hnodup'].
    intros b Hb Hb'. rewrite list_elem_of_In in Hb, Hb'.
    destruct (Hnew b Hb) as [Hnot _]. apply Hnot. rewrite Hvis.
    apply Hvisited, Hin. right. exact Hb'.
  - intros b Hb. rewrite Hpend in Hb. apply Hvis'.
    apply in_app_or in Hb as [Hb|Hb].
    + right. apply (Hnew b Hb).
    + left. rewrite Hvis. apply Hvisited, Hin. right. exact Hb.
Qed.

Lemma predecessorOrder_NoDup fuel :
  forall w,
    worklistConsistent w ->
    List.NoDup (predecessorOrder F popFrom fuel w)
    /\ forall b, In b (predecessorOrder F popFrom fuel w) ->
                 In b (pendingBlocks w) \/ b ∉ visitedBlocks w.
Proof.
  induction fuel as [|fuel IH]; intros w Hcons; cbn [predecessorOrder].
  - split; [constructor | intros b []].
  - destruct (pop popFrom w) as [[next w']|] eqn:Hpop; [|split; [constructor | intros b []]].
    destruct (pop_push_consistent w next w' Hcons Hpop) as (Hnext & Hfresh & Hin & Hcons').
    destruct (pop_spec w next w' Hpop) as [Hvis _].
    destruct (pushPredecessors_spec next w') as (new & Hpend & _ & Hnew & Hvis' & _).
    destruct (IH _ Hcons') as [Hnodup Hwhere].
    assert (Hlater : forall b, In b (predecessorOrder F popFrom fuel
                                       (pushPredecessors F next w')) ->
                               b <> next /\ (In b (pendingBlocks w) \/ b ∉ visitedBlocks w)).
    { intros b Hb. destruct (Hwhere b Hb) as [Hp|Hnv].
      - rewrite Hpend in Hp. apply in_app_or in Hp as [Hp|Hp].
        + destruct (Hnew b Hp) as [Hnot _]. rewrite Hvis in Hnot.
          split; [|right; exact Hnot].
          intros ->. apply Hnot. apply Hcons, Hnext.
        + split; [intros ->; contradiction | left; apply Hin; right; exact Hp].
      - assert (Hnv' : b ∉ visitedBlocks w).
        { intros Hv. apply Hnv, Hvis'. left. rewrite Hvis. exact Hv. }
        split; [|right; exact Hnv'].
        intros ->. apply Hnv'. apply Hcons, Hnext. }
    split.
    + constructor; [|exact Hnodup]. intros Hb. destruct (Hlater next Hb) as [Hne _].
      congruence.
    + intros b [<-|Hb]; [left; exact Hnext | apply Hlater, Hb].
Qed.

Lemma reachesBackward_snoc x b c :
  reachesBackward F x b -> In c (getPredecessorBlocks F b) -> reachesBackward F x c.
Proof.
  induction 1 as [x b Hb | x y b Hy Hyb IH]; intros Hc.
  - eapply reachesBackward_step; [exact Hb | apply reachesBackward_pred, Hc].
  - eapply reachesBackward_step; [exact Hy | apply IH, Hc].
Qed.

Lemma predecessorOrder_sound start fuel :
  forall w,
    (forall b, In b (pendingBlocks w) -> reachesBackward F start b) ->
    forall b, In b (predecessorOrder F popFrom fuel w) -> reachesBackward F start b.
Proof.
  induction fuel as [|fuel IH]; intros w Hpending b Hb; cbn [predecessorOrder] in Hb;
    [destruct Hb|].
  destruct (pop popFrom w) as [[next w']|] eqn:Hpop; [|destruct Hb].
  destruct (pop_spec w next w' Hpop) as [_ Hperm].
  assert (Hin : forall c, In c (pendingBlocks w) <-> c = next \/ In c (pendingBlocks w')).
  { intros c. rewrite <- !list_elem_of_In, Hperm, elem_of_cons. reflexivity. }
  assert (Hnext : reachesBackward F start next) by (apply Hpending, Hin; left; reflexivity).
  destruct Hb as [<-|Hb]; [exact Hnext|].
  apply (IH (pushPredecessors F next w')); [|exact Hb].
  intros c Hc. destruct (pushPredecessors_spec next w') as (new & Hpend & _ & Hnew & _).
  rewrite Hpend in Hc. apply in_app_or in Hc as [Hc|Hc].
  - eapply reachesBackward_snoc; [exact Hnext | apply (Hnew c Hc)].
  - apply Hpending, Hin. right. exact Hc.
Qed.

Lemma pathAvoiding_start avoid x b : pathAvoiding F avoid x b -> ~ avoid x.
Proof. destruct 1; assumption. Qed.

Lemma pathAvoiding_weaken (avoid avoid' : SILBasicBlock -> Prop) x b :
  (forall c, avoid' c -> avoid c) ->
  pathAvoiding F avoid x b -> pathAvoiding F avoid' x b.
Proof.
  intros Hsub. induction 1 as [b Hb | x y b Hx Hy Hpath IH].
  - apply pathAvoiding_here. auto.
  - eapply pathAvoiding_step; [auto | exact Hy | exact IH].
Qed.

Lemma pathAvoiding_past (avoid : SILBasicBlock -> Prop) next x b :
  pathAvoiding F avoid x b ->
  b <> next ->
  pathAvoiding F (fun c => avoid c \/ c = next) x b
  \/ exists y, In y (getPredecessorBlocks F next)
               /\ pathAvoiding F (fun c => avoid c \/ c = next) y b.
Proof.
  induction 1 as [b Hb | x y b Hx Hy Hpath IH]; intros Hne.
  - left. apply pathAvoiding_here. tauto.
  - destruct (IH Hne) as [Htail|Hjump]; [|right; exact Hjump].
    destruct (decide (x = next)) as [->|Hx'].
    + right. exists y. split; assumption.
    + left. eapply pathAvoiding_step; [tauto | exact Hy | exact Htail].
Qed.

Lemma predecessorOrder_complete fuel :
  predecessorsInFunction F ->
  forall w,
    worklistConsistent w ->
    worklistInFunction F w ->
    (remainingPops F w < fuel)%nat ->
    forall x b,
      In x (pendingBlocks w) ->
      pathAvoiding F (poppedFrom w) x b ->
      In b (predecessorOrder F popFrom fuel w).
Proof.
  intros Hpreds.
  induction fuel as [|fuel IH]; intros w Hcons Hinf Hfuel x b Hx Hpath; [lia|].
  cbn [predecessorOrder].
  pose proof (popFrom_lawful (pendingBlocks w)) as Hl.
  destruct (pop popFrom w) as [[next w']|] eqn:Hpop.
  2:{ unfold pop in Hpop. destruct (popFrom (pendingBlocks w)) as [[? ?]|];
        [discriminate|]. rewrite Hl in Hx. destruct Hx. }
  clear Hl.
  destruct (pop_push_consistent w next w' Hcons Hpop) as (Hnext & Hfresh & Hin & Hcons').
  destruct (pop_spec w next w' Hpop) as [Hvis _].
  destruct (pop_remaining F popFrom w next w' popFrom_lawful Hpop) as [_ Hrem].
  assert (Hinf' : worklistInFunction F w').
  { unfold worklistInFunction in *. rewrite Hvis. exact Hinf. }
  destruct (pushPredecessors_remaining F next w' Hpreds Hinf') as [Hinf'' Hrem''].
  destruct (pushPredecessors_spec next w') as (new & Hpend & _ & Hnew & Hvis' & Hall).
  destruct (decide (b = next)) as [->|Hne]; [left; reflexivity|].
  right.
  assert (Hpopped : forall c, poppedFrom (pushPredecessors F next w') c ->
                              poppedFrom w c \/ c = next).
  { intros c [Hv Hnp]. rewrite Hpend in Hnp.
    apply Hvis' in Hv. destruct Hv as [Hv|Hv].
    - rewrite Hvis in Hv.
      destruct (decide (c = next)) as [->|Hc]; [right; reflexivity|].
      left. split; [exact Hv|]. intros Hp. apply Hin in Hp as [->|Hp]; [congruence|].
      apply Hnp, in_or_app. right. exact Hp.
    - destruct (decide (c ∈ visitedBlocks w')) as [Hv'|Hv'].
      + rewrite Hvis in Hv'.
        destruct (decide (c = next)) as [->|Hc]; [right; reflexivity|].
        left. split; [exact Hv'|]. intros Hp. apply Hin in Hp as [->|Hp]; [congruence|].
        apply Hnp, in_or_app. right. exact Hp.
      + exfalso. apply Hnp, in_or_app. left. apply Hall; assumption. }
  assert (Hstart : forall y,
            ~ (poppedFrom w y \/ y = next) ->
            In y (pendingBlocks w) \/ In y (getPredecessorBlocks F next) ->
            In y (pendingBlocks (pushPredecessors F next w'))).
  { intros y Hny Hy. rewrite Hpend. apply in_or_app.
    destruct (decide (y ∈ visitedBlocks w)) as [Hv|Hv].
    - right. destruct (in_dec Nat.eq_dec y (pendingBlocks w)) as [Hp|Hp].
      + apply Hin in Hp as [->|Hp]; [tauto | exact Hp].
      + exfalso. apply Hny. left. split; assumption.
    - left. destruct Hy as [Hy|Hy]; [exfalso; apply Hv, Hcons, Hy|].
      apply Hall; [exact Hy | rewrite Hvis; exact Hv]. }
  destruct (pathAvoiding_past (poppedFrom w) next x b Hpath Hne) as [Hp|(y & Hy & Hp)].
  - apply (IH _ Hcons' Hinf'' ltac:(lia) x b).
    + apply Hstart; [exact (pathAvoiding_start _ _ _ Hp) | left; exact Hx].
    + eapply pathAvoiding_weaken; [exact Hpopped | exact Hp].
  - apply (IH _ Hcons' Hinf'' ltac:(lia) y b).
    + apply Hstart; [exact (pathAvoiding_start _ _ _ Hp) | right; exact Hy].
    + eapply pathAvoiding_weaken; [exact Hpopped | exact Hp].
Qed.

Lemma reachesBackward_path x b :
  reachesBackward F x b ->
  exists y, In y (getPredecessorBlocks F x) /\ pathAvoiding F (fun _ => False) y b.
Proof.
  induction 1 as [x b Hb | x y b Hy Hyb (z & Hz & Hpath)].
  - exists b. split; [exact Hb | apply pathAvoiding_here; tauto].
  - exists y. split; [exact Hy|].
    eapply pathAvoiding_step; [tauto | exact Hz | exact Hpath].
Qed.

(** The predecessor blocks the search goes through are the blocks reached
    backward from the block of the instruction, each of them once. *)
Lemma predecessorOrder_reaches start :
  predecessorsInFunction F ->
  let order := predecessorOrder F popFrom (S (numBlocks F))
                 (pushPredecessors F start emptyWorklist) in
  List.NoDup order /\ forall b, In b order <-> reachesBackward F start b.
Proof.
  intros Hpreds order. subst order.
  destruct (pushPredecessors_spec start emptyWorklist)
    as (new & Hpend & Hnodup & Hnew & Hvis & Hall).
  cbn [emptyWorklist pendingBlocks visitedBlocks] in *. rewrite app_nil_r in Hpend.
  assert (Hcons : worklistConsistent (pushPredecessors F start emptyWorklist)).
  { split; [rewrite Hpend; exact Hnodup|].
    intros b Hb. rewrite Hpend in Hb. apply Hvis. right. apply (Hnew b Hb). }
  split; [apply predecessorOrder_NoDup, Hcons|].
  intros b. split.
  - apply predecessorOrder_sound. intros c Hc. rewrite Hpend in Hc.
    apply reachesBackward_pred, (Hnew c Hc).
  - intros Hreach. apply reachesBackward_path in Hreach as (y & Hy & Hpath).
    assert (Hempty : worklistInFunction F emptyWorklist).
    { unfold worklistInFunction, emptyWorklist. cbn [visitedBlocks]. apply empty_subseteq. }
    destruct (pushPredecessors_remaining F start emptyWorklist Hpreds Hempty) as [Hinf Hrem].
    apply (predecessorOrder_complete (S (numBlocks F)) Hpreds _ Hcons Hinf) with (x := y).
    + rewrite Hrem. unfold remainingPops, emptyWorklist.
      cbn [pendingBlocks visitedBlocks length]. rewrite size_empty. lia.
    + rewrite Hpend. apply Hall; [exact Hy | apply not_elem_of_empty].
    + eapply pathAvoiding_weaken; [|exact Hpath].
      intros c [Hv Hnp]. apply Hnp. rewrite Hpend.
      apply Hvis in Hv as [Hv|Hv]; [destruct (not_elem_of_empty (C:=gset nat) c Hv)|].
      apply Hall; [exact Hv | apply not_elem_of_empty].
Qed.

End PredecessorOrder.

(** The order among the blocks reached backward is the worklist's: handing
    out the oldest pending block first goes level by level, handing out the
    newest first follows one chain of predecessors to its end. *)
Example predecessorOrder_twoChains :
  predecessorOrder twoChains popOldest 6 (pushPredecessors twoChains 0 emptyWorklist)
  = [1; 2; 3; 4]%nat
  /\ predecessorOrder twoChains popNewest 6 (pushPredecessors twoChains 0 emptyWorklist)
     = [2; 4; 1; 3]%nat.
Proof. split; vm_compute; reflexivity. Qed.

Lemma consumingUsesIn_In defs isInterestingUser index nodes ii :
  In ii (consumingUsesIn defs isInterestingUser index nodes)
  <-> In (InstructionNode ii) nodes
      /\ isDef defs (InstructionNode ii) index = false
      /\ isLifetimeEndingUse isInterestingUser ii index = true.
Proof.
  induction nodes as [|[jj|arg] nodes IH]; cbn [consumingUsesIn In].
  - tauto.
  - destruct (isDef defs (InstructionNode jj) index) eqn:Hd;
      destruct (isLifetimeEndingUse isInterestingUser jj index) eqn:Hu;
      cbn [negb andb In]; rewrite IH; split;
      try (intros (H & H1 & H2); split; [right; exact H | split; assumption]);
      try (intros ([[= ->]|H] & H1 & H2); [congruence | tauto]).
    + intros [->|(H & H1 & H2)]; [tauto | tauto].
    + intros ([[= ->]|H] & H1 & H2); [left; reflexivity | right; tauto].
  - rewrite IH. split; [tauto|]. intros ([[=]|H] & H1 & H2). tauto.
Qed.

Lemma first_match_unique {A} (P : A -> Prop) (pre1 pre2 rest1 rest2 : list A) (d1 d2 : A) :
  pre1 ++ d1 :: rest1 = pre2 ++ d2 :: rest2 ->
  P d1 -> P d2 ->
  (forall n, In n pre1 -> ~ P n) -> (forall n, In n pre2 -> ~ P n) ->
  pre1 = pre2 /\ d1 = d2 /\ rest1 = rest2.
Proof.
  revert pre2. induction pre1 as [|a pre1 IH]; intros [|b pre2] Heq H1 H2 Hn1 Hn2;
    cbn [app] in Heq.
  - injection Heq as -> ->. auto.
  - injection Heq as -> _. exfalso. apply (Hn2 b); [left; reflexivity | exact H1].
  - injection Heq as -> _. exfalso. apply (Hn1 d2); [left; reflexivity | exact H2].
  - injection Heq as -> Heq.
    destruct (IH pre2 Heq H1 H2) as (-> & -> & ->).
    + intros n Hn. apply Hn1. right. exact Hn.
    + intros n Hn. apply Hn2. right. exact Hn.
    + auto.
Qed.

(** C9 as stated fails on the order of the walk, with the worklist handing
    out the block pushed last (a stack, as [BasicBlockWorklist::pop] does):
    in [twoChainsCode] the search from instruction 20 goes through the
    blocks in the order 2, 4, 1, 3, down one chain of predecessors before
    the other, where breadth-first is 1, 2, 3, 4.  It so meets the
    consuming use 24 of block 4, two edges away, before the definition 21
    of block 1, one edge away: the callback is called and the search
    returns false, where the breadth-first walk returns true at the
    definition without a call of the callback. *)
Lemma findEarlierConsumingUse_not_breadth_first :
  predecessorOrder twoChainsCode popNewest (S (numBlocks twoChainsCode))
    (pushPredecessors twoChainsCode (getParent twoChainsCode 20) emptyWorklist)
  = [2; 4; 1; 3]%nat
  /\ breadthFirstOrder twoChainsCode (getParent twoChainsCode 20) = [1; 2; 3; 4]%nat
  /\ findEarlierConsumingUse twoChainsCode popNewest chainDefs chainUsers 20 0
       (recordCalls stopAtOnce) (0%nat, [])
     = Some (false, (1%nat, [(24%nat, false)]))
  /\ breadthFirstSearch twoChainsCode chainDefs chainUsers 20 0
       (recordCalls stopAtOnce) (0%nat, [])
     = (true, (0%nat, []))
  /\ findEarlierConsumingUse twoChainsCode popNewest chainDefs chainUsers 20 0
       (recordCalls stopAtOnce) (0%nat, [])
     <> Some (breadthFirstSearch twoChainsCode chainDefs chainUsers 20 0
                (recordCalls stopAtOnce) (0%nat, [])).
Proof.
  split; [vm_compute; reflexivity|].
  split; [vm_compute; reflexivity|].
  split; [vm_compute; reflexivity|].
  split; [vm_compute; reflexivity|].
  vm_compute. discriminate.
Qed.

(** On the same function, the worklist that hands out the block pushed
    first gives the breadth-first order and the result of the breadth-first
    walk. *)
Example breadthFirstOrder_twoChainsCode :
  predecessorOrder twoChainsCode popOldest (S (numBlocks twoChainsCode))
    (pushPredecessors twoChainsCode 0 emptyWorklist)
  = breadthFirstOrder twoChainsCode 0
  /\ findEarlierConsumingUse twoChainsCode popOldest chainDefs chainUsers 20 0
       stopAtOnce 0%nat
     = Some (breadthFirstSearch twoChainsCode chainDefs chainUsers 20 0 stopAtOnce 0%nat)
  /\ predecessorOrder diamondLoop popOldest (S (numBlocks diamondLoop))
       (pushPredecessors diamondLoop 3 emptyWorklist)
     = breadthFirstOrder diamondLoop 3
  /\ breadthFirstOrder diamondLoop 3 = [1; 2; 0; 3]%nat.
Proof. repeat split; vm_compute; reflexivity. Qed.

(** C9, amended: [findEarlierConsumingUse] returns (on a function whose
    predecessors are its own blocks).  It looks at the nodes of
    [searchOrder] in order: the instructions before [inst] walking
    backward, the arguments of that block, then the blocks reached backward
    from that block, each once, in the order in which the worklist hands
    them out, whatever that order is (it need not be breadth-first), each
    from its last instruction to its arguments.  It returns true at the
    first definition of the bit, calls the callback on every
    lifetime-ending use of the bit it meets before that, and returns false
    if and only if a call of the callback returned false, which ends the
    search. *)
Theorem findEarlierConsumingUse_spec {St : Type}
    (F : SILFunction) (popFrom : PopOrder) (defs : DefList)
    (isInterestingUser : UserOracle) (inst : SILInstruction) (index : nat)
    (callback : St -> SILInstruction -> bool * St) (state : St) :
  LawfulPop popFrom ->
  predecessorsInFunction F ->
  exists result state' log,
    findEarlierConsumingUse F popFrom defs isInterestingUser inst index callback state
    = Some (result, state')
    /\ findEarlierConsumingUse F popFrom defs isInterestingUser inst index
         (recordCalls callback) (state, [])
       = Some (result, (state', log))
    /\ (result, state')
       = searchAlong defs isInterestingUser index callback
           (searchOrder F popFrom inst) state
    /\ (exists order,
          searchOrder F popFrom inst
          = map InstructionNode (previousInstructions F inst)
            ++ map ArgumentNode (getArguments F (getParent F inst))
            ++ concat (map (nodesOf F) order)
          /\ List.NoDup order
          /\ forall b, In b order <-> reachesBackward F (getParent F inst) b)
    /\ SearchLog defs isInterestingUser index (searchOrder F popFrom inst) result log
    /\ (result = false <-> exists ii, In (ii, false) log)
    /\ (forall ii goOn, In (ii, goOn) log ->
          In (InstructionNode ii) (searchOrder F popFrom inst)
          /\ isDef defs (InstructionNode ii) index = false
          /\ isLifetimeEndingUse isInterestingUser ii index = true)
    /\ (forall pre d rest,
          searchOrder F popFrom inst = pre ++ d :: rest ->
          isDef defs d index = true ->
          (forall n, In n pre -> isDef defs n index = false) ->
          (forall e, In e log -> e.2 = true) ->
          result = true
          /\ map fst log = consumingUsesIn defs isInterestingUser index pre).
Proof.
  intros Hlawful Hpreds.
  pose proof (findEarlierConsumingUse_refines F popFrom defs isInterestingUser index
                callback inst state Hlawful Hpreds) as Hplain.
  pose proof (findEarlierConsumingUse_refines F popFrom defs isInterestingUser index
                (recordCalls callback) inst (state, []) Hlawful Hpreds) as Hlogged.
  destruct (searchAlong_recordCalls defs isInterestingUser index callback
              (searchOrder F popFrom inst) state []) as (log & Hrun & Hlog).
  rewrite Hrun in Hlogged. cbn [app] in Hlogged.
  destruct (searchAlong defs isInterestingUser index callback
              (searchOrder F popFrom inst) state) as [result state'] eqn:Esearch.
  cbn [fst snd] in *.
  exists result, state', log.
  split; [exact Hplain|]. split; [exact Hlogged|]. split; [reflexivity|].
  split.
  { exists (predecessorOrder F popFrom (S (numBlocks F))
              (pushPredecessors F (getParent F inst) emptyWorklist)).
    split; [reflexivity|].
    apply (predecessorOrder_reaches F popFrom Hlawful (getParent F inst) Hpreds). }
  split; [exact Hlog|].
  destruct Hlog as (examined & unexamined & Hnodes & Hmap & Hstop).
  split.
  { destruct Hstop as [(_ & Hr & _ & Hall)
                      |[(pre & d & _ & _ & Hr & _ & Hall)
                       |(pre & ii & calls & _ & Hl & Hr & _)]].
    - split; [congruence|]. intros (ii & Hin). specialize (Hall _ Hin). discriminate.
    - split; [congruence|]. intros (ii & Hin). specialize (Hall _ Hin). discriminate.
    - split; [|intros _; exact Hr]. intros _. exists ii. rewrite Hl.
      apply in_or_app. right. left. reflexivity. }
  split.
  { intros ii goOn Hin.
    assert (Hii : In ii (map fst log)) by (apply (in_map fst) in Hin; exact Hin).
    rewrite Hmap in Hii. apply consumingUsesIn_In in Hii.
    destruct Hii as (Hex & Hd & Hu).
    split; [rewrite Hnodes; apply in_or_app; left; exact Hex | split; assumption]. }
  intros pre d rest Horder Hd Hnodef Hall.
  destruct Hstop as [(-> & Hr & Hnone & _)
                    |[(pre' & d' & Hex & Hd' & Hr & Hnone & _)
                     |(pre' & ii & calls & _ & Hl & _)]].
  - exfalso. rewrite app_nil_r in Hnodes. subst examined.
    rewrite (Hnone d) in Hd; [discriminate|].
    rewrite Horder. apply in_or_app. right. left. reflexivity.
  - split; [exact Hr|].
    rewrite Hnodes, Hex, <- app_assoc in Horder. cbn [app] in Horder.
    destruct (first_match_unique (fun n => isDef defs n index = true)
                pre' pre unexamined rest d' d Horder Hd' Hd) as (-> & -> & _).
    + intros n Hn. rewrite (Hnone n Hn). discriminate.
    + intros n Hn. rewrite (Hnodef n Hn). discriminate.
    + rewrite Hmap, Hex, consumingUsesIn_app.
      destruct d as [ii|arg]; cbn [consumingUsesIn]; [rewrite Hd; cbn [negb andb]|];
        apply app_nil_r.
  - exfalso. specialize (Hall (ii, false)). rewrite Hl in Hall.
    assert (Hf : (ii, false).2 = true)
      by (apply Hall, in_or_app; right; left; reflexivity).
    discriminate.
Qed.

Lemma findEarlierConsumingUse_spec_witness :
  findEarlierConsumingUse branching popNewest singleDef doubleConsumeUsers 10 0
    stopAtOnce 0%nat = Some (false, 1%nat)
  /\ findEarlierConsumingUse branching popNewest singleDef doubleConsumeUsers 10 0
       (recordCalls stopAtOnce) (0%nat, []) = Some (false, (1%nat, [(6%nat, false)]))
  /\ findEarlierConsumingUse branching popNewest singleDef doubleConsumeUsers 11 0
       stopAtOnce 0%nat = Some (true, 0%nat).
Proof.
  destruct (findEarlierConsumingUse_spec branching popNewest singleDef doubleConsumeUsers
              10 0 stopAtOnce 0%nat popNewest_lawful)
    as (result & state' & log & Hplain & Hlogged & _).
  { intros block pred. cbn.
    destruct block as [|[|[|block]]]; cbn; intros H;
      repeat (destruct H as [<-|H]; [lia|]); destruct H. }
  split; [|split].
  - rewrite Hplain. vm_compute in Hplain. symmetry. exact Hplain.
  - rewrite Hlogged. vm_compute in Hlogged. symmetry. exact Hlogged.
  - vm_compute. reflexivity.
Defined.

(** ** Leaf model: types without leaves, and the ranges of projections *)

Lemma SILType_nested_ind (P : SILType -> Prop) :
  (forall elementTypes, Forall P elementTypes -> P (TupleType elementTypes)) ->
  (forall unref withDeinit storedProperties,
      Forall P storedProperties -> P (StructType unref withDeinit storedProperties)) ->
  (forall allElements,
      (forall elt, In (Some elt) allElements -> P elt) -> P (EnumType allElements)) ->
  P OtherType ->
  forall type, P type.
Proof.
  intros Ht Hs He Ho. fix IH 1. intros [l|u d l|l|].
  - apply Ht. induction l as [|x l IHl]; constructor; [apply IH | exact IHl].
  - apply Hs. induction l as [|x l IHl]; constructor; [apply IH | exact IHl].
  - apply He. induction l as [|[x|] l IHl]; simpl.
    + intros elt [].
    + intros elt [Heq|Hin]; [injection Heq as <-; apply IH | apply IHl, Hin].
    + intros elt [Heq|Hin]; [discriminate | apply IHl, Hin].
  - exact Ho.
Qed.

Lemma tuple_count_eq (elementTypes : list SILType) :
  fieldCountSum elementTypes < UnsignedModulus ->
  TypeSubElementCount (TupleType elementTypes) = fieldCountSum elementTypes.
Proof.
  intros Hfit.
  pose proof (addSubElementCounts_exact elementTypes 0 ltac:(lia) ltac:(lia)) as Hsum.
  unfold addSubElementCounts in Hsum. cbn [TypeSubElementCount]. rewrite Hsum. lia.
Qed.

Lemma struct_count_eq (withDeinit : bool) (storedProperties : list SILType) :
  fieldCountSum storedProperties + deinitBit withDeinit < UnsignedModulus ->
  TypeSubElementCount (StructType false withDeinit storedProperties)
  = Z.max 1 (fieldCountSum storedProperties + deinitBit withDeinit).
Proof.
  intros Hfit.
  pose proof (fieldCountSum_nonneg storedProperties) as Hs.
  assert (Hd : 0 <= deinitBit withDeinit <= 1) by (destruct withDeinit; simpl; lia).
  pose proof (addSubElementCounts_exact storedProperties 0 ltac:(lia) ltac:(lia)) as Hsum.
  unfold addSubElementCounts in Hsum.
  cbn [TypeSubElementCount]. rewrite Hsum. cbn zeta.
  destruct withDeinit; cbn [deinitBit] in *.
  - rewrite wrapUnsigned_small by lia.
    destruct (Z.eqb_spec (0 + fieldCountSum storedProperties + 1) 0); lia.
  - destruct (Z.eqb_spec (0 + fieldCountSum storedProperties) 0); lia.
Qed.

Lemma fieldCountSum_zero (fields : list SILType) :
  fieldCountSum fields = 0 <-> Forall (fun field => TypeSubElementCount field = 0) fields.
Proof.
  induction fields as [|f fields IH]; simpl.
  - split; [constructor | reflexivity].
  - pose proof (TypeSubElementCount_range f) as Hf.
    pose proof (fieldCountSum_nonneg fields) as Hs.
    split.
    + intros Hz. constructor; [lia | apply IH; lia].
    + intros Hall. inversion Hall as [|? ? Hf0 Hrest]; subst.
      apply IH in Hrest. lia.
Qed.

Lemma LeaflessTuple_count (type : SILType) :
  LeaflessTuple type -> TypeSubElementCount type = 0.
Proof.
  induction type as [l IH|u d l IH|l IH|] using SILType_nested_ind; intros Hleaf;
    inversion Hleaf as [l' Hall]; subst.
  assert (Hz : Forall (fun field => TypeSubElementCount field = 0) l).
  { rewrite List.Forall_forall in *. intros x Hx. apply IH; [exact Hx | apply Hall, Hx]. }
  apply fieldCountSum_zero in Hz.
  rewrite tuple_count_eq; [exact Hz|]. rewrite Hz. unfold UnsignedModulus. lia.
Qed.

(** X1: a type has sub-element count 0 exactly when it is a tuple with no leaf
    below it (the empty tuple, a tuple of empty tuples, and so on), provided
    the counts in the type fit the counter; every other type has at least
    one sub-element. *)
Theorem TypeSubElementCount_zero_iff_leafless (type : SILType) :
  CountFits type ->
  (TypeSubElementCount type = 0 <-> LeaflessTuple type)
  /\ (~ LeaflessTuple type -> 1 <= TypeSubElementCount type).
Proof.
  intros Hfits.
  assert (Hiff : TypeSubElementCount type = 0 <-> LeaflessTuple type).
  { revert Hfits.
    induction type as [l IH|u d l IH|l IH|] using SILType_nested_ind; intros Hfits.
    - inversion Hfits as [l' Hall Hfit| | | |]; subst.
      split; [|apply LeaflessTuple_count].
      rewrite tuple_count_eq by exact Hfit. intros Hz.
      apply fieldCountSum_zero in Hz. constructor.
      rewrite List.Forall_forall in *. intros x Hx.
      apply (IH x Hx); [apply Hall, Hx | apply Hz, Hx].
    - split; [|intros Hleaf; inversion Hleaf].
      intros Hz. exfalso. destruct u.
      + cbn in Hz. lia.
      + cbn [TypeSubElementCount] in Hz. cbn zeta in Hz.
        match type of Hz with
        | context [?a =? 0] => destruct (Z.eqb_spec a 0)
        end; lia.
    - split; [|intros Hleaf; inversion Hleaf].
      inversion Hfits as [| | |l' Hall Hfit|]; subst.
      rewrite enum_count_eq.
      pose proof (maxCount_nonneg (payloadCounts l)).
      rewrite wrapUnsigned_small by lia. lia.
    - split; [cbn; lia | intros Hleaf; inversion Hleaf]. }
  split; [exact Hiff|].
  intros Hnot. pose proof (TypeSubElementCount_range type).
  destruct (Z.eq_dec (TypeSubElementCount type) 0) as [Hz|Hnz]; [|lia].
  apply Hiff in Hz. contradiction.
Qed.

Lemma TypeSubElementCount_zero_iff_leafless_witness :
  (TypeSubElementCount (TupleType [TupleType []; TupleType [TupleType []]]) = 0
   <-> LeaflessTuple (TupleType [TupleType []; TupleType [TupleType []]]))
  /\ (~ LeaflessTuple (TupleType [TupleType []; TupleType [TupleType []]]) ->
      1 <= TypeSubElementCount (TupleType [TupleType []; TupleType [TupleType []]])).
Proof.
  apply TypeSubElementCount_zero_iff_leafless.
  repeat (constructor; try (vm_compute; reflexivity)).
Defined.

Lemma fieldCountSum_app (l1 l2 : list SILType) :
  fieldCountSum (l1 ++ l2) = fieldCountSum l1 + fieldCountSum l2.
Proof. induction l1 as [|x l1 IH]; simpl; lia. Qed.

(** The counts of the fields before field [i], the count of field [i] and
    the counts of the fields before a later field [j]. *)
Lemma fieldCountSum_prefix (fields : list SILType) (i : nat) (ty : SILType) :
  nth_error fields i = Some ty ->
  fieldCountSum (firstn i fields) + TypeSubElementCount ty
  = fieldCountSum (firstn (S i) fields)
  /\ fieldCountSum (firstn (S i) fields) <= fieldCountSum fields.
Proof.
  intros Hnth.
  destruct (nth_error_split fields i Hnth) as (l1 & l2 & -> & Hlen).
  subst i.
  replace (firstn (length l1) (l1 ++ ty :: l2)) with l1
    by (rewrite firstn_app, Nat.sub_diag, firstn_all; simpl; rewrite app_nil_r; reflexivity).
  replace (firstn (S (length l1)) (l1 ++ ty :: l2)) with (l1 ++ [ty]).
  2:{ rewrite firstn_app. replace (S (length l1) - length l1)%nat with 1%nat by lia.
      rewrite firstn_all2 by lia. reflexivity. }
  rewrite !fieldCountSum_app. simpl.
  pose proof (fieldCountSum_nonneg l2). lia.
Qed.

Lemma fieldCountSum_firstn_mono (fields : list SILType) (i j : nat) :
  (i <= j)%nat ->
  fieldCountSum (firstn i fields) <= fieldCountSum (firstn j fields).
Proof.
  intros Hij.
  replace (firstn i fields) with (firstn i (firstn j fields))
    by (rewrite firstn_firstn; f_equal; lia).
  rewrite <- (firstn_skipn i (firstn j fields)) at 2.
  rewrite fieldCountSum_app.
  pose proof (fieldCountSum_nonneg (skipn i (firstn j fields))). lia.
Qed.

Lemma fieldCountSum_firstn_le (fields : list SILType) (i : nat) :
  fieldCountSum (firstn i fields) <= fieldCountSum fields.
Proof.
  rewrite <- (firstn_skipn i fields) at 2. rewrite fieldCountSum_app.
  pose proof (fieldCountSum_nonneg (skipn i fields)). lia.
Qed.

Lemma computeForAddressFrom_step offset id ty kind operand root :
  id <> valueID root ->
  computeForAddressFrom offset (Projection id ty kind operand) root
  = match stepOffset (addressStep kind) operand offset with
    | Some offset' => computeForAddressFrom offset' operand root
    | None => None
    end.
Proof.
  intros Hid. cbn [computeForAddressFrom].
  rewrite sameValue_false by exact Hid.
  destruct kind; reflexivity.
Qed.

Lemma computeForValueFrom_step offset id ty kind operand root :
  id <> valueID root ->
  computeForValueFrom offset (Projection id ty kind operand) root
  = match stepOffset (valueStep kind) operand offset with
    | Some offset' => computeForValueFrom offset' operand root
    | None => None
    end.
Proof.
  intros Hid. cbn [computeForValueFrom].
  rewrite sameValue_false by exact Hid.
  destruct kind; reflexivity.
Qed.

(** Along a well-typed chain a walk returns.  When the structs projected out
    of on the chain are fully referenceable, the walk adds a fixed distance
    [d] to the offset it starts from, and the sub-elements of the
    projection, placed at [d], lie within those of the root. *)
Section ChainOffset.
Variable step : ProjectionKind -> ProjectionStep.
Variable walkFrom : Z -> SILValue -> SILValue -> option Z.
Hypothesis walkFrom_root : forall offset root, walkFrom offset root root = Some offset.
Hypothesis walkFrom_step :
  forall offset id ty kind operand root,
    id <> valueID root ->
    walkFrom offset (Projection id ty kind operand) root
    = match stepOffset (step kind) operand offset with
      | Some offset' => walkFrom offset' operand root
      | None => None
      end.

Lemma chain_returns (root v : SILValue) :
  ProjectionChain step root v ->
  forall offset, is_Some (walkFrom offset v root).
Proof.
  induction 1 as [ | id ty kind operand Hid Hstep Hty Hchain IH
                   | id ty kind operand fieldIndex elementTypes Hid Hstep Hop Hnth Hfit Hchain IH
                   | id ty kind operand field unref withDeinit storedProperties
                       Hid Hstep Hop Hnth Hfit Hchain IH
                   | id ty kind operand allElements Hid Hstep Hop Hin Hfit Hchain IH ];
    intros offset.
  - rewrite walkFrom_root. eauto.
  - rewrite walkFrom_step by exact Hid. rewrite Hstep. apply IH.
  - rewrite walkFrom_step by exact Hid. rewrite Hstep. apply IH.
  - rewrite walkFrom_step by exact Hid. rewrite Hstep. apply IH.
  - rewrite walkFrom_step by exact Hid. rewrite Hstep. apply IH.
Qed.

Lemma structsReferenceable_step (root : SILValue) id ty kind operand :
  id <> valueID root ->
  structsReferenceable step root (Projection id ty kind operand) = true ->
  structsReferenceable step root operand = true
  /\ forall field unref withDeinit storedProperties,
       step kind = StructField field ->
       getType operand = StructType unref withDeinit storedProperties ->
       unref = false.
Proof.
  intros Hid Href. cbn [structsReferenceable] in Href.
  rewrite sameValue_false in Href by exact Hid.
  destruct (step kind) eqn:Hstep.
  - split; [exact Href | discriminate].
  - split; [exact Href | discriminate].
  - destruct (getType operand) as [l|[|] d l|l|] eqn:Hop; try discriminate;
      (split; [exact Href|]); intros f u w s _ Heq; try discriminate.
    injection Heq as <- _ _. reflexivity.
  - split; [exact Href | discriminate].
  - split; [exact Href | discriminate].
Qed.

Lemma chain_distance (root v : SILValue) :
  ProjectionChain step root v ->
  structsReferenceable step root v = true ->
  exists d,
    0 <= d
    /\ d + TypeSubElementCount (getType v) <= TypeSubElementCount (getType root)
    /\ forall offset,
         0 <= offset -> offset + d < UnsignedModulus ->
         walkFrom offset v root = Some (offset + d).
Proof.
  induction 1 as [ | id ty kind operand Hid Hstep Hty Hchain IH
                   | id ty kind operand fieldIndex elementTypes Hid Hstep Hop Hnth Hfit Hchain IH
                   | id ty kind operand field unref withDeinit storedProperties
                       Hid Hstep Hop Hnth Hfit Hchain IH
                   | id ty kind operand allElements Hid Hstep Hop Hin Hfit Hchain IH ];
    intros Href;
    try (destruct (structsReferenceable_step root id ty kind operand Hid Href)
           as [Hrefop Hstruct];
         specialize (IH Hrefop)).
  - exists 0. split; [lia|]. split; [lia|].
    intros offset _ _. rewrite walkFrom_root. f_equal. lia.
  - destruct IH as (d & Hd & Hin & Hwalk). exists d.
    cbn [getType]. split; [exact Hd|]. split; [lia|].
    intros offset Ho Hfit. rewrite walkFrom_step by exact Hid.
    rewrite Hstep. cbn [stepOffset]. apply Hwalk; assumption.
  - destruct IH as (d & Hd & Hin & Hwalk).
    destruct (fieldCountSum_prefix _ _ _ Hnth) as [Hpre Hle].
    pose proof (fieldCountSum_nonneg (firstn fieldIndex elementTypes)) as Hnn.
    pose proof (TypeSubElementCount_range ty) as Hty.
    rewrite Hop, tuple_count_eq in Hin by exact Hfit.
    exists (fieldCountSum (firstn fieldIndex elementTypes) + d).
    cbn [getType]. split; [lia|]. split; [lia|].
    intros offset Ho Hofit. rewrite walkFrom_step by exact Hid.
    rewrite Hstep. cbn [stepOffset]. rewrite Hop. cbn [tupleElementTypes].
    rewrite addSubElementCounts_exact by lia.
    rewrite Hwalk by lia. f_equal. lia.
  - destruct IH as (d & Hd & Hin & Hwalk).
    destruct (fieldCountSum_prefix _ _ _ Hnth) as [Hpre Hle].
    pose proof (fieldCountSum_nonneg (firstn field storedProperties)) as Hnn.
    pose proof (TypeSubElementCount_range ty) as Hty.
    assert (Hdb : 0 <= deinitBit withDeinit) by (destruct withDeinit; simpl; lia).
    pose proof (Hstruct _ _ _ _ Hstep Hop) as ->.
    rewrite Hop, struct_count_eq in Hin by exact Hfit.
    exists (fieldCountSum (firstn field storedProperties) + d).
    cbn [getType]. split; [lia|]. split; [lia|].
    intros offset Ho Hofit. rewrite walkFrom_step by exact Hid.
    rewrite Hstep. cbn [stepOffset]. rewrite Hop. cbn [storedPropertyTypes].
    rewrite addSubElementCounts_exact by lia.
    rewrite Hwalk by lia. f_equal. lia.
  - destruct IH as (d & Hd & Hin' & Hwalk). exists d.
    pose proof (maxCount_upper _ _ (payloadCounts_In _ _ Hin)) as Hmax.
    pose proof (maxCount_nonneg (payloadCounts allElements)) as Hnn.
    rewrite Hop, enum_count_eq, wrapUnsigned_small in Hin' by lia.
    cbn [getType]. split; [exact Hd|]. split; [lia|].
    intros offset Ho Hofit. rewrite walkFrom_step by exact Hid.
    rewrite Hstep. cbn [stepOffset]. apply Hwalk; assumption.
Qed.

Lemma chain_within_root (root v : SILValue) :
  ProjectionChain step root v ->
  structsReferenceable step root v = true ->
  exists offset,
    walkFrom 0 v root = Some offset
    /\ 0 <= offset
    /\ offset + TypeSubElementCount (getType v) <= TypeSubElementCount (getType root).
Proof.
  intros Hchain Href.
  destruct (chain_distance root v Hchain Href) as (d & Hd & Hin & Hwalk).
  exists d. pose proof (TypeSubElementCount_range (getType root)).
  pose proof (TypeSubElementCount_range (getType v)).
  rewrite Hwalk by lia. repeat split; [f_equal|..]; lia.
Qed.

(** Two projections of the fields [i < j] of the same aggregate, itself on a
    chain from the root on which the structs projected out of are fully
    referenceable. *)
Lemma chain_siblings (root operand : SILValue) (fields : list SILType)
    (tupleOrStruct : nat -> ProjectionStep)
    id1 ty1 kind1 i id2 ty2 kind2 j :
  ProjectionChain step root operand ->
  structsReferenceable step root operand = true ->
  (tupleOrStruct = TupleField /\ getType operand = TupleType fields
   /\ fieldCountSum fields < UnsignedModulus
   \/ exists withDeinit,
        tupleOrStruct = StructField
        /\ getType operand = StructType false withDeinit fields
        /\ fieldCountSum fields + deinitBit withDeinit < UnsignedModulus) ->
  id1 <> valueID root -> id2 <> valueID root ->
  step kind1 = tupleOrStruct i -> step kind2 = tupleOrStruct j ->
  nth_error fields i = Some ty1 -> nth_error fields j = Some ty2 ->
  (i < j)%nat ->
  exists offset1 offset2,
    walkFrom 0 (Projection id1 ty1 kind1 operand) root = Some offset1
    /\ walkFrom 0 (Projection id2 ty2 kind2 operand) root = Some offset2
    /\ 0 <= offset1
    /\ offset1 + TypeSubElementCount ty1 <= offset2
    /\ offset2 + TypeSubElementCount ty2 <= TypeSubElementCount (getType root).
Proof.
  intros Hchain Href Hagg Hid1 Hid2 Hk1 Hk2 Hn1 Hn2 Hij.
  destruct (chain_distance root operand Hchain Href) as (d & Hd & Hin & Hwalk).
  destruct (fieldCountSum_prefix _ _ _ Hn1) as [Hpre1 Hle1].
  destruct (fieldCountSum_prefix _ _ _ Hn2) as [Hpre2 Hle2].
  pose proof (fieldCountSum_firstn_mono fields (S i) j ltac:(lia)) as Hmono.
  pose proof (fieldCountSum_nonneg (firstn i fields)) as Hnn1.
  pose proof (fieldCountSum_nonneg (firstn j fields)) as Hnn2.
  pose proof (TypeSubElementCount_range ty1) as Hty1.
  pose proof (TypeSubElementCount_range ty2) as Hty2.
  pose proof (TypeSubElementCount_range (getType root)) as Hroot.
  assert (Hsum : fieldCountSum fields <= TypeSubElementCount (getType operand)).
  { destruct Hagg as [(_ & Hop & Hfit)|(withDeinit & _ & Hop & Hfit)]; rewrite Hop.
    - rewrite tuple_count_eq by exact Hfit. lia.
    - rewrite struct_count_eq by exact Hfit.
      assert (0 <= deinitBit withDeinit) by (destruct withDeinit; simpl; lia). lia. }
  exists (fieldCountSum (firstn i fields) + d), (fieldCountSum (firstn j fields) + d).
  assert (Hstep_eq : forall k,
             stepOffset (tupleOrStruct k) operand 0
             = Some (addSubElementCounts 0 (firstn k fields))).
  { intros k. destruct Hagg as [(-> & Hop & _)|(withDeinit & -> & Hop & _)];
      cbn [stepOffset]; rewrite Hop; reflexivity. }
  split; [|split; [|lia]].
  - rewrite walkFrom_step by exact Hid1. rewrite Hk1, Hstep_eq.
    rewrite addSubElementCounts_exact by lia. rewrite Hwalk by lia. f_equal.
  - rewrite walkFrom_step by exact Hid2. rewrite Hk2, Hstep_eq.
    rewrite addSubElementCounts_exact by lia. rewrite Hwalk by lia. f_equal.
Qed.

End ChainOffset.

Lemma computeForAddressFrom_root offset root :
  computeForAddressFrom offset root root = Some offset.
Proof.
  destruct root; cbn [computeForAddressFrom]; unfold sameValue;
    rewrite Nat.eqb_refl; reflexivity.
Qed.

Lemma computeForValueFrom_root offset root :
  computeForValueFrom offset root root = Some offset.
Proof.
  destruct root; cbn [computeForValueFrom]; unfold sameValue;
    rewrite Nat.eqb_refl; reflexivity.
Qed.

(** The condition on the structs cannot be dropped: out of a struct with
    unreferenceable storage, which counts as one leaf, the walks still add
    the counts of the stored properties that precede the projected one.
    The pair that is the second stored property of [opaquePairInStruct]
    gets the offset 1 and its two elements the offsets 1 and 2, against a
    root of one leaf. *)
Example unreferenceable_struct_ranges_leave_root :
  ProjectionChain addressStep opaquePairInStructRoot secondOfOpaquePair
  /\ structsReferenceable addressStep opaquePairInStructRoot secondOfOpaquePair = false
  /\ TypeSubElementCount (getType opaquePairInStructRoot) = 1
  /\ computeForAddress pairOfOpaque opaquePairInStructRoot = Some 1
  /\ TypeSubElementCount (getType pairOfOpaque) = 2
  /\ computeForAddress firstOfOpaquePair opaquePairInStructRoot = Some 1
  /\ computeForAddress secondOfOpaquePair opaquePairInStructRoot = Some 2
  /\ TypeSubElementCount (getType secondOfOpaquePair) = 1.
Proof.
  split; [|repeat split; reflexivity].
  eapply ProjectionChain_tuple with (fieldIndex := 1%nat);
    [discriminate | reflexivity | reflexivity | reflexivity | vm_compute; reflexivity |].
  eapply ProjectionChain_struct with (field := 1%nat);
    [discriminate | reflexivity | reflexivity | reflexivity | vm_compute; reflexivity |].
  apply ProjectionChain_root.
Qed.

(** X2: on a well-typed chain of address projections ([ProjectionChain]:
    looked-through instructions with as many sub-elements as their operand,
    tuple, struct and enum payload projections typed as what they project,
    sums of element counts that fit the counter) [computeForAddress]
    returns an offset; when every struct out of which the chain projects a
    stored property has fully referenceable storage
    ([structsReferenceable]), the leaf range of the projection lies within
    the leaf range of its root: the offset plus the sub-element count of
    the projection's type is at most the sub-element count of the root's
    type.  The same for [computeForValue] on a chain of value
    projections. *)
Theorem projection_range_within_root (root v : SILValue) :
  (ProjectionChain addressStep root v ->
   is_Some (computeForAddress v root)
   /\ (structsReferenceable addressStep root v = true ->
       exists offset,
         computeForAddress v root = Some offset
         /\ 0 <= offset
         /\ offset + TypeSubElementCount (getType v)
            <= TypeSubElementCount (getType root)))
  /\ (ProjectionChain valueStep root v ->
      is_Some (computeForValue v root)
      /\ (structsReferenceable valueStep root v = true ->
          exists offset,
            computeForValue v root = Some offset
            /\ 0 <= offset
            /\ offset + TypeSubElementCount (getType v)
               <= TypeSubElementCount (getType root))).
Proof.
  split; intros Hchain; split.
  - exact (chain_returns addressStep computeForAddressFrom
             computeForAddressFrom_root computeForAddressFrom_step root v Hchain 0).
  - exact (chain_within_root addressStep computeForAddressFrom
             computeForAddressFrom_root computeForAddressFrom_step root v Hchain).
  - exact (chain_returns valueStep computeForValueFrom
             computeForValueFrom_root computeForValueFrom_step root v Hchain 0).
  - exact (chain_within_root valueStep computeForValueFrom
             computeForValueFrom_root computeForValueFrom_step root v Hchain).
Qed.

Lemma secondOfPair_chain : ProjectionChain addressStep pairInStructRoot secondOfPair.
Proof.
  eapply ProjectionChain_tuple with (fieldIndex := 1%nat);
    [discriminate | reflexivity | reflexivity | reflexivity | vm_compute; reflexivity |].
  eapply ProjectionChain_struct with (field := 1%nat);
    [discriminate | reflexivity | reflexivity | reflexivity | vm_compute; reflexivity |].
  apply ProjectionChain_root.
Defined.

Lemma secondOfPairValue_chain : ProjectionChain valueStep pairInStructRoot secondOfPairValue.
Proof.
  eapply ProjectionChain_tuple with (fieldIndex := 1%nat);
    [discriminate | reflexivity | reflexivity | reflexivity | vm_compute; reflexivity |].
  eapply ProjectionChain_struct with (field := 1%nat);
    [discriminate | reflexivity | reflexivity | reflexivity | vm_compute; reflexivity |].
  apply ProjectionChain_root.
Defined.

Lemma projection_range_within_root_witness :
  (exists offset,
      computeForAddress secondOfPair pairInStructRoot = Some offset
      /\ 0 <= offset
      /\ offset + TypeSubElementCount (getType secondOfPair)
         <= TypeSubElementCount (getType pairInStructRoot))
  /\ (exists offset,
         computeForValue secondOfPairValue pairInStructRoot = Some offset
         /\ 0 <= offset
         /\ offset + TypeSubElementCount (getType secondOfPairValue)
            <= TypeSubElementCount (getType pairInStructRoot)).
Proof.
  split.
  - apply (proj1 (projection_range_within_root pairInStructRoot secondOfPair)
             secondOfPair_chain).
    reflexivity.
  - apply (proj2 (projection_range_within_root pairInStructRoot secondOfPairValue)
             secondOfPairValue_chain).
    reflexivity.
Defined.

Example secondOfPair_offsets :
  computeForAddress secondOfPair pairInStructRoot = Some 2
  /\ computeForValue secondOfPairValue pairInStructRoot = Some 2
  /\ TypeSubElementCount pairInStruct = 3.
Proof. repeat split; reflexivity. Qed.

(** X3: distinct fields get disjoint leaf ranges: for two address projections
    of the elements [i < j] of one tuple, or of the stored properties
    [i < j] of one fully referenceable struct, itself on a well-typed chain
    from the root on which every struct projected out of is fully
    referenceable ([structsReferenceable]), the range of the first ends at
    or before the start of the second, and both lie within the root's
    range; the same for value projections. *)
Theorem sibling_fields_have_disjoint_ranges
    (root operand : SILValue) (fields : list SILType)
    (tupleOrStruct : nat -> ProjectionStep)
    (id1 : nat) (ty1 : SILType) (kind1 : ProjectionKind) (i : nat)
    (id2 : nat) (ty2 : SILType) (kind2 : ProjectionKind) (j : nat) :
  (tupleOrStruct = TupleField /\ getType operand = TupleType fields
   /\ fieldCountSum fields < UnsignedModulus
   \/ exists withDeinit,
        tupleOrStruct = StructField
        /\ getType operand = StructType false withDeinit fields
        /\ fieldCountSum fields + deinitBit withDeinit < UnsignedModulus) ->
  id1 <> valueID root -> id2 <> valueID root ->
  nth_error fields i = Some ty1 -> nth_error fields j = Some ty2 ->
  (i < j)%nat ->
  (ProjectionChain addressStep root operand ->
   structsReferenceable addressStep root operand = true ->
   addressStep kind1 = tupleOrStruct i -> addressStep kind2 = tupleOrStruct j ->
   exists offset1 offset2,
     computeForAddress (Projection id1 ty1 kind1 operand) root = Some offset1
     /\ computeForAddress (Projection id2 ty2 kind2 operand) root = Some offset2
     /\ 0 <= offset1
     /\ offset1 + TypeSubElementCount ty1 <= offset2
     /\ offset2 + TypeSubElementCount ty2 <= TypeSubElementCount (getType root))
  /\ (ProjectionChain valueStep root operand ->
      structsReferenceable valueStep root operand = true ->
      valueStep kind1 = tupleOrStruct i -> valueStep kind2 = tupleOrStruct j ->
      exists offset1 offset2,
        computeForValue (Projection id1 ty1 kind1 operand) root = Some offset1
        /\ computeForValue (Projection id2 ty2 kind2 operand) root = Some offset2
        /\ 0 <= offset1
        /\ offset1 + TypeSubElementCount ty1 <= offset2
        /\ offset2 + TypeSubElementCount ty2 <= TypeSubElementCount (getType root)).
Proof.
  intros Hagg Hid1 Hid2 Hn1 Hn2 Hij. split; intros Hchain Href Hk1 Hk2.
  - exact (chain_siblings addressStep computeForAddressFrom
             computeForAddressFrom_root computeForAddressFrom_step
             root operand fields tupleOrStruct id1 ty1 kind1 i id2 ty2 kind2 j
             Hchain Href Hagg Hid1 Hid2 Hk1 Hk2 Hn1 Hn2 Hij).
  - exact (chain_siblings valueStep computeForValueFrom
             computeForValueFrom_root computeForValueFrom_step
             root operand fields tupleOrStruct id1 ty1 kind1 i id2 ty2 kind2 j
             Hchain Href Hagg Hid1 Hid2 Hk1 Hk2 Hn1 Hn2 Hij).
Qed.

Lemma sibling_fields_have_disjoint_ranges_witness :
  exists offset1 offset2,
    computeForAddress
      (Projection 1 OtherType (StructElementAddrInst 0) pairInStructRoot)
      pairInStructRoot = Some offset1
    /\ computeForAddress
         (Projection 2 (TupleType [OtherType; OtherType]) (StructElementAddrInst 1)
            pairInStructRoot)
         pairInStructRoot = Some offset2
    /\ 0 <= offset1
    /\ offset1 + TypeSubElementCount OtherType <= offset2
    /\ offset2 + TypeSubElementCount (TupleType [OtherType; OtherType])
       <= TypeSubElementCount (getType pairInStructRoot).
Proof.
  refine (proj1 (sibling_fields_have_disjoint_ranges
                   pairInStructRoot pairInStructRoot
                   [OtherType; TupleType [OtherType; OtherType]] StructField
                   1%nat OtherType (StructElementAddrInst 0) 0%nat
                   2%nat (TupleType [OtherType; OtherType]) (StructElementAddrInst 1) 1%nat
                   _ _ _ _ _ _) _ _ _ _).
  - right. exists false.
    split; [reflexivity|]. split; [reflexivity | vm_compute; reflexivity].
  - discriminate.
  - discriminate.
  - reflexivity.
  - reflexivity.
  - lia.
  - apply ProjectionChain_root.
  - reflexivity.
  - reflexivity.
  - reflexivity.
Defined.

(** ** Within the boundary *)

Lemma instructionsUpTo_split (inst : SILInstruction) (insts : list SILInstruction) :
  In inst insts ->
  exists rest,
    insts = instructionsUpTo inst insts ++ inst :: rest
    /\ ~ In inst (instructionsUpTo inst insts).
Proof.
  induction insts as [|i insts IH]; cbn [In instructionsUpTo]; [tauto|].
  intros Hin. destruct (Nat.eqb_spec i inst) as [->|Hne].
  - exists insts. split; [reflexivity | intros []].
  - destruct Hin as [Heq|Hin]; [congruence|].
    destruct (IH Hin) as (rest & Heq & Hnot). exists rest. split.
    + cbn [app]. f_equal. exact Heq.
    + intros [Heq'|Hin']; [congruence | exact (Hnot Hin')].
Qed.

Lemma instructionsUpTo_not_in (inst : SILInstruction) (insts : list SILInstruction) :
  ~ In inst insts -> instructionsUpTo inst insts = insts.
Proof.
  induction insts as [|i insts IH]; cbn [In instructionsUpTo]; [reflexivity|].
  intros Hnot. destruct (Nat.eqb_spec i inst) as [->|Hne]; [tauto|].
  f_equal. apply IH. tauto.
Qed.

Lemma instructionsUpTo_app (inst : SILInstruction) (pre post : list SILInstruction) :
  ~ In inst pre -> instructionsUpTo inst (pre ++ inst :: post) = pre.
Proof.
  induction pre as [|i pre IH]; cbn [In app instructionsUpTo]; intros Hnot.
  - rewrite Nat.eqb_refl. reflexivity.
  - destruct (Nat.eqb_spec i inst) as [->|Hne]; [tauto|].
    f_equal. apply IH. tauto.
Qed.

(** The scan for one bit reaches [inst] when it is in the block, with the
    liveness computed over the instructions after it. *)
Lemma isWithinBoundaryScan_spec impl isInterestingUser inst bit reversed isLive :
  In inst reversed ->
  isWithinBoundaryScan impl isInterestingUser inst bit reversed isLive
  = Some (negb (implIsDef impl inst bit)
          && liveAfterScan impl isInterestingUser bit isLive
               (instructionsUpTo inst reversed)).
Proof.
  revert isLive.
  induction reversed as [|blockInst rest IH]; intros isLive; cbn [In]; [tauto|].
  intros Hin. cbn [isWithinBoundaryScan instructionsUpTo].
  destruct (Nat.eqb_spec blockInst inst) as [->|Hne].
  - cbn [liveAfterScan fold_left].
    destruct (implIsDef impl inst bit); reflexivity.
  - destruct Hin as [Heq|Hin]; [congruence|].
    rewrite (IH _ Hin). unfold liveAfterScan. cbn [fold_left].
    do 3 f_equal.
    destruct (implIsDef impl blockInst bit), isLive,
      (isInteresting isInterestingUser blockInst bit); reflexivity.
Qed.

Lemma isWithinBoundaryScan_not_in impl isInterestingUser inst bit reversed isLive :
  ~ In inst reversed ->
  isWithinBoundaryScan impl isInterestingUser inst bit reversed isLive = None.
Proof.
  revert isLive.
  induction reversed as [|blockInst rest IH]; intros isLive; cbn [In]; [reflexivity|].
  intros Hnot. cbn [isWithinBoundaryScan].
  destruct (Nat.eqb_spec blockInst inst) as [->|Hne]; [tauto|].
  apply IH. tauto.
Qed.

(** What the scan computes, read on the instructions in program order. *)
Lemma liveAfterScan_LiveAfter impl isInterestingUser bit isLive seen :
  liveAfterScan impl isInterestingUser bit isLive seen = true
  <-> LiveAfter impl isInterestingUser bit isLive (rev seen).
Proof.
  unfold liveAfterScan. revert isLive.
  induction seen as [|blockInst seen IH] using rev_ind; intros isLive.
  - cbn [fold_left rev]. unfold LiveAfter. split.
    + intros ->. right. split; [reflexivity | intros i []].
    + intros [(between & user & rest & Heq & _)|[H _]]; [|exact H].
      destruct between; discriminate.
  - rewrite fold_left_app. cbn [fold_left]. rewrite rev_app_distr. cbn [rev app].
    set (before := fold_left _ seen isLive).
    specialize (IH isLive). fold before in IH.
    unfold LiveAfter in *. split.
    + intros H. apply orb_true_iff in H as [H|H].
      * apply andb_true_iff in H as [Hdef Hlive]. apply negb_true_iff in Hdef.
        apply IH in Hlive as [(between & user & rest & Heq & Hint & Hno)|[Hout Hno]].
        -- left. exists (blockInst :: between), user, rest.
           split; [cbn [app]; f_equal; exact Heq|]. split; [exact Hint|].
           intros i [<-|Hi]; [exact Hdef | apply Hno, Hi].
        -- right. split; [exact Hout|]. intros i [<-|Hi]; [exact Hdef | apply Hno, Hi].
      * left. exists [], blockInst, (rev seen). split; [reflexivity|].
        split; [exact H | intros i []].
    + intros [(between & user & rest & Heq & Hint & Hno)|[Hout Hno]].
      * destruct between as [|first between]; cbn [app] in Heq.
        -- injection Heq as <- _. rewrite Hint. apply orb_true_r.
        -- injection Heq as <- Heq.
           rewrite (Hno blockInst (or_introl eq_refl)). cbn [negb andb].
           apply orb_true_iff. left. apply IH. left.
           exists between, user, rest. split; [exact Heq|]. split; [exact Hint|].
           intros i Hi. apply Hno. right. exact Hi.
      * rewrite (Hno blockInst (or_introl eq_refl)). cbn [negb andb].
        apply orb_true_iff. left. apply IH. right. split; [exact Hout|].
        intros i Hi. apply Hno. right. exact Hi.
Qed.

Lemma isWithinBoundaryBits_spec impl F live isInterestingUser inst bits :
  In inst (getInstructions F (getParent F inst)) ->
  exists result,
    isWithinBoundaryBits impl F isInterestingUser inst (getParent F inst)
      (combine bits (map (getBlockLiveness live (getParent F inst)) bits)) = Some result
    /\ (result = true
        <-> exists bit, In bit bits /\ WithinBoundaryAt impl F live isInterestingUser inst bit).
Proof.
  intros Hin.
  assert (Hrev : In inst (rev (getInstructions F (getParent F inst))))
    by (apply in_rev; rewrite rev_involutive; exact Hin).
  assert (Hscan : forall bit isLive,
             isWithinBoundaryScan impl isInterestingUser inst bit
               (rev (getInstructions F (getParent F inst))) isLive
             = Some (negb (implIsDef impl inst bit)
                     && liveAfterScan impl isInterestingUser bit isLive
                          (instructionsUpTo inst (rev (getInstructions F (getParent F inst)))))).
  { intros bit isLive. apply isWithinBoundaryScan_spec, Hrev. }
  assert (Hat : forall bit isLive,
             negb (implIsDef impl inst bit)
             && liveAfterScan impl isInterestingUser bit isLive
                  (instructionsUpTo inst (rev (getInstructions F (getParent F inst)))) = true
             <-> implIsDef impl inst bit = false
                 /\ LiveAfter impl isInterestingUser bit isLive (instructionsAfter F inst)).
  { intros bit isLive. rewrite andb_true_iff, negb_true_iff, liveAfterScan_LiveAfter.
    unfold instructionsAfter, instructionsAfterIn. reflexivity. }
  induction bits as [|bit bits IH]; cbn [map combine isWithinBoundaryBits].
  - exists false. split; [reflexivity|]. split; [discriminate|].
    intros (bit & [] & _).
  - destruct IH as (rest & Hrest & Hiff).
    unfold WithinBoundaryAt in *. cbn zeta in *.
    destruct (getBlockLiveness live (getParent F inst) bit) eqn:Hlive.
    + exists rest. split; [exact Hrest|]. rewrite Hiff. split.
      * intros (b & Hb & Hw). exists b. split; [right; exact Hb | exact Hw].
      * intros (b & [<-|Hb] & Hw); [rewrite Hlive in Hw; contradiction|].
        exists b. split; assumption.
    + rewrite Hscan.
      destruct (negb (implIsDef impl inst bit) && _) eqn:Hw.
      * exists true. split; [reflexivity|]. split; [|reflexivity]. intros _.
        exists bit. split; [left; reflexivity|]. rewrite Hlive. apply Hat, Hw.
      * exists rest. split; [exact Hrest|]. rewrite Hiff. split.
        -- intros (b & Hb & Hwb). exists b. split; [right; exact Hb | exact Hwb].
        -- intros (b & [<-|Hb] & Hwb).
           ++ rewrite Hlive in Hwb. apply Hat in Hwb. congruence.
           ++ exists b. split; assumption.
    + destruct (implIsDefBlock impl (getParent F inst) bit) eqn:Hdb; cbn [negb].
      * rewrite Hscan.
        destruct (negb (implIsDef impl inst bit) && _) eqn:Hw.
        -- exists true. split; [reflexivity|]. split; [|reflexivity]. intros _.
           exists bit. split; [left; reflexivity|]. rewrite Hlive. right. apply Hat, Hw.
        -- exists rest. split; [exact Hrest|]. rewrite Hiff. split.
           ++ intros (b & Hb & Hwb). exists b. split; [right; exact Hb | exact Hwb].
           ++ intros (b & [<-|Hb] & Hwb).
              ** rewrite Hlive in Hwb. destruct Hwb as [Hwb|Hwb]; [congruence|].
                 apply Hat in Hwb. congruence.
              ** exists b. split; assumption.
      * exists true. split; [reflexivity|]. split; [|reflexivity]. intros _.
        exists bit. split; [left; reflexivity|]. rewrite Hlive. left. exact Hdb.
Qed.

Lemma spanBits_In span bit :
  0 <= startEltOffset span ->
  In bit (spanBits span) <-> rangeContains span (Z.of_nat bit).
Proof.
  intros Hs. unfold spanBits, rangeContains. rewrite in_seq. lia.
Qed.

(** X4: [isWithinBoundary] returns for every instruction that is in its parent
    block, and it returns true exactly when the span is empty or, for some
    bit of the span, the instruction is within the boundary: the block is
    live out for the bit and holds no definition of it, or the block is live
    for the bit, the instruction does not define it, and the bit is live
    just after the instruction. *)
Theorem isWithinBoundary_spec (impl : LivenessWithDefs) (F : SILFunction)
    (live : FieldSensitivePrunedLiveBlocks) (isInterestingUser : UserOracle)
    (inst : SILInstruction) (span : TypeTreeLeafTypeRange) :
  In inst (getInstructions F (getParent F inst)) ->
  0 <= startEltOffset span ->
  exists result,
    isWithinBoundary impl F live isInterestingUser inst span = Some result
    /\ (result = true
        <-> startEltOffset span = endEltOffset span
            \/ exists bit,
                 rangeContains span (Z.of_nat bit)
                 /\ WithinBoundaryAt impl F live isInterestingUser inst bit).
Proof.
  intros Hin Hs. unfold isWithinBoundary.
  destruct (Z.eqb_spec (startEltOffset span) (endEltOffset span)) as [Heq|Hne].
  - exists true. split; [reflexivity|]. split; [left; exact Heq | reflexivity].
  - destruct (isWithinBoundaryBits_spec impl F live isInterestingUser inst
                (spanBits span) Hin) as (result & Hres & Hiff).
    exists result. split; [exact Hres|]. rewrite Hiff. split.
    + intros (bit & Hb & Hw). right. exists bit.
      split; [apply spanBits_In; assumption | exact Hw].
    + intros [Heq|(bit & Hb & Hw)]; [contradiction|].
      exists bit. split; [apply spanBits_In; assumption | exact Hw].
Qed.

Lemma isWithinBoundary_spec_witness :
  exists result,
    isWithinBoundary (multiDefImpl branching singleDef) branching branchingLive
      doubleConsumeUsers 6 (mkRange 0 1) = Some result
    /\ (result = true
        <-> startEltOffset (mkRange 0 1) = endEltOffset (mkRange 0 1)
            \/ exists bit,
                 rangeContains (mkRange 0 1) (Z.of_nat bit)
                 /\ WithinBoundaryAt (multiDefImpl branching singleDef) branching
                      branchingLive doubleConsumeUsers 6 bit).
Proof.
  apply isWithinBoundary_spec.
  - cbn. left. reflexivity.
  - cbn. lia.
Defined.

Example isWithinBoundary_between_two_uses :
  isWithinBoundary (multiDefImpl branching singleDef) branching branchingLive
    doubleConsumeUsers 6 (mkRange 0 1) = Some true
  /\ isWithinBoundary (multiDefImpl branching singleDef) branching branchingLive
       doubleConsumeUsers 10 (mkRange 0 1) = Some false
  /\ isWithinBoundary (multiDefImpl branching singleDef) branching branchingLive
       doubleConsumeUsers 5 (mkRange 0 1) = Some false
  /\ isWithinBoundary (multiDefImpl branching singleDef) branching branchingLive
       doubleConsumeUsers 11 (mkRange 0 1) = Some false
  /\ isWithinBoundary (multiDefImpl branching singleDef) branching branchingLive
       doubleConsumeUsers 11 (mkRange 0 0) = Some true
  /\ isWithinBoundary (multiDefImpl branching singleDef) branching branchingLive
       doubleConsumeUsers 12 (mkRange 0 1) = None.
Proof. repeat split; vm_compute; reflexivity. Qed.

(** ** Last users and the boundary test *)

Lemma isLastUser_setLastUserBit boundary inst bitNo user b :
  isLastUser (setLastUserBit boundary inst bitNo) user b
  <-> isLastUser boundary user b \/ (user = inst /\ b = bitNo).
Proof.
  unfold isLastUser, setLastUserBit. cbn [lastUsers].
  destruct (decide (user = inst)) as [->|Hne].
  - rewrite lookup_insert_eq. cbn [default]. set_solver.
  - rewrite lookup_insert_ne by congruence. tauto.
Qed.

Lemma isDeadDef_setDeadDefBit boundary node bitNo def b :
  isDeadDef (setDeadDefBit boundary node bitNo) def b
  <-> isDeadDef boundary def b \/ (def = node /\ b = bitNo).
Proof.
  unfold isDeadDef, setDeadDefBit. cbn [deadDefs].
  destruct (decide (def = node)) as [->|Hne].
  - rewrite lookup_insert_eq. cbn [default]. set_solver.
  - rewrite lookup_insert_ne by congruence. tauto.
Qed.

Lemma isLastUser_emptyBoundary user b : ~ isLastUser emptyBoundary user b.
Proof. unfold isLastUser, emptyBoundary. cbn. rewrite lookup_empty. cbn. set_solver. Qed.

Lemma isDeadDef_emptyBoundary node b : ~ isDeadDef emptyBoundary node b.
Proof. unfold isDeadDef, emptyBoundary. cbn. rewrite lookup_empty. cbn. set_solver. Qed.

Lemma lastInterestingUser_Some isInterestingUser bitNo reversed user :
  lastInterestingUser isInterestingUser bitNo reversed = Some user
  <-> exists later earlier,
        reversed = later ++ user :: earlier
        /\ isInteresting isInterestingUser user bitNo = true
        /\ forall i, In i later -> isInteresting isInterestingUser i bitNo = false.
Proof.
  induction reversed as [|inst rest IH]; cbn [lastInterestingUser].
  - split; [discriminate|]. intros (later & earlier & Heq & _).
    destruct later; discriminate.
  - destruct (isInteresting isInterestingUser inst bitNo) eqn:Hint.
    + split.
      * intros [= <-]. exists [], rest. split; [reflexivity|].
        split; [exact Hint | intros i []].
      * intros (later & earlier & Heq & Hu & Hno).
        destruct later as [|first later]; cbn [app] in Heq.
        -- congruence.
        -- injection Heq as <- _.
           rewrite (Hno inst (or_introl eq_refl)) in Hint. discriminate.
    + rewrite IH. split.
      * intros (later & earlier & -> & Hu & Hno).
        exists (inst :: later), earlier. split; [reflexivity|]. split; [exact Hu|].
        intros i [<-|Hi]; [exact Hint | apply Hno, Hi].
      * intros (later & earlier & Heq & Hu & Hno).
        destruct later as [|first later]; cbn [app] in Heq.
        -- injection Heq as <- _. congruence.
        -- injection Heq as <- ->. exists later, earlier.
           split; [reflexivity|]. split; [exact Hu|].
           intros i Hi. apply Hno. right. exact Hi.
Qed.

Lemma lastInterestingUser_None isInterestingUser bitNo reversed :
  lastInterestingUser isInterestingUser bitNo reversed = None
  <-> forall i, In i reversed -> isInteresting isInterestingUser i bitNo = false.
Proof.
  induction reversed as [|inst rest IH]; cbn [lastInterestingUser In].
  - split; [intros _ i [] | reflexivity].
  - destruct (isInteresting isInterestingUser inst bitNo) eqn:Hint.
    + split; [discriminate|]. intros H. rewrite (H inst (or_introl eq_refl)) in Hint.
      discriminate.
    + rewrite IH. split.
      * intros H i [<-|Hi]; [exact Hint | apply H, Hi].
      * intros H i Hi. apply H. right. exact Hi.
Qed.

(** With no definition among the instructions seen and the bit not live at
    the start, the scan finds the bit live exactly when it has seen an
    interesting user. *)
Lemma liveAfterScan_no_defs impl isInterestingUser bit seen :
  (forall i, In i seen -> implIsDef impl i bit = false) ->
  liveAfterScan impl isInterestingUser bit false seen = false
  <-> forall i, In i seen -> isInteresting isInterestingUser i bit = false.
Proof.
  intros Hno. rewrite <- not_true_iff_false, liveAfterScan_LiveAfter.
  unfold LiveAfter. split.
  - intros Hnot i Hi.
    destruct (isInteresting isInterestingUser i bit) eqn:Hint; [|reflexivity].
    exfalso. apply Hnot. left. apply in_rev in Hi.
    destruct (in_split _ _ Hi) as (between & rest & Heq).
    (* take the first interesting user after the instruction *)
    clear Hi. revert i rest Hint Heq.
    induction between as [|first between IH] using rev_ind; intros i rest Hint Heq.
    + exists [], i, rest. split; [exact Heq|]. split; [exact Hint | intros j []].
    + destruct (isInteresting isInterestingUser first bit) eqn:Hf.
      * apply (IH first ([i] ++ rest) Hf).
        rewrite Heq, <- app_assoc. reflexivity.
      * exists (between ++ [first]), i, rest. split; [exact Heq|].
        split; [exact Hint|]. intros j Hj. apply Hno. apply in_rev.
        rewrite Heq. apply in_or_app. left. exact Hj.
  - intros Hnone [(between & user & rest & Heq & Hint & _)|[Hout _]]; [|discriminate].
    rewrite (Hnone user) in Hint; [discriminate|].
    apply in_rev. rewrite Heq. apply in_or_app. right. left. reflexivity.
Qed.

(** The multi-definition scan of a block: the liveness it ends with, and
    the instructions it marks as last users. *)
Lemma scan_lastUsers defs isInterestingUser bitNo F reversed boundary isLive :
  let impl := multiDefImpl F defs in
  let result :=
    fold_left (scanInstruction defs isInterestingUser bitNo) reversed (boundary, isLive) in
  result.2 = liveAfterScan impl isInterestingUser bitNo isLive reversed
  /\ forall user b,
       isLastUser result.1 user b
       <-> isLastUser boundary user b
           \/ (b = bitNo
               /\ exists later earlier,
                    reversed = later ++ user :: earlier
                    /\ isInteresting isInterestingUser user bitNo = true
                    /\ (isDef defs (InstructionNode user) bitNo = true
                        \/ liveAfterScan impl isInterestingUser bitNo isLive later = false)).
Proof.
  cbn zeta. revert boundary isLive.
  induction reversed as [|inst rest IH]; intros boundary isLive.
  - cbn [fold_left]. split; [reflexivity|]. intros user b. split; [tauto|].
    intros [H|(_ & later & earlier & Heq & _)]; [exact H|].
    destruct later; discriminate.
  - cbn [fold_left].
    destruct (scanInstruction defs isInterestingUser bitNo (boundary, isLive) inst)
      as [boundary1 isLive1] eqn:Estep.
    assert (Hlive1 : isLive1
                     = (negb (isDef defs (InstructionNode inst) bitNo) && isLive)
                       || isInteresting isInterestingUser inst bitNo).
    { unfold scanInstruction in Estep.
      destruct (isDef defs (InstructionNode inst) bitNo), isLive;
        cbn [negb] in Estep;
        destruct (isInteresting isInterestingUser inst bitNo);
        injection Estep as _ <-; reflexivity. }
    assert (Husers1 : forall user b,
               isLastUser boundary1 user b
               <-> isLastUser boundary user b
                   \/ (b = bitNo /\ user = inst
                       /\ isInteresting isInterestingUser inst bitNo = true
                       /\ (isDef defs (InstructionNode inst) bitNo = true
                           \/ isLive = false))).
    { intros user b. unfold scanInstruction in Estep.
      destruct (isDef defs (InstructionNode inst) bitNo), isLive;
        cbn [negb] in Estep;
        destruct (isInteresting isInterestingUser inst bitNo);
        injection Estep as <- _;
        rewrite ?isLastUser_setLastUserBit;
        unfold isLastUser; cbn [lastUsers setDeadDefBit];
        intuition congruence. }
    destruct (IH boundary1 isLive1) as [IHlive IHusers].
    split.
    + rewrite IHlive. unfold liveAfterScan. cbn [fold_left multiDefImpl implIsDef].
      rewrite Hlive1. reflexivity.
    + intros user b. rewrite IHusers, Husers1. split.
      * intros [[H|(-> & -> & Hint & Hor)]|(-> & later & earlier & -> & Hint & Hor)].
        -- left. exact H.
        -- right. split; [reflexivity|]. exists [], rest.
           split; [reflexivity|]. split; [exact Hint|]. exact Hor.
        -- right. split; [reflexivity|]. exists (inst :: later), earlier.
           split; [reflexivity|]. split; [exact Hint|].
           destruct Hor as [Hd|Hl]; [left; exact Hd | right].
           unfold liveAfterScan in *. cbn [fold_left multiDefImpl implIsDef] in *.
           rewrite <- Hlive1. exact Hl.
      * intros [H|(-> & later & earlier & Heq & Hint & Hor)]; [left; left; exact H|].
        destruct later as [|first later]; cbn [app] in Heq.
        -- injection Heq as <- _. left. right. repeat split; [exact Hint|].
           exact Hor.
        -- injection Heq as <- ->. right. split; [reflexivity|].
           exists later, earlier. split; [reflexivity|]. split; [exact Hint|].
           destruct Hor as [Hd|Hl]; [left; exact Hd | right].
           unfold liveAfterScan in *. cbn [fold_left multiDefImpl implIsDef] in *.
           rewrite Hlive1. exact Hl.
Qed.

Lemma markDeadArguments_lastUsers F defs block bitNo boundary :
  lastUsers (markDeadArguments F defs block bitNo boundary) = lastUsers boundary.
Proof.
  unfold markDeadArguments.
  generalize (getArguments F block) as args. intros args. revert boundary.
  induction args as [|arg rest IH]; intros boundary; cbn [fold_left]; [reflexivity|].
  rewrite IH. destruct (isDef defs (ArgumentNode arg) bitNo); reflexivity.
Qed.

Lemma markEntryEdge_lastUsers F live block bitNo boundary :
  lastUsers (markEntryEdge F live block bitNo boundary) = lastUsers boundary
  /\ deadDefs (markEntryEdge F live block bitNo boundary) = deadDefs boundary.
Proof.
  unfold markEntryEdge.
  destruct (getPredecessorBlocks F block); [split; reflexivity|].
  destruct (allPredecessorsLiveOut F live block bitNo); split; reflexivity.
Qed.

Lemma NoDup_split_unique (user : SILInstruction) (l1 r1 l2 r2 : list SILInstruction) :
  List.NoDup (l1 ++ user :: r1) -> l1 ++ user :: r1 = l2 ++ user :: r2 -> l1 = l2.
Proof.
  revert l2. induction l1 as [|x l1 IH]; intros l2 Hnd Heq.
  - destruct l2 as [|y l2]; [reflexivity|]. cbn [app] in *.
    injection Heq as Hy Heq. apply List.NoDup_cons_iff in Hnd as [Hnot _].
    exfalso. apply Hnot. rewrite Heq. apply in_or_app. right. left. reflexivity.
  - destruct l2 as [|y l2]; cbn [app] in *.
    + injection Heq as Hx Heq. subst x. apply List.NoDup_cons_iff in Hnd as [Hnot _].
      exfalso. apply Hnot. apply in_or_app. right. left. reflexivity.
    + injection Heq as Hx Heq. subst y. f_equal.
      apply List.NoDup_cons_iff in Hnd as [_ Hnd]. apply IH; assumption.
Qed.

Lemma isDefBlock_false_isDef F defs block bitNo node :
  isDefBlock F defs block bitNo = false ->
  getParentBlock F node = block ->
  isDef defs node bitNo = false.
Proof.
  unfold isDefBlock, isDef. intros Hblock Hparent.
  apply not_true_iff_false. intros Hdef.
  apply not_true_iff_false in Hblock. apply Hblock.
  apply existsb_exists in Hdef as (def & Hin & Hd).
  apply andb_true_iff in Hd as [Hnode Hspan]. apply bool_decide_eq_true in Hnode.
  apply existsb_exists. exists def. split; [exact Hin|].
  rewrite Hnode, Hparent, Nat.eqb_refl. exact Hspan.
Qed.

Lemma isWithinBoundary_one_bit impl F live isInterestingUser inst bit :
  In inst (getInstructions F (getParent F inst)) ->
  isWithinBoundary impl F live isInterestingUser inst
    (mkRange (Z.of_nat bit) (Z.of_nat bit + 1))
  = match getBlockLiveness live (getParent F inst) bit with
    | Dead => Some false
    | LiveWithin =>
        Some (negb (implIsDef impl inst bit)
              && liveAfterScan impl isInterestingUser bit false
                   (instructionsUpTo inst (rev (getInstructions F (getParent F inst)))))
    | LiveOut =>
        if negb (implIsDefBlock impl (getParent F inst) bit) then Some true
        else Some (negb (implIsDef impl inst bit)
                   && liveAfterScan impl isInterestingUser bit true
                        (instructionsUpTo inst (rev (getInstructions F (getParent F inst)))))
    end.
Proof.
  intros Hin.
  assert (Hrev : In inst (rev (getInstructions F (getParent F inst))))
    by (apply in_rev; rewrite rev_involutive; exact Hin).
  unfold isWithinBoundary, spanBits. cbn [startEltOffset endEltOffset].
  destruct (Z.eqb_spec (Z.of_nat bit) (Z.of_nat bit + 1)) as [Heq|_]; [lia|].
  replace (Z.to_nat (Z.of_nat bit + 1) - Z.to_nat (Z.of_nat bit))%nat with 1%nat by lia.
  rewrite Nat2Z.id. cbn [seq map combine isWithinBoundaryBits].
  destruct (getBlockLiveness live (getParent F inst) bit); [reflexivity| |].
  - rewrite (isWithinBoundaryScan_spec _ _ _ _ _ _ Hrev).
    destruct (negb (implIsDef impl inst bit) && _); reflexivity.
  - destruct (negb (implIsDefBlock impl (getParent F inst) bit)); [reflexivity|].
    rewrite (isWithinBoundaryScan_spec _ _ _ _ _ _ Hrev).
    destruct (negb (implIsDef impl inst bit) && _); reflexivity.
Qed.

(** X5: in the multi-definition variant with no or several definitions, the
    block search of [computeBoundary] and [isWithinBoundary] agree on the
    interesting users of a bit in a live block: the search records the user
    as a last user of the bit exactly when the user is not within the
    boundary for the bit. *)
Theorem last_user_iff_not_within_boundary (F : SILFunction)
    (live : FieldSensitivePrunedLiveBlocks) (isInterestingUser : UserOracle)
    (defs : DefList) (block : SILBasicBlock) (bitNo : nat) (user : SILInstruction)
    (boundary boundary' : FieldSensitivePrunedLivenessBoundary) :
  length defs <> 1%nat ->
  List.NoDup (getInstructions F block) ->
  (forall inst, In inst (getInstructions F block) -> getParent F inst = block) ->
  In user (getInstructions F block) ->
  getBlockLiveness live block bitNo <> Dead ->
  isInteresting isInterestingUser user bitNo = true ->
  ~ isLastUser boundary user bitNo ->
  MultiDefPrunedLiveRange.findBoundariesInBlock F live isInterestingUser defs
    block bitNo (bool_decide (getBlockLiveness live block bitNo = LiveOut)) boundary
  = Some boundary' ->
  (isLastUser boundary' user bitNo
   <-> isWithinBoundary (multiDefImpl F defs) F live isInterestingUser user
         (mkRange (Z.of_nat bitNo) (Z.of_nat bitNo + 1)) = Some false).
Proof.
  intros Hdefs Hnodup Hparents Hin Hlive Hint Hfresh Hfind.
  pose proof (Hparents user Hin) as Hparent.
  assert (Hrev : In user (rev (getInstructions F block)))
    by (apply in_rev; rewrite rev_involutive; exact Hin).
  assert (Hnodup' : List.NoDup (rev (getInstructions F block)))
    by (apply NoDup_rev; exact Hnodup).
  destruct (instructionsUpTo_split user _ Hrev) as (earlier & Hsplit & Hnotin).
  set (later := instructionsUpTo user (rev (getInstructions F block))) in *.
  rewrite isWithinBoundary_one_bit by (rewrite Hparent; exact Hin).
  rewrite Hparent. fold later. cbn [multiDefImpl implIsDef implIsDefBlock].
  unfold MultiDefPrunedLiveRange.findBoundariesInBlock in Hfind.
  destruct (isDefBlock F defs block bitNo) eqn:Hdb; cbn [negb] in Hfind |- *.
  - (* a block with a definition: the backward scan *)
    assert (Hscan : (scanBlockBackward F defs isInterestingUser block bitNo
                       (bool_decide (getBlockLiveness live block bitNo = LiveOut)) boundary).2
                    = liveAfterScan (multiDefImpl F defs) isInterestingUser bitNo
                        (bool_decide (getBlockLiveness live block bitNo = LiveOut))
                        (rev (getInstructions F block))
                    /\ forall user b,
                         isLastUser
                           (scanBlockBackward F defs isInterestingUser block bitNo
                              (bool_decide (getBlockLiveness live block bitNo = LiveOut))
                              boundary).1 user b
                         <-> isLastUser boundary user b
                             \/ (b = bitNo
                                 /\ exists later earlier,
                                      rev (getInstructions F block) = later ++ user :: earlier
                                      /\ isInteresting isInterestingUser user bitNo = true
                                      /\ (isDef defs (InstructionNode user) bitNo = true
                                          \/ liveAfterScan (multiDefImpl F defs)
                                               isInterestingUser bitNo
                                               (bool_decide
                                                  (getBlockLiveness live block bitNo = LiveOut))
                                               later = false)))
      by (apply scan_lastUsers).
    destruct Hscan as [_ Husers].
    assert (Hsame : forall u b,
               isLastUser boundary' u b
               <-> isLastUser
                     (scanBlockBackward F defs isInterestingUser block bitNo
                        (bool_decide (getBlockLiveness live block bitNo = LiveOut))
                        boundary).1 u b).
    { intros u b. unfold isLastUser.
      destruct defs as [|d [|d2 ds]]; [|cbn in Hdefs; congruence|];
        destruct (scanBlockBackward _ _ _ _ _ _ _) as [boundary1 isLive];
        destruct isLive; cbn [negb] in Hfind; injection Hfind as <-; cbn [fst];
        rewrite ?(proj1 (markEntryEdge_lastUsers _ _ _ _ _)),
                ?markDeadArguments_lastUsers; reflexivity. }
    rewrite Hsame, Husers.
    assert (Hinit : match getBlockLiveness live block bitNo with
                    | Dead => Some false
                    | LiveWithin =>
                        Some (negb (isDef defs (InstructionNode user) bitNo)
                              && liveAfterScan (multiDefImpl F defs) isInterestingUser bitNo
                                   false later)
                    | LiveOut =>
                        Some (negb (isDef defs (InstructionNode user) bitNo)
                              && liveAfterScan (multiDefImpl F defs) isInterestingUser bitNo
                                   true later)
                    end
                    = Some (negb (isDef defs (InstructionNode user) bitNo)
                            && liveAfterScan (multiDefImpl F defs) isInterestingUser bitNo
                                 (bool_decide (getBlockLiveness live block bitNo = LiveOut))
                                 later)).
    { destruct (getBlockLiveness live block bitNo); [congruence| |]; reflexivity. }
    rewrite Hinit. split.
    + intros [H|(_ & later' & earlier' & Heq & _ & Hor)]; [contradiction|].
      assert (later' = later).
      { symmetry. eapply NoDup_split_unique; [|rewrite <- Hsplit; exact Heq].
        rewrite <- Hsplit. exact Hnodup'. }
      subst later'. f_equal.
      destruct Hor as [->| ->]; [reflexivity | apply andb_false_r].
    + intros [= Hfalse]. right. split; [reflexivity|].
      exists later, earlier. split; [exact Hsplit|]. split; [exact Hint|].
      apply andb_false_iff in Hfalse as [Hd|Hl]; [left | right; exact Hl].
      apply negb_false_iff in Hd. exact Hd.
  - (* a block without a definition *)
    assert (Hnodef : forall inst, In inst (rev (getInstructions F block)) ->
                                  isDef defs (InstructionNode inst) bitNo = false).
    { intros inst Hi. apply (isDefBlock_false_isDef F defs block); [exact Hdb|].
      cbn [getParentBlock]. apply Hparents, in_rev. exact Hi. }
    rewrite (Hnodef user Hrev). cbn [negb andb].
    destruct (getBlockLiveness live block bitNo) eqn:El; [congruence| |].
    + rewrite bool_decide_eq_false_2 in Hfind by discriminate.
      unfold findBoundaryInNonDefBlock in Hfind.
      destruct (lastInterestingUser isInterestingUser bitNo (rev (getInstructions F block)))
        as [lastUser|] eqn:Elast; [|discriminate].
      injection Hfind as <-. rewrite isLastUser_setLastUserBit.
      apply lastInterestingUser_Some in Elast as (later' & earlier' & Heq & Hlast & Hnone).
      assert (Hno : forall i, In i later -> implIsDef (multiDefImpl F defs) i bitNo = false).
      { intros i Hi. cbn [multiDefImpl implIsDef]. apply Hnodef.
        rewrite Hsplit. apply in_or_app. left. exact Hi. }
      split.
      * intros [H|[-> _]]; [contradiction|]. f_equal.
        apply (proj2 (liveAfterScan_no_defs (multiDefImpl F defs) isInterestingUser
                        bitNo later Hno)).
        assert (later' = later).
        { symmetry. eapply NoDup_split_unique; [|rewrite <- Hsplit; exact Heq].
          rewrite <- Hsplit. exact Hnodup'. }
        subst later'. exact Hnone.
      * intros [= Hfalse]. right. split; [|reflexivity].
        pose proof (proj1 (liveAfterScan_no_defs (multiDefImpl F defs) isInterestingUser
                             bitNo later Hno) Hfalse) as Hquiet.
        (* the first interesting instruction from the end is the user *)
        assert (Hlu : lastInterestingUser isInterestingUser bitNo
                        (rev (getInstructions F block)) = Some user).
        { apply lastInterestingUser_Some. exists later, earlier.
          split; [exact Hsplit|]. split; [exact Hint | exact Hquiet]. }
        assert (Hlu' : lastInterestingUser isInterestingUser bitNo
                         (rev (getInstructions F block)) = Some lastUser).
        { apply lastInterestingUser_Some. exists later', earlier'.
          split; [exact Heq|]. split; [exact Hlast | exact Hnone]. }
        congruence.
    + rewrite bool_decide_eq_true_2 in Hfind by reflexivity.
      injection Hfind as <-. split; [contradiction | discriminate].
Qed.

Lemma last_user_iff_not_within_boundary_witness :
  exists boundary',
    MultiDefPrunedLiveRange.findBoundariesInBlock branching redefiningLive
      redefiningUsers redefiningDefs 1%nat 0%nat
      (bool_decide (getBlockLiveness redefiningLive 1 0 = LiveOut)) emptyBoundary
    = Some boundary'
    /\ (isLastUser boundary' 10 0
        <-> isWithinBoundary (multiDefImpl branching redefiningDefs) branching
              redefiningLive redefiningUsers 10
              (mkRange (Z.of_nat 0) (Z.of_nat 0 + 1)) = Some false).
Proof.
  assert (Hr : is_Some
                 (MultiDefPrunedLiveRange.findBoundariesInBlock branching redefiningLive
                    redefiningUsers redefiningDefs 1%nat 0%nat
                    (bool_decide (getBlockLiveness redefiningLive 1 0 = LiveOut))
                    emptyBoundary))
    by (vm_compute; eauto).
  destruct Hr as [boundary' Hr]. exists boundary'. split; [exact Hr|].
  apply (last_user_iff_not_within_boundary branching redefiningLive redefiningUsers
           redefiningDefs 1%nat 0%nat 10 emptyBoundary boundary').
  - cbn. lia.
  - cbn. repeat constructor; cbn; intuition lia.
  - cbn. intros inst [<-|[<-|[]]]; reflexivity.
  - cbn. right. left. reflexivity.
  - vm_compute. discriminate.
  - reflexivity.
  - apply isLastUser_emptyBoundary.
  - exact Hr.
Defined.

(** ** The block search of the multi-definition variant, exactly *)

Lemma scan_deadDefs defs isInterestingUser bitNo F reversed boundary isLive :
  let impl := multiDefImpl F defs in
  let result :=
    fold_left (scanInstruction defs isInterestingUser bitNo) reversed (boundary, isLive) in
  forall node b,
    isDeadDef result.1 node b
    <-> isDeadDef boundary node b
        \/ (b = bitNo
            /\ exists later def earlier,
                 reversed = later ++ def :: earlier
                 /\ node = InstructionNode def
                 /\ isDef defs (InstructionNode def) bitNo = true
                 /\ liveAfterScan impl isInterestingUser bitNo isLive later = false).
Proof.
  cbn zeta. revert boundary isLive.
  induction reversed as [|inst rest IH]; intros boundary isLive node b.
  - cbn [fold_left fst]. split; [tauto|].
    intros [H|(_ & later & def & earlier & Heq & _)]; [exact H|].
    destruct later; discriminate.
  - cbn [fold_left].
    destruct (scanInstruction defs isInterestingUser bitNo (boundary, isLive) inst)
      as [boundary1 isLive1] eqn:Estep.
    assert (Hlive1 : isLive1
                     = (negb (isDef defs (InstructionNode inst) bitNo) && isLive)
                       || isInteresting isInterestingUser inst bitNo).
    { unfold scanInstruction in Estep.
      destruct (isDef defs (InstructionNode inst) bitNo), isLive;
        cbn [negb] in Estep;
        destruct (isInteresting isInterestingUser inst bitNo);
        injection Estep as _ <-; reflexivity. }
    assert (Hdefs1 : isDeadDef boundary1 node b
                     <-> isDeadDef boundary node b
                         \/ (b = bitNo /\ node = InstructionNode inst
                             /\ isDef defs (InstructionNode inst) bitNo = true
                             /\ isLive = false)).
    { unfold scanInstruction in Estep.
      destruct (isDef defs (InstructionNode inst) bitNo), isLive;
        cbn [negb] in Estep;
        destruct (isInteresting isInterestingUser inst bitNo);
        injection Estep as <- _;
        try (change (isDeadDef (setLastUserBit ?x ?i ?k) node b) with (isDeadDef x node b));
        rewrite ?isDeadDef_setDeadDefBit;
        intuition congruence. }
    rewrite IH, Hdefs1. split.
    + intros [[H|(-> & -> & Hd & ->)]|(-> & later & def & earlier & -> & -> & Hd & Hl)].
      * left. exact H.
      * right. split; [reflexivity|]. exists [], inst, rest. auto.
      * right. split; [reflexivity|]. exists (inst :: later), def, earlier.
        split; [reflexivity|]. split; [reflexivity|]. split; [exact Hd|].
        unfold liveAfterScan in *. cbn [fold_left multiDefImpl implIsDef] in *.
        rewrite <- Hlive1. exact Hl.
    + intros [H|(-> & later & def & earlier & Heq & -> & Hd & Hl)]; [left; left; exact H|].
      destruct later as [|first later]; cbn [app] in Heq.
      * injection Heq as <- _. left. right. auto.
      * injection Heq as <- ->. right. split; [reflexivity|].
        exists later, def, earlier. split; [reflexivity|]. split; [reflexivity|].
        split; [exact Hd|].
        unfold liveAfterScan in *. cbn [fold_left multiDefImpl implIsDef] in *.
        rewrite Hlive1. exact Hl.
Qed.

Lemma scanInstruction_other_bits defs isInterestingUser bitNo boundary isLive inst :
  let boundary1 := (scanInstruction defs isInterestingUser bitNo (boundary, isLive) inst).1 in
  forall b, b <> bitNo ->
    (forall user, isLastUser boundary1 user b <-> isLastUser boundary user b)
    /\ (forall node, isDeadDef boundary1 node b <-> isDeadDef boundary node b).
Proof.
  cbn zeta. intros b Hb. unfold scanInstruction.
  destruct (isDef defs (InstructionNode inst) bitNo), isLive; cbn [negb];
    destruct (isInteresting isInterestingUser inst bitNo); cbn [fst];
    split; intros x;
    try (change (isDeadDef (setLastUserBit ?y ?i ?k) x b) with (isDeadDef y x b));
    try (change (isLastUser (setDeadDefBit ?y ?i ?k) x b) with (isLastUser y x b));
    rewrite ?isLastUser_setLastUserBit, ?isDeadDef_setDeadDefBit;
    try (change (isLastUser (setDeadDefBit ?y ?i ?k) x b) with (isLastUser y x b));
    intuition congruence.
Qed.

Lemma markDeadArguments_deadDefs F defs block bitNo boundary node b :
  isDeadDef (markDeadArguments F defs block bitNo boundary) node b
  <-> isDeadDef boundary node b
      \/ (b = bitNo
          /\ exists arg, node = ArgumentNode arg /\ In arg (getArguments F block)
                         /\ isDef defs (ArgumentNode arg) bitNo = true).
Proof.
  unfold markDeadArguments.
  generalize (getArguments F block) as args. intros args. revert boundary.
  induction args as [|deadArg rest IH]; intros boundary; cbn [fold_left In].
  - split; [tauto|]. intros [H|(_ & arg & _ & [] & _)]. exact H.
  - rewrite IH. destruct (isDef defs (ArgumentNode deadArg) bitNo) eqn:Hd.
    + rewrite isDeadDef_setDeadDefBit. split.
      * intros [[H|[-> ->]]|(-> & arg & -> & Hin & Ha)].
        -- left. exact H.
        -- right. split; [reflexivity|]. exists deadArg. auto.
        -- right. split; [reflexivity|]. exists arg. auto.
      * intros [H|(-> & arg & -> & [<-|Hin] & Ha)].
        -- left. left. exact H.
        -- left. right. auto.
        -- right. split; [reflexivity|]. exists arg. auto.
    + split.
      * intros [H|(-> & arg & -> & Hin & Ha)]; [left; exact H|].
        right. split; [reflexivity|]. exists arg. auto.
      * intros [H|(-> & arg & -> & [<-|Hin] & Ha)]; [left; exact H | congruence |].
        right. split; [reflexivity|]. exists arg. auto.
Qed.

Lemma instructionsAfterIn_split (insts : list SILInstruction) (inst : SILInstruction)
    (later earlier : list SILInstruction) :
  List.NoDup insts ->
  rev insts = later ++ inst :: earlier ->
  instructionsAfterIn insts inst = rev later.
Proof.
  intros Hnodup Heq. unfold instructionsAfterIn. rewrite Heq. f_equal.
  apply instructionsUpTo_app. intros Hin.
  apply NoDup_rev in Hnodup. rewrite Heq in Hnodup.
  apply List.NoDup_remove_2 in Hnodup. apply Hnodup.
  apply in_or_app. left. exact Hin.
Qed.

Lemma instructionsAfterIn_exists (insts : list SILInstruction) (inst : SILInstruction) :
  In inst insts ->
  exists earlier,
    rev insts = rev (instructionsAfterIn insts inst) ++ inst :: earlier.
Proof.
  intros Hin.
  assert (Hin' : In inst (rev insts)) by (apply in_rev; rewrite rev_involutive; exact Hin).
  destruct (instructionsUpTo_split inst (rev insts) Hin') as (earlier & Heq & _).
  exists earlier. unfold instructionsAfterIn. rewrite rev_involutive. exact Heq.
Qed.

(** X6: in a block that holds a definition of the bit, with no or several
    definitions in the range, the block search of the multi-definition
    variant returns, and it records exactly this for the bit: an
    interesting user is a last user when it defines the bit itself or the
    bit is not live just after it; a defining instruction is a dead
    definition when the bit is not live just after it; a defining block
    argument is a dead definition when the bit is not live at the top of
    the block.  The facts of the other bits stay as they are. *)
Theorem multi_def_block_search_exact (F : SILFunction)
    (live : FieldSensitivePrunedLiveBlocks) (isInterestingUser : UserOracle)
    (defs : DefList) (block : SILBasicBlock) (bitNo : nat) (isLiveOut : bool)
    (boundary : FieldSensitivePrunedLivenessBoundary) :
  isDefBlock F defs block bitNo = true ->
  length defs <> 1%nat ->
  List.NoDup (getInstructions F block) ->
  let impl := multiDefImpl F defs in
  let liveAfter inst :=
    LiveAfter impl isInterestingUser bitNo isLiveOut
      (instructionsAfterIn (getInstructions F block) inst) in
  exists boundary',
    MultiDefPrunedLiveRange.findBoundariesInBlock F live isInterestingUser defs
      block bitNo isLiveOut boundary = Some boundary'
    /\ (forall user,
          isLastUser boundary' user bitNo
          <-> isLastUser boundary user bitNo
              \/ (In user (getInstructions F block)
                  /\ isInteresting isInterestingUser user bitNo = true
                  /\ (isDef defs (InstructionNode user) bitNo = true \/ ~ liveAfter user)))
    /\ (forall def,
          isDeadDef boundary' (InstructionNode def) bitNo
          <-> isDeadDef boundary (InstructionNode def) bitNo
              \/ (In def (getInstructions F block)
                  /\ isDef defs (InstructionNode def) bitNo = true
                  /\ ~ liveAfter def))
    /\ (forall arg,
          isDeadDef boundary' (ArgumentNode arg) bitNo
          <-> isDeadDef boundary (ArgumentNode arg) bitNo
              \/ (In arg (getArguments F block)
                  /\ isDef defs (ArgumentNode arg) bitNo = true
                  /\ ~ LiveAfter impl isInterestingUser bitNo isLiveOut
                         (getInstructions F block)))
    /\ (forall b, b <> bitNo ->
          (forall user, isLastUser boundary' user b <-> isLastUser boundary user b)
          /\ (forall node, isDeadDef boundary' node b <-> isDeadDef boundary node b)).
Proof.
  intros Hdb Hdefs Hnodup impl liveAfter.
  pose proof (scan_lastUsers defs isInterestingUser bitNo F
                (rev (getInstructions F block)) boundary isLiveOut) as Hscan.
  pose proof (scan_deadDefs defs isInterestingUser bitNo F
                (rev (getInstructions F block)) boundary isLiveOut) as Hdead.
  cbn zeta in Hscan, Hdead. fold impl in Hscan, Hdead.
  assert (Hother : forall reversed boundary0 isLive b, b <> bitNo ->
             let result :=
               fold_left (scanInstruction defs isInterestingUser bitNo) reversed
                         (boundary0, isLive) in
             (forall user, isLastUser result.1 user b <-> isLastUser boundary0 user b)
             /\ (forall node, isDeadDef result.1 node b <-> isDeadDef boundary0 node b)).
  { induction reversed as [|inst rest IH]; intros boundary0 isLive b Hb; cbn zeta.
    - cbn [fold_left fst]. split; intros; reflexivity.
    - cbn [fold_left].
      pose proof (scanInstruction_other_bits defs isInterestingUser bitNo boundary0 isLive
                    inst b Hb) as [Hu Hd].
      destruct (scanInstruction defs isInterestingUser bitNo (boundary0, isLive) inst)
        as [boundary1 isLive1].
      destruct (IH boundary1 isLive1 b Hb) as [Hu' Hd'].
      split; intros x; [rewrite Hu', Hu | rewrite Hd', Hd]; reflexivity. }
  specialize (Hother (rev (getInstructions F block)) boundary isLiveOut).
  cbn zeta in Hother.
  assert (Hafter : forall inst later earlier,
             rev (getInstructions F block) = later ++ inst :: earlier ->
             (liveAfterScan impl isInterestingUser bitNo isLiveOut later = false
              <-> ~ liveAfter inst)).
  { intros inst later earlier Heq. unfold liveAfter.
    rewrite (instructionsAfterIn_split _ _ _ _ Hnodup Heq).
    rewrite <- liveAfterScan_LiveAfter. symmetry. apply not_true_iff_false. }
  assert (Htop : liveAfterScan impl isInterestingUser bitNo isLiveOut
                   (rev (getInstructions F block)) = false
                 <-> ~ LiveAfter impl isInterestingUser bitNo isLiveOut
                         (getInstructions F block)).
  { rewrite <- (rev_involutive (getInstructions F block)) at 2.
    rewrite <- liveAfterScan_LiveAfter. symmetry. apply not_true_iff_false. }
  unfold MultiDefPrunedLiveRange.findBoundariesInBlock. rewrite Hdb. cbn [negb].
  unfold scanBlockBackward.
  destruct (fold_left (scanInstruction defs isInterestingUser bitNo)
              (rev (getInstructions F block)) (boundary, isLiveOut))
    as [boundary1 isLive] eqn:Efold.
  cbn [fst snd] in Hscan, Hdead, Hother. destruct Hscan as [Hlive Husers].
  assert (Husers' : forall user,
             isLastUser boundary1 user bitNo
             <-> isLastUser boundary user bitNo
                 \/ (In user (getInstructions F block)
                     /\ isInteresting isInterestingUser user bitNo = true
                     /\ (isDef defs (InstructionNode user) bitNo = true
                         \/ ~ liveAfter user))).
  { intros user. rewrite Husers. split.
    - intros [H|(_ & later & earlier & Heq & Hint & Hor)]; [left; exact H|].
      right. split.
      { apply in_rev. rewrite Heq. apply in_or_app. right. left. reflexivity. }
      split; [exact Hint|]. destruct Hor as [Hd|Hl]; [left; exact Hd | right].
      apply (Hafter _ _ _ Heq), Hl.
    - intros [H|(Hin & Hint & Hor)]; [left; exact H|].
      right. split; [reflexivity|].
      destruct (instructionsAfterIn_exists _ _ Hin) as (earlier & Heq).
      exists (rev (instructionsAfterIn (getInstructions F block) user)), earlier.
      split; [exact Heq|]. split; [exact Hint|].
      destruct Hor as [Hd|Hl]; [left; exact Hd | right].
      apply (Hafter _ _ _ Heq), Hl. }
  assert (Hdead' : forall def,
             isDeadDef boundary1 (InstructionNode def) bitNo
             <-> isDeadDef boundary (InstructionNode def) bitNo
                 \/ (In def (getInstructions F block)
                     /\ isDef defs (InstructionNode def) bitNo = true
                     /\ ~ liveAfter def)).
  { intros def. rewrite Hdead. split.
    - intros [H|(_ & later & d & earlier & Heq & Hnode & Hd & Hl)]; [left; exact H|].
      injection Hnode as ->. right. split.
      { apply in_rev. rewrite Heq. apply in_or_app. right. left. reflexivity. }
      split; [exact Hd|]. apply (Hafter _ _ _ Heq), Hl.
    - intros [H|(Hin & Hd & Hl)]; [left; exact H|].
      right. split; [reflexivity|].
      destruct (instructionsAfterIn_exists _ _ Hin) as (earlier & Heq).
      exists (rev (instructionsAfterIn (getInstructions F block) def)), def, earlier.
      split; [exact Heq|]. split; [reflexivity|]. split; [exact Hd|].
      apply (Hafter _ _ _ Heq), Hl. }
  assert (Hargs1 : forall arg b,
             isDeadDef boundary1 (ArgumentNode arg) b
             <-> isDeadDef boundary (ArgumentNode arg) b).
  { intros arg b. destruct (Nat.eq_dec b bitNo) as [->|Hb].
    - rewrite Hdead. split; [|tauto].
      intros [H|(_ & later & d & earlier & _ & Hnode & _)]; [exact H | discriminate].
    - apply (proj2 (Hother b Hb)). }
  assert (Hresult :
            (match defs with
             | [singleDef] =>
                 if isLiveOut then Some boundary
                 else findBoundaryInSSADefBlock F isInterestingUser singleDef.1 bitNo boundary
             | _ =>
                 if negb isLive
                 then Some (markEntryEdge F live block bitNo
                              (markDeadArguments F defs block bitNo boundary1))
                 else Some boundary1
             end)
            = (if negb isLive
               then Some (markEntryEdge F live block bitNo
                            (markDeadArguments F defs block bitNo boundary1))
               else Some boundary1)).
  { destruct defs as [|d [|d2 ds]]; [reflexivity | cbn in Hdefs; congruence | reflexivity]. }
  rewrite Hresult. destruct isLive; cbn [negb].
  - (* live at the top of the block *)
    exists boundary1. split; [reflexivity|]. split; [exact Husers'|].
    split; [exact Hdead'|]. split; [|exact Hother].
    intros arg. rewrite Hargs1. split; [tauto|].
    intros [H|(_ & _ & Hnot)]; [exact H|].
    apply Htop in Hnot. congruence.
  - exists (markEntryEdge F live block bitNo
              (markDeadArguments F defs block bitNo boundary1)).
    split; [reflexivity|].
    assert (Hlu : forall user b,
               isLastUser (markEntryEdge F live block bitNo
                             (markDeadArguments F defs block bitNo boundary1)) user b
               <-> isLastUser boundary1 user b).
    { intros user b. unfold isLastUser.
      rewrite (proj1 (markEntryEdge_lastUsers _ _ _ _ _)), markDeadArguments_lastUsers.
      reflexivity. }
    assert (Hdd : forall node b,
               isDeadDef (markEntryEdge F live block bitNo
                            (markDeadArguments F defs block bitNo boundary1)) node b
               <-> isDeadDef (markDeadArguments F defs block bitNo boundary1) node b).
    { intros node b. unfold isDeadDef.
      rewrite (proj2 (markEntryEdge_lastUsers _ _ _ _ _)). reflexivity. }
    split; [intros user; rewrite Hlu; apply Husers'|].
    split; [|split].
    + intros def. rewrite Hdd, markDeadArguments_deadDefs, Hdead'. split.
      * intros [H|(_ & arg & Hnode & _)]; [exact H | discriminate].
      * intros H. left. exact H.
    + intros arg. rewrite Hdd, markDeadArguments_deadDefs, Hargs1. split.
      * intros [H|(_ & a & Hnode & Hin & Hd)]; [left; exact H|].
        injection Hnode as ->. right. split; [exact Hin|]. split; [exact Hd|].
        apply Htop. symmetry. exact Hlive.
      * intros [H|(Hin & Hd & _)]; [left; exact H|].
        right. split; [reflexivity|]. exists arg. auto.
    + intros b Hb. destruct (Hother b Hb) as [Hu Hd]. split.
      * intros user. rewrite Hlu. apply Hu.
      * intros node. rewrite Hdd, markDeadArguments_deadDefs, Hd. split; [|tauto].
        intros [H|(Hbb & _)]; [exact H | congruence].
Qed.

Lemma multi_def_block_search_exact_witness :
  exists boundary',
    MultiDefPrunedLiveRange.findBoundariesInBlock branching redefiningLive
      redefiningUsers redefiningDefs 1%nat 0%nat false emptyBoundary = Some boundary'
    /\ isLastUser boundary' 10 0
    /\ ~ isDeadDef boundary' (InstructionNode 6) 0.
Proof.
  destruct (multi_def_block_search_exact branching redefiningLive redefiningUsers
              redefiningDefs 1%nat 0%nat false emptyBoundary)
    as (boundary' & Hrun & Husers & Hdead & _ & _).
  - vm_compute. reflexivity.
  - cbn. lia.
  - cbn. repeat constructor; cbn; intuition lia.
  - exists boundary'. split; [exact Hrun|]. split.
    + apply Husers. right. split; [cbn; auto|]. split; [reflexivity|].
      right. unfold LiveAfter. cbn.
      intros [(between & user & rest & Heq & _)|[Hout _]];
        [destruct between; discriminate | discriminate].
    + intros Hd. apply Hdead in Hd as [Hd|(_ & _ & Hnot)].
      * exact (isDeadDef_emptyBoundary _ _ Hd).
      * apply Hnot. unfold LiveAfter. left. exists [], 10%nat, [].
        split; [reflexivity|]. split; [reflexivity | intros i []].
Defined.

(** ** What the boundary computation records *)

Lemma computeBoundary_invariant F live (finder : BoundaryFinder)
    (P : FieldSensitivePrunedLivenessBoundary -> Prop) :
  (forall block index boundary,
      P boundary -> P (markDeadSuccessors F live block index boundary)) ->
  (forall block index (isLiveOut : bool) boundary boundary',
      In block (discoveredBlocks live) ->
      (index < numBitsToTrack live)%nat ->
      getBlockLiveness live block index = (if isLiveOut then LiveOut else LiveWithin) ->
      P boundary ->
      finder block index isLiveOut boundary = Some boundary' ->
      P boundary') ->
  forall boundary boundary',
    P boundary ->
    computeBoundary F live finder boundary = Some boundary' ->
    P boundary'.
Proof.
  intros Hsucc Hfinder.
  assert (Hbits : forall block, In block (discoveredBlocks live) ->
             forall indices, (forall index, In index indices ->
                                            (index < numBitsToTrack live)%nat) ->
             forall boundary boundary',
               P boundary ->
               computeBoundaryBits F live finder block boundary indices = Some boundary' ->
               P boundary').
  { intros block Hblock.
    induction indices as [|index rest IH]; intros Hlt boundary boundary' HP Hrun;
      cbn [computeBoundaryBits] in Hrun.
    - injection Hrun as <-. exact HP.
    - destruct (computeBoundaryBit F live finder block boundary index)
        as [boundary1|] eqn:Ebit; [|discriminate].
      apply (IH (fun i Hi => Hlt i (or_intror Hi)) boundary1 boundary'); [|exact Hrun].
      unfold computeBoundaryBit in Ebit.
      destruct (getBlockLiveness live block index) eqn:Elive.
      + injection Ebit as <-. exact HP.
      + apply (Hfinder block index false boundary boundary1);
          [exact Hblock | apply Hlt; left; reflexivity | exact Elive | exact HP | exact Ebit].
      + apply (Hfinder block index true
                 (markDeadSuccessors F live block index boundary) boundary1);
          [exact Hblock | apply Hlt; left; reflexivity | exact Elive
          | apply Hsucc, HP | exact Ebit]. }
  unfold computeBoundary.
  assert (Hblocks : forall blocks, (forall block, In block blocks ->
                                                  In block (discoveredBlocks live)) ->
             forall boundary boundary',
               P boundary ->
               computeBoundaryBlocks F live finder boundary blocks = Some boundary' ->
               P boundary').
  { induction blocks as [|block rest IH]; intros Hsub boundary boundary' HP Hrun;
      cbn [computeBoundaryBlocks] in Hrun.
    - injection Hrun as <-. exact HP.
    - destruct (computeBoundaryBits F live finder block boundary
                  (seq 0 (numBitsToTrack live))) as [boundary1|] eqn:Ebits; [|discriminate].
      apply (IH (fun b Hb => Hsub b (or_intror Hb)) boundary1 boundary'); [|exact Hrun].
      apply (Hbits block (Hsub block (or_introl eq_refl)) (seq 0 (numBitsToTrack live))
               ltac:(intros index Hin; apply in_seq in Hin; lia) boundary boundary1 HP Ebits). }
  intros boundary boundary'. apply (Hblocks (discoveredBlocks live)).
  intros block Hin. exact Hin.
Qed.

Lemma findBoundaryInNonDefBlock_result F isInterestingUser block bitNo boundary boundary' :
  findBoundaryInNonDefBlock F isInterestingUser block bitNo boundary = Some boundary' ->
  exists user,
    In user (getInstructions F block)
    /\ isInteresting isInterestingUser user bitNo = true
    /\ boundary' = setLastUserBit boundary user bitNo.
Proof.
  unfold findBoundaryInNonDefBlock.
  destruct (lastInterestingUser _ _ _) as [user|] eqn:Elast; [|discriminate].
  intros [= <-]. exists user.
  apply lastInterestingUser_Some in Elast as (later & earlier & Heq & Hint & _).
  split; [|split; [exact Hint | reflexivity]].
  apply in_rev. rewrite Heq. apply in_or_app. right. left. reflexivity.
Qed.

Lemma findBoundaryInSSADefBlock_result F isInterestingUser ssaDef bitNo boundary boundary' :
  findBoundaryInSSADefBlock F isInterestingUser ssaDef bitNo boundary = Some boundary' ->
  boundary' = setDeadDefBit boundary ssaDef bitNo
  \/ exists user,
       In user (getInstructions F (getParentBlock F ssaDef))
       /\ isInteresting isInterestingUser user bitNo = true
       /\ boundary' = setLastUserBit boundary user bitNo.
Proof.
  unfold findBoundaryInSSADefBlock.
  assert (Hgen : forall reversed,
             findBoundaryInSSADefBlockFrom isInterestingUser ssaDef bitNo boundary reversed
             = Some boundary' ->
             boundary' = setDeadDefBit boundary ssaDef bitNo
             \/ exists user,
                  In user reversed
                  /\ isInteresting isInterestingUser user bitNo = true
                  /\ boundary' = setLastUserBit boundary user bitNo).
  { induction reversed as [|inst rest IH]; cbn [findBoundaryInSSADefBlockFrom].
    - destruct ssaDef; [discriminate|]. intros [= <-]. left. reflexivity.
    - case_decide as Hdef; [intros [= <-]; left; rewrite Hdef; reflexivity|].
      destruct (isInteresting isInterestingUser inst bitNo) eqn:Hint.
      + intros [= <-]. right. exists inst. split; [left; reflexivity|]. auto.
      + intros H. destruct (IH H) as [Hd|(user & Hin & Hu & Hb)]; [left; exact Hd|].
        right. exists user. split; [right; exact Hin|]. auto. }
  intros H. destruct (Hgen _ H) as [Hd|(user & Hin & Hu & Hb)]; [left; exact Hd|].
  right. exists user. split; [apply in_rev; exact Hin|]. auto.
Qed.

Lemma isDefBlock_single F def block bitNo :
  isDefBlock F [def] block bitNo = true ->
  getParentBlock F def.1 = block /\ isDef [def] def.1 bitNo = true.
Proof.
  unfold isDefBlock, isDef. cbn [existsb]. rewrite !orb_false_r.
  intros H. apply andb_true_iff in H as [Hp Hc]. apply Nat.eqb_eq in Hp.
  split; [exact Hp|]. rewrite Hc, bool_decide_eq_true_2 by reflexivity. reflexivity.
Qed.

(** A last user or a dead definition that the boundary computation adds. *)
Lemma multiDef_finder_facts F live isInterestingUser defs block bitNo isLiveOut
    boundary boundary' :
  MultiDefPrunedLiveRange.findBoundariesInBlock F live isInterestingUser defs
    block bitNo isLiveOut boundary = Some boundary' ->
  (forall user b,
      isLastUser boundary' user b ->
      isLastUser boundary user b
      \/ (b = bitNo /\ In user (getInstructions F block)
          /\ isInteresting isInterestingUser user bitNo = true))
  /\ (forall node b,
        isDeadDef boundary' node b ->
        isDeadDef boundary node b \/ (b = bitNo /\ isDef defs node bitNo = true)).
Proof.
  unfold MultiDefPrunedLiveRange.findBoundariesInBlock.
  destruct (isDefBlock F defs block bitNo) eqn:Hdb; cbn [negb].
  - assert (Hscan : forall boundary',
               (let (boundary1, isLive) :=
                  scanBlockBackward F defs isInterestingUser block bitNo isLiveOut boundary in
                if negb isLive
                then Some (markEntryEdge F live block bitNo
                             (markDeadArguments F defs block bitNo boundary1))
                else Some boundary1) = Some boundary' ->
               (forall user b,
                   isLastUser boundary' user b ->
                   isLastUser boundary user b
                   \/ (b = bitNo /\ In user (getInstructions F block)
                       /\ isInteresting isInterestingUser user bitNo = true))
               /\ (forall node b,
                     isDeadDef boundary' node b ->
                     isDeadDef boundary node b \/ (b = bitNo /\ isDef defs node bitNo = true))).
    { clear boundary'. intros boundary' Hrun. unfold scanBlockBackward in Hrun.
      pose proof (scan_lastUsers defs isInterestingUser bitNo F
                    (rev (getInstructions F block)) boundary isLiveOut) as [_ Husers].
      pose proof (scan_deadDefs defs isInterestingUser bitNo F
                    (rev (getInstructions F block)) boundary isLiveOut) as Hdead.
      cbn zeta in Husers, Hdead.
      destruct (fold_left (scanInstruction defs isInterestingUser bitNo)
                  (rev (getInstructions F block)) (boundary, isLiveOut))
        as [boundary1 isLive].
      cbn [fst] in Husers, Hdead.
      assert (Hu1 : forall user b,
                 isLastUser boundary1 user b ->
                 isLastUser boundary user b
                 \/ (b = bitNo /\ In user (getInstructions F block)
                     /\ isInteresting isInterestingUser user bitNo = true)).
      { intros user b Hu. apply Husers in Hu
          as [Hu|(-> & later & earlier & Heq & Hint & _)]; [left; exact Hu|].
        right. split; [reflexivity|]. split; [|exact Hint].
        apply in_rev. rewrite Heq. apply in_or_app. right. left. reflexivity. }
      assert (Hd1 : forall node b,
                 isDeadDef boundary1 node b ->
                 isDeadDef boundary node b \/ (b = bitNo /\ isDef defs node bitNo = true)).
      { intros node b Hd. apply Hdead in Hd
          as [Hd|(-> & later & def & earlier & _ & -> & Hdef & _)]; [left; exact Hd|].
        right. auto. }
      destruct isLive; cbn [negb] in Hrun; injection Hrun as <-.
      - split; assumption.
      - split.
        + intros user b Hu. apply Hu1. unfold isLastUser in *.
          rewrite (proj1 (markEntryEdge_lastUsers _ _ _ _ _)),
            markDeadArguments_lastUsers in Hu. exact Hu.
        + intros node b Hd. unfold isDeadDef in Hd.
          rewrite (proj2 (markEntryEdge_lastUsers _ _ _ _ _)) in Hd.
          apply markDeadArguments_deadDefs in Hd
            as [Hd|(-> & arg & -> & _ & Hdef)]; [apply Hd1, Hd|].
          right. auto. }
    destruct defs as [|def [|def2 rest]]; [apply Hscan | | apply Hscan].
    destruct isLiveOut; [intros [= <-]; split; intros; left; assumption|].
    intros Hrun. destruct (isDefBlock_single _ _ _ _ Hdb) as [Hparent Hdef].
    apply findBoundaryInSSADefBlock_result in Hrun
      as [->|(user & Hin & Hint & ->)].
    + split.
      * intros user b Hu. left. exact Hu.
      * intros node b Hd. apply isDeadDef_setDeadDefBit in Hd as [Hd|[-> ->]];
          [left; exact Hd | right; auto].
    + split.
      * intros u b Hu. apply isLastUser_setLastUserBit in Hu as [Hu|[-> ->]];
          [left; exact Hu|]. right. rewrite <- Hparent. auto.
      * intros node b Hd. left. exact Hd.
  - destruct isLiveOut; [intros [= <-]; split; intros; left; assumption|].
    intros Hrun. apply findBoundaryInNonDefBlock_result in Hrun
      as (user & Hin & Hint & ->).
    split.
    + intros u b Hu. apply isLastUser_setLastUserBit in Hu as [Hu|[-> ->]];
        [left; exact Hu | right; auto].
    + intros node b Hd. left. exact Hd.
Qed.

Lemma ssa_finder_facts F isInterestingUser range block bitNo isLiveOut boundary boundary' :
  SSAPrunedLiveRange.findBoundariesInBlock F isInterestingUser range
    block bitNo isLiveOut boundary = Some boundary' ->
  (forall user b,
      isLastUser boundary' user b ->
      isLastUser boundary user b
      \/ (b = bitNo /\ isLiveOut = false /\ In user (getInstructions F block)
          /\ isInteresting isInterestingUser user bitNo = true))
  /\ (forall node b,
        isDeadDef boundary' node b ->
        isDeadDef boundary node b
        \/ (b = bitNo /\ isLiveOut = false /\ node = ssaDefNode range
            /\ getParentBlock F node = block
            /\ contains (ssaDefSpan range) bitNo = true)).
Proof.
  unfold SSAPrunedLiveRange.findBoundariesInBlock.
  destruct isLiveOut; [intros [= <-]; split; intros; left; assumption|].
  destruct (SSAPrunedLiveRange.isDefBlock F range block bitNo) eqn:Hdb; cbn [negb].
  - unfold SSAPrunedLiveRange.isDefBlock in Hdb.
    apply andb_true_iff in Hdb as [Hparent Hspan]. apply Nat.eqb_eq in Hparent.
    intros Hrun. apply findBoundaryInSSADefBlock_result in Hrun
      as [->|(user & Hin & Hint & ->)].
    + split.
      * intros user b Hu. left. exact Hu.
      * intros node b Hd. apply isDeadDef_setDeadDefBit in Hd as [Hd|[-> ->]];
          [left; exact Hd | right; auto 6].
    + split.
      * intros u b Hu. apply isLastUser_setLastUserBit in Hu as [Hu|[-> ->]];
          [left; exact Hu|]. right. rewrite <- Hparent. auto.
      * intros node b Hd. left. exact Hd.
  - intros Hrun. apply findBoundaryInNonDefBlock_result in Hrun
      as (user & Hin & Hint & ->).
    split.
    + intros u b Hu. apply isLastUser_setLastUserBit in Hu as [Hu|[-> ->]];
        [left; exact Hu | right; auto].
    + intros node b Hd. left. exact Hd.
Qed.

(** X7: [computeBoundary] records only what the liveness supports.  Started on
    the empty boundary, every last user it records for a bit is an
    interesting user of the bit, in a discovered block that is live for the
    bit: [LiveWithin] in the single-definition variant, not [Dead] in the
    multi-definition variant.  Every dead definition it records is the
    definition of the range (single-definition variant, in a [LiveWithin]
    block, for a bit of its span) or a definition of the bit
    (multi-definition variant). *)
Theorem computeBoundary_records_only_users_and_defs (F : SILFunction)
    (live : FieldSensitivePrunedLiveBlocks) (isInterestingUser : UserOracle)
    (range : FieldSensitiveSSAPrunedLiveRange) (defs : DefList)
    (boundary' : FieldSensitivePrunedLivenessBoundary) :
  (computeBoundary F live
     (SSAPrunedLiveRange.findBoundariesInBlock F isInterestingUser range) emptyBoundary
   = Some boundary' ->
   (forall user b,
       isLastUser boundary' user b ->
       isInteresting isInterestingUser user b = true
       /\ (b < numBitsToTrack live)%nat
       /\ exists block,
            In block (discoveredBlocks live)
            /\ In user (getInstructions F block)
            /\ getBlockLiveness live block b = LiveWithin)
   /\ (forall node b,
         isDeadDef boundary' node b ->
         node = ssaDefNode range
         /\ contains (ssaDefSpan range) b = true
         /\ (b < numBitsToTrack live)%nat
         /\ In (getParentBlock F node) (discoveredBlocks live)
         /\ getBlockLiveness live (getParentBlock F node) b = LiveWithin))
  /\ (computeBoundary F live
        (MultiDefPrunedLiveRange.findBoundariesInBlock F live isInterestingUser defs)
        emptyBoundary
      = Some boundary' ->
      (forall user b,
          isLastUser boundary' user b ->
          isInteresting isInterestingUser user b = true
          /\ (b < numBitsToTrack live)%nat
          /\ exists block,
               In block (discoveredBlocks live)
               /\ In user (getInstructions F block)
               /\ getBlockLiveness live block b <> Dead)
      /\ (forall node b,
            isDeadDef boundary' node b ->
            isDef defs node b = true /\ (b < numBitsToTrack live)%nat)).
Proof.
  split; intros Hrun.
  - refine (computeBoundary_invariant F live _
              (fun boundary =>
                 (forall user b,
                     isLastUser boundary user b ->
                     isInteresting isInterestingUser user b = true
                     /\ (b < numBitsToTrack live)%nat
                     /\ exists block,
                          In block (discoveredBlocks live)
                          /\ In user (getInstructions F block)
                          /\ getBlockLiveness live block b = LiveWithin)
                 /\ (forall node b,
                       isDeadDef boundary node b ->
                       node = ssaDefNode range
                       /\ contains (ssaDefSpan range) b = true
                       /\ (b < numBitsToTrack live)%nat
                       /\ In (getParentBlock F node) (discoveredBlocks live)
                       /\ getBlockLiveness live (getParentBlock F node) b = LiveWithin))
              _ _ emptyBoundary boundary' _ Hrun).
    + intros block index boundary [Hu Hd].
      destruct (markDeadSuccessors_users F live block index boundary) as [Hlu Hdd].
      unfold isLastUser, isDeadDef in *. rewrite Hlu, Hdd. split; assumption.
    + intros block index isLiveOut boundary boundary1 Hblock Hindex Hlive [Hu Hd] Hfind.
      destruct (ssa_finder_facts _ _ _ _ _ _ _ _ Hfind) as [Hu1 Hd1]. split.
      * intros user b Hlast. apply Hu1 in Hlast as [Hold|(-> & -> & Hin & Hint)];
          [apply Hu, Hold|].
        split; [exact Hint|]. split; [exact Hindex|]. exists block. auto.
      * intros node b Hdead.
        apply Hd1 in Hdead as [Hold|(-> & -> & -> & Hparent & Hspan)];
          [apply Hd, Hold|].
        rewrite Hparent. auto 6.
    + split.
      * intros user b H. destruct (isLastUser_emptyBoundary _ _ H).
      * intros node b H. destruct (isDeadDef_emptyBoundary _ _ H).
  - refine (computeBoundary_invariant F live _
              (fun boundary =>
                 (forall user b,
                     isLastUser boundary user b ->
                     isInteresting isInterestingUser user b = true
                     /\ (b < numBitsToTrack live)%nat
                     /\ exists block,
                          In block (discoveredBlocks live)
                          /\ In user (getInstructions F block)
                          /\ getBlockLiveness live block b <> Dead)
                 /\ (forall node b,
                       isDeadDef boundary node b ->
                       isDef defs node b = true /\ (b < numBitsToTrack live)%nat))
              _ _ emptyBoundary boundary' _ Hrun).
    + intros block index boundary [Hu Hd].
      destruct (markDeadSuccessors_users F live block index boundary) as [Hlu Hdd].
      unfold isLastUser, isDeadDef in *. rewrite Hlu, Hdd. split; assumption.
    + intros block index isLiveOut boundary boundary1 Hblock Hindex Hlive [Hu Hd] Hfind.
      destruct (multiDef_finder_facts _ _ _ _ _ _ _ _ _ Hfind) as [Hu1 Hd1]. split.
      * intros user b Hlast. apply Hu1 in Hlast as [Hold|(-> & Hin & Hint)];
          [apply Hu, Hold|].
        split; [exact Hint|]. split; [exact Hindex|]. exists block.
        split; [exact Hblock|]. split; [exact Hin|].
        rewrite Hlive. destruct isLiveOut; discriminate.
      * intros node b Hdead. apply Hd1 in Hdead as [Hold|(-> & Hdef)];
          [apply Hd, Hold|]. auto.
    + split.
      * intros user b H. destruct (isLastUser_emptyBoundary _ _ H).
      * intros node b H. destruct (isDeadDef_emptyBoundary _ _ H).
Qed.

Lemma computeBoundary_records_only_users_and_defs_witness :
  (forall user b,
      isLastUser (mkBoundary {[10%nat := {[0%nat]}]} ∅ {[InstructionNode 9 := {[1%nat]}]})
        user b ->
      isInteresting fieldAUsers user b = true
      /\ (b < numBitsToTrack twoFieldLive)%nat
      /\ exists block,
           In block (discoveredBlocks twoFieldLive)
           /\ In user (getInstructions argumentBlock block)
           /\ getBlockLiveness twoFieldLive block b = LiveWithin)
  /\ exists boundary',
       computeBoundary branching redefiningLive
         (MultiDefPrunedLiveRange.findBoundariesInBlock branching redefiningLive
            redefiningUsers redefiningDefs) emptyBoundary = Some boundary'
       /\ forall node b,
            isDeadDef boundary' node b ->
            isDef redefiningDefs node b = true /\ (b < numBitsToTrack redefiningLive)%nat.
Proof.
  split.
  - exact (proj1 (proj1 (computeBoundary_records_only_users_and_defs argumentBlock
                           twoFieldLive fieldAUsers twoFieldDef [] _)
                    computeBoundary_two_fields)).
  - assert (Hr : is_Some
                   (computeBoundary branching redefiningLive
                      (MultiDefPrunedLiveRange.findBoundariesInBlock branching redefiningLive
                         redefiningUsers redefiningDefs) emptyBoundary))
      by (vm_compute; eauto).
    destruct Hr as [boundary' Hr]. exists boundary'. split; [exact Hr|].
    exact (proj2 (proj2 (computeBoundary_records_only_users_and_defs branching
                           redefiningLive redefiningUsers twoFieldDef redefiningDefs
                           boundary') Hr)).
Defined.

Lemma liveAfterScan_quiet impl isInterestingUser bit seen :
  (forall i, In i seen -> isInteresting isInterestingUser i bit = false) ->
  liveAfterScan impl isInterestingUser bit false seen = false.
Proof.
  unfold liveAfterScan. induction seen as [|inst seen IH]; intros Hquiet; cbn [fold_left].
  - reflexivity.
  - rewrite (Hquiet inst (or_introl eq_refl)), andb_false_r. cbn [orb].
    apply IH. intros i Hi. apply Hquiet. right. exact Hi.
Qed.

Lemma isDefBlock_true F defs block bitNo :
  isDefBlock F defs block bitNo = true ->
  exists node, getParentBlock F node = block /\ isDef defs node bitNo = true
               /\ exists span, In (node, span) defs.
Proof.
  unfold isDefBlock, isDef. intros H.
  apply existsb_exists in H as ([node span] & Hin & Hd). cbn [fst snd] in Hd.
  apply andb_true_iff in Hd as [Hp Hc]. apply Nat.eqb_eq in Hp.
  exists node. split; [exact Hp|]. split; [|exists span; exact Hin].
  apply existsb_exists. exists (node, span). split; [exact Hin|]. cbn [fst snd].
  rewrite Hc, bool_decide_eq_true_2 by reflexivity. reflexivity.
Qed.

(** X8: after a block search on a block in which the bit is [LiveWithin],
    the boundary holds something for the bit in that block, recorded by the
    search or there before it: a last user among the instructions of the
    block, or a dead definition in the block.  This holds in both variants,
    in the multi-definition variant when the definition points are listed
    in their blocks. *)
Theorem live_within_search_records_a_fact (F : SILFunction)
    (live : FieldSensitivePrunedLiveBlocks) (isInterestingUser : UserOracle)
    (range : FieldSensitiveSSAPrunedLiveRange) (defs : DefList)
    (block : SILBasicBlock) (bitNo : nat)
    (boundary boundary' : FieldSensitivePrunedLivenessBoundary) :
  (SSAPrunedLiveRange.findBoundariesInBlock F isInterestingUser range
     block bitNo false boundary = Some boundary' ->
   (exists user,
       In user (getInstructions F block)
       /\ isInteresting isInterestingUser user bitNo = true
       /\ isLastUser boundary' user bitNo)
   \/ (getParentBlock F (ssaDefNode range) = block
       /\ isDeadDef boundary' (ssaDefNode range) bitNo))
  /\ ((forall def, In def defs -> nodeListed F def.1) ->
      MultiDefPrunedLiveRange.findBoundariesInBlock F live isInterestingUser defs
        block bitNo false boundary = Some boundary' ->
      (exists user,
          In user (getInstructions F block)
          /\ isInteresting isInterestingUser user bitNo = true
          /\ isLastUser boundary' user bitNo)
      \/ (exists node,
            getParentBlock F node = block
            /\ isDef defs node bitNo = true
            /\ isDeadDef boundary' node bitNo)).
Proof.
  assert (Hnondef : forall boundary',
             findBoundaryInNonDefBlock F isInterestingUser block bitNo boundary
             = Some boundary' ->
             exists user,
               In user (getInstructions F block)
               /\ isInteresting isInterestingUser user bitNo = true
               /\ isLastUser boundary' user bitNo).
  { intros b' Hrun. apply findBoundaryInNonDefBlock_result in Hrun
      as (user & Hin & Hint & ->).
    exists user. split; [exact Hin|]. split; [exact Hint|].
    apply isLastUser_setLastUserBit. right. auto. }
  split.
  - unfold SSAPrunedLiveRange.findBoundariesInBlock.
    destruct (SSAPrunedLiveRange.isDefBlock F range block bitNo) eqn:Hdb; cbn [negb].
    + unfold SSAPrunedLiveRange.isDefBlock in Hdb.
      apply andb_true_iff in Hdb as [Hparent _]. apply Nat.eqb_eq in Hparent.
      intros Hrun. apply findBoundaryInSSADefBlock_result in Hrun
        as [->|(user & Hin & Hint & ->)].
      * right. split; [exact Hparent|]. apply isDeadDef_setDeadDefBit. right. auto.
      * left. exists user. rewrite <- Hparent. split; [exact Hin|].
        split; [exact Hint|]. apply isLastUser_setLastUserBit. right. auto.
    + intros Hrun. left. apply Hnondef, Hrun.
  - intros Hlisted. unfold MultiDefPrunedLiveRange.findBoundariesInBlock.
    destruct (isDefBlock F defs block bitNo) eqn:Hdb; cbn [negb];
      [|intros Hrun; left; apply Hnondef, Hrun].
    assert (Hscan : forall boundary',
               (let (boundary1, isLive) :=
                  scanBlockBackward F defs isInterestingUser block bitNo false boundary in
                if negb isLive
                then Some (markEntryEdge F live block bitNo
                             (markDeadArguments F defs block bitNo boundary1))
                else Some boundary1) = Some boundary' ->
               (exists user,
                   In user (getInstructions F block)
                   /\ isInteresting isInterestingUser user bitNo = true
                   /\ isLastUser boundary' user bitNo)
               \/ (exists node,
                     getParentBlock F node = block
                     /\ isDef defs node bitNo = true
                     /\ isDeadDef boundary' node bitNo)).
    { clear boundary'. intros boundary' Hrun. unfold scanBlockBackward in Hrun.
      pose proof (scan_lastUsers defs isInterestingUser bitNo F
                    (rev (getInstructions F block)) boundary false) as [Hlive Husers].
      pose proof (scan_deadDefs defs isInterestingUser bitNo F
                    (rev (getInstructions F block)) boundary false) as Hdead.
      cbn zeta in Hlive, Husers, Hdead.
      destruct (fold_left (scanInstruction defs isInterestingUser bitNo)
                  (rev (getInstructions F block)) (boundary, false))
        as [boundary1 isLive].
      cbn [fst snd] in Hlive, Husers, Hdead.
      assert (Hkeep : (forall user, isLastUser boundary1 user bitNo ->
                                    isLastUser boundary' user bitNo)
                      /\ (forall node, isDeadDef boundary1 node bitNo ->
                                       isDeadDef boundary' node bitNo)).
      { destruct isLive; cbn [negb] in Hrun; injection Hrun as <-;
          [split; intros; assumption|].
        split.
        - intros user Hu. unfold isLastUser in *.
          rewrite (proj1 (markEntryEdge_lastUsers _ _ _ _ _)),
            markDeadArguments_lastUsers. exact Hu.
        - intros node Hd. unfold isDeadDef.
          rewrite (proj2 (markEntryEdge_lastUsers _ _ _ _ _)).
          apply markDeadArguments_deadDefs. left. exact Hd. }
      destruct Hkeep as [Hkeepu Hkeepd].
      destruct (lastInterestingUser isInterestingUser bitNo
                  (rev (getInstructions F block))) as [user|] eqn:Elast.
      - (* the last interesting user of the block is a last user *)
        apply lastInterestingUser_Some in Elast
          as (later & earlier & Heq & Hint & Hquiet).
        left. exists user. split.
        { apply in_rev. rewrite Heq. apply in_or_app. right. left. reflexivity. }
        split; [exact Hint|]. apply Hkeepu, Husers. right. split; [reflexivity|].
        exists later, earlier. split; [exact Heq|]. split; [exact Hint|].
        right. apply liveAfterScan_quiet, Hquiet.
      - (* no interesting user: a definition of the block is dead *)
        pose proof (proj1 (lastInterestingUser_None _ _ _) Elast) as Hquiet.
        destruct (isDefBlock_true _ _ _ _ Hdb) as (node & Hparent & Hdef & span & Hin).
        right. exists node. split; [exact Hparent|]. split; [exact Hdef|].
        pose proof (Hlisted _ Hin) as Hl. cbn [fst] in Hl.
        destruct node as [def|arg]; cbn [nodeListed getParentBlock] in Hl, Hparent.
        + rewrite Hparent in Hl. apply in_rev in Hl.
          apply in_split in Hl as (later & earlier & Heq).
          apply Hkeepd, Hdead. right. split; [reflexivity|].
          exists later, def, earlier. split; [exact Heq|]. split; [reflexivity|].
          split; [exact Hdef|]. apply liveAfterScan_quiet.
          intros i Hi. apply Hquiet. rewrite Heq. apply in_or_app. left. exact Hi.
        + rewrite Hparent in Hl.
          assert (Htop : isLive = false).
          { rewrite Hlive. apply liveAfterScan_quiet, Hquiet. }
          rewrite Htop in Hrun. cbn [negb] in Hrun. injection Hrun as <-.
          unfold isDeadDef. rewrite (proj2 (markEntryEdge_lastUsers _ _ _ _ _)).
          apply markDeadArguments_deadDefs. right. split; [reflexivity|].
          exists arg. auto. }
    destruct defs as [|def [|def2 rest]]; [apply Hscan | | apply Hscan].
    intros Hrun. destruct (isDefBlock_single _ _ _ _ Hdb) as [Hparent Hdef].
    apply findBoundaryInSSADefBlock_result in Hrun
      as [->|(user & Hin & Hint & ->)].
    + right. exists def.1. split; [exact Hparent|]. split; [exact Hdef|].
      apply isDeadDef_setDeadDefBit. right. auto.
    + left. exists user. rewrite <- Hparent. split; [exact Hin|].
      split; [exact Hint|]. apply isLastUser_setLastUserBit. right. auto.
Qed.

Lemma live_within_search_records_a_fact_witness :
  exists boundary',
    MultiDefPrunedLiveRange.findBoundariesInBlock branching redefiningLive
      redefiningUsers redefiningDefs 1%nat 0%nat false emptyBoundary = Some boundary'
    /\ ((exists user,
            In user (getInstructions branching 1)
            /\ isInteresting redefiningUsers user 0 = true
            /\ isLastUser boundary' user 0)
        \/ (exists node,
              getParentBlock branching node = 1%nat
              /\ isDef redefiningDefs node 0 = true
              /\ isDeadDef boundary' node 0)).
Proof.
  assert (Hr : is_Some
                 (MultiDefPrunedLiveRange.findBoundariesInBlock branching redefiningLive
                    redefiningUsers redefiningDefs 1%nat 0%nat false emptyBoundary))
    by (vm_compute; eauto).
  destruct Hr as [boundary' Hr]. exists boundary'. split; [exact Hr|].
  apply (proj2 (live_within_search_records_a_fact branching redefiningLive
                  redefiningUsers twoFieldDef redefiningDefs 1%nat 0%nat emptyBoundary boundary')).
  - intros def [<-|[<-|[]]]; cbn; auto.
  - exact Hr.
Defined.

(** ** Block liveness: what one use makes live *)

Lemma markBlockLive_sized live bb bitNo isLive :
  liveBlocksSized live ->
  liveBlocksSized (markBlockLive live bb bitNo isLive)
  /\ numBitsToTrack (markBlockLive live bb bitNo isLive) = numBitsToTrack live.
Proof.
  intros Hsized. unfold markBlockLive.
  destruct (liveBlocks live !! bb) as [bits|] eqn:Hbb; cbn [numBitsToTrack];
    (split; [|reflexivity]); intros bb' bits'; cbn [liveBlocks numBitsToTrack];
    (destruct (decide (bb' = bb)) as [->|Hne];
     [rewrite lookup_insert_eq; intros [= <-]; rewrite length_insert
     | rewrite lookup_insert_ne by congruence; apply Hsized]).
  - apply (Hsized bb), Hbb.
  - apply length_replicate.
Qed.

Lemma liveBlocksSized_empty tracked : liveBlocksSized (mkLiveBlocks tracked ∅ []).
Proof. intros bb bits Hl. cbn [liveBlocks] in Hl. rewrite lookup_empty in Hl. discriminate. Qed.

Lemma getBlockLiveness_markBlockLive_sized live bb bitNo isLive bb' bitNo' :
  liveBlocksSized live ->
  (bitNo < numBitsToTrack live)%nat ->
  getBlockLiveness (markBlockLive live bb bitNo isLive) bb' bitNo'
  = if decide (bb' = bb /\ bitNo' = bitNo)
    then IsLive_max (getBlockLiveness live bb bitNo) isLive
    else getBlockLiveness live bb' bitNo'.
Proof.
  intros Hsized Hbit. rewrite getBlockLiveness_markBlockLive.
  assert (Hlen : (bitNo < match liveBlocks live !! bb with
                          | Some bits => length bits
                          | None => numBitsToTrack live
                          end)%nat).
  { destruct (liveBlocks live !! bb) as [bits|] eqn:Hbb; [|exact Hbit].
    rewrite (Hsized bb bits Hbb). exact Hbit. }
  destruct (decide (bb' = bb /\ bitNo' = bitNo)) as [[-> ->]|Hne].
  - rewrite decide_True by auto. reflexivity.
  - rewrite decide_False by tauto. reflexivity.
Qed.

Lemma IsLive_max_LiveOut a : IsLive_max a LiveOut = LiveOut.
Proof. destruct a; reflexivity. Qed.

(** One pass over the predecessors of a popped block: they all end
    [LiveOut]; those that were [Dead] are visited, and pending unless they
    were visited before. *)
Lemma fold_markPredecessor_spec bitNo preds :
  forall live w,
    liveBlocksSized live ->
    (bitNo < numBitsToTrack live)%nat ->
    worklistConsistent w ->
    let result := fold_left (markPredecessor bitNo) preds (live, w) in
    liveBlocksSized result.1
    /\ numBitsToTrack result.1 = numBitsToTrack live
    /\ (forall bb bit,
          getBlockLiveness result.1 bb bit
          = if decide (bit = bitNo /\ bb ∈ preds) then LiveOut
            else getBlockLiveness live bb bit)
    /\ worklistConsistent result.2
    /\ (forall b, b ∈ visitedBlocks result.2
                  <-> b ∈ visitedBlocks w
                      \/ (In b preds /\ getBlockLiveness live b bitNo = Dead))
    /\ (forall b, In b (pendingBlocks result.2)
                  <-> In b (pendingBlocks w)
                      \/ (In b preds /\ getBlockLiveness live b bitNo = Dead
                          /\ b ∉ visitedBlocks w)).
Proof.
  induction preds as [|p preds IH]; intros live w Hsized Hbit Hcons; cbn zeta.
  - cbn [fold_left fst snd]. split; [exact Hsized|]. split; [reflexivity|].
    split.
    { intros bb bit. rewrite decide_False; [reflexivity|].
      intros [_ Hin]. apply elem_of_nil in Hin. exact Hin. }
    split; [exact Hcons|]. split; intros b; cbn [In]; tauto.
  - cbn [fold_left].
    destruct (markPredecessor bitNo (live, w) p) as [live1 w1] eqn:Estep.
    assert (Hstep : liveBlocksSized live1
                    /\ numBitsToTrack live1 = numBitsToTrack live
                    /\ (forall bb bit,
                          getBlockLiveness live1 bb bit
                          = if decide (bit = bitNo /\ bb = p) then LiveOut
                            else getBlockLiveness live bb bit)
                    /\ worklistConsistent w1
                    /\ (forall b, b ∈ visitedBlocks w1
                                  <-> b ∈ visitedBlocks w
                                      \/ (b = p /\ getBlockLiveness live p bitNo = Dead))
                    /\ (forall b, In b (pendingBlocks w1)
                                  <-> In b (pendingBlocks w)
                                      \/ (b = p /\ getBlockLiveness live p bitNo = Dead
                                          /\ p ∉ visitedBlocks w))).
    { unfold markPredecessor in Estep.
      destruct (markBlockLive_sized live p bitNo LiveOut Hsized) as [Hs1 Hn1].
      assert (Hmark : forall bb bit,
                 getBlockLiveness (markBlockLive live p bitNo LiveOut) bb bit
                 = if decide (bit = bitNo /\ bb = p) then LiveOut
                   else getBlockLiveness live bb bit).
      { intros bb bit. rewrite getBlockLiveness_markBlockLive_sized by assumption.
        destruct (decide (bb = p /\ bit = bitNo)) as [[-> ->]|Hne].
        - rewrite decide_True by auto. apply IsLive_max_LiveOut.
        - rewrite decide_False by tauto. reflexivity. }
      destruct (getBlockLiveness live p bitNo) eqn:Elive; injection Estep as <- <-.
      - split; [exact Hs1|]. split; [exact Hn1|]. split; [exact Hmark|].
        unfold pushIfNotVisited. destruct (decide (p ∈ visitedBlocks w)) as [Hv|Hv].
        + split; [exact Hcons|]. split; intros b.
          * split; [tauto|]. intros [H|[-> _]]; assumption.
          * split; [tauto|]. intros [H|(_ & _ & H)]; [exact H | contradiction].
        + destruct Hcons as [Hnodup Hvis]. split.
          { split; cbn [push pendingBlocks visitedBlocks].
            - constructor; [|exact Hnodup]. intros Hin. apply Hv, Hvis, Hin.
            - intros b [<-|Hb]; [set_solver|]. apply elem_of_union. right.
              apply Hvis, Hb. }
          split; intros b; cbn [push pendingBlocks visitedBlocks].
          * rewrite elem_of_union, elem_of_singleton. split.
            -- intros [->|H]; [right; auto | left; exact H].
            -- intros [H|[-> _]]; [right; exact H | left; reflexivity].
          * cbn [In]. split.
            -- intros [<-|H]; [right; auto | left; exact H].
            -- intros [H|(-> & _)]; [right; exact H | left; reflexivity].
      - split; [exact Hs1|]. split; [exact Hn1|]. split; [exact Hmark|].
        split; [exact Hcons|]. split; intros b.
        + split; [tauto|]. intros [H|[_ H]]; [exact H | discriminate].
        + split; [tauto|]. intros [H|(_ & H & _)]; [exact H | discriminate].
      - split; [exact Hsized|]. split; [reflexivity|]. split.
        { intros bb bit. destruct (decide (bit = bitNo /\ bb = p)) as [[-> ->]|Hne];
            [exact Elive | reflexivity]. }
        split; [exact Hcons|]. split; intros b.
        + split; [tauto|]. intros [H|[_ H]]; [exact H | discriminate].
        + split; [tauto|]. intros [H|(_ & H & _)]; [exact H | discriminate]. }
    destruct Hstep as (Hs1 & Hn1 & Hlive1 & Hcons1 & Hvis1 & Hpend1).
    assert (Hbit1 : (bitNo < numBitsToTrack live1)%nat) by (rewrite Hn1; exact Hbit).
    destruct (IH live1 w1 Hs1 Hbit1 Hcons1) as (Hs2 & Hn2 & Hlive2 & Hcons2 & Hvis2 & Hpend2).
    split; [exact Hs2|]. split; [rewrite Hn2; exact Hn1|].
    split.
    { intros bb bit. rewrite Hlive2, Hlive1.
      destruct (decide (bit = bitNo /\ bb ∈ preds)) as [[-> Hin]|Hn1'].
      - rewrite decide_True; [reflexivity|]. split; [reflexivity|].
        apply elem_of_cons. right. exact Hin.
      - destruct (decide (bit = bitNo /\ bb = p)) as [[-> ->]|Hn2'].
        + rewrite decide_True; [reflexivity|]. split; [reflexivity|].
          apply elem_of_cons. left. reflexivity.
        + rewrite decide_False; [reflexivity|]. intros [-> Hin].
          apply elem_of_cons in Hin as [->|Hin]; tauto. }
    split; [exact Hcons2|].
    assert (Hdead1 : forall b, getBlockLiveness live1 b bitNo = Dead
                               <-> b <> p /\ getBlockLiveness live b bitNo = Dead).
    { intros b. rewrite Hlive1. destruct (decide (bitNo = bitNo /\ b = p)) as [[_ ->]|Hne].
      - split; [discriminate | tauto].
      - split; [intros H; split; [intros ->; tauto | exact H] | tauto]. }
    split; intros b.
    + rewrite Hvis2, Hvis1, Hdead1. cbn [In]. split.
      * intros [[H|[-> H]]|(Hin & Hne & Hd)]; [left; exact H | right; auto | right; auto].
      * intros [H|([<-|Hin] & Hd)]; [left; left; exact H | left; right; auto |].
        destruct (decide (b = p)) as [->|Hne]; [left; right; auto | right; auto].
    + rewrite Hpend2, Hpend1, Hdead1, Hvis1. cbn [In]. split.
      * intros [[H|(-> & Hd & Hv)]|(Hin & (Hne & Hd) & Hnv)].
        -- left. exact H.
        -- right. auto.
        -- right. split; [right; exact Hin|]. split; [exact Hd|]. tauto.
      * intros [H|([<-|Hin] & Hd & Hnv)]; [left; left; exact H | left; right; auto |].
        destruct (decide (b = p)) as [->|Hne]; [left; right; auto|].
        right. split; [exact Hin|]. split; [auto|]. intros [H|[H _]]; tauto.
Qed.

Lemma IsLive_max_LiveWithin_not_Dead a : IsLive_max a LiveWithin <> Dead.
Proof. destruct a; discriminate. Qed.

Section ScalarUse.
Variable F : SILFunction.
Variable popFrom : PopOrder.
Hypothesis popFrom_lawful : LawfulPop popFrom.
Variable live0 : FieldSensitivePrunedLiveBlocks.
Variable bitNo : nat.
Variable userBB : SILBasicBlock.
Hypothesis live0_sized : liveBlocksSized live0.
Hypothesis bitNo_tracked : (bitNo < numBitsToTrack live0)%nat.

Lemma livenessBeforeLoop_Dead bb :
  livenessBeforeLoop live0 bitNo userBB bb = Dead -> getBlockLiveness live0 bb bitNo = Dead.
Proof.
  unfold livenessBeforeLoop. destruct (decide (bb = userBB)); [|tauto].
  intros H. destruct (IsLive_max_LiveWithin_not_Dead _ H).
Qed.

Lemma propagationInvariant_start :
  propagationInvariant F live0 bitNo userBB (markBlockLive live0 userBB bitNo LiveWithin) (push userBB emptyWorklist).
Proof.
  destruct (markBlockLive_sized live0 userBB bitNo LiveWithin live0_sized) as [Hs Hn].
  assert (Hlive : forall bb bit,
             getBlockLiveness (markBlockLive live0 userBB bitNo LiveWithin) bb bit
             = if decide (bb = userBB /\ bit = bitNo)
               then IsLive_max (getBlockLiveness live0 userBB bitNo) LiveWithin
               else getBlockLiveness live0 bb bit).
  { intros bb bit. apply getBlockLiveness_markBlockLive_sized; assumption. }
  assert (Honly : forall b, b ∈ visitedBlocks (push userBB emptyWorklist) -> b = userBB).
  { intros b Hb. cbn [push emptyWorklist visitedBlocks] in Hb. set_solver. }
  split; [exact Hs|]. split; [exact Hn|].
  split.
  { split; cbn [push emptyWorklist pendingBlocks visitedBlocks].
    - constructor; [intros [] | constructor].
    - intros b [<-|[]]. set_solver. }
  split; [cbn; set_solver|].
  split.
  { intros b Hb. rewrite (Honly b Hb). constructor. }
  split.
  { intros bb bit Hne. rewrite Hlive, decide_False by tauto. reflexivity. }
  split.
  { intros bb (y & [Hv Hp] & _). exfalso. apply Hp.
    rewrite (Honly y Hv). left. reflexivity. }
  split.
  { intros bb. left. rewrite Hlive. unfold livenessBeforeLoop.
    destruct (decide (bb = userBB)) as [->|Hne].
    - rewrite decide_True by auto. reflexivity.
    - rewrite decide_False by tauto. reflexivity. }
  split.
  { intros b Hdead Hlive'. rewrite Hlive in Hlive'.
    destruct (decide (b = userBB /\ bitNo = bitNo)) as [[-> _]|Hne]; [cbn; set_solver|].
    contradiction. }
  intros b Hb. rewrite (Honly b Hb), Hlive, decide_True by auto.
  apply IsLive_max_LiveWithin_not_Dead.
Qed.

Lemma propagationInvariant_step live w y w0 :
  propagationInvariant F live0 bitNo userBB live w ->
  pop popFrom w = Some (y, w0) ->
  propagationInvariant F live0 bitNo userBB (fold_left (markPredecessor bitNo) (getPredecessorBlocks F y) (live, w0)).1
            (fold_left (markPredecessor bitNo) (getPredecessorBlocks F y) (live, w0)).2.
Proof.
  intros (Hs & Hn & Hcons & Huser & Hreach & Hframe & HA & HB & Hdead & Hlivev) Hpop.
  destruct (pop_spec popFrom popFrom_lawful w y w0 Hpop) as [Hvis0 Hperm].
  assert (Hin : forall b, In b (pendingBlocks w) <-> b = y \/ In b (pendingBlocks w0)).
  { intros b. rewrite <- !list_elem_of_In, Hperm, elem_of_cons. reflexivity. }
  destruct Hcons as [Hnodup Hpv].
  assert (Hnodup0 : List.NoDup (pendingBlocks w0) /\ ~ In y (pendingBlocks w0)).
  { apply NoDup_ListNoDup in Hnodup. rewrite Hperm, NoDup_cons in Hnodup.
    destruct Hnodup as [Hfresh Hnd]. rewrite list_elem_of_In in Hfresh.
    split; [apply NoDup_ListNoDup; exact Hnd | exact Hfresh]. }
  destruct Hnodup0 as [Hnodup0 Hfresh].
  assert (Hcons0 : worklistConsistent w0).
  { split; [exact Hnodup0|]. intros b Hb. rewrite Hvis0. apply Hpv, Hin. right. exact Hb. }
  assert (Hyv : y ∈ visitedBlocks w) by (apply Hpv, Hin; left; reflexivity).
  assert (Hbit : (bitNo < numBitsToTrack live)%nat) by (rewrite Hn; exact bitNo_tracked).
  assert (Hmono : forall b, getBlockLiveness live b bitNo = Dead ->
                            getBlockLiveness live0 b bitNo = Dead).
  { intros b Hd. destruct (HB b) as [Hbase|Hpred].
    - apply livenessBeforeLoop_Dead. rewrite <- Hbase. exact Hd.
    - rewrite (HA b Hpred) in Hd. discriminate. }
  destruct (fold_markPredecessor_spec bitNo (getPredecessorBlocks F y) live w0
              Hs Hbit Hcons0) as (Hs1 & Hn1 & Hlive1 & Hcons1 & Hvis1 & Hpend1).
  destruct (fold_left (markPredecessor bitNo) (getPredecessorBlocks F y) (live, w0))
    as [live1 w1].
  cbn [fst snd] in *.
  assert (Hlive1' : forall bb,
             getBlockLiveness live1 bb bitNo
             = if in_dec Nat.eq_dec bb (getPredecessorBlocks F y) then LiveOut
               else getBlockLiveness live bb bitNo).
  { intros bb. rewrite Hlive1.
    destruct (in_dec Nat.eq_dec bb (getPredecessorBlocks F y)) as [Hi|Hi].
    - rewrite decide_True; [reflexivity|]. split; [reflexivity|].
      apply list_elem_of_In. exact Hi.
    - rewrite decide_False; [reflexivity|]. intros [_ Hi']. apply Hi.
      apply list_elem_of_In. exact Hi'. }
  assert (Hvis1' : forall b, b ∈ visitedBlocks w1
                             <-> b ∈ visitedBlocks w
                                 \/ (In b (getPredecessorBlocks F y)
                                     /\ getBlockLiveness live b bitNo = Dead)).
  { intros b. rewrite Hvis1, Hvis0. reflexivity. }
  assert (Hpend1' : forall b, In b (pendingBlocks w1)
                              <-> In b (pendingBlocks w0)
                                  \/ (In b (getPredecessorBlocks F y)
                                      /\ getBlockLiveness live b bitNo = Dead)).
  { intros b. rewrite Hpend1. split.
    - intros [H|(Hi & Hd & _)]; [left; exact H | right; auto].
    - intros [H|(Hi & Hd)]; [left; exact H|]. right. split; [exact Hi|].
      split; [exact Hd|]. rewrite Hvis0. intros Hv. exact (Hlivev b Hv Hd). }
  assert (Hpopped_y : poppedFrom w1 y).
  { split.
    - apply Hvis1'. left. exact Hyv.
    - intros Hp. apply Hpend1' in Hp as [Hp|(_ & Hd)]; [exact (Hfresh Hp)|].
      exact (Hlivev y Hyv Hd). }
  assert (Hpopped_old : forall y', poppedFrom w y' -> poppedFrom w1 y').
  { intros y' [Hv Hp]. split.
    - apply Hvis1'. left. exact Hv.
    - intros Hp1. apply Hpend1' in Hp1 as [Hp1|(_ & Hd)].
      + apply Hp, Hin. right. exact Hp1.
      + exact (Hlivev y' Hv Hd). }
  assert (Hpopped_new : forall y', poppedFrom w1 y' -> y' = y \/ poppedFrom w y').
  { intros y' [Hv Hp]. destruct (Nat.eq_dec y' y) as [->|Hne]; [left; reflexivity|].
    right. apply Hvis1' in Hv as [Hv|(Hi & Hd)].
    - split; [exact Hv|]. intros Hp'. apply Hin in Hp' as [->|Hp']; [congruence|].
      apply Hp, Hpend1'. left. exact Hp'.
    - exfalso. apply Hp, Hpend1'. right. auto. }
  split; [exact Hs1|]. split; [rewrite Hn1; exact Hn|]. split; [exact Hcons1|].
  split; [apply Hvis1'; left; exact Huser|].
  split.
  { intros b Hb. apply Hvis1' in Hb as [Hb|(Hi & Hd)]; [apply Hreach, Hb|].
    eapply reachesThroughDead_pred; [apply Hreach, Hyv | exact Hi | apply Hmono, Hd]. }
  split.
  { intros bb bit Hne. rewrite Hlive1, decide_False by tauto. apply Hframe, Hne. }
  split.
  { intros bb (y' & Hpop' & Hi). rewrite Hlive1'.
    destruct (in_dec Nat.eq_dec bb (getPredecessorBlocks F y)) as [Hy|Hy]; [reflexivity|].
    apply Hpopped_new in Hpop' as [->|Hpop']; [contradiction|].
    apply HA. exists y'. auto. }
  split.
  { intros bb. rewrite Hlive1'.
    destruct (in_dec Nat.eq_dec bb (getPredecessorBlocks F y)) as [Hy|Hy].
    - right. exists y. auto.
    - destruct (HB bb) as [Hb|(y' & Hpop' & Hi)]; [left; exact Hb|].
      right. exists y'. auto. }
  split.
  { intros b Hd0 Hl1. apply Hvis1'. rewrite Hlive1' in Hl1.
    destruct (in_dec Nat.eq_dec b (getPredecessorBlocks F y)) as [Hy|Hy].
    - destruct (getBlockLiveness live b bitNo) eqn:El; [right; auto | |];
        left; apply Hdead; [exact Hd0 | rewrite El; discriminate
                           | exact Hd0 | rewrite El; discriminate].
    - left. apply Hdead; assumption. }
  intros b Hb. rewrite Hlive1'.
  destruct (in_dec Nat.eq_dec b (getPredecessorBlocks F y)) as [Hy|Hy]; [discriminate|].
  apply Hvis1' in Hb as [Hb|(Hi & _)]; [apply Hlivev, Hb | contradiction].
Qed.

Lemma propagateToPredecessors_spec fuel :
  forall live w live',
    propagationInvariant F live0 bitNo userBB live w ->
    propagateToPredecessors F popFrom bitNo fuel live w = Some live' ->
    liveBlocksSized live'
    /\ numBitsToTrack live' = numBitsToTrack live0
    /\ (forall bb bit, bit <> bitNo ->
                       getBlockLiveness live' bb bit = getBlockLiveness live0 bb bit)
    /\ (forall bb, LivenessAfterUse F live0 bitNo userBB bb (getBlockLiveness live' bb bitNo)).
Proof.
  induction fuel as [|fuel IH]; intros live w live' Hinv Hrun;
    cbn [propagateToPredecessors] in Hrun; [discriminate|].
  destruct (pop popFrom w) as [[y w0]|] eqn:Hpop.
  - pose proof (propagationInvariant_step live w y w0 Hinv Hpop) as Hinv1.
    destruct (fold_left (markPredecessor bitNo) (getPredecessorBlocks F y) (live, w0))
      as [live1 w1].
    cbn [fst snd] in Hinv1. exact (IH live1 w1 live' Hinv1 Hrun).
  - injection Hrun as <-.
    destruct Hinv as (Hs & Hn & Hcons & Huser & Hreach & Hframe & HA & HB & Hdead & Hlivev).
    assert (Hempty : pendingBlocks w = []).
    { unfold pop in Hpop. pose proof (popFrom_lawful (pendingBlocks w)) as Hl.
      destruct (popFrom (pendingBlocks w)) as [[b rest]|]; [discriminate | exact Hl]. }
    assert (Hpopped : forall b, b ∈ visitedBlocks w -> poppedFrom w b).
    { intros b Hb. split; [exact Hb|]. rewrite Hempty. intros []. }
    assert (Hall : forall b, reachesThroughDead F live0 bitNo userBB b -> b ∈ visitedBlocks w).
    { induction 1 as [|block predBlock _ IHr Hpred Hd]; [exact Huser|].
      apply Hdead; [exact Hd|].
      rewrite (HA predBlock); [discriminate|]. exists block. auto. }
    split; [exact Hs|]. split; [exact Hn|]. split; [exact Hframe|].
    intros bb. split.
    + intros (block & Hr & Hi). apply HA. exists block. auto.
    + destruct (HB bb) as [Hb|(y & [Hv _] & Hi)]; [right; exact Hb|].
      left. exists y. split; [apply Hreach, Hv | exact Hi].
Qed.

End ScalarUse.

Lemma scalarUse_exact (F : SILFunction) (popFrom : PopOrder)
    (live : FieldSensitivePrunedLiveBlocks) (userBB : SILBasicBlock) (bitNo : nat) :
  LawfulPop popFrom ->
  predecessorsInFunction F ->
  (userBB < numBlocks F)%nat ->
  liveBlocksSized live ->
  (bitNo < numBitsToTrack live)%nat ->
  exists live',
    computeScalarUseBlockLiveness F popFrom live userBB bitNo = Some live'
    /\ liveBlocksSized live'
    /\ numBitsToTrack live' = numBitsToTrack live
    /\ (forall bb bit, bit <> bitNo ->
                       getBlockLiveness live' bb bit = getBlockLiveness live bb bit)
    /\ (forall bb,
          LivenessAfterUse F live bitNo userBB bb (getBlockLiveness live' bb bitNo)).
Proof.
  intros Hlawful Hpreds Huser Hsized Hbit.
  destruct (computeScalarUseBlockLiveness_terminates F popFrom live userBB bitNo
              Hlawful Hpreds Huser) as [live' Hrun].
  exists live'. split; [exact Hrun|].
  unfold computeScalarUseBlockLiveness in Hrun.
  exact (propagateToPredecessors_spec F popFrom Hlawful live bitNo userBB Hbit
           (S (numBlocks F)) _ _ live'
           (propagationInvariant_start F popFrom Hlawful live bitNo userBB Hsized Hbit)
           Hrun).
Qed.

Lemma LivenessAfterUse_visited F live bitNo userBB block result :
  LivenessAfterUse F live bitNo userBB block result ->
  getBlockLiveness live block bitNo = Dead ->
  result <> Dead ->
  reachesThroughDead F live bitNo userBB block.
Proof.
  intros [_ [(y & Hr & Hi)|Hbase]] Hdead Hlive.
  - eapply reachesThroughDead_pred; eassumption.
  - unfold livenessBeforeLoop in Hbase.
    destruct (decide (block = userBB)) as [->|Hne]; [constructor | congruence].
Qed.

(** X9: [computeScalarUseBlockLiveness] returns, leaves every other bit as
    it was, and leaves the bit in exactly this state: every predecessor of
    a visited block is [LiveOut], and every other block is as it was, the
    block of the use raised to [LiveWithin]; the visited blocks are the
    block of the use and the blocks reached from it backward through blocks
    that were [Dead].  So the block of the use is live afterwards, all
    predecessors of a block that came alive are [LiveOut], and no block
    changes but the block of the use and the predecessors of visited
    blocks. *)
Theorem computeScalarUseBlockLiveness_spec (F : SILFunction) (popFrom : PopOrder)
    (live : FieldSensitivePrunedLiveBlocks) (userBB : SILBasicBlock) (bitNo : nat) :
  LawfulPop popFrom ->
  predecessorsInFunction F ->
  (userBB < numBlocks F)%nat ->
  liveBlocksSized live ->
  (bitNo < numBitsToTrack live)%nat ->
  exists live',
    computeScalarUseBlockLiveness F popFrom live userBB bitNo = Some live'
    /\ (forall bb bit, bit <> bitNo ->
                       getBlockLiveness live' bb bit = getBlockLiveness live bb bit)
    /\ (forall bb,
          LivenessAfterUse F live bitNo userBB bb (getBlockLiveness live' bb bitNo))
    /\ getBlockLiveness live' userBB bitNo <> Dead
    /\ (forall block predBlock,
          getBlockLiveness live block bitNo = Dead ->
          getBlockLiveness live' block bitNo <> Dead ->
          In predBlock (getPredecessorBlocks F block) ->
          getBlockLiveness live' predBlock bitNo = LiveOut)
    /\ (forall bb,
          getBlockLiveness live' bb bitNo <> getBlockLiveness live bb bitNo ->
          bb = userBB \/ predecessorOfVisited F live bitNo userBB bb).
Proof.
  intros Hlawful Hpreds Huser Hsized Hbit.
  destruct (scalarUse_exact F popFrom live userBB bitNo Hlawful Hpreds Huser Hsized Hbit)
    as (live' & Hrun & _ & _ & Hframe & Hexact).
  exists live'. split; [exact Hrun|]. split; [exact Hframe|]. split; [exact Hexact|].
  split; [|split].
  - destruct (Hexact userBB) as [HA [Hp|Hb]].
    + rewrite (HA Hp). discriminate.
    + rewrite Hb. unfold livenessBeforeLoop. rewrite decide_True by reflexivity.
      apply IsLive_max_LiveWithin_not_Dead.
  - intros block predBlock Hdead Hlive Hin.
    apply (proj1 (Hexact predBlock)). exists block. split; [|exact Hin].
    exact (LivenessAfterUse_visited _ _ _ _ _ _ (Hexact block) Hdead Hlive).
  - intros bb Hchanged. destruct (Hexact bb) as [_ [Hp|Hb]]; [right; exact Hp|].
    left. unfold livenessBeforeLoop in Hb.
    destruct (decide (bb = userBB)) as [->|Hne]; [reflexivity | congruence].
Qed.

Lemma computeScalarUseBlockLiveness_spec_witness :
  exists live',
    computeScalarUseBlockLiveness diamondLoop popNewest
      (mkLiveBlocks 1 ∅ []) 3 0 = Some live'
    /\ getBlockLiveness live' 3 0 = LiveOut
    /\ getBlockLiveness live' 0 0 = LiveOut.
Proof.
  destruct (computeScalarUseBlockLiveness_spec diamondLoop popNewest
              (mkLiveBlocks 1 ∅ []) 3 0)
    as (live' & Hrun & _ & Hexact & _ & _ & _).
  - apply popNewest_lawful.
  - intros block pred. destruct block as [|[|[|[|]]]]; cbn; intuition lia.
  - cbn. lia.
  - apply liveBlocksSized_empty.
  - cbn. lia.
  - exists live'. split; [exact Hrun|]. split.
    + apply (proj1 (Hexact 3%nat)). exists 1%nat. split; [|cbn; auto].
      eapply reachesThroughDead_pred; [constructor | cbn; auto | reflexivity].
    + apply (proj1 (Hexact 0%nat)). exists 1%nat. split; [|cbn; auto].
      eapply reachesThroughDead_pred; [constructor | cbn; auto | reflexivity].
Defined.

Example computeScalarUseBlockLiveness_diamondLoop :
  exists live',
    computeScalarUseBlockLiveness diamondLoop popNewest (mkLiveBlocks 1 ∅ []) 3 0
    = Some live'
    /\ map (fun bb => getBlockLiveness live' bb 0) [0; 1; 2; 3]%nat
       = [LiveOut; LiveOut; LiveOut; LiveOut]
    /\ discoveredBlocks live' = [3; 1; 2; 0]%nat.
Proof. eexists. split; [vm_compute; reflexivity|]. split; vm_compute; reflexivity. Qed.

(** ** Block liveness: the range of a use, and a whole analysis *)

Lemma reachesThroughDead_ext F liveA liveB bitNo userBB block :
  (forall bb, getBlockLiveness liveA bb bitNo = getBlockLiveness liveB bb bitNo) ->
  reachesThroughDead F liveA bitNo userBB block ->
  reachesThroughDead F liveB bitNo userBB block.
Proof.
  intros Hsame. induction 1 as [|block predBlock _ IH Hin Hdead]; [constructor|].
  eapply reachesThroughDead_pred; [exact IH | exact Hin | rewrite <- Hsame; exact Hdead].
Qed.

Lemma LivenessAfterUse_ext F liveA liveB bitNo userBB bb result :
  (forall bb, getBlockLiveness liveA bb bitNo = getBlockLiveness liveB bb bitNo) ->
  LivenessAfterUse F liveA bitNo userBB bb result ->
  LivenessAfterUse F liveB bitNo userBB bb result.
Proof.
  intros Hsame [HA HB].
  assert (Hpred : predecessorOfVisited F liveA bitNo userBB bb
                  <-> predecessorOfVisited F liveB bitNo userBB bb).
  { unfold predecessorOfVisited. split; intros (block & Hr & Hin); exists block;
      (split; [|exact Hin]).
    - exact (reachesThroughDead_ext _ _ _ _ _ _ Hsame Hr).
    - apply (reachesThroughDead_ext F liveB liveA); [|exact Hr].
      intros b. symmetry. apply Hsame. }
  split.
  - intros Hp. apply HA, Hpred, Hp.
  - destruct HB as [Hp|Hb]; [left; apply Hpred, Hp|]. right.
    rewrite Hb. unfold livenessBeforeLoop. rewrite Hsame. reflexivity.
Qed.

Lemma updateForUseLoop_spec F popFrom bb useBeforeDefBits live bitNos :
  LawfulPop popFrom ->
  predecessorsInFunction F ->
  (bb < numBlocks F)%nat ->
  List.NoDup bitNos ->
  (forall bitNo, In bitNo bitNos -> (bitNo < numBitsToTrack live)%nat) ->
  forall current,
    liveBlocksSized current ->
    numBitsToTrack current = numBitsToTrack live ->
    (forall b bitNo, In bitNo bitNos ->
                     getBlockLiveness current b bitNo = getBlockLiveness live b bitNo) ->
    exists live',
      updateForUseLoop F popFrom bb useBeforeDefBits current
        (combine bitNos (map (getBlockLiveness live bb) bitNos)) = Some live'
      /\ liveBlocksSized live'
      /\ numBitsToTrack live' = numBitsToTrack live
      /\ (forall b bitNo,
            In bitNo bitNos -> usePropagates live bb useBeforeDefBits bitNo ->
            LivenessAfterUse F live bitNo bb b (getBlockLiveness live' b bitNo))
      /\ (forall b bitNo,
            In bitNo bitNos -> ~ usePropagates live bb useBeforeDefBits bitNo ->
            getBlockLiveness live' b bitNo = getBlockLiveness live b bitNo)
      /\ (forall b bitNo,
            ~ In bitNo bitNos ->
            getBlockLiveness live' b bitNo = getBlockLiveness current b bitNo).
Proof.
  intros Hlawful Hpreds Hbb.
  induction bitNos as [|bitNo rest IH]; intros Hnodup Htracked current Hsized Hn Hsame;
    cbn [map combine updateForUseLoop].
  - exists current. split; [reflexivity|]. split; [exact Hsized|]. split; [exact Hn|].
    split; [intros b k []|]. split; [intros b k []|]. reflexivity.
  - apply List.NoDup_cons_iff in Hnodup as [Hfresh Hnodup].
    assert (Hbit : (bitNo < numBitsToTrack current)%nat)
      by (rewrite Hn; apply Htracked; left; reflexivity).
    assert (Hstep : exists live1,
               updateForUseBit F popFrom bb useBeforeDefBits current bitNo
                 (getBlockLiveness live bb bitNo) = Some live1
               /\ liveBlocksSized live1
               /\ numBitsToTrack live1 = numBitsToTrack live
               /\ (forall b k, k <> bitNo ->
                               getBlockLiveness live1 b k = getBlockLiveness current b k)
               /\ (usePropagates live bb useBeforeDefBits bitNo ->
                   forall b, LivenessAfterUse F live bitNo bb b
                               (getBlockLiveness live1 b bitNo))
               /\ (~ usePropagates live bb useBeforeDefBits bitNo ->
                   forall b, getBlockLiveness live1 b bitNo
                             = getBlockLiveness live b bitNo)).
    { assert (Hcompute : exists live1,
                 computeScalarUseBlockLiveness F popFrom current bb bitNo = Some live1
                 /\ liveBlocksSized live1
                 /\ numBitsToTrack live1 = numBitsToTrack live
                 /\ (forall b k, k <> bitNo ->
                                 getBlockLiveness live1 b k = getBlockLiveness current b k)
                 /\ (forall b, LivenessAfterUse F live bitNo bb b
                                 (getBlockLiveness live1 b bitNo))).
      { destruct (scalarUse_exact F popFrom current bb bitNo Hlawful Hpreds Hbb Hsized Hbit)
          as (live1 & Hrun & Hs1 & Hn1 & Hframe & Hexact).
        exists live1. split; [exact Hrun|]. split; [exact Hs1|].
        split; [rewrite Hn1; exact Hn|]. split; [exact Hframe|].
        intros b. apply (LivenessAfterUse_ext F current live); [|apply Hexact].
        intros b'. apply Hsame. left. reflexivity. }
      unfold updateForUseBit, usePropagates.
      destruct (getBlockLiveness live bb bitNo) eqn:Elive.
      - destruct Hcompute as (live1 & Hrun & Hs1 & Hn1 & Hframe & Hexact).
        exists live1. split; [exact Hrun|]. split; [exact Hs1|]. split; [exact Hn1|].
        split; [exact Hframe|]. split; [intros _; exact Hexact|].
        intros Hnot. exfalso. apply Hnot. left. reflexivity.
      - destruct (testBit useBeforeDefBits bitNo) eqn:Eflag; cbn [negb].
        + destruct Hcompute as (live1 & Hrun & Hs1 & Hn1 & Hframe & Hexact).
          exists live1. split; [exact Hrun|]. split; [exact Hs1|]. split; [exact Hn1|].
          split; [exact Hframe|]. split; [intros _; exact Hexact|].
          intros Hnot. exfalso. apply Hnot. right. reflexivity.
        + exists current. split; [reflexivity|]. split; [exact Hsized|].
          split; [exact Hn|]. split; [reflexivity|].
          split; [intros [H|H]; discriminate|].
          intros _ b. apply Hsame. left. reflexivity.
      - destruct (testBit useBeforeDefBits bitNo) eqn:Eflag; cbn [negb].
        + destruct Hcompute as (live1 & Hrun & Hs1 & Hn1 & Hframe & Hexact).
          exists live1. split; [exact Hrun|]. split; [exact Hs1|]. split; [exact Hn1|].
          split; [exact Hframe|]. split; [intros _; exact Hexact|].
          intros Hnot. exfalso. apply Hnot. right. reflexivity.
        + exists current. split; [reflexivity|]. split; [exact Hsized|].
          split; [exact Hn|]. split; [reflexivity|].
          split; [intros [H|H]; discriminate|].
          intros _ b. apply Hsame. left. reflexivity. }
    destruct Hstep as (live1 & Hrun1 & Hs1 & Hn1 & Hframe1 & Hyes1 & Hno1).
    rewrite Hrun1.
    destruct (IH Hnodup (fun k Hk => Htracked k (or_intror Hk)) live1 Hs1 Hn1)
      as (live' & Hrun & Hs' & Hn' & Hyes & Hno & Hother).
    { intros b k Hk. rewrite Hframe1 by (intros ->; contradiction).
      apply Hsame. right. exact Hk. }
    exists live'. split; [exact Hrun|]. split; [exact Hs'|]. split; [exact Hn'|].
    split; [|split].
    + intros b k [<-|Hk] Hp; [|apply Hyes; assumption].
      rewrite Hother by exact Hfresh. apply Hyes1, Hp.
    + intros b k [<-|Hk] Hp; [|apply Hno; assumption].
      rewrite Hother by exact Hfresh. apply Hno1, Hp.
    + intros b k Hk. rewrite Hother by (intros H; apply Hk; right; exact H).
      apply Hframe1. intros ->. apply Hk. left. reflexivity.
Qed.

(** X10: [updateForUse] of the live blocks returns, changes no bit outside
    [[startBitNo, endBitNo)] and no bit of the range for which the block of
    the user is already live and that is not flagged as used before its
    definition; and for each other bit of the range it leaves the state of
    one propagation from the block of the user, computed on the state
    before the call. *)
Theorem updateForUse_spec (F : SILFunction) (popFrom : PopOrder)
    (live : FieldSensitivePrunedLiveBlocks) (user : SILInstruction)
    (startBitNo endBitNo : nat) (useBeforeDefBits : list bool) :
  LawfulPop popFrom ->
  predecessorsInFunction F ->
  (getParent F user < numBlocks F)%nat ->
  liveBlocksSized live ->
  (endBitNo <= numBitsToTrack live)%nat ->
  exists live',
    updateForUse F popFrom live user startBitNo endBitNo useBeforeDefBits = Some live'
    /\ forall bb bitNo,
         ((startBitNo <= bitNo < endBitNo)%nat
          /\ usePropagates live (getParent F user) useBeforeDefBits bitNo ->
          LivenessAfterUse F live bitNo (getParent F user) bb
            (getBlockLiveness live' bb bitNo))
         /\ (~ ((startBitNo <= bitNo < endBitNo)%nat
                /\ usePropagates live (getParent F user) useBeforeDefBits bitNo) ->
             getBlockLiveness live' bb bitNo = getBlockLiveness live bb bitNo).
Proof.
  intros Hlawful Hpreds Hbb Hsized Hend. unfold updateForUse.
  destruct (updateForUseLoop_spec F popFrom (getParent F user) useBeforeDefBits live
              (seq startBitNo (endBitNo - startBitNo)) Hlawful Hpreds Hbb
              (List.seq_NoDup _ _)
              ltac:(intros k Hk; apply in_seq in Hk; lia)
              live Hsized eq_refl ltac:(reflexivity))
    as (live' & Hrun & _ & _ & Hyes & Hno & Hother).
  exists live'. split; [exact Hrun|]. intros bb bitNo. split.
  - intros [Hrange Hp]. apply Hyes; [apply in_seq; lia | exact Hp].
  - intros Hnot.
    destruct (in_dec Nat.eq_dec bitNo (seq startBitNo (endBitNo - startBitNo))) as [Hin|Hout].
    + apply Hno; [exact Hin|]. intros Hp. apply Hnot. split; [|exact Hp].
      apply in_seq in Hin. lia.
    + apply Hother, Hout.
Qed.

Lemma updateForUse_spec_witness :
  exists live',
    updateForUse straightLine popNewest entryDefined 10 0 1 [false] = Some live'
    /\ getBlockLiveness live' 1 0 = LiveOut
    /\ getBlockLiveness live' 1 1 = getBlockLiveness entryDefined 1 1.
Proof.
  destruct (updateForUse_spec straightLine popNewest entryDefined 10 0 1 [false])
    as (live' & Hrun & Hspec).
  - apply popNewest_lawful.
  - apply straightLine_predecessors.
  - cbn. lia.
  - apply markBlockLive_sized, liveBlocksSized_empty.
  - vm_compute. lia.
  - exists live'. split; [exact Hrun|].
    assert (Hp : (0 <= 0 < 1)%nat /\ usePropagates entryDefined (getParent straightLine 10)
                                       [false] 0).
    { split; [lia|]. left. vm_compute. reflexivity. }
    split.
    + apply (proj1 (proj1 (Hspec 1%nat 0%nat) Hp)).
      exists 2%nat. split; [constructor | cbn; auto].
    + apply (proj2 (Hspec 1%nat 1%nat)). intros [Hrange _]. lia.
Defined.

Lemma closedStep_refl F live : liveBlocksSized live -> closedStep F live live.
Proof.
  intros Hsized. split; [apply LiveBlocks_le_refl|]. split; [exact Hsized|].
  split; [reflexivity|]. intros block bit Hdead Hlive. contradiction.
Qed.

Lemma closedStep_trans F a b c : closedStep F a b -> closedStep F b c -> closedStep F a c.
Proof.
  intros (Hle1 & _ & Hn1 & Hc1) (Hle2 & Hs2 & Hn2 & Hc2).
  split; [eapply LiveBlocks_le_trans; eassumption|]. split; [exact Hs2|].
  split; [congruence|].
  intros block bit Hdead Hlive predBlock Hin.
  destruct (getBlockLiveness b block bit) eqn:Eb.
  - apply (Hc2 block bit Eb Hlive predBlock Hin).
  - assert (Hout : getBlockLiveness b predBlock bit = LiveOut)
      by (apply (Hc1 block bit Hdead); [rewrite Eb; discriminate | exact Hin]).
    pose proof (Hle2 predBlock bit) as Hle. rewrite Hout in Hle.
    unfold IsLive_le in Hle. destruct (getBlockLiveness c predBlock bit); cbn in Hle;
      [lia | lia | reflexivity].
  - assert (Hout : getBlockLiveness b predBlock bit = LiveOut)
      by (apply (Hc1 block bit Hdead); [rewrite Eb; discriminate | exact Hin]).
    pose proof (Hle2 predBlock bit) as Hle. rewrite Hout in Hle.
    unfold IsLive_le in Hle. destruct (getBlockLiveness c predBlock bit); cbn in Hle;
      [lia | lia | reflexivity].
Qed.

Lemma computeScalarUseBlockLiveness_closedStep F popFrom live userBB bitNo :
  LawfulPop popFrom ->
  predecessorsInFunction F ->
  (userBB < numBlocks F)%nat ->
  liveBlocksSized live ->
  (bitNo < numBitsToTrack live)%nat ->
  exists live',
    computeScalarUseBlockLiveness F popFrom live userBB bitNo = Some live'
    /\ closedStep F live live'.
Proof.
  intros Hlawful Hpreds Huser Hsized Hbit.
  destruct (scalarUse_exact F popFrom live userBB bitNo Hlawful Hpreds Huser Hsized Hbit)
    as (live' & Hrun & Hs' & Hn' & Hframe & Hexact).
  exists live'. split; [exact Hrun|].
  split; [eapply computeScalarUseBlockLiveness_le; exact Hrun|].
  split; [exact Hs'|]. split; [exact Hn'|].
  intros block bit Hdead Hlive predBlock Hin.
  destruct (Nat.eq_dec bit bitNo) as [->|Hne].
  - apply (proj1 (Hexact predBlock)). exists block. split; [|exact Hin].
    exact (LivenessAfterUse_visited _ _ _ _ _ _ (Hexact block) Hdead Hlive).
  - rewrite Hframe in Hlive by exact Hne. contradiction.
Qed.

Lemma updateForUseLoop_closedStep F popFrom bb useBeforeDefBits bitsAndLiveness :
  LawfulPop popFrom ->
  predecessorsInFunction F ->
  (bb < numBlocks F)%nat ->
  forall live,
    liveBlocksSized live ->
    (forall entry, In entry bitsAndLiveness -> (entry.1 < numBitsToTrack live)%nat) ->
    exists live',
      updateForUseLoop F popFrom bb useBeforeDefBits live bitsAndLiveness = Some live'
      /\ closedStep F live live'.
Proof.
  intros Hlawful Hpreds Hbb.
  induction bitsAndLiveness as [|[bitNo isLive] rest IH]; intros live Hsized Htracked;
    cbn [updateForUseLoop].
  - exists live. split; [reflexivity | apply closedStep_refl, Hsized].
  - assert (Hbit : (bitNo < numBitsToTrack live)%nat)
      by (apply (Htracked (bitNo, isLive)); left; reflexivity).
    assert (Hstep : exists live1,
               updateForUseBit F popFrom bb useBeforeDefBits live bitNo isLive = Some live1
               /\ closedStep F live live1).
    { unfold updateForUseBit.
      destruct isLive; try destruct (negb _);
        first [ apply computeScalarUseBlockLiveness_closedStep; assumption
              | exists live; split; [reflexivity | apply closedStep_refl, Hsized] ]. }
    destruct Hstep as (live1 & Hrun1 & Hc1). rewrite Hrun1.
    pose proof Hc1 as (_ & Hs1 & Hn1 & _).
    destruct (IH live1 Hs1) as (live' & Hrun & Hc).
    { intros entry Hin. rewrite Hn1. apply Htracked. right. exact Hin. }
    exists live'. split; [exact Hrun | eapply closedStep_trans; eassumption].
Qed.

Lemma updateForUseSetBits_closedStep F popFrom user useBeforeDefBits bitNos :
  LawfulPop popFrom ->
  predecessorsInFunction F ->
  (getParent F user < numBlocks F)%nat ->
  forall live,
    liveBlocksSized live ->
    (forall bitNo, In bitNo bitNos -> (bitNo < numBitsToTrack live)%nat) ->
    exists live',
      updateForUseSetBits F popFrom user useBeforeDefBits live bitNos = Some live'
      /\ closedStep F live live'.
Proof.
  intros Hlawful Hpreds Hbb.
  induction bitNos as [|bitNo rest IH]; intros live Hsized Htracked;
    cbn [updateForUseSetBits].
  - exists live. split; [reflexivity | apply closedStep_refl, Hsized].
  - assert (Hbit : (bitNo < numBitsToTrack live)%nat)
      by (apply Htracked; left; reflexivity).
    assert (Hstep : exists live1,
               updateForUseOneBit F popFrom live user bitNo (testBit useBeforeDefBits bitNo)
               = Some live1
               /\ closedStep F live live1).
    { unfold updateForUseOneBit.
      destruct (getBlockLiveness live (getParent F user) bitNo); try destruct (negb _);
        first [ apply computeScalarUseBlockLiveness_closedStep; assumption
              | exists live; split; [reflexivity | apply closedStep_refl, Hsized] ]. }
    destruct Hstep as (live1 & Hrun1 & Hc1). rewrite Hrun1.
    pose proof Hc1 as (_ & Hs1 & Hn1 & _).
    destruct (IH live1 Hs1) as (live' & Hrun & Hc).
    { intros k Hin. rewrite Hn1. apply Htracked. right. exact Hin. }
    exists live'. split; [exact Hrun | eapply closedStep_trans; eassumption].
Qed.

Lemma set_bits_lt (bits : list bool) (bitNo : nat) :
  In bitNo (set_bits bits) -> (bitNo < length bits)%nat.
Proof.
  unfold set_bits. intros Hin. apply list_elem_of_In, list_elem_of_filter in Hin as [_ Hin].
  apply list_elem_of_In, in_seq in Hin. lia.
Qed.

Lemma runCall_closedStep {Users} F popFrom (ops : UserMapOps Users) liveness call :
  LawfulPop popFrom ->
  predecessorsInFunction F ->
  (getParent F (callUser call) < numBlocks F)%nat ->
  liveBlocksSized (liveBlocksOf liveness) ->
  callInRange (numBitsToTrack (liveBlocksOf liveness)) call ->
  exists liveness',
    runCall F popFrom ops liveness call = Some liveness'
    /\ closedStep F (liveBlocksOf liveness) (liveBlocksOf liveness').
Proof.
  intros Hlawful Hpreds Huser Hsized Hrange.
  destruct call as [user range ending flags | user bits ending flags
                   | user range flags | user bits flags];
    cbn [runCall callUser callInRange] in *.
  - destruct (updateForUseLoop_closedStep F popFrom (getParent F user) flags
                (combine (seq (Z.to_nat (startEltOffset range))
                            (Z.to_nat (endEltOffset range) - Z.to_nat (startEltOffset range)))
                   (map (getBlockLiveness (liveBlocksOf liveness) (getParent F user))
                      (seq (Z.to_nat (startEltOffset range))
                         (Z.to_nat (endEltOffset range) - Z.to_nat (startEltOffset range)))))
                Hlawful Hpreds Huser (liveBlocksOf liveness) Hsized)
      as (live' & Hrun & Hc).
    { intros [k l] Hin. apply in_combine_l, in_seq in Hin. cbn [fst]. lia. }
    unfold updateForUse. rewrite Hrun. eexists. split; [reflexivity | exact Hc].
  - destruct (updateForUseSetBits_closedStep F popFrom user flags (set_bits bits)
                Hlawful Hpreds Huser (liveBlocksOf liveness) Hsized)
      as (live' & Hrun & Hc).
    { intros k Hin. apply set_bits_lt in Hin. lia. }
    rewrite Hrun. eexists. split; [reflexivity | exact Hc].
  - destruct (updateForUseLoop_closedStep F popFrom (getParent F user) flags
                (combine (seq (Z.to_nat (startEltOffset range))
                            (Z.to_nat (endEltOffset range) - Z.to_nat (startEltOffset range)))
                   (map (getBlockLiveness (liveBlocksOf liveness) (getParent F user))
                      (seq (Z.to_nat (startEltOffset range))
                         (Z.to_nat (endEltOffset range) - Z.to_nat (startEltOffset range)))))
                Hlawful Hpreds Huser (liveBlocksOf liveness) Hsized)
      as (live' & Hrun & Hc).
    { intros [k l] Hin. apply in_combine_l, in_seq in Hin. cbn [fst]. lia. }
    unfold updateForUse. rewrite Hrun. eexists. split; [reflexivity | exact Hc].
  - destruct (updateForUseSetBits_closedStep F popFrom user flags (set_bits bits)
                Hlawful Hpreds Huser (liveBlocksOf liveness) Hsized)
      as (live' & Hrun & Hc).
    { intros k Hin. apply set_bits_lt in Hin. lia. }
    rewrite Hrun. eexists. split; [reflexivity | exact Hc].
Qed.

Lemma runCalls_closedStep {Users} F popFrom (ops : UserMapOps Users) calls :
  LawfulPop popFrom ->
  predecessorsInFunction F ->
  forall liveness,
    (forall call, In call calls ->
                  (getParent F (callUser call) < numBlocks F)%nat
                  /\ callInRange (numBitsToTrack (liveBlocksOf liveness)) call) ->
    liveBlocksSized (liveBlocksOf liveness) ->
    exists final,
      runCalls F popFrom ops liveness calls = Some final
      /\ closedStep F (liveBlocksOf liveness) (liveBlocksOf final).
Proof.
  intros Hlawful Hpreds.
  induction calls as [|call rest IH]; intros liveness Hcalls Hsized; cbn [runCalls].
  - exists liveness. split; [reflexivity | apply closedStep_refl, Hsized].
  - destruct (Hcalls call (or_introl eq_refl)) as [Huser Hrange].
    destruct (runCall_closedStep F popFrom ops liveness call Hlawful Hpreds Huser
                Hsized Hrange) as (liveness1 & Hrun1 & Hc1).
    rewrite Hrun1. pose proof Hc1 as (_ & Hs1 & Hn1 & _).
    destruct (IH liveness1) as (final & Hrun & Hc).
    { intros c Hc. rewrite Hn1. apply Hcalls. right. exact Hc. }
    { exact Hs1. }
    exists final. split; [exact Hrun | eapply closedStep_trans; eassumption].
Qed.

(** X11: pruned liveness is closed under predecessors.  Over one analysis,
    that is any sequence of recording calls on tracked bits, every block
    that was [Dead] for a bit before the analysis and is live for it
    afterwards has all its predecessors [LiveOut] for the bit: liveness
    reaches back from every use until it meets a block that was live
    before. *)
Theorem liveness_closed_under_predecessors {Users : Type} (F : SILFunction)
    (popFrom : PopOrder) (ops : UserMapOps Users)
    (liveness : FieldSensitivePrunedLiveness Users) (calls : list LivenessCall) :
  LawfulPop popFrom ->
  predecessorsInFunction F ->
  liveBlocksSized (liveBlocksOf liveness) ->
  (forall call, In call calls ->
                (getParent F (callUser call) < numBlocks F)%nat
                /\ callInRange (numBitsToTrack (liveBlocksOf liveness)) call) ->
  exists final,
    runCalls F popFrom ops liveness calls = Some final
    /\ forall block bit predBlock,
         getBlockLiveness (liveBlocksOf liveness) block bit = Dead ->
         getBlockLiveness (liveBlocksOf final) block bit <> Dead ->
         In predBlock (getPredecessorBlocks F block) ->
         getBlockLiveness (liveBlocksOf final) predBlock bit = LiveOut.
Proof.
  intros Hlawful Hpreds Hsized Hcalls.
  destruct (runCalls_closedStep F popFrom ops calls Hlawful Hpreds liveness Hcalls Hsized)
    as (final & Hrun & _ & _ & _ & Hclosed).
  exists final. split; [exact Hrun|].
  intros block bit predBlock Hdead Hlive Hin. exact (Hclosed block bit Hdead Hlive predBlock Hin).
Qed.

Lemma liveness_closed_under_predecessors_witness :
  exists final,
    runCalls straightLine popNewest noUserMap (mkLiveness entryDefined tt)
      [UpdateForUseRange 10 (mkRange 0 1) true [false]] = Some final
    /\ getBlockLiveness (liveBlocksOf final) 1 0 = LiveOut.
Proof.
  destruct (liveness_closed_under_predecessors straightLine popNewest noUserMap
              (mkLiveness entryDefined tt)
              [UpdateForUseRange 10 (mkRange 0 1) true [false]])
    as (final & Hrun & Hclosed).
  - apply popNewest_lawful.
  - apply straightLine_predecessors.
  - apply markBlockLive_sized, liveBlocksSized_empty.
  - intros call [<-|[]]. split; [cbn; lia | vm_compute; lia].
  - exists final. split; [exact Hrun|].
    apply (Hclosed 2%nat 0%nat 1%nat).
    + vm_compute. reflexivity.
    + vm_compute in Hrun. injection Hrun as <-. vm_compute. discriminate.
    + cbn. auto.
Defined.

(** ** Projections for the needed elements *)

Lemma noneSet_true (bv : list bool) (start end_ : Z) :
  0 <= start ->
  noneSet bv start end_ = true
  <-> forall bit, start <= Z.of_nat bit < end_ -> testBit bv bit = false.
Proof.
  intros Hs. unfold noneSet. rewrite forallb_forall. split.
  - intros H bit Hb. apply negb_true_iff, H, in_seq. lia.
  - intros H bit Hb. apply in_seq in Hb. apply negb_true_iff, H. lia.
Qed.

Lemma allSet_true (bv : list bool) (start end_ : Z) :
  0 <= start ->
  allSet bv start end_ = true
  <-> forall bit, start <= Z.of_nat bit < end_ -> testBit bv bit = true.
Proof.
  intros Hs. unfold allSet. rewrite forallb_forall. split.
  - intros H bit Hb. apply H, in_seq. lia.
  - intros H bit Hb. apply in_seq in Hb. apply H. lia.
Qed.

Lemma noneSet_false (bv : list bool) (start end_ : Z) :
  0 <= start ->
  noneSet bv start end_ = false ->
  exists bit, start <= Z.of_nat bit < end_ /\ testBit bv bit = true.
Proof.
  intros Hs Hnone. unfold noneSet in Hnone.
  apply not_true_iff_false in Hnone.
  destruct (existsb (fun index => testBit bv index)
              (seq (Z.to_nat start) (Z.to_nat end_ - Z.to_nat start))) eqn:Hex.
  - apply existsb_exists in Hex as (bit & Hin & Hset). apply in_seq in Hin.
    exists bit. split; [lia | exact Hset].
  - exfalso. apply Hnone, forallb_forall. intros bit Hin.
    apply negb_true_iff. apply not_true_iff_false. intros Hset.
    apply not_true_iff_false in Hex. apply Hex, existsb_exists. eauto.
Qed.

Lemma testBit_map_seq (f : nat -> bool) (size index : nat) :
  testBit (map f (seq 0 size)) index = if (index <? size)%nat then f index else false.
Proof.
  unfold testBit. destruct (Nat.ltb_spec index size) as [Hlt|Hge].
  - rewrite (nth_indep _ false (f 0%nat)) by (rewrite length_map, length_seq; exact Hlt).
    rewrite map_nth, seq_nth by exact Hlt. reflexivity.
  - apply nth_overflow. rewrite length_map, length_seq. exact Hge.
Qed.

Lemma testBit_tmp (neededElements : list bool) (range : TypeTreeLeafTypeRange) (bit : nat) :
  testBit (andBits (rangeMask (length neededElements) range) neededElements) bit
  = contains range bit && testBit neededElements bit.
Proof.
  unfold andBits, rangeMask. rewrite length_map, length_seq, testBit_map_seq.
  rewrite testBit_map_seq. unfold contains.
  destruct (Nat.ltb_spec bit (length neededElements)) as [Hlt|Hge]; [reflexivity|].
  rewrite (testBit_beyond neededElements bit Hge), andb_false_r. reflexivity.
Qed.

Lemma noBitSet_tmp (neededElements : list bool) (range : TypeTreeLeafTypeRange) :
  0 <= startEltOffset range ->
  endEltOffset range <= Z.of_nat (length neededElements) ->
  noBitSet (andBits (rangeMask (length neededElements) range) neededElements)
  = noneSet neededElements (startEltOffset range) (endEltOffset range).
Proof.
  intros Hs He. apply eq_true_iff_eq. rewrite noneSet_true by exact Hs.
  unfold noBitSet. rewrite forallb_forall. split.
  - intros H bit Hb.
    assert (Hlt : (bit < length neededElements)%nat) by lia.
    pose proof (testBit_tmp neededElements range bit) as Ht.
    assert (Hc : contains range bit = true).
    { unfold contains. apply andb_true_iff. split; [apply Z.leb_le | apply Z.ltb_lt]; lia. }
    rewrite Hc in Ht. cbn [andb] in Ht. rewrite <- Ht.
    apply negb_true_iff, H. unfold testBit. apply nth_In.
    unfold andBits, rangeMask. rewrite !length_map, !length_seq. exact Hlt.
  - intros H b Hin. apply negb_true_iff.
    apply (In_nth _ _ false) in Hin as (bit & Hlen & <-).
    change (nth bit ?l false) with (testBit l bit).
    rewrite testBit_tmp. unfold contains.
    destruct (Z.leb_spec (startEltOffset range) (Z.of_nat bit)); [|reflexivity].
    destruct (Z.ltb_spec (Z.of_nat bit) (endEltOffset range)); [|reflexivity].
    cbn [andb]. apply H. lia.
Qed.

Lemma allInRange_tmp (neededElements : list bool) (range : TypeTreeLeafTypeRange) :
  0 <= startEltOffset range ->
  allInRange (andBits (rangeMask (length neededElements) range) neededElements) range
  = allSet neededElements (startEltOffset range) (endEltOffset range).
Proof.
  intros Hs. unfold allInRange, allSet, spanBits. apply eq_true_iff_eq.
  rewrite !forallb_forall.
  assert (Hsame : forall bit,
             In bit (seq (Z.to_nat (startEltOffset range))
                       (Z.to_nat (endEltOffset range) - Z.to_nat (startEltOffset range))) ->
             testBit (andBits (rangeMask (length neededElements) range) neededElements) bit
             = testBit neededElements bit).
  { intros bit Hin. apply in_seq in Hin. rewrite testBit_tmp.
    assert (Hc : contains range bit = true).
    { unfold contains. apply andb_true_iff. split; [apply Z.leb_le | apply Z.ltb_lt]; lia. }
    rewrite Hc. reflexivity. }
  split; intros H bit Hin; [rewrite <- Hsame | rewrite Hsame]; auto.
Qed.

Lemma owners_cons bit pair pairs :
  owners bit (pair :: pairs)
  = ((if holdsBit bit pair then 1 else 0) + owners bit pairs)%nat.
Proof.
  unfold owners. cbn [List.filter]. destruct (holdsBit bit pair); reflexivity.
Qed.

Lemma owners_app bit pairs1 pairs2 :
  owners bit (pairs1 ++ pairs2) = (owners bit pairs1 + owners bit pairs2)%nat.
Proof.
  induction pairs1 as [|pair pairs1 IH]; [reflexivity|].
  cbn [app]. rewrite !owners_cons, IH. lia.
Qed.

Lemma owners_rev bit pairs : owners bit (rev pairs) = owners bit pairs.
Proof.
  induction pairs as [|pair pairs IH]; [reflexivity|].
  cbn [rev]. rewrite owners_app, IH, !owners_cons.
  change (owners bit []) with 0%nat. lia.
Qed.

Lemma contains_true (span : TypeTreeLeafTypeRange) (bit : nat) :
  contains span bit = true <-> startEltOffset span <= Z.of_nat bit < endEltOffset span.
Proof. unfold contains. rewrite andb_true_iff, Z.leb_le, Z.ltb_lt. reflexivity. Qed.

(** The sum of the nodes of the types of the values of a list of pairs. *)
Lemma typeNodes_positive (type : SILType) : (0 < typeNodes type)%nat.
Proof. destruct type; cbn; lia. Qed.

Section FilterProjections.
Variable createElementAddr : nat -> ProjectionKind.
Variable value rootValue : SILValue.
Variable fields : list SILType.
Variable filterBitVector : list bool.
Variable strict : bool.
Variable base distance : Z.
Hypothesis base_nonneg : 0 <= base.
Hypothesis distance_nonneg : 0 <= distance.
Hypothesis base_fits : base + fieldCountSum fields < UnsignedModulus.
Hypothesis distance_fits : distance + fieldCountSum fields < UnsignedModulus.
Hypothesis value_walk :
  forall offset,
    0 <= offset -> offset + distance < UnsignedModulus ->
    computeForAddressFrom offset value rootValue = Some (offset + distance).
Hypothesis value_fields :
  forall index offset,
    stepOffset (addressStep (createElementAddr index)) value offset
    = Some (addSubElementCounts offset (firstn index fields)).

Lemma filterProjections_spec rest :
  forall done nextID,
    fields = done ++ rest ->
    (valueID rootValue < nextID)%nat ->
    let index := length done in
    let start := base + fieldCountSum done in
    let result :=
      filterProjections createElementAddr value filterBitVector rest index start nextID in
    result.1.2 = base + fieldCountSum fields
    /\ (nextID <= result.2)%nat
    /\ Forall (filteredCall createElementAddr value fields filterBitVector base
                 index nextID result.2) result.1.1
    /\ Forall (fun call =>
                 forall offset,
                   0 <= offset ->
                   offset + distance + (startEltOffset call.2 - base) < UnsignedModulus ->
                   computeForAddressFrom offset call.1 rootValue
                   = Some (offset + distance + (startEltOffset call.2 - base)))
              result.1.1
    /\ (forall bit,
          (owners bit result.1.1 <= 1)%nat
          /\ (owners bit result.1.1 = 1%nat ->
              start <= Z.of_nat bit < base + fieldCountSum fields)
          /\ (start <= Z.of_nat bit < base + fieldCountSum fields ->
              testBit filterBitVector bit = true ->
              owners bit result.1.1 = 1%nat))
    /\ (pairsNodes result.1.1
        <= fold_right (fun field acc => (typeNodes field + acc)%nat) 0%nat rest)%nat
    /\ (forall neededElements,
          SplitsFields strict neededElements rest start ->
          Forall (fun call =>
                    Splits strict neededElements (getType call.1) (startEltOffset call.2))
                 result.1.1).
Proof.
  induction rest as [|nextType rest IH]; intros done nextID Hfields Hfresh; cbn zeta.
  - cbn [filterProjections fst snd]. rewrite app_nil_r in Hfields. subst done.
    split; [reflexivity|]. split; [lia|]. split; [constructor|]. split; [constructor|].
    split.
    { intros bit. change (owners bit []) with 0%nat.
      split; [lia|]. split; [discriminate | lia]. }
    split; [cbn; lia | intros; constructor].
  - cbn [filterProjections].
    pose proof (TypeSubElementCount_range nextType) as Hcount.
    pose proof (fieldCountSum_nonneg done) as Hdone.
    pose proof (fieldCountSum_nonneg rest) as Hrest.
    assert (Hsum : fieldCountSum fields
                   = fieldCountSum done + TypeSubElementCount nextType + fieldCountSum rest).
    { rewrite Hfields, fieldCountSum_app.
      change (fieldCountSum (nextType :: rest))
        with (TypeSubElementCount nextType + fieldCountSum rest). lia. }
    rewrite wrapUnsigned_small by lia.
    assert (Hfields' : fields = (done ++ [nextType]) ++ rest)
      by (rewrite <- app_assoc; exact Hfields).
    assert (Hlen : length (done ++ [nextType]) = S (length done))
      by (rewrite length_app; cbn; lia).
    assert (Hstart' : base + fieldCountSum (done ++ [nextType])
                      = base + fieldCountSum done + TypeSubElementCount nextType).
    { rewrite fieldCountSum_app.
      change (fieldCountSum [nextType]) with (TypeSubElementCount nextType + 0). lia. }
    assert (Hnth : nth_error fields (length done) = Some nextType).
    { rewrite Hfields, nth_error_app2, Nat.sub_diag by lia. reflexivity. }
    assert (Hprefix : firstn (length done) fields = done).
    { rewrite Hfields, firstn_app, Nat.sub_diag, firstn_all. cbn. apply app_nil_r. }
    destruct (noneSet filterBitVector (base + fieldCountSum done)
                (base + fieldCountSum done + TypeSubElementCount nextType)) eqn:Hnone.
    + (* no needed bit in the field: no projection *)
      specialize (IH (done ++ [nextType]) nextID Hfields' Hfresh). cbn zeta in IH.
      rewrite Hlen, Hstart' in IH.
      destruct IH as (Hfinal & Hid & Hcalls & Hwalk & Howners & Hnodes & Hsplits).
      split; [exact Hfinal|]. split; [exact Hid|].
      split.
      { eapply List.Forall_impl; [|exact Hcalls].
        intros call (fi & ft & id & H1 & H2 & H3). exists fi, ft, id.
        split; [exact H1|]. split; [lia | exact H3]. }
      split; [exact Hwalk|].
      split.
      { intros bit. destruct (Howners bit) as (H1 & H2 & H3).
        split; [exact H1|]. split; [intros H; specialize (H2 H); lia|].
        intros Hb Hset. apply H3; [|exact Hset].
        destruct (Z.lt_ge_cases (Z.of_nat bit)
                    (base + fieldCountSum done + TypeSubElementCount nextType)) as [Hlt|Hge];
          [|lia].
        assert (Hbase : 0 <= base + fieldCountSum done) by lia.
        pose proof (proj1 (noneSet_true filterBitVector _ _ Hbase) Hnone bit
                      ltac:(lia)) as Hclear.
        congruence. }
      split; [cbn [fold_right]; lia|].
      intros neededElements Hs. inversion Hs as [|? ? ? _ Hs']; subst.
      apply Hsplits, Hs'.
    + (* a projection for the field *)
      assert (Hfresh' : (valueID rootValue < S nextID)%nat) by lia.
      specialize (IH (done ++ [nextType]) (S nextID) Hfields' Hfresh'). cbn zeta in IH.
      rewrite Hlen, Hstart' in IH.
      destruct (filterProjections createElementAddr value filterBitVector rest
                  (S (length done))
                  (base + fieldCountSum done + TypeSubElementCount nextType) (S nextID))
        as [[calls final] nextID'].
      cbn [fst snd] in IH |- *.
      destruct IH as (Hfinal & Hid & Hcalls & Hwalk & Howners & Hnodes & Hsplits).
      split; [exact Hfinal|]. split; [lia|].
      split.
      { constructor.
        - exists (length done), nextType, nextID. cbn [fst snd startEltOffset endEltOffset].
          rewrite Hprefix. repeat split; try lia; assumption.
        - eapply List.Forall_impl; [|exact Hcalls].
          intros call (fi & ft & id & H1 & H2 & H3 & H4 & H5). exists fi, ft, id.
          split; [exact H1|]. split; [lia|]. split; [exact H3|]. split; [lia | exact H5]. }
      split.
      { constructor; [|exact Hwalk].
        cbn [fst snd startEltOffset]. intros offset Ho Hfit.
        rewrite computeForAddressFrom_step by lia.
        rewrite value_fields, Hprefix.
        rewrite addSubElementCounts_exact by lia.
        rewrite value_walk by lia. f_equal. lia. }
      split.
      { intros bit. rewrite owners_cons. unfold holdsBit. cbn [snd].
        destruct (Howners bit) as (H1 & H2 & H3).
        destruct (contains (mkRange (base + fieldCountSum done)
                              (base + fieldCountSum done + TypeSubElementCount nextType)) bit)
          eqn:Hc.
        - apply contains_true in Hc. cbn [startEltOffset endEltOffset] in Hc.
          assert (Hzero : owners bit calls = 0%nat).
          { destruct (owners bit calls) as [|[|n]]; [reflexivity | | lia].
            specialize (H2 eq_refl). lia. }
          rewrite Hzero. split; [lia|]. split; intros; lia.
        - assert (Hout : ~ (base + fieldCountSum done <= Z.of_nat bit
                            < base + fieldCountSum done + TypeSubElementCount nextType)).
          { intros Hin. apply not_true_iff_false in Hc. apply Hc, contains_true.
            exact Hin. }
          split; [lia|]. split.
          + intros H. specialize (H2 ltac:(lia)). lia.
          + intros Hb Hset. cbn [Nat.add]. apply H3; [lia | exact Hset]. }
      split.
      { cbn [pairsNodes fold_right fst getType] in *. fold pairsNodes in *.
        unfold pairsNodes in Hnodes. lia. }
      intros neededElements Hs. inversion Hs as [|? ? ? Hfirst Hs']; subst.
      constructor; [exact Hfirst | apply Hsplits, Hs'].
Qed.

End FilterProjections.

Lemma allSet_false (bv : list bool) (start end_ : Z) :
  0 <= start ->
  allSet bv start end_ = false ->
  exists bit, start <= Z.of_nat bit < end_ /\ testBit bv bit = false.
Proof.
  intros Hs Hall. unfold allSet in Hall.
  apply not_true_iff_false in Hall.
  destruct (existsb (fun index => negb (testBit bv index))
              (seq (Z.to_nat start) (Z.to_nat end_ - Z.to_nat start))) eqn:Hex.
  - apply existsb_exists in Hex as (bit & Hin & Hset). apply in_seq in Hin.
    exists bit. split; [lia | apply negb_true_iff, Hset].
  - exfalso. apply Hall, forallb_forall. intros bit Hin.
    apply not_false_iff_true. intros Hclear.
    apply not_true_iff_false in Hex. apply Hex, existsb_exists.
    exists bit. split; [exact Hin | apply negb_true_iff, Hclear].
Qed.

Lemma pairsNodes_app pairs1 pairs2 :
  pairsNodes (pairs1 ++ pairs2) = (pairsNodes pairs1 + pairsNodes pairs2)%nat.
Proof.
  unfold pairsNodes. induction pairs1 as [|pair pairs1 IH]; [reflexivity|].
  cbn [app fold_right]. rewrite IH. lia.
Qed.

Lemma pairsNodes_rev pairs : pairsNodes (rev pairs) = pairsNodes pairs.
Proof.
  induction pairs as [|pair pairs IH]; [reflexivity|].
  cbn [rev]. rewrite pairsNodes_app, IH. unfold pairsNodes. cbn [fold_right]. lia.
Qed.

Lemma FieldsOf_step (type : SILType) createElementAddr fields extraBit
    (value : SILValue) (index : nat) (offset : Z) :
  FieldsOf type createElementAddr fields extraBit ->
  getType value = type ->
  stepOffset (addressStep (createElementAddr index)) value offset
  = Some (addSubElementCounts offset (firstn index fields)).
Proof.
  intros Hfields Htype. destruct Hfields; cbn [addressStep stepOffset];
    rewrite Htype; reflexivity.
Qed.

Lemma FieldsOf_nodes (type : SILType) createElementAddr fields extraBit :
  FieldsOf type createElementAddr fields extraBit ->
  typeNodes type = S (fold_right (fun field acc => (typeNodes field + acc)%nat) 0%nat fields).
Proof. intros Hfields. destruct Hfields; reflexivity. Qed.

Lemma constructFilteredProjections_run createElementAddr fields extraBit
    (range : TypeTreeLeafTypeRange) (value rootValue : SILValue) (nextID : nat)
    (filterBitVector : list bool) (strict : bool) (distance : Z) :
  FieldsOf (getType value) createElementAddr fields extraBit ->
  0 <= startEltOffset range ->
  0 <= distance ->
  startEltOffset range + fieldCountSum fields + extraBit < UnsignedModulus ->
  distance + fieldCountSum fields < UnsignedModulus ->
  (forall offset,
     0 <= offset -> offset + distance < UnsignedModulus ->
     computeForAddressFrom offset value rootValue = Some (offset + distance)) ->
  (valueID rootValue < nextID)%nat ->
  exists calls nextID',
    constructFilteredProjections range value nextID filterBitVector
    = Some (mkFiltered calls nextID'
              (startEltOffset range + fieldCountSum fields + extraBit
               =? endEltOffset range))
    /\ (nextID <= nextID')%nat
    /\ Forall (filteredCall createElementAddr value fields filterBitVector
                 (startEltOffset range) 0 nextID nextID') calls
    /\ Forall (fun call =>
                 forall offset,
                   0 <= offset ->
                   offset + distance + (startEltOffset call.2 - startEltOffset range)
                   < UnsignedModulus ->
                   computeForAddressFrom offset call.1 rootValue
                   = Some (offset + distance
                           + (startEltOffset call.2 - startEltOffset range)))
              calls
    /\ (forall bit,
          (owners bit calls <= 1)%nat
          /\ (owners bit calls = 1%nat ->
              startEltOffset range <= Z.of_nat bit
              < startEltOffset range + fieldCountSum fields)
          /\ (startEltOffset range <= Z.of_nat bit
              < startEltOffset range + fieldCountSum fields ->
              testBit filterBitVector bit = true ->
              owners bit calls = 1%nat))
    /\ (pairsNodes calls < typeNodes (getType value))%nat
    /\ (forall neededElements,
          SplitsFields strict neededElements fields (startEltOffset range) ->
          Forall (fun call =>
                    Splits strict neededElements (getType call.1) (startEltOffset call.2))
                 calls).
Proof.
  intros Hfields Hs Hd Hfit Hdfit Hwalk Hfresh.
  pose proof (fieldCountSum_nonneg fields) as Hsum.
  assert (Hextra : 0 <= extraBit <= 1).
  { destruct Hfields as [|? withDeinit ?]; [lia | destruct withDeinit; cbn; lia]. }
  pose proof (filterProjections_spec createElementAddr value rootValue fields
                filterBitVector strict (startEltOffset range) distance
                Hs Hd ltac:(lia) Hdfit Hwalk
                (fun index offset =>
                   FieldsOf_step _ _ _ _ value index offset Hfields eq_refl)
                fields [] nextID eq_refl Hfresh) as Hspec.
  cbn zeta in Hspec. change (fieldCountSum []) with 0 in Hspec.
  change (length (@nil SILType)) with 0%nat in Hspec.
  rewrite Z.add_0_r in Hspec.
  pose proof (FieldsOf_nodes _ _ _ _ Hfields) as Hnodes.
  unfold constructFilteredProjections.
  destruct (filterProjections createElementAddr value filterBitVector fields 0
              (startEltOffset range) nextID) as [[calls final] nextID'] eqn:Hrun.
  cbn [fst snd] in Hspec.
  destruct Hspec as (Hfinal & Hid & Hcalls & Hwalks & Howners & Hsize & Hsplits).
  exists calls, nextID'.
  split.
  { destruct Hfields as [elementTypes | unreferenceable withDeinit storedProperties];
      rewrite Hrun.
    - rewrite Hfinal, Z.add_0_r. reflexivity.
    - destruct withDeinit; cbn [deinitBit] in *.
      + rewrite wrapUnsigned_small by lia. rewrite Hfinal. reflexivity.
      + rewrite Hfinal, Z.add_0_r. reflexivity. }
  split; [exact Hid|]. split; [exact Hcalls|]. split; [exact Hwalks|].
  split; [exact Howners|]. split; [lia | exact Hsplits].
Qed.

Lemma holdsBit_true bit (value : SILValue) (range : TypeTreeLeafTypeRange) :
  holdsBit bit (value, range) = true
  <-> startEltOffset range <= Z.of_nat bit < endEltOffset range.
Proof. unfold holdsBit. cbn [snd]. apply contains_true. Qed.

(** A pair of the worklist whose needed elements are neither none nor all
    of its range: the run of [constructFilteredProjections] on it. *)
Lemma partial_pair_step (rootValue : SILValue) (strict : bool)
    (neededElements : list bool) (value : SILValue) (range : TypeTreeLeafTypeRange)
    (nextID : nat) :
  TypeSubElementCount (getType rootValue) = Z.of_nat (length neededElements) ->
  (valueID rootValue < nextID)%nat ->
  pairOfRoot rootValue strict neededElements (value, range) ->
  noneSet neededElements (startEltOffset range) (endEltOffset range) = false ->
  allSet neededElements (startEltOffset range) (endEltOffset range) = false ->
  exists calls nextID',
    constructFilteredProjections range value nextID neededElements
    = Some (mkFiltered calls nextID' true)
    /\ (nextID <= nextID')%nat
    /\ Forall (pairOfRoot rootValue strict neededElements) calls
    /\ (pairsNodes calls < typeNodes (getType value))%nat
    /\ (forall bit,
          (owners bit calls <= if holdsBit bit (value, range) then 1 else 0)%nat)
    /\ (strict = true ->
        forall bit,
          testBit neededElements bit = true ->
          holdsBit bit (value, range) = true ->
          owners bit calls = 1%nat).
Proof.
  intros Hsize Hfresh (Hs & Hend & Hle & Hwalk & Hsplit) Hnone Hall.
  pose proof (TypeSubElementCount_range (getType rootValue)) as Hroot.
  apply noneSet_false in Hnone as (needed & Hneeded & Hset); [|exact Hs].
  apply allSet_false in Hall as (clear & Hclear & Hunset); [|exact Hs].
  assert (Hwide : 2 <= TypeSubElementCount (getType value)).
  { assert (needed <> clear) by congruence. lia. }
  assert (Hfields : exists createElementAddr fields extraBit,
             FieldsOf (getType value) createElementAddr fields extraBit
             /\ TypeSubElementCount (getType value) = fieldCountSum fields + extraBit
             /\ SplitsFields strict neededElements fields (startEltOffset range)
             /\ (strict = true -> extraBit = 1 ->
                 testBit neededElements
                   (Z.to_nat (startEltOffset range + fieldCountSum fields)) = false)).
  { remember (getType value) as valueType eqn:Htype.
    destruct Hsplit as [type start Hn | type start Ha
                        | elementTypes start Hfit Hsub
                        | withDeinit storedProperties start Hfit Hdeinit Hsub].
    - exfalso. rewrite <- Hend in Hn.
      pose proof (proj1 (noneSet_true _ _ _ Hs) Hn needed Hneeded). congruence.
    - exfalso. rewrite <- Hend in Ha.
      pose proof (proj1 (allSet_true _ _ _ Hs) Ha clear Hclear). congruence.
    - exists TupleElementAddrInst, elementTypes, 0.
      split; [constructor|]. split.
      + rewrite tuple_count_eq by exact Hfit. lia.
      + split; [exact Hsub | intros; lia].
    - exists StructElementAddrInst, storedProperties, (deinitBit withDeinit).
      split; [constructor|]. split.
      + rewrite struct_count_eq in Hwide |- * by exact Hfit. lia.
      + split; [exact Hsub|]. intros Hstrict Hbit. apply Hdeinit; [exact Hstrict|].
        destruct withDeinit; [reflexivity | discriminate]. }
  destruct Hfields as (createElementAddr & fields & extraBit & Hfields & Hcount & Hsub
                       & Hdeinit).
  pose proof (fieldCountSum_nonneg fields) as Hsum.
  assert (Hextra : 0 <= extraBit <= 1).
  { destruct Hfields as [|? withDeinit ?]; [lia | destruct withDeinit; cbn; lia]. }
  destruct (constructFilteredProjections_run createElementAddr fields extraBit range
              value rootValue nextID neededElements strict (startEltOffset range)
              Hfields Hs Hs ltac:(lia) ltac:(lia) Hwalk Hfresh)
    as (calls & nextID' & Hrun & Hid & Hcalls & Hwalks & Howners & Hnodes & Hsplits).
  exists calls, nextID'.
  split.
  { rewrite Hrun. do 2 f_equal. apply Z.eqb_eq. lia. }
  split; [exact Hid|].
  split.
  { specialize (Hsplits neededElements Hsub).
    rewrite List.Forall_forall in Hcalls, Hwalks, Hsplits |- *.
    intros [newValue newRange] Hin.
    destruct (Hcalls _ Hin) as (fi & ft & id & Hnth & _ & Hvalue & _ & Hstart & Hnewend & _).
    specialize (Hwalks _ Hin). specialize (Hsplits _ Hin).
    cbn [fst snd] in *. subst newValue. cbn [getType] in *.
    pose proof (fieldCountSum_prefix fields fi ft Hnth) as (Hprefix & Hbound).
    pose proof (fieldCountSum_nonneg (firstn fi fields)) as Hfirst.
    pose proof (TypeSubElementCount_range ft) as Hft.
    unfold pairOfRoot.
    split; [lia|]. split; [exact Hnewend|]. split; [lia|].
    split; [|exact Hsplits].
    intros offset Ho Hofit. rewrite Hwalks by lia. f_equal. lia. }
  split; [exact Hnodes|].
  split.
  { intros bit. destruct (Howners bit) as (H1 & H2 & _).
    destruct (holdsBit bit (value, range)) eqn:Hholds; [exact H1|].
    destruct (owners bit calls) as [|[|n]]; [lia | | lia].
    exfalso. specialize (H2 eq_refl).
    apply not_true_iff_false in Hholds. apply Hholds, holdsBit_true. lia. }
  intros Hstrict bit Hbit Hholds. apply holdsBit_true in Hholds.
  destruct (Howners bit) as (_ & _ & H3). apply H3; [|exact Hbit].
  destruct (Z.lt_ge_cases (Z.of_nat bit) (startEltOffset range + fieldCountSum fields))
    as [Hlt|Hge]; [lia|].
  assert (Hone : extraBit = 1) by lia.
  specialize (Hdeinit Hstrict Hone).
  assert (Hsame : Z.to_nat (startEltOffset range + fieldCountSum fields) = bit) by lia.
  rewrite Hsame in Hdeinit. congruence.
Qed.

(** The loop of [constructProjectionsForNeededElements], from a worklist of
    pairs of the root whose ranges, with those of the results so far, are
    disjoint: the fuel of the nodes of the worklist is enough. *)
Lemma constructProjectionsLoop_spec (rootValue : SILValue) (strict : bool)
    (neededElements : list bool) :
  TypeSubElementCount (getType rootValue) = Z.of_nat (length neededElements) ->
  forall fuel worklist nextID results,
    (pairsNodes worklist < fuel)%nat ->
    (valueID rootValue < nextID)%nat ->
    Forall (pairOfRoot rootValue strict neededElements) worklist ->
    Forall (neededProjection rootValue neededElements) results ->
    (forall bit, (owners bit worklist + owners bit results <= 1)%nat) ->
    exists results' nextID',
      constructProjectionsLoop fuel neededElements worklist nextID results true
      = Some (results', nextID', true)
      /\ (nextID <= nextID')%nat
      /\ Forall (neededProjection rootValue neededElements) results'
      /\ (forall bit, (owners bit results' <= 1)%nat)
      /\ (strict = true ->
          forall bit,
            testBit neededElements bit = true ->
            (owners bit worklist + owners bit results = 1)%nat ->
            owners bit results' = 1%nat)
      /\ (forall bit,
            (owners bit results' <= owners bit worklist + owners bit results)%nat).
Proof.
  intros Hsize.
  induction fuel as [|fuel IH]; intros worklist nextID results Hfuel Hfresh Hwork Hres Hdisj;
    [lia|].
  destruct worklist as [|[value range] worklist].
  - cbn [constructProjectionsLoop]. exists results, nextID.
    split; [reflexivity|]. split; [lia|]. split; [exact Hres|].
    split; [intros bit; specialize (Hdisj bit); change (owners bit []) with 0%nat in Hdisj;
            lia|].
    split; [intros _ bit _ Hone; change (owners bit []) with 0%nat in Hone; lia|].
    intros bit. lia.
  - cbn [constructProjectionsLoop].
    apply List.Forall_cons_iff in Hwork as (Hpair & Hwork).
    pose proof Hpair as (Hs & Hend & Hle & Hwalk & Hsplit).
    pose proof (typeNodes_positive (getType value)) as Hpos.
    pose proof (TypeSubElementCount_range (getType rootValue)) as Hroot.
    pose proof (TypeSubElementCount_range (getType value)) as Hcount.
    assert (Hnodes : pairsNodes ((value, range) :: worklist)
                     = (typeNodes (getType value) + pairsNodes worklist)%nat)
      by reflexivity.
    rewrite noBitSet_tmp by lia. rewrite allInRange_tmp by exact Hs.
    destruct (noneSet neededElements (startEltOffset range) (endEltOffset range))
      eqn:Hnone.
    + (* no needed element in the range *)
      destruct (IH worklist nextID results ltac:(lia) Hfresh Hwork Hres) as
        (results' & nextID' & Hrun & Hid & Hall & Hone & Hcover & Hbound).
      { intros bit. specialize (Hdisj bit). rewrite owners_cons in Hdisj. lia. }
      exists results', nextID'. split; [exact Hrun|]. split; [exact Hid|].
      split; [exact Hall|]. split; [exact Hone|].
      split; [|intros bit; specialize (Hbound bit); rewrite owners_cons; lia].
      intros Hstrict bit Hbit Hsum. apply (Hcover Hstrict bit Hbit).
      rewrite owners_cons in Hsum.
      destruct (holdsBit bit (value, range)) eqn:Hholds; [|exact Hsum].
      apply holdsBit_true in Hholds.
      pose proof (proj1 (noneSet_true _ _ _ Hs) Hnone bit Hholds). congruence.
    + destruct (allSet neededElements (startEltOffset range) (endEltOffset range))
        eqn:Hallset.
      * (* every element of the range is needed: a result *)
        destruct (IH worklist nextID (results ++ [(value, range)]) ltac:(lia) Hfresh Hwork)
          as (results' & nextID' & Hrun & Hid & Hall & Hone & Hcover & Hbound).
        { apply Forall_app. split; [exact Hres|]. constructor; [|constructor].
          apply noneSet_false in Hnone as (needed & Hneeded & _); [|exact Hs].
          unfold neededProjection.
          split; [lia|]. split; [exact Hle|]. split; [exact Hend|].
          split.
          - unfold computeForAddress. rewrite Hwalk by lia. reflexivity.
          - intros bit Hbit. apply contains_true in Hbit.
            apply (proj1 (allSet_true _ _ _ Hs) Hallset bit Hbit). }
        { intros bit. specialize (Hdisj bit).
          rewrite owners_cons in Hdisj. rewrite owners_app, owners_cons.
          change (owners bit []) with 0%nat. lia. }
        exists results', nextID'. split; [exact Hrun|]. split; [exact Hid|].
        split; [exact Hall|]. split; [exact Hone|].
        split.
        { intros Hstrict bit Hbit Hsum. apply (Hcover Hstrict bit Hbit).
          rewrite owners_cons in Hsum. rewrite owners_app, owners_cons.
          change (owners bit []) with 0%nat. lia. }
        intros bit. specialize (Hbound bit).
        rewrite owners_app, owners_cons in Hbound.
        change (owners bit []) with 0%nat in Hbound. rewrite owners_cons. lia.
      * (* some elements of the range are needed: the fields *)
        destruct (partial_pair_step rootValue strict neededElements value range nextID
                    Hsize Hfresh Hpair Hnone Hallset)
          as (calls & mid & Hstep & Hmid & Hcalls & Hsmaller & Hbelow & Hexact).
        rewrite Hstep. cbn [filteredCalls builderAfter assertionsHeld andb].
        destruct (IH (rev calls ++ worklist) mid results) as
          (results' & nextID' & Hrun & Hid & Hall & Hone & Hcover & Hbound).
        { rewrite pairsNodes_app, pairsNodes_rev. lia. }
        { lia. }
        { apply Forall_app. split; [apply Forall_rev, Hcalls | exact Hwork]. }
        { exact Hres. }
        { intros bit. specialize (Hdisj bit). specialize (Hbelow bit).
          rewrite owners_cons in Hdisj. rewrite owners_app, owners_rev. lia. }
        exists results', nextID'. split; [exact Hrun|]. split; [lia|].
        split; [exact Hall|]. split; [exact Hone|].
        split.
        { intros Hstrict bit Hbit Hsum. apply (Hcover Hstrict bit Hbit).
          specialize (Hbelow bit). specialize (Hexact Hstrict bit Hbit).
          rewrite owners_cons in Hsum. rewrite owners_app, owners_rev.
          destruct (holdsBit bit (value, range)) eqn:Hholds.
          - rewrite (Hexact eq_refl). lia.
          - lia. }
        intros bit. specialize (Hbound bit). specialize (Hbelow bit).
        rewrite owners_app, owners_rev in Hbound. rewrite owners_cons. lia.
Qed.

Lemma owners_positive bit pairs :
  (0 < owners bit pairs)%nat ->
  exists pair, In pair pairs /\ holdsBit bit pair = true.
Proof.
  induction pairs as [|pair pairs IH]; [cbn; lia|].
  rewrite owners_cons. destruct (holdsBit bit pair) eqn:Hholds.
  - intros _. exists pair. split; [left; reflexivity | exact Hholds].
  - intros Hpos. destruct (IH ltac:(lia)) as (other & Hin & Hother).
    exists other. split; [right; exact Hin | exact Hother].
Qed.

(** The run of [constructProjectionsForNeededElements] on needed elements
    that split along the type tree of the root. *)
Lemma constructProjectionsForNeededElements_run (rootValue : SILValue) (strict : bool)
    (nextID : nat) (neededElements : list bool) :
  (valueID rootValue < nextID)%nat ->
  TypeSubElementCount (getType rootValue) = Z.of_nat (length neededElements) ->
  Splits strict neededElements (getType rootValue) 0 ->
  exists results nextID',
    constructProjectionsForNeededElements rootValue nextID neededElements
    = Some (results, nextID', true)
    /\ (nextID <= nextID')%nat
    /\ Forall (neededProjection rootValue neededElements) results
    /\ (forall bit, (owners bit results <= 1)%nat)
    /\ (strict = true ->
        forall bit, testBit neededElements bit = true -> owners bit results = 1%nat).
Proof.
  intros Hfresh Hsize Hsplit.
  pose proof (TypeSubElementCount_range (getType rootValue)) as Hroot.
  unfold constructProjectionsForNeededElements, rangeOfRoot.
  cbn [startEltOffset endEltOffset].
  assert (Hassert : (TypeSubElementCount (getType rootValue) - 0
                     =? Z.of_nat (length neededElements)) = true)
    by (apply Z.eqb_eq; lia).
  rewrite Hassert.
  destruct (constructProjectionsLoop_spec rootValue strict neededElements Hsize
              (S (2 * typeNodes (getType rootValue)))
              [(rootValue, mkRange 0 (TypeSubElementCount (getType rootValue)))]
              nextID [])
    as (results & nextID' & Hrun & Hid & Hall & Hone & Hcover & _).
  - unfold pairsNodes. cbn [fold_right fst]. lia.
  - exact Hfresh.
  - constructor; [|constructor]. unfold pairOfRoot. cbn [startEltOffset endEltOffset].
    split; [lia|]. split; [lia|]. split; [lia|]. split; [|exact Hsplit].
    intros offset _ _. rewrite computeForAddressFrom_root, Z.add_0_r. reflexivity.
  - constructor.
  - intros bit. rewrite owners_cons. change (owners bit []) with 0%nat.
    destruct (holdsBit bit _); lia.
  - exists results, nextID'. split; [exact Hrun|]. split; [exact Hid|].
    split; [exact Hall|]. split; [exact Hone|].
    intros Hstrict bit Hbit. apply (Hcover Hstrict bit Hbit).
    rewrite owners_cons. change (owners bit []) with 0%nat.
    assert (Hholds : holdsBit bit
                       (rootValue, mkRange 0 (TypeSubElementCount (getType rootValue)))
                     = true).
    { apply holdsBit_true. cbn [startEltOffset endEltOffset].
      destruct (Nat.lt_ge_cases bit (length neededElements)) as [Hlt|Hge]; [lia|].
      rewrite (testBit_beyond neededElements bit Hge) in Hbit. discriminate. }
    rewrite Hholds. reflexivity.
Qed.

(** X12: [constructFilteredProjections] on a value of tuple or struct type,
    with a range that starts at [startEltOffset]: it returns; the condition
    of its [assert] holds exactly when the range ends after the fields (and
    the bit of the deinit); every call of the callback passes a new
    projection of a field that has a bit set in the filter, together with
    the range of that field; [computeForAddress] from the new projection to
    the value gives back the start of that range, relative to the start of
    the value's range; no bit is in two of the ranges, and every bit of the
    fields that is set in the filter is in one. *)
Theorem constructFilteredProjections_fields
    (range : TypeTreeLeafTypeRange) (value : SILValue) (nextID : nat)
    (filterBitVector : list bool)
    (createElementAddr : nat -> ProjectionKind) (fields : list SILType) (extraBit : Z) :
  FieldsOf (getType value) createElementAddr fields extraBit ->
  0 <= startEltOffset range ->
  startEltOffset range + fieldCountSum fields + extraBit < UnsignedModulus ->
  (valueID value < nextID)%nat ->
  exists filtered,
    constructFilteredProjections range value nextID filterBitVector = Some filtered
    /\ assertionsHeld filtered
       = (startEltOffset range + fieldCountSum fields + extraBit =? endEltOffset range)
    /\ Forall (fun call =>
                 filteredCall createElementAddr value fields filterBitVector
                   (startEltOffset range) 0 nextID (builderAfter filtered) call
                 /\ computeForAddress call.1 value
                    = Some (startEltOffset call.2 - startEltOffset range))
              (filteredCalls filtered)
    /\ forall bit,
         (owners bit (filteredCalls filtered) <= 1)%nat
         /\ (startEltOffset range <= Z.of_nat bit
             < startEltOffset range + fieldCountSum fields ->
             testBit filterBitVector bit = true ->
             owners bit (filteredCalls filtered) = 1%nat).
Proof.
  intros Hfields Hs Hfit Hfresh.
  pose proof (fieldCountSum_nonneg fields) as Hsum.
  assert (Hextra : 0 <= extraBit <= 1).
  { destruct Hfields as [|? withDeinit ?]; [lia | destruct withDeinit; cbn; lia]. }
  destruct (constructFilteredProjections_run createElementAddr fields extraBit range
              value value nextID filterBitVector false 0
              Hfields Hs ltac:(lia) Hfit ltac:(lia))
    as (calls & nextID' & Hrun & Hid & Hcalls & Hwalks & Howners & _ & _).
  { intros offset _ _. rewrite computeForAddressFrom_root, Z.add_0_r. reflexivity. }
  { exact Hfresh. }
  exists (mkFiltered calls nextID'
            (startEltOffset range + fieldCountSum fields + extraBit =? endEltOffset range)).
  cbn [filteredCalls builderAfter assertionsHeld].
  split; [exact Hrun|]. split; [reflexivity|].
  split.
  - rewrite List.Forall_forall in Hcalls, Hwalks |- *. intros call Hin.
    split; [exact (Hcalls call Hin)|].
    destruct (Hcalls call Hin) as (fi & ft & id & Hnth & _ & _ & _ & Hstart & _).
    pose proof (fieldCountSum_prefix fields fi ft Hnth) as (Hprefix & Hbound).
    pose proof (fieldCountSum_nonneg (firstn fi fields)) as Hfirst.
    pose proof (TypeSubElementCount_range ft) as Hft.
    unfold computeForAddress. rewrite (Hwalks call Hin) by lia. reflexivity.
  - intros bit. destruct (Howners bit) as (H1 & _ & H3). split; [exact H1 | exact H3].
Qed.

Lemma constructFilteredProjections_fields_witness :
  exists filtered,
    constructFilteredProjections (mkRange 0 3) nestedPairRoot 1
      [true; false; true] = Some filtered
    /\ assertionsHeld filtered = true
    /\ length (filteredCalls filtered) = 2%nat
    /\ owners 2 (filteredCalls filtered) = 1%nat.
Proof.
  destruct (constructFilteredProjections_fields (mkRange 0 3) nestedPairRoot 1
              [true; false; true] StructElementAddrInst
              [TupleType [OtherType; OtherType]; OtherType] 0)
    as (filtered & Hrun & Hassert & _ & _).
  - exact (FieldsOf_struct false false [TupleType [OtherType; OtherType]; OtherType]).
  - cbn. lia.
  - vm_compute. reflexivity.
  - cbn. lia.
  - exists filtered. split; [exact Hrun|].
    vm_compute in Hrun. injection Hrun as <-.
    split; [reflexivity|]. split; reflexivity.
Defined.

(** X13: [constructProjectionsForNeededElements], when the needed elements
    split along the type tree of the root (at every type, all of its bits
    are needed, or none, or it is a tuple or a fully referenceable struct
    whose fields split): it returns, the conditions of all the [assert]s
    on the way hold, and every resulting pair is a value with its own
    range: the range is not empty and lies within the root's, it starts at
    the offset [computeForAddress] finds for the value from the root and
    spans the sub-elements of the value's type, and all of its elements are
    needed.  No element is in two resulting ranges. *)
Theorem needed_projections_sound (rootValue : SILValue) (nextID : nat)
    (neededElements : list bool) :
  (valueID rootValue < nextID)%nat ->
  TypeSubElementCount (getType rootValue) = Z.of_nat (length neededElements) ->
  Splits false neededElements (getType rootValue) 0 ->
  exists results nextID',
    constructProjectionsForNeededElements rootValue nextID neededElements
    = Some (results, nextID', true)
    /\ Forall (neededProjection rootValue neededElements) results
    /\ forall bit, (owners bit results <= 1)%nat.
Proof.
  intros Hfresh Hsize Hsplit.
  destruct (constructProjectionsForNeededElements_run rootValue false nextID
              neededElements Hfresh Hsize Hsplit)
    as (results & nextID' & Hrun & _ & Hall & Hone & _).
  exists results, nextID'. split; [exact Hrun|]. split; [exact Hall | exact Hone].
Qed.

Lemma nestedPair_splits (strict : bool) :
  Splits strict [true; false; true] (getType nestedPairRoot) 0.
Proof.
  apply Splits_struct; [vm_compute; reflexivity | discriminate |].
  apply SplitsFields_cons.
  - apply Splits_tuple; [vm_compute; reflexivity|].
    apply SplitsFields_cons; [apply Splits_all; reflexivity|].
    apply SplitsFields_cons; [apply Splits_none; reflexivity|].
    apply SplitsFields_nil.
  - apply SplitsFields_cons; [apply Splits_all; reflexivity|].
    apply SplitsFields_nil.
Defined.

Lemma needed_projections_sound_witness :
  exists results nextID',
    constructProjectionsForNeededElements nestedPairRoot 1 [true; false; true]
    = Some (results, nextID', true)
    /\ Forall (neededProjection nestedPairRoot [true; false; true]) results
    /\ forall bit, (owners bit results <= 1)%nat.
Proof.
  apply (needed_projections_sound nestedPairRoot 1 [true; false; true]).
  - cbn. lia.
  - reflexivity.
  - exact (nestedPair_splits false).
Defined.

(** X14: the resulting ranges of [constructProjectionsForNeededElements]
    are exactly the needed elements, each once: when the needed elements
    split along the type tree of the root, and the bit of the deinit of a
    struct that is split is not needed, an element is in one resulting
    range if it is needed and in none if it is not. *)
Theorem needed_projections_partition (rootValue : SILValue) (nextID : nat)
    (neededElements : list bool) :
  (valueID rootValue < nextID)%nat ->
  TypeSubElementCount (getType rootValue) = Z.of_nat (length neededElements) ->
  Splits true neededElements (getType rootValue) 0 ->
  exists results nextID',
    constructProjectionsForNeededElements rootValue nextID neededElements
    = Some (results, nextID', true)
    /\ forall bit,
         owners bit results = if testBit neededElements bit then 1%nat else 0%nat.
Proof.
  intros Hfresh Hsize Hsplit.
  destruct (constructProjectionsForNeededElements_run rootValue true nextID
              neededElements Hfresh Hsize Hsplit)
    as (results & nextID' & Hrun & _ & Hall & Hone & Hcover).
  exists results, nextID'. split; [exact Hrun|].
  intros bit. destruct (testBit neededElements bit) eqn:Hbit.
  - apply (Hcover eq_refl bit Hbit).
  - destruct (owners bit results) as [|n] eqn:Hown; [reflexivity|].
    exfalso. destruct (owners_positive bit results ltac:(lia)) as ([value range] & Hin & Hholds).
    rewrite List.Forall_forall in Hall.
    destruct (Hall _ Hin) as (_ & _ & _ & _ & Hneeded).
    unfold holdsBit in Hholds. cbn [snd] in Hholds.
    rewrite (Hneeded bit Hholds) in Hbit. discriminate.
Qed.

Lemma needed_projections_partition_witness :
  exists results nextID',
    constructProjectionsForNeededElements nestedPairRoot 1 [true; false; true]
    = Some (results, nextID', true)
    /\ forall bit,
         owners bit results
         = if testBit [true; false; true] bit then 1%nat else 0%nat.
Proof.
  apply (needed_projections_partition nestedPairRoot 1 [true; false; true]).
  - cbn. lia.
  - reflexivity.
  - exact (nestedPair_splits true).
Defined.

Example constructProjectionsForNeededElements_nestedPair :
  constructProjectionsForNeededElements nestedPairRoot 1 [true; false; true]
  = Some ([ (Projection 2 OtherType (StructElementAddrInst 1) nestedPairRoot,
             mkRange 2 3);
            (Projection 3 OtherType (TupleElementAddrInst 0)
               (Projection 1 (TupleType [OtherType; OtherType]) (StructElementAddrInst 0)
                  nestedPairRoot),
             mkRange 0 1) ],
          4%nat, true).
Proof. vm_compute. reflexivity. Qed.

(** A pair of an enum at offset 0 with some but not all of its elements
    needed comes back on the worklist as it was. *)
Lemma partial_enum_loops (neededElements : list bool) (value : SILValue)
    (allElements : list (option SILType)) :
  getType value = EnumType allElements ->
  TypeSubElementCount (getType value) <= Z.of_nat (length neededElements) ->
  noneSet neededElements 0 (TypeSubElementCount (getType value)) = false ->
  allSet neededElements 0 (TypeSubElementCount (getType value)) = false ->
  forall fuel worklist nextID results assertions,
    constructProjectionsLoop fuel neededElements
      ((value, mkRange 0 (TypeSubElementCount (getType value))) :: worklist)
      nextID results assertions
    = None.
Proof.
  intros Htype Hsize Hnone Hall.
  induction fuel as [|fuel IH]; intros worklist nextID results assertions;
    [reflexivity|].
  cbn [constructProjectionsLoop].
  rewrite noBitSet_tmp by (cbn [startEltOffset endEltOffset]; lia).
  rewrite allInRange_tmp by (cbn [startEltOffset]; lia).
  cbn [startEltOffset endEltOffset]. rewrite Hnone, Hall.
  unfold constructFilteredProjections. rewrite Htype.
  cbn [filteredCalls builderAfter assertionsHeld rev app startEltOffset].
  rewrite Htype in IH. apply IH.
Qed.

(** X15: an enum of which some but not all elements are needed is not
    split: on an enum root with a needed and an unneeded element,
    [constructFilteredProjections] fails the condition of its [assert] and
    passes the enum value back with its whole range, so that the worklist
    of [constructProjectionsForNeededElements] gets the pair it just took
    off, and the loop does not end, however long it runs. *)
Theorem partially_needed_enum_does_not_return (rootValue : SILValue)
    (allElements : list (option SILType)) (nextID : nat) (neededElements : list bool) :
  getType rootValue = EnumType allElements ->
  TypeSubElementCount (getType rootValue) = Z.of_nat (length neededElements) ->
  (exists bit, testBit neededElements bit = true) ->
  (exists bit, (bit < length neededElements)%nat /\ testBit neededElements bit = false) ->
  constructFilteredProjections (rangeOfRoot rootValue) rootValue nextID neededElements
  = Some (mkFiltered [(rootValue, rangeOfRoot rootValue)] nextID false)
  /\ (forall fuel,
        constructProjectionsLoop fuel neededElements
          [(rootValue, rangeOfRoot rootValue)] nextID [] true = None)
  /\ constructProjectionsForNeededElements rootValue nextID neededElements = None.
Proof.
  intros Htype Hsize (needed & Hneeded) (clear & Hclear & Hunset).
  assert (Hnone : noneSet neededElements 0 (TypeSubElementCount (getType rootValue))
                  = false).
  { apply not_true_iff_false. intros Hn.
    pose proof (proj1 (noneSet_true _ _ _ (Z.le_refl 0)) Hn needed) as Hoff.
    destruct (Nat.lt_ge_cases needed (length neededElements)) as [Hlt|Hge].
    - rewrite Hoff in Hneeded by lia. discriminate.
    - rewrite (testBit_beyond neededElements needed Hge) in Hneeded. discriminate. }
  assert (Hall : allSet neededElements 0 (TypeSubElementCount (getType rootValue))
                 = false).
  { apply not_true_iff_false. intros Ha.
    pose proof (proj1 (allSet_true _ _ _ (Z.le_refl 0)) Ha clear ltac:(lia)). congruence. }
  split; [|split].
  - unfold constructFilteredProjections, rangeOfRoot. rewrite Htype.
    cbn [startEltOffset endEltOffset]. rewrite Htype in Hall.
    cbn [TypeSubElementCount] in Hall |- *. rewrite Hall. reflexivity.
  - intros fuel. unfold rangeOfRoot.
    apply (partial_enum_loops neededElements rootValue allElements Htype
             ltac:(lia) Hnone Hall).
  - unfold constructProjectionsForNeededElements, rangeOfRoot.
    apply (partial_enum_loops neededElements rootValue allElements Htype
             ltac:(lia) Hnone Hall).
Qed.

Lemma partially_needed_enum_does_not_return_witness :
  constructFilteredProjections (rangeOfRoot optionalValue) optionalValue 1 [true; false]
  = Some (mkFiltered [(optionalValue, rangeOfRoot optionalValue)] 1 false)
  /\ constructProjectionsForNeededElements optionalValue 1 [true; false] = None.
Proof.
  destruct (partially_needed_enum_does_not_return optionalValue
              [None; Some OtherType] 1 [true; false]) as (Hcall & _ & Hrun).
  - reflexivity.
  - reflexivity.
  - exists 0%nat. reflexivity.
  - exists 1%nat. split; [cbn; lia | reflexivity].
  - split; [exact Hcall | exact Hrun].
Defined.

(** X16: the bit of the deinit of a struct that is split gets no
    projection: on a root of a fully referenceable struct type with a
    deinit, when the needed elements split along the type tree and one of
    them is not needed, [constructProjectionsForNeededElements] returns and
    no resulting range holds the bit that follows the fields, needed or
    not. *)
Theorem split_struct_deinit_bit_has_no_projection (rootValue : SILValue)
    (storedProperties : list SILType) (nextID : nat) (neededElements : list bool) :
  (valueID rootValue < nextID)%nat ->
  getType rootValue = StructType false true storedProperties ->
  fieldCountSum storedProperties + 1 < UnsignedModulus ->
  TypeSubElementCount (getType rootValue) = Z.of_nat (length neededElements) ->
  Splits false neededElements (getType rootValue) 0 ->
  (exists bit, (bit < length neededElements)%nat /\ testBit neededElements bit = false) ->
  exists results nextID',
    constructProjectionsForNeededElements rootValue nextID neededElements
    = Some (results, nextID', true)
    /\ owners (Z.to_nat (fieldCountSum storedProperties)) results = 0%nat.
Proof.
  intros Hfresh Htype Hfit Hsize Hsplit (clear & Hclear & Hunset).
  pose proof (TypeSubElementCount_range (getType rootValue)) as Hroot.
  pose proof (typeNodes_positive (getType rootValue)) as Hpos.
  pose proof (fieldCountSum_nonneg storedProperties) as Hsum.
  unfold constructProjectionsForNeededElements, rangeOfRoot.
  cbn [startEltOffset endEltOffset].
  assert (Hassert : (TypeSubElementCount (getType rootValue) - 0
                     =? Z.of_nat (length neededElements)) = true)
    by (apply Z.eqb_eq; lia).
  rewrite Hassert.
  set (range := mkRange 0 (TypeSubElementCount (getType rootValue))).
  assert (Hpair : pairOfRoot rootValue false neededElements (rootValue, range)).
  { unfold pairOfRoot, range. cbn [startEltOffset endEltOffset].
    split; [lia|]. split; [lia|]. split; [lia|]. split; [|exact Hsplit].
    intros offset _ _. rewrite computeForAddressFrom_root, Z.add_0_r. reflexivity. }
  remember (2 * typeNodes (getType rootValue))%nat as fuel eqn:Hfuel.
  cbn [constructProjectionsLoop].
  rewrite noBitSet_tmp by (unfold range; cbn [startEltOffset endEltOffset]; lia).
  rewrite allInRange_tmp by (unfold range; cbn [startEltOffset]; lia).
  destruct (noneSet neededElements (startEltOffset range) (endEltOffset range)) eqn:Hnone.
  { exists [], nextID. destruct fuel as [|fuel]; [lia|]. split; reflexivity. }
  destruct (allSet neededElements (startEltOffset range) (endEltOffset range)) eqn:Hall.
  { exfalso.
    pose proof (proj1 (allSet_true _ _ _ (Z.le_refl 0)) Hall clear) as Hset.
    unfold range in Hset. cbn [endEltOffset] in Hset. rewrite Hset in Hunset by lia. discriminate. }
  destruct (partial_pair_step rootValue false neededElements rootValue range nextID
              Hsize Hfresh Hpair Hnone Hall)
    as (calls & mid & Hstep & Hmid & Hcalls & Hsmaller & _ & _).
  assert (Hfields : FieldsOf (getType rootValue) StructElementAddrInst storedProperties
                      (deinitBit true))
    by (rewrite Htype; constructor).
  destruct (constructFilteredProjections_run StructElementAddrInst storedProperties
              (deinitBit true) range rootValue rootValue nextID neededElements false 0
              Hfields (Z.le_refl 0) (Z.le_refl 0))
    as (calls' & mid' & Hstep' & _ & _ & _ & Howners & _).
  { unfold range. cbn [startEltOffset deinitBit]. lia. }
  { lia. }
  { intros offset _ _. rewrite computeForAddressFrom_root, Z.add_0_r. reflexivity. }
  { exact Hfresh. }
  rewrite Hstep in Hstep'. injection Hstep' as <- _ _.
  rewrite Hstep. cbn [filteredCalls builderAfter assertionsHeld andb].
  destruct (constructProjectionsLoop_spec rootValue false neededElements Hsize
              fuel (rev calls ++ []) mid [])
    as (results & nextID' & Hrun & _ & _ & _ & _ & Hbound).
  - rewrite pairsNodes_app, pairsNodes_rev. unfold pairsNodes at 2. cbn [fold_right]. lia.
  - lia.
  - rewrite app_nil_r. apply Forall_rev, Hcalls.
  - constructor.
  - intros bit. rewrite app_nil_r, owners_rev. change (owners bit []) with 0%nat.
    destruct (Howners bit) as (H1 & _). lia.
  - exists results, nextID'. split; [exact Hrun|].
    specialize (Hbound (Z.to_nat (fieldCountSum storedProperties))).
    rewrite app_nil_r, owners_rev in Hbound.
    change (owners _ []) with 0%nat in Hbound.
    destruct (Howners (Z.to_nat (fieldCountSum storedProperties))) as (H1 & H2 & _).
    destruct (owners (Z.to_nat (fieldCountSum storedProperties)) calls) as [|[|n]];
      [lia | | lia].
    specialize (H2 eq_refl). unfold range in H2. cbn [startEltOffset] in H2. lia.
Qed.

Lemma split_struct_deinit_bit_has_no_projection_witness :
  exists results nextID',
    constructProjectionsForNeededElements guardedPairRoot 1 [true; false; true]
    = Some (results, nextID', true)
    /\ owners 2 results = 0%nat.
Proof.
  apply (split_struct_deinit_bit_has_no_projection guardedPairRoot
           [OtherType; OtherType] 1 [true; false; true]).
  - cbn. lia.
  - reflexivity.
  - vm_compute. reflexivity.
  - reflexivity.
  - apply Splits_struct; [vm_compute; reflexivity | discriminate |].
    apply SplitsFields_cons; [apply Splits_all; reflexivity|].
    apply SplitsFields_cons; [apply Splits_none; reflexivity|].
    apply SplitsFields_nil.
  - exists 1%nat. split; [cbn; lia | reflexivity].
Defined.

(** ** The range and the bit-vector overloads of a use *)

Lemma filter_seq_interval (P : nat -> Prop) `{forall i, Decision (P i)}
    (s e : nat) :
  (forall i, P i <-> (s <= i < e)%nat) ->
  forall n a,
    filter P (seq a n)
    = seq (Nat.max a s) (Nat.min (a + n) e - Nat.max a s).
Proof.
  intros HP. induction n as [|n IH]; intros a.
  - cbn [seq]. replace (Nat.min (a + 0) e - Nat.max a s)%nat with 0%nat by lia.
    reflexivity.
  - cbn [seq]. destruct (decide (P a)) as [Hyes|Hno].
    + rewrite filter_cons_True by exact Hyes. rewrite IH.
      apply HP in Hyes.
      replace (Nat.max a s) with a by lia.
      replace (Nat.max (S a) s) with (S a) by lia.
      replace (Nat.min (a + S n) e - a)%nat
        with (S (Nat.min (S a + n) e - S a)) by lia.
      reflexivity.
    + rewrite filter_cons_False by exact Hno. rewrite IH.
      assert (Hout : (a < s \/ e <= a)%nat).
      { destruct (Nat.lt_ge_cases a s) as [Hlt|Hge]; [left; exact Hlt|].
        destruct (Nat.lt_ge_cases a e) as [Hlt'|Hge']; [|right; exact Hge'].
        exfalso. apply Hno, HP. lia. }
      destruct Hout as [Hlt|Hge].
      * replace (Nat.max (S a) s) with (Nat.max a s) by lia.
        replace (Nat.min (S a + n) e) with (Nat.min (a + S n) e) by lia.
        reflexivity.
      * replace (Nat.min (S a + n) e - Nat.max (S a) s)%nat with 0%nat by lia.
        replace (Nat.min (a + S n) e - Nat.max a s)%nat with 0%nat by lia.
        reflexivity.
Qed.

Lemma set_bits_rangeMask (size : nat) (range : TypeTreeLeafTypeRange) :
  0 <= startEltOffset range ->
  (Z.to_nat (endEltOffset range) <= size)%nat ->
  set_bits (rangeMask size range)
  = seq (Z.to_nat (startEltOffset range))
        (Z.to_nat (endEltOffset range) - Z.to_nat (startEltOffset range)).
Proof.
  intros Hs He. unfold set_bits.
  assert (Hlen : length (rangeMask size range) = size)
    by (unfold rangeMask; rewrite length_map, length_seq; reflexivity).
  rewrite Hlen.
  rewrite (filter_seq_interval _ (Z.to_nat (startEltOffset range))
             (Z.to_nat (endEltOffset range))).
  - f_equal; lia.
  - intros i. unfold rangeMask. rewrite testBit_map_seq.
    destruct (Nat.ltb_spec i size) as [Hlt|Hge].
    + rewrite andb_true_iff, Z.leb_le, Z.ltb_lt. lia.
    + split; [discriminate | lia].
Qed.

Lemma updateForUseSetBits_as_loop (F : SILFunction) (popFrom : PopOrder)
    (user : SILInstruction) (useBeforeDefBits : list bool)
    (live : FieldSensitivePrunedLiveBlocks) (bitNos : list nat) :
  LawfulPop popFrom ->
  predecessorsInFunction F ->
  (getParent F user < numBlocks F)%nat ->
  List.NoDup bitNos ->
  (forall bitNo, In bitNo bitNos -> (bitNo < numBitsToTrack live)%nat) ->
  forall current,
    liveBlocksSized current ->
    numBitsToTrack current = numBitsToTrack live ->
    (forall bitNo, In bitNo bitNos ->
                   getBlockLiveness current (getParent F user) bitNo
                   = getBlockLiveness live (getParent F user) bitNo) ->
    updateForUseSetBits F popFrom user useBeforeDefBits current bitNos
    = updateForUseLoop F popFrom (getParent F user) useBeforeDefBits current
        (combine bitNos (map (getBlockLiveness live (getParent F user)) bitNos)).
Proof.
  intros Hlawful Hpreds Hbb.
  induction bitNos as [|bitNo rest IH]; intros Hnodup Htracked current Hsized Hn Hsame;
    cbn [map combine updateForUseLoop updateForUseSetBits]; [reflexivity|].
  apply List.NoDup_cons_iff in Hnodup as [Hfresh Hnodup].
  assert (Hbit : (bitNo < numBitsToTrack current)%nat)
    by (rewrite Hn; apply Htracked; left; reflexivity).
  assert (Hstep : updateForUseOneBit F popFrom current user bitNo
                    (testBit useBeforeDefBits bitNo)
                  = updateForUseBit F popFrom (getParent F user) useBeforeDefBits current
                      bitNo (getBlockLiveness live (getParent F user) bitNo)).
  { unfold updateForUseOneBit, updateForUseBit. cbn zeta.
    rewrite (Hsame bitNo (or_introl eq_refl)). reflexivity. }
  rewrite Hstep.
  destruct (updateForUseBit F popFrom (getParent F user) useBeforeDefBits current bitNo
              (getBlockLiveness live (getParent F user) bitNo)) as [live1|] eqn:Hrun;
    [|reflexivity].
  assert (Hkept : liveBlocksSized live1
                  /\ numBitsToTrack live1 = numBitsToTrack current
                  /\ forall bb bit, bit <> bitNo ->
                                    getBlockLiveness live1 bb bit
                                    = getBlockLiveness current bb bit).
  { destruct (scalarUse_exact F popFrom current (getParent F user) bitNo
                Hlawful Hpreds Hbb Hsized Hbit)
      as (live2 & Hrun2 & Hs2 & Hn2 & Hframe2 & _).
    unfold updateForUseBit in Hrun.
    destruct (getBlockLiveness live (getParent F user) bitNo);
      [| destruct (negb (testBit useBeforeDefBits bitNo))
       | destruct (negb (testBit useBeforeDefBits bitNo))];
      first [ rewrite Hrun2 in Hrun; injection Hrun as <-;
              split; [exact Hs2|]; split; [exact Hn2 | exact Hframe2]
            | injection Hrun as <-;
              split; [exact Hsized|]; split; reflexivity ]. }
  destruct Hkept as (Hs1 & Hn1 & Hframe1).
  apply IH.
  - exact Hnodup.
  - intros k Hk. apply Htracked. right. exact Hk.
  - exact Hs1.
  - rewrite Hn1. exact Hn.
  - intros k Hk. rewrite Hframe1 by (intros ->; contradiction).
    apply Hsame. right. exact Hk.
Qed.

(** X17: the range and the bit-vector overloads of [updateForUse] and of
    [extendToNonUse] agree on the live blocks: called with the bits of a
    range, the bit-vector overload, which updates one bit after the other
    and reads the liveness of the use block at each, leaves the live blocks
    that the range overload leaves, which reads the liveness of all the
    bits before the first update. *)
Theorem range_and_bits_overloads_agree {Users : Type} (F : SILFunction)
    (popFrom : PopOrder) (ops : UserMapOps Users)
    (liveness : FieldSensitivePrunedLiveness Users) (user : SILInstruction)
    (range : TypeTreeLeafTypeRange) (lifetimeEnding : bool)
    (useBeforeDefBits : list bool) :
  LawfulPop popFrom ->
  predecessorsInFunction F ->
  (getParent F user < numBlocks F)%nat ->
  liveBlocksSized (liveBlocksOf liveness) ->
  0 <= startEltOffset range ->
  (Z.to_nat (endEltOffset range) <= numBitsToTrack (liveBlocksOf liveness))%nat ->
  let bits := rangeMask (numBitsToTrack (liveBlocksOf liveness)) range in
  option_map liveBlocksOf
    (runCall F popFrom ops liveness
       (UpdateForUseBits user bits lifetimeEnding useBeforeDefBits))
  = option_map liveBlocksOf
      (runCall F popFrom ops liveness
         (UpdateForUseRange user range lifetimeEnding useBeforeDefBits))
  /\ option_map liveBlocksOf
       (runCall F popFrom ops liveness (ExtendToNonUseBits user bits useBeforeDefBits))
     = option_map liveBlocksOf
         (runCall F popFrom ops liveness (ExtendToNonUseRange user range useBeforeDefBits)).
Proof.
  intros Hlawful Hpreds Hbb Hsized Hs He bits.
  assert (Hsame : updateForUseSetBits F popFrom user useBeforeDefBits
                    (liveBlocksOf liveness) (set_bits bits)
                  = updateForUse F popFrom (liveBlocksOf liveness) user
                      (Z.to_nat (startEltOffset range)) (Z.to_nat (endEltOffset range))
                      useBeforeDefBits).
  { unfold bits. rewrite set_bits_rangeMask by assumption.
    unfold updateForUse. cbn zeta.
    apply updateForUseSetBits_as_loop; try assumption.
    - apply seq_NoDup.
    - intros bitNo Hin. apply in_seq in Hin. lia.
    - reflexivity.
    - intros; reflexivity. }
  split; cbn [runCall]; rewrite Hsame;
    destruct (updateForUse F popFrom (liveBlocksOf liveness) user
                (Z.to_nat (startEltOffset range)) (Z.to_nat (endEltOffset range))
                useBeforeDefBits); reflexivity.
Qed.

Lemma range_and_bits_overloads_agree_witness :
  option_map liveBlocksOf
    (runCall straightLine popNewest noUserMap (mkLiveness entryDefined tt)
       (UpdateForUseBits 10 (rangeMask 1 (mkRange 0 1)) true [false]))
  = option_map liveBlocksOf
      (runCall straightLine popNewest noUserMap (mkLiveness entryDefined tt)
         (UpdateForUseRange 10 (mkRange 0 1) true [false])).
Proof.
  apply (range_and_bits_overloads_agree straightLine popNewest noUserMap
           (mkLiveness entryDefined tt) 10 (mkRange 0 1) true [false]).
  - apply popNewest_lawful.
  - apply straightLine_predecessors.
  - cbn. lia.
  - apply markBlockLive_sized, liveBlocksSized_empty.
  - cbn. lia.
  - vm_compute. lia.
Defined.

(** ** The whole boundary of the multi-definition variant *)

Lemma instructionsUpTo_unique (user : SILInstruction)
    (insts later earlier : list SILInstruction) :
  List.NoDup insts ->
  insts = later ++ user :: earlier ->
  instructionsUpTo user insts = later.
Proof.
  intros Hnodup Heq.
  assert (Hin : In user insts)
    by (rewrite Heq; apply in_or_app; right; left; reflexivity).
  destruct (instructionsUpTo_split user insts Hin) as (rest & Hsplit & _).
  eapply NoDup_split_unique; [|rewrite <- Hsplit; exact Heq].
  rewrite <- Hsplit. exact Hnodup.
Qed.

(** One call of the block search: the last users it adds are the
    interesting users of the bit in the block that are not within the
    boundary. *)
Lemma multiDef_call_lastUsers F live isInterestingUser defs block bitNo
    boundary boundary' :
  length defs <> 1%nat ->
  List.NoDup (getInstructions F block) ->
  (forall inst, In inst (getInstructions F block) -> getParent F inst = block) ->
  getBlockLiveness live block bitNo <> Dead ->
  MultiDefPrunedLiveRange.findBoundariesInBlock F live isInterestingUser defs
    block bitNo (bool_decide (getBlockLiveness live block bitNo = LiveOut)) boundary
  = Some boundary' ->
  forall user b,
    isLastUser boundary' user b
    <-> isLastUser boundary user b
        \/ (b = bitNo
            /\ In user (getInstructions F block)
            /\ isInteresting isInterestingUser user bitNo = true
            /\ isWithinBoundary (multiDefImpl F defs) F live isInterestingUser user
                 (mkRange (Z.of_nat bitNo) (Z.of_nat bitNo + 1)) = Some false).
Proof.
  intros Hdefs Hnodup Hparents Hlive Hfind user b.
  assert (Hnodup' : List.NoDup (rev (getInstructions F block)))
    by (apply NoDup_rev; exact Hnodup).
  assert (Hwithin : forall later earlier,
             rev (getInstructions F block) = later ++ user :: earlier ->
             isWithinBoundary (multiDefImpl F defs) F live isInterestingUser user
               (mkRange (Z.of_nat bitNo) (Z.of_nat bitNo + 1))
             = if negb (isDefBlock F defs block bitNo)
                  && bool_decide (getBlockLiveness live block bitNo = LiveOut)
               then Some true
               else Some (negb (isDef defs (InstructionNode user) bitNo)
                          && liveAfterScan (multiDefImpl F defs) isInterestingUser bitNo
                               (bool_decide (getBlockLiveness live block bitNo = LiveOut))
                               later)).
  { intros later earlier Heq.
    assert (Hin : In user (getInstructions F block)).
    { apply in_rev. rewrite Heq. apply in_or_app. right. left. reflexivity. }
    pose proof (Hparents user Hin) as Hparent.
    rewrite isWithinBoundary_one_bit by (rewrite Hparent; exact Hin).
    rewrite Hparent, (instructionsUpTo_unique user _ later earlier Hnodup' Heq).
    cbn [multiDefImpl implIsDef implIsDefBlock].
    destruct (getBlockLiveness live block bitNo); [congruence| |].
    - rewrite bool_decide_eq_false_2 by discriminate. rewrite andb_false_r. reflexivity.
    - rewrite bool_decide_eq_true_2 by reflexivity. rewrite andb_true_r.
      destruct (negb (isDefBlock F defs block bitNo)); reflexivity. }
  assert (Hsplit : In user (getInstructions F block) ->
                   exists later earlier,
                     rev (getInstructions F block) = later ++ user :: earlier).
  { intros Hin.
    assert (Hrev : In user (rev (getInstructions F block)))
      by (apply in_rev; rewrite rev_involutive; exact Hin).
    destruct (instructionsUpTo_split user _ Hrev) as (earlier & Heq & _).
    eauto. }
  unfold MultiDefPrunedLiveRange.findBoundariesInBlock in Hfind.
  destruct (isDefBlock F defs block bitNo) eqn:Hdb; cbn [negb andb] in Hfind, Hwithin.
  - (* a block with a definition: the backward scan *)
    pose proof (proj2 (scan_lastUsers defs isInterestingUser bitNo F
                         (rev (getInstructions F block)) boundary
                         (bool_decide (getBlockLiveness live block bitNo = LiveOut))))
      as Husers.
    cbn zeta in Husers. fold (scanBlockBackward F defs isInterestingUser block bitNo
                                (bool_decide (getBlockLiveness live block bitNo = LiveOut))
                                boundary) in Husers.
    assert (Hsame : forall u b,
               isLastUser boundary' u b
               <-> isLastUser
                     (scanBlockBackward F defs isInterestingUser block bitNo
                        (bool_decide (getBlockLiveness live block bitNo = LiveOut))
                        boundary).1 u b).
    { intros u b'. unfold isLastUser.
      destruct defs as [|d [|d2 ds]]; [|cbn in Hdefs; congruence|];
        destruct (scanBlockBackward _ _ _ _ _ _ _) as [boundary1 isLive];
        destruct isLive; cbn [negb] in Hfind; injection Hfind as <-; cbn [fst];
        rewrite ?(proj1 (markEntryEdge_lastUsers _ _ _ _ _)),
                ?markDeadArguments_lastUsers; reflexivity. }
    rewrite Hsame, Husers. apply or_iff_compat_l. split.
    + intros (-> & later & earlier & Heq & Hint & Hor).
      split; [reflexivity|]. split.
      { apply in_rev. rewrite Heq. apply in_or_app. right. left. reflexivity. }
      split; [exact Hint|]. rewrite (Hwithin later earlier Heq). f_equal.
      destruct Hor as [->| ->]; [reflexivity | apply andb_false_r].
    + intros (-> & Hin & Hint & Hw). split; [reflexivity|].
      destruct (Hsplit Hin) as (later & earlier & Heq).
      exists later, earlier. split; [exact Heq|]. split; [exact Hint|].
      rewrite (Hwithin later earlier Heq) in Hw. injection Hw as Hfalse.
      apply andb_false_iff in Hfalse as [Hd|Hl]; [left | right; exact Hl].
      apply negb_false_iff in Hd. exact Hd.
  - (* a block without a definition *)
    assert (Hnodef : forall inst, In inst (rev (getInstructions F block)) ->
                                  isDef defs (InstructionNode inst) bitNo = false).
    { intros inst Hi. apply (isDefBlock_false_isDef F defs block); [exact Hdb|].
      cbn [getParentBlock]. apply Hparents, in_rev. exact Hi. }
    destruct (getBlockLiveness live block bitNo) eqn:El; [congruence| |].
    + rewrite bool_decide_eq_false_2 in Hfind, Hwithin by discriminate.
      unfold findBoundaryInNonDefBlock in Hfind.
      destruct (lastInterestingUser isInterestingUser bitNo (rev (getInstructions F block)))
        as [lastUser|] eqn:Elast; [|discriminate].
      injection Hfind as <-. rewrite isLastUser_setLastUserBit.
      apply or_iff_compat_l. split.
      * intros [-> ->].
        apply lastInterestingUser_Some in Elast as (later & earlier & Heq & Hlast & Hnone).
        split; [reflexivity|]. split.
        { apply in_rev. rewrite Heq. apply in_or_app. right. left. reflexivity. }
        split; [exact Hlast|]. rewrite (Hwithin later earlier Heq).
        rewrite Hnodef by (rewrite Heq; apply in_or_app; right; left; reflexivity).
        cbn [negb andb]. f_equal.
        apply (proj2 (liveAfterScan_no_defs (multiDefImpl F defs) isInterestingUser
                        bitNo later
                        (fun i Hi => Hnodef i ltac:(rewrite Heq; apply in_or_app;
                                                     left; exact Hi)))).
        exact Hnone.
      * intros (-> & Hin & Hint & Hw). split; [|reflexivity].
        destruct (Hsplit Hin) as (later & earlier & Heq).
        rewrite (Hwithin later earlier Heq) in Hw.
        rewrite Hnodef in Hw
          by (rewrite Heq; apply in_or_app; right; left; reflexivity).
        cbn [negb andb] in Hw. injection Hw as Hfalse.
        pose proof (proj1 (liveAfterScan_no_defs (multiDefImpl F defs) isInterestingUser
                             bitNo later
                             (fun i Hi => Hnodef i ltac:(rewrite Heq; apply in_or_app;
                                                          left; exact Hi)))
                      Hfalse) as Hquiet.
        assert (Hlu : lastInterestingUser isInterestingUser bitNo
                        (rev (getInstructions F block)) = Some user).
        { apply lastInterestingUser_Some. exists later, earlier.
          split; [exact Heq|]. split; [exact Hint | exact Hquiet]. }
        congruence.
    + rewrite bool_decide_eq_true_2 in Hfind, Hwithin by reflexivity.
      injection Hfind as <-. split; [left; assumption|].
      intros [Hold|(-> & Hin & _ & Hw)]; [exact Hold|].
      destruct (Hsplit Hin) as (later & earlier & Heq).
      rewrite (Hwithin later earlier Heq) in Hw. discriminate.
Qed.

Section BoundaryLoops.
Variable F : SILFunction.
Variable live : FieldSensitivePrunedLiveBlocks.
Variable finder : BoundaryFinder.
Variable Fact : FieldSensitivePrunedLivenessBoundary -> Prop.
Variable blocks : list SILBasicBlock.
Hypothesis successors_keep :
  forall block index boundary,
    Fact boundary -> Fact (markDeadSuccessors F live block index boundary).
Hypothesis finder_keeps :
  forall block index (isLiveOut : bool) boundary boundary',
    In block blocks ->
    getBlockLiveness live block index = (if isLiveOut then LiveOut else LiveWithin) ->
    finder block index isLiveOut boundary = Some boundary' ->
    Fact boundary -> Fact boundary'.

Lemma computeBoundaryBits_keeps block indices :
  In block blocks ->
  forall boundary boundary',
    Fact boundary ->
    computeBoundaryBits F live finder block boundary indices = Some boundary' ->
    Fact boundary'.
Proof.
  intros Hblock. induction indices as [|index rest IH]; intros boundary boundary' Hfact Hrun;
    cbn [computeBoundaryBits] in Hrun.
  - injection Hrun as <-. exact Hfact.
  - destruct (computeBoundaryBit F live finder block boundary index)
      as [boundary1|] eqn:Ebit; [|discriminate].
    apply (IH boundary1 boundary'); [|exact Hrun].
    unfold computeBoundaryBit in Ebit.
    destruct (getBlockLiveness live block index) eqn:Elive.
    + injection Ebit as <-. exact Hfact.
    + exact (finder_keeps block index false boundary boundary1 Hblock Elive Ebit Hfact).
    + exact (finder_keeps block index true _ boundary1 Hblock Elive Ebit
               (successors_keep block index boundary Hfact)).
Qed.

Lemma computeBoundaryBits_reaches block index indices :
  In block blocks ->
  In index indices ->
  (forall boundary boundary',
      computeBoundaryBit F live finder block boundary index = Some boundary' ->
      Fact boundary') ->
  forall boundary boundary',
    computeBoundaryBits F live finder block boundary indices = Some boundary' ->
    Fact boundary'.
Proof.
  intros Hblock Hindex Hreach.
  induction indices as [|first rest IH]; intros boundary boundary' Hrun; [destruct Hindex|].
  cbn [computeBoundaryBits] in Hrun.
  destruct (computeBoundaryBit F live finder block boundary first)
    as [boundary1|] eqn:Ebit; [|discriminate].
  destruct (Nat.eq_dec first index) as [->|Hne].
  - apply (computeBoundaryBits_keeps block rest Hblock boundary1 boundary');
      [exact (Hreach boundary boundary1 Ebit) | exact Hrun].
  - destruct Hindex as [Heq|Hin]; [contradiction|].
    exact (IH Hin boundary1 boundary' Hrun).
Qed.

Lemma computeBoundaryBlocks_keeps (todo : list SILBasicBlock) :
  (forall block, In block todo -> In block blocks) ->
  forall boundary boundary',
    Fact boundary ->
    computeBoundaryBlocks F live finder boundary todo = Some boundary' ->
    Fact boundary'.
Proof.
  induction todo as [|block rest IH]; intros Hsub boundary boundary' Hfact Hrun;
    cbn [computeBoundaryBlocks] in Hrun.
  - injection Hrun as <-. exact Hfact.
  - destruct (computeBoundaryBits F live finder block boundary (seq 0 (numBitsToTrack live)))
      as [boundary1|] eqn:Ebits; [|discriminate].
    apply (IH (fun b Hb => Hsub b (or_intror Hb)) boundary1 boundary'); [|exact Hrun].
    exact (computeBoundaryBits_keeps block _ (Hsub block (or_introl eq_refl))
             boundary boundary1 Hfact Ebits).
Qed.

Lemma computeBoundaryBlocks_reaches block index (todo : list SILBasicBlock) :
  (forall block, In block todo -> In block blocks) ->
  In block todo ->
  (index < numBitsToTrack live)%nat ->
  (forall boundary boundary',
      computeBoundaryBit F live finder block boundary index = Some boundary' ->
      Fact boundary') ->
  forall boundary boundary',
    computeBoundaryBlocks F live finder boundary todo = Some boundary' ->
    Fact boundary'.
Proof.
  intros Hsub Hblock Hindex Hreach.
  induction todo as [|first rest IH]; intros boundary boundary' Hrun; [destruct Hblock|].
  cbn [computeBoundaryBlocks] in Hrun.
  destruct (computeBoundaryBits F live finder first boundary (seq 0 (numBitsToTrack live)))
    as [boundary1|] eqn:Ebits; [|discriminate].
  destruct (Nat.eq_dec first block) as [->|Hne].
  - apply (computeBoundaryBlocks_keeps rest (fun b Hb => Hsub b (or_intror Hb))
             boundary1 boundary'); [|exact Hrun].
    apply (computeBoundaryBits_reaches block index (seq 0 (numBitsToTrack live))
             (Hsub block (or_introl eq_refl))
             ltac:(apply in_seq; lia) Hreach boundary boundary1 Ebits).
  - destruct Hblock as [Heq|Hin]; [contradiction|].
    exact (IH (fun b Hb => Hsub b (or_intror Hb)) Hin boundary1 boundary' Hrun).
Qed.

End BoundaryLoops.

(** X18: the last users of the boundary are the interesting users that are
    not within it: in the multi-definition variant with no or several
    definitions, [computeBoundary], started on the empty boundary, records
    an instruction as a last user of a bit exactly when the instruction is
    an interesting user of the bit, in a discovered block that is live for
    the bit, for which [isWithinBoundary] answers false on the bit. *)
Theorem computeBoundary_last_users_exact (F : SILFunction)
    (live : FieldSensitivePrunedLiveBlocks) (isInterestingUser : UserOracle)
    (defs : DefList) (boundary' : FieldSensitivePrunedLivenessBoundary) :
  length defs <> 1%nat ->
  (forall block,
      In block (discoveredBlocks live) ->
      List.NoDup (getInstructions F block)
      /\ forall inst, In inst (getInstructions F block) -> getParent F inst = block) ->
  computeBoundary F live
    (MultiDefPrunedLiveRange.findBoundariesInBlock F live isInterestingUser defs)
    emptyBoundary
  = Some boundary' ->
  forall user b,
    isLastUser boundary' user b
    <-> (b < numBitsToTrack live)%nat
        /\ exists block,
             In block (discoveredBlocks live)
             /\ In user (getInstructions F block)
             /\ getBlockLiveness live block b <> Dead
             /\ isInteresting isInterestingUser user b = true
             /\ isWithinBoundary (multiDefImpl F defs) F live isInterestingUser user
                  (mkRange (Z.of_nat b) (Z.of_nat b + 1)) = Some false.
Proof.
  intros Hdefs Hblocks Hrun user b.
  assert (Hcall : forall block index (isLiveOut : bool) boundary boundary1,
             In block (discoveredBlocks live) ->
             getBlockLiveness live block index = (if isLiveOut then LiveOut else LiveWithin) ->
             MultiDefPrunedLiveRange.findBoundariesInBlock F live isInterestingUser defs
               block index isLiveOut boundary = Some boundary1 ->
             forall user b,
               isLastUser boundary1 user b
               <-> isLastUser boundary user b
                   \/ (b = index
                       /\ In user (getInstructions F block)
                       /\ isInteresting isInterestingUser user index = true
                       /\ isWithinBoundary (multiDefImpl F defs) F live isInterestingUser
                            user (mkRange (Z.of_nat index) (Z.of_nat index + 1))
                          = Some false)).
  { intros block index isLiveOut boundary boundary1 Hblock Hlive Hfind.
    destruct (Hblocks block Hblock) as [Hnodup Hparents].
    apply (multiDef_call_lastUsers F live isInterestingUser defs block index
             boundary boundary1 Hdefs Hnodup Hparents).
    - rewrite Hlive. destruct isLiveOut; discriminate.
    - rewrite Hlive. destruct isLiveOut; exact Hfind. }
  split.
  - revert user b.
    refine (computeBoundary_invariant F live _
              (fun boundary =>
                 forall user b,
                   isLastUser boundary user b ->
                   (b < numBitsToTrack live)%nat
                   /\ exists block,
                        In block (discoveredBlocks live)
                        /\ In user (getInstructions F block)
                        /\ getBlockLiveness live block b <> Dead
                        /\ isInteresting isInterestingUser user b = true
                        /\ isWithinBoundary (multiDefImpl F defs) F live isInterestingUser
                             user (mkRange (Z.of_nat b) (Z.of_nat b + 1)) = Some false)
              _ _ emptyBoundary boundary' _ Hrun).
    + intros block index boundary Hold user b.
      unfold isLastUser.
      rewrite (proj1 (markDeadSuccessors_users F live block index boundary)).
      apply Hold.
    + intros block index isLiveOut boundary boundary1 Hblock Hindex Hlive Hold Hfind
             user b Hlast.
      apply (Hcall block index isLiveOut boundary boundary1 Hblock Hlive Hfind) in Hlast
        as [Hlast|(-> & Hin & Hint & Hwithin)]; [exact (Hold user b Hlast)|].
      split; [exact Hindex|]. exists block.
      split; [exact Hblock|]. split; [exact Hin|].
      split; [rewrite Hlive; destruct isLiveOut; discriminate|].
      split; [exact Hint | exact Hwithin].
    + intros u k H. destruct (isLastUser_emptyBoundary _ _ H).
  - intros (Hindex & block & Hblock & Hin & Hlive & Hint & Hwithin).
    unfold computeBoundary in Hrun.
    apply (computeBoundaryBlocks_reaches F live
             (MultiDefPrunedLiveRange.findBoundariesInBlock F live isInterestingUser defs)
             (fun boundary => isLastUser boundary user b)
             (discoveredBlocks live)) with (block := block) (index := b)
             (todo := discoveredBlocks live) (boundary := emptyBoundary);
      try assumption.
    + intros blk idx boundary Hold. unfold isLastUser.
      rewrite (proj1 (markDeadSuccessors_users F live blk idx boundary)). exact Hold.
    + intros blk idx isLiveOut boundary boundary1 Hblk Hl Hfind Hold.
      apply (Hcall blk idx isLiveOut boundary boundary1 Hblk Hl Hfind). left. exact Hold.
    + intros blk Hblk. exact Hblk.
    + intros boundary boundary1 Hbit. unfold computeBoundaryBit in Hbit.
      destruct (getBlockLiveness live block b) eqn:El; [congruence| |].
      * apply (Hcall block b false boundary boundary1 Hblock El Hbit). right. auto.
      * apply (Hcall block b true _ boundary1 Hblock El Hbit). right. auto.
Qed.

Lemma computeBoundary_last_users_exact_witness :
  exists boundary',
    computeBoundary branching redefiningLive
      (MultiDefPrunedLiveRange.findBoundariesInBlock branching redefiningLive
         redefiningUsers redefiningDefs)
      emptyBoundary
    = Some boundary'
    /\ (isLastUser boundary' 10 0
        <-> (0 < numBitsToTrack redefiningLive)%nat
            /\ exists block,
                 In block (discoveredBlocks redefiningLive)
                 /\ In 10%nat (getInstructions branching block)
                 /\ getBlockLiveness redefiningLive block 0 <> Dead
                 /\ isInteresting redefiningUsers 10 0 = true
                 /\ isWithinBoundary (multiDefImpl branching redefiningDefs) branching
                      redefiningLive redefiningUsers 10
                      (mkRange (Z.of_nat 0) (Z.of_nat 0 + 1)) = Some false).
Proof.
  assert (Hr : is_Some
                 (computeBoundary branching redefiningLive
                    (MultiDefPrunedLiveRange.findBoundariesInBlock branching
                       redefiningLive redefiningUsers redefiningDefs)
                    emptyBoundary))
    by (vm_compute; eauto).
  destruct Hr as [boundary' Hr]. exists boundary'. split; [exact Hr|].
  apply (computeBoundary_last_users_exact branching redefiningLive redefiningUsers
           redefiningDefs boundary').
  - cbn. lia.
  - intros block Hblock.
    assert (Hcases : block = 0%nat \/ block = 1%nat \/ block = 2%nat).
    { vm_compute in Hblock. intuition lia. }
    destruct Hcases as [->|[->| ->]]; cbn; split;
      try (repeat constructor; cbn; intuition lia);
      intros inst Hin; cbn in Hin; intuition (subst; reflexivity).
  - exact Hr.
Defined.

(** One call of the block search: the dead definitions it adds are the
    definition points of the bit in the block at which the bit is dead. *)
Lemma multiDef_call_deadDefs F live isInterestingUser defs block bitNo isLiveOut
    boundary boundary' :
  length defs <> 1%nat ->
  List.NoDup (getInstructions F block) ->
  MultiDefPrunedLiveRange.findBoundariesInBlock F live isInterestingUser defs
    block bitNo isLiveOut boundary = Some boundary' ->
  forall node b,
    isDeadDef boundary' node b
    <-> isDeadDef boundary node b
        \/ (b = bitNo
            /\ isDefBlock F defs block bitNo = true
            /\ DeadDefinitionIn F defs isInterestingUser block bitNo isLiveOut node).
Proof.
  intros Hdefs Hnodup Hfind node b.
  unfold MultiDefPrunedLiveRange.findBoundariesInBlock in Hfind.
  destruct (isDefBlock F defs block bitNo) eqn:Hdb; cbn [negb] in Hfind.
  - (* a block with a definition: the backward scan *)
    pose proof (scan_lastUsers defs isInterestingUser bitNo F
                  (rev (getInstructions F block)) boundary isLiveOut) as Hscan.
    pose proof (scan_deadDefs defs isInterestingUser bitNo F
                  (rev (getInstructions F block)) boundary isLiveOut) as Hdead.
    cbn zeta in Hscan, Hdead. destruct Hscan as [Htop _].
    assert (Hafter : forall inst later earlier,
               rev (getInstructions F block) = later ++ inst :: earlier ->
               (liveAfterScan (multiDefImpl F defs) isInterestingUser bitNo isLiveOut later
                = false
                <-> ~ LiveAfter (multiDefImpl F defs) isInterestingUser bitNo isLiveOut
                        (instructionsAfterIn (getInstructions F block) inst))).
    { intros inst later earlier Heq.
      rewrite (instructionsAfterIn_split _ _ _ _ Hnodup Heq).
      rewrite <- liveAfterScan_LiveAfter. symmetry. apply not_true_iff_false. }
    assert (Hwhole : liveAfterScan (multiDefImpl F defs) isInterestingUser bitNo isLiveOut
                       (rev (getInstructions F block)) = false
                     <-> ~ LiveAfter (multiDefImpl F defs) isInterestingUser bitNo
                             isLiveOut (getInstructions F block)).
    { rewrite <- (rev_involutive (getInstructions F block)) at 2.
      rewrite <- liveAfterScan_LiveAfter. symmetry. apply not_true_iff_false. }
    assert (Hscanned : forall node b,
               isDeadDef
                 (fold_left (scanInstruction defs isInterestingUser bitNo)
                    (rev (getInstructions F block)) (boundary, isLiveOut)).1 node b
               <-> isDeadDef boundary node b
                   \/ (b = bitNo
                       /\ exists def,
                            node = InstructionNode def
                            /\ DeadDefinitionIn F defs isInterestingUser block bitNo
                                 isLiveOut node)).
    { intros n k. rewrite Hdead. apply or_iff_compat_l. split.
      - intros (-> & later & def & earlier & Heq & -> & Hd & Hl).
        split; [reflexivity|]. exists def. split; [reflexivity|].
        split; [exact Hd|]. split.
        + apply in_rev. rewrite Heq. apply in_or_app. right. left. reflexivity.
        + apply (Hafter _ _ _ Heq), Hl.
      - intros (-> & def & -> & Hd & Hin & Hl). split; [reflexivity|].
        destruct (instructionsAfterIn_exists _ _ Hin) as (earlier & Heq).
        exists (rev (instructionsAfterIn (getInstructions F block) def)), def, earlier.
        split; [exact Heq|]. split; [reflexivity|]. split; [exact Hd|].
        apply (Hafter _ _ _ Heq), Hl. }
    unfold scanBlockBackward in Hfind.
    destruct (fold_left (scanInstruction defs isInterestingUser bitNo)
                (rev (getInstructions F block)) (boundary, isLiveOut))
      as [boundary1 isLive] eqn:Efold.
    cbn [fst snd] in Htop, Hscanned.
    assert (Hresult : boundary'
                      = if negb isLive
                        then markEntryEdge F live block bitNo
                               (markDeadArguments F defs block bitNo boundary1)
                        else boundary1).
    { destruct defs as [|d [|d2 ds]]; [|cbn in Hdefs; congruence|];
        destruct isLive; cbn [negb] in Hfind |- *; congruence. }
    subst boundary'. destruct isLive; cbn [negb].
    + (* live at the top of the block: no dead argument *)
      rewrite Hscanned. apply or_iff_compat_l. split.
      * intros (-> & def & -> & Hd). auto.
      * intros (-> & _ & Hd). split; [reflexivity|].
        destruct node as [def|arg]; [exists def; auto|].
        exfalso. destruct Hd as (_ & _ & Hnot). apply Hwhole in Hnot. congruence.
    + assert (Hdd : isDeadDef (markEntryEdge F live block bitNo
                                 (markDeadArguments F defs block bitNo boundary1)) node b
                    <-> isDeadDef (markDeadArguments F defs block bitNo boundary1) node b).
      { unfold isDeadDef. rewrite (proj2 (markEntryEdge_lastUsers _ _ _ _ _)).
        reflexivity. }
      rewrite Hdd, markDeadArguments_deadDefs, Hscanned. split.
      * intros [[H|(-> & def & -> & Hd)]|(-> & arg & -> & Hin & Hd)];
          [left; exact H | right; auto |].
        right. split; [reflexivity|]. split; [reflexivity|].
        split; [exact Hd|]. split; [exact Hin|]. apply Hwhole. symmetry. exact Htop.
      * intros [H|(-> & _ & Hd)]; [left; left; exact H|].
        destruct node as [def|arg].
        -- left. right. split; [reflexivity|]. exists def. auto.
        -- right. split; [reflexivity|]. exists arg.
           destruct Hd as (Hd & Hin & _). auto.
  - (* a block without a definition: no dead definition *)
    assert (Hsame : deadDefs boundary' = deadDefs boundary).
    { destruct isLiveOut; [congruence|].
      apply findBoundaryInNonDefBlock_result in Hfind as (user & _ & _ & ->).
      reflexivity. }
    unfold isDeadDef. rewrite Hsame. split; [left; assumption|].
    intros [H|(_ & Hfalse & _)]; [exact H | discriminate].
Qed.

(** X19: the dead definitions of the boundary are the definition points
    after which the bit is not live: in the multi-definition variant with no
    or several definitions, [computeBoundary], started on the empty
    boundary, records a node as a dead definition of a bit exactly when the
    node defines the bit in a discovered block that is live for the bit and
    the bit is dead there: the node is an instruction of the block with no
    interesting user of the bit after it before the next definition (and
    the bit not live out, if no definition follows), or it is an argument
    of the block and the same holds of the whole block. *)
Theorem computeBoundary_dead_defs_exact (F : SILFunction)
    (live : FieldSensitivePrunedLiveBlocks) (isInterestingUser : UserOracle)
    (defs : DefList) (boundary' : FieldSensitivePrunedLivenessBoundary) :
  length defs <> 1%nat ->
  (forall block,
      In block (discoveredBlocks live) -> List.NoDup (getInstructions F block)) ->
  computeBoundary F live
    (MultiDefPrunedLiveRange.findBoundariesInBlock F live isInterestingUser defs)
    emptyBoundary
  = Some boundary' ->
  forall node b,
    isDeadDef boundary' node b
    <-> (b < numBitsToTrack live)%nat
        /\ exists block,
             In block (discoveredBlocks live)
             /\ getBlockLiveness live block b <> Dead
             /\ isDefBlock F defs block b = true
             /\ DeadDefinitionIn F defs isInterestingUser block b
                  (bool_decide (getBlockLiveness live block b = LiveOut)) node.
Proof.
  intros Hdefs Hblocks Hrun node b.
  assert (Hcall : forall block index (isLiveOut : bool) boundary boundary1,
             In block (discoveredBlocks live) ->
             getBlockLiveness live block index = (if isLiveOut then LiveOut else LiveWithin) ->
             MultiDefPrunedLiveRange.findBoundariesInBlock F live isInterestingUser defs
               block index isLiveOut boundary = Some boundary1 ->
             forall node b,
               isDeadDef boundary1 node b
               <-> isDeadDef boundary node b
                   \/ (b = index
                       /\ isDefBlock F defs block index = true
                       /\ DeadDefinitionIn F defs isInterestingUser block index
                            (bool_decide (getBlockLiveness live block index = LiveOut))
                            node)).
  { intros block index isLiveOut boundary boundary1 Hblock Hlive Hfind.
    assert (Hflag : bool_decide (getBlockLiveness live block index = LiveOut) = isLiveOut).
    { rewrite Hlive. destruct isLiveOut;
        [apply bool_decide_eq_true_2; reflexivity
        | apply bool_decide_eq_false_2; discriminate]. }
    rewrite Hflag.
    exact (multiDef_call_deadDefs F live isInterestingUser defs block index isLiveOut
             boundary boundary1 Hdefs (Hblocks block Hblock) Hfind). }
  split.
  - revert node b.
    refine (computeBoundary_invariant F live _
              (fun boundary =>
                 forall node b,
                   isDeadDef boundary node b ->
                   (b < numBitsToTrack live)%nat
                   /\ exists block,
                        In block (discoveredBlocks live)
                        /\ getBlockLiveness live block b <> Dead
                        /\ isDefBlock F defs block b = true
                        /\ DeadDefinitionIn F defs isInterestingUser block b
                             (bool_decide (getBlockLiveness live block b = LiveOut)) node)
              _ _ emptyBoundary boundary' _ Hrun).
    + intros block index boundary Hold node b.
      unfold isDeadDef.
      rewrite (proj2 (markDeadSuccessors_users F live block index boundary)).
      apply Hold.
    + intros block index isLiveOut boundary boundary1 Hblock Hindex Hlive Hold Hfind
             node b Hdead.
      apply (Hcall block index isLiveOut boundary boundary1 Hblock Hlive Hfind) in Hdead
        as [Hdead|(-> & Hdb & Hdef)]; [exact (Hold node b Hdead)|].
      split; [exact Hindex|]. exists block.
      split; [exact Hblock|].
      split; [rewrite Hlive; destruct isLiveOut; discriminate|].
      split; [exact Hdb | exact Hdef].
    + intros n k H. destruct (isDeadDef_emptyBoundary _ _ H).
  - intros (Hindex & block & Hblock & Hlive & Hdb & Hdef).
    unfold computeBoundary in Hrun.
    apply (computeBoundaryBlocks_reaches F live
             (MultiDefPrunedLiveRange.findBoundariesInBlock F live isInterestingUser defs)
             (fun boundary => isDeadDef boundary node b)
             (discoveredBlocks live)) with (block := block) (index := b)
             (todo := discoveredBlocks live) (boundary := emptyBoundary);
      try assumption.
    + intros blk idx boundary Hold. unfold isDeadDef.
      rewrite (proj2 (markDeadSuccessors_users F live blk idx boundary)). exact Hold.
    + intros blk idx isLiveOut boundary boundary1 Hblk Hl Hfind Hold.
      apply (Hcall blk idx isLiveOut boundary boundary1 Hblk Hl Hfind). left. exact Hold.
    + intros blk Hblk. exact Hblk.
    + intros boundary boundary1 Hbit. unfold computeBoundaryBit in Hbit.
      destruct (getBlockLiveness live block b) eqn:El; [congruence| |].
      * apply (Hcall block b false boundary boundary1 Hblock El Hbit). right.
        rewrite El. auto.
      * apply (Hcall block b true _ boundary1 Hblock El Hbit). right.
        rewrite El. auto.
Qed.

Lemma computeBoundary_dead_defs_exact_witness :
  exists boundary',
    computeBoundary branching redefiningLive
      (MultiDefPrunedLiveRange.findBoundariesInBlock branching redefiningLive
         redefiningUsers redefiningDefs)
      emptyBoundary
    = Some boundary'
    /\ ~ isDeadDef boundary' (InstructionNode 6) 0.
Proof.
  assert (Hr : is_Some
                 (computeBoundary branching redefiningLive
                    (MultiDefPrunedLiveRange.findBoundariesInBlock branching
                       redefiningLive redefiningUsers redefiningDefs)
                    emptyBoundary))
    by (vm_compute; eauto).
  destruct Hr as [boundary' Hr]. exists boundary'. split; [exact Hr|].
  intros Hdead.
  apply (computeBoundary_dead_defs_exact branching redefiningLive redefiningUsers
           redefiningDefs boundary') in Hdead.
  - destruct Hdead as (_ & block & _ & _ & _ & _ & Hin & Hnot).
    assert (Hblock : block = 1%nat).
    { destruct block as [|[|[|block]]]; cbn in Hin; intuition lia. }
    subst block. apply Hnot. left.
    exists [], 10%nat, []. split; [reflexivity|]. split; [reflexivity|]. intros i [].
  - cbn. lia.
  - intros block Hblock.
    assert (Hcases : block = 0%nat \/ block = 1%nat \/ block = 2%nat).
    { vm_compute in Hblock. intuition lia. }
    destruct Hcases as [->|[->| ->]]; cbn; repeat constructor; cbn; intuition lia.
  - exact Hr.
Defined.

(** ** The whole boundary of the single-definition variant *)

(** The walk of [findBoundaryInSSADefBlock]: it stops at the first
    interesting user from the end of the block, or at the definition. *)
Lemma findBoundaryInSSADefBlockFrom_walk isInterestingUser ssaDef bitNo boundary boundary'
    (reversed : list SILInstruction) :
  findBoundaryInSSADefBlockFrom isInterestingUser ssaDef bitNo boundary reversed
  = Some boundary' ->
  (exists later user earlier,
      reversed = later ++ user :: earlier
      /\ isInteresting isInterestingUser user bitNo = true
      /\ (forall i, In i later -> isInteresting isInterestingUser i bitNo = false)
      /\ boundary' = setLastUserBit boundary user bitNo)
  \/ (boundary' = setDeadDefBit boundary ssaDef bitNo
      /\ ((exists later def earlier,
              reversed = later ++ def :: earlier
              /\ ssaDef = InstructionNode def
              /\ forall i, In i later -> isInteresting isInterestingUser i bitNo = false)
          \/ ((exists arg, ssaDef = ArgumentNode arg)
              /\ forall i, In i reversed -> isInteresting isInterestingUser i bitNo = false))).
Proof.
  induction reversed as [|inst rest IH]; cbn [findBoundaryInSSADefBlockFrom].
  - destruct ssaDef as [def|arg]; [discriminate|]. intros [= <-].
    right. split; [reflexivity|]. right. split; [eauto | intros i []].
  - case_decide as Hdef.
    + intros [= <-]. right. split; [rewrite Hdef; reflexivity|]. left.
      exists [], inst, rest. split; [reflexivity|]. split; [symmetry; exact Hdef|].
      intros i [].
    + destruct (isInteresting isInterestingUser inst bitNo) eqn:Hint.
      * intros [= <-]. left. exists [], inst, rest.
        split; [reflexivity|]. split; [exact Hint|]. split; [intros i [] | reflexivity].
      * intros Hrun.
        destruct (IH Hrun) as [(later & user & earlier & Heq & Hu & Hnone & Hb)
                              |(Hb & [(later & def & earlier & Heq & Hd & Hnone)
                                     |(Harg & Hnone)])].
        -- left. exists (inst :: later), user, earlier.
           split; [rewrite Heq; reflexivity|]. split; [exact Hu|].
           split; [|exact Hb]. intros i [<-|Hi]; [exact Hint | apply Hnone, Hi].
        -- right. split; [exact Hb|]. left. exists (inst :: later), def, earlier.
           split; [rewrite Heq; reflexivity|]. split; [exact Hd|].
           intros i [<-|Hi]; [exact Hint | apply Hnone, Hi].
        -- right. split; [exact Hb|]. right. split; [exact Harg|].
           intros i [<-|Hi]; [exact Hint | apply Hnone, Hi].
Qed.

Lemma liveAfterScan_live_out impl isInterestingUser bit seen :
  (forall i, In i seen -> implIsDef impl i bit = false) ->
  liveAfterScan impl isInterestingUser bit true seen = true.
Proof.
  intros Hno. apply liveAfterScan_LiveAfter. right. split; [reflexivity|].
  intros i Hi. apply Hno, in_rev. exact Hi.
Qed.

(** Under [usesFollowDefinition], what [isWithinBoundary] answers for an
    interesting user of a bit in a block that is live for the bit: the user
    is outside the boundary when the bit is not live out of the block and no
    interesting user follows. *)
Lemma ssa_within_boundary F live isInterestingUser range block bitNo (isLiveOut : bool)
    user later earlier :
  List.NoDup (getInstructions F block) ->
  (forall inst, In inst (getInstructions F block) -> getParent F inst = block) ->
  getBlockLiveness live block bitNo = (if isLiveOut then LiveOut else LiveWithin) ->
  usesFollowDefinition F isInterestingUser range ->
  rev (getInstructions F block) = later ++ user :: earlier ->
  isInteresting isInterestingUser user bitNo = true ->
  (isWithinBoundary (ssaImpl F range) F live isInterestingUser user
     (mkRange (Z.of_nat bitNo) (Z.of_nat bitNo + 1)) = Some false
   <-> isLiveOut = false
       /\ forall i, In i later -> isInteresting isInterestingUser i bitNo = false).
Proof.
  intros Hnodup Hparents Hlive Hwf Heq Hint.
  assert (Hnodup' : List.NoDup (rev (getInstructions F block)))
    by (apply NoDup_rev; exact Hnodup).
  assert (Hin : In user (getInstructions F block)).
  { apply in_rev. rewrite Heq. apply in_or_app. right. left. reflexivity. }
  pose proof (Hparents user Hin) as Hparent.
  assert (Horder : getInstructions F block = rev earlier ++ user :: rev later).
  { rewrite <- (rev_involutive (getInstructions F block)), Heq, rev_app_distr.
    cbn [rev]. rewrite <- app_assoc. reflexivity. }
  assert (Hnodefs : forall i, In i (user :: later) ->
                              implIsDef (ssaImpl F range) i bitNo = false).
  { intros i Hi. cbn [ssaImpl implIsDef]. apply not_true_iff_false. intros Hd.
    apply andb_true_iff in Hd as [Hnode Hspan]. apply bool_decide_eq_true in Hnode.
    destruct (Hwf i bitNo Hnode Hspan) as [Hself Hbefore].
    destruct Hi as [<-|Hi]; [congruence|].
    assert (Hi' : In i (getInstructions F block)).
    { apply in_rev. rewrite Heq. apply in_or_app. left. exact Hi. }
    rewrite (Hparents i Hi') in Hbefore.
    apply in_rev in Hi. destruct (in_split _ _ Hi) as (l1 & l2 & Hl).
    rewrite Hl in Horder.
    rewrite (Hbefore (rev earlier ++ user :: l1) l2) in Hint; [discriminate | |].
    - rewrite Horder, <- app_assoc. reflexivity.
    - apply in_or_app. right. left. reflexivity. }
  rewrite isWithinBoundary_one_bit by (rewrite Hparent; exact Hin).
  rewrite Hparent, (instructionsUpTo_unique user _ later earlier Hnodup' Heq), Hlive.
  rewrite (Hnodefs user (or_introl eq_refl)). cbn [negb andb].
  destruct isLiveOut.
  - destruct (negb (implIsDefBlock (ssaImpl F range) block bitNo)).
    + split; [discriminate | intros [H _]; discriminate].
    + rewrite liveAfterScan_live_out by (intros i Hi; apply Hnodefs; right; exact Hi).
      split; [discriminate | intros [H _]; discriminate].
  - split.
    + intros [= Hfalse]. split; [reflexivity|].
      apply (proj1 (liveAfterScan_no_defs (ssaImpl F range) isInterestingUser bitNo later
                      (fun i Hi => Hnodefs i (or_intror Hi))) Hfalse).
    + intros [_ Hnone]. f_equal.
      apply (proj2 (liveAfterScan_no_defs (ssaImpl F range) isInterestingUser bitNo later
                      (fun i Hi => Hnodefs i (or_intror Hi))) Hnone).
Qed.

(** One call of the block search of the single-definition variant: the
    last user it adds is the interesting user of the bit in the block that
    is not within the boundary. *)
Lemma ssa_call_lastUsers F live isInterestingUser range block bitNo (isLiveOut : bool)
    boundary boundary' :
  List.NoDup (getInstructions F block) ->
  (forall inst, In inst (getInstructions F block) -> getParent F inst = block) ->
  getBlockLiveness live block bitNo = (if isLiveOut then LiveOut else LiveWithin) ->
  usesFollowDefinition F isInterestingUser range ->
  SSAPrunedLiveRange.findBoundariesInBlock F isInterestingUser range
    block bitNo isLiveOut boundary = Some boundary' ->
  forall user b,
    isLastUser boundary' user b
    <-> isLastUser boundary user b
        \/ (b = bitNo
            /\ In user (getInstructions F block)
            /\ isInteresting isInterestingUser user bitNo = true
            /\ isWithinBoundary (ssaImpl F range) F live isInterestingUser user
                 (mkRange (Z.of_nat bitNo) (Z.of_nat bitNo + 1)) = Some false).
Proof.
  intros Hnodup Hparents Hlive Hwf Hfind user b.
  assert (Hlast : forall u,
             In u (getInstructions F block)
             /\ isInteresting isInterestingUser u bitNo = true
             /\ isWithinBoundary (ssaImpl F range) F live isInterestingUser u
                  (mkRange (Z.of_nat bitNo) (Z.of_nat bitNo + 1)) = Some false
             <-> isLiveOut = false
                 /\ lastInterestingUser isInterestingUser bitNo
                      (rev (getInstructions F block)) = Some u).
  { intros u. split.
    - intros (Hin & Hint & Hw).
      assert (Hrev : In u (rev (getInstructions F block)))
        by (apply in_rev; rewrite rev_involutive; exact Hin).
      destruct (instructionsUpTo_split u _ Hrev) as (earlier & Heq & _).
      apply (ssa_within_boundary F live isInterestingUser range block bitNo isLiveOut
               u _ earlier Hnodup Hparents Hlive Hwf Heq Hint) in Hw as [Hout Hnone].
      split; [exact Hout|]. apply lastInterestingUser_Some. eauto.
    - intros [Hout Hlu].
      apply lastInterestingUser_Some in Hlu as (later & earlier & Heq & Hint & Hnone).
      split.
      { apply in_rev. rewrite Heq. apply in_or_app. right. left. reflexivity. }
      split; [exact Hint|].
      apply (ssa_within_boundary F live isInterestingUser range block bitNo isLiveOut
               u later earlier Hnodup Hparents Hlive Hwf Heq Hint). auto. }
  assert (Hrecorded : forall lastUser,
             lastInterestingUser isInterestingUser bitNo (rev (getInstructions F block))
             = Some lastUser ->
             isLiveOut = false ->
             boundary' = setLastUserBit boundary lastUser bitNo ->
             isLastUser boundary' user b
             <-> isLastUser boundary user b
                 \/ (b = bitNo
                     /\ In user (getInstructions F block)
                     /\ isInteresting isInterestingUser user bitNo = true
                     /\ isWithinBoundary (ssaImpl F range) F live isInterestingUser user
                          (mkRange (Z.of_nat bitNo) (Z.of_nat bitNo + 1)) = Some false)).
  { intros lastUser Hlu Hout ->. rewrite isLastUser_setLastUserBit.
    apply or_iff_compat_l. rewrite Hlast, Hlu. split.
    - intros [-> ->]. auto.
    - intros (-> & _ & [= ->]). auto. }
  assert (Hnothing : (forall u, lastInterestingUser isInterestingUser bitNo
                                  (rev (getInstructions F block)) = Some u ->
                                isLiveOut = false -> False) ->
                     lastUsers boundary' = lastUsers boundary ->
                     isLastUser boundary' user b
                     <-> isLastUser boundary user b
                         \/ (b = bitNo
                             /\ In user (getInstructions F block)
                             /\ isInteresting isInterestingUser user bitNo = true
                             /\ isWithinBoundary (ssaImpl F range) F live isInterestingUser
                                  user (mkRange (Z.of_nat bitNo) (Z.of_nat bitNo + 1))
                                = Some false)).
  { intros Hnone Hsame. unfold isLastUser at 1. rewrite Hsame.
    split; [left; assumption|].
    intros [Hold|(_ & Hq)]; [exact Hold|].
    apply Hlast in Hq as [Hout Hlu]. destruct (Hnone user Hlu Hout). }
  unfold SSAPrunedLiveRange.findBoundariesInBlock in Hfind.
  destruct isLiveOut.
  { injection Hfind as <-. apply Hnothing; [intros; discriminate | reflexivity]. }
  destruct (SSAPrunedLiveRange.isDefBlock F range block bitNo) eqn:Hdb;
    cbn [negb] in Hfind.
  - (* the block of the definition *)
    unfold SSAPrunedLiveRange.isDefBlock in Hdb.
    apply andb_true_iff in Hdb as [Hparent Hspan]. apply Nat.eqb_eq in Hparent.
    unfold findBoundaryInSSADefBlock in Hfind. rewrite Hparent in Hfind.
    apply findBoundaryInSSADefBlockFrom_walk in Hfind
      as [(later & lastUser & earlier & Heq & Hint & Hnone & Hb)
         |(Hb & [(later & def & earlier & Heq & Hd & Hnone)|(Harg & Hnone)])].
    + apply (Hrecorded lastUser); [|reflexivity | exact Hb].
      apply lastInterestingUser_Some. eauto.
    + apply Hnothing; [|rewrite Hb; reflexivity].
      intros u Hlu _.
      apply lastInterestingUser_Some in Hlu as (later' & earlier' & Heq' & Hu & _).
      assert (Hdin : In def (getInstructions F block)).
      { apply in_rev. rewrite Heq. apply in_or_app. right. left. reflexivity. }
      destruct (Hwf def bitNo Hd Hspan) as [Hself Hbefore].
      rewrite (Hparents def Hdin) in Hbefore.
      assert (Horder : getInstructions F block = rev earlier ++ def :: rev later).
      { rewrite <- (rev_involutive (getInstructions F block)), Heq, rev_app_distr.
        cbn [rev]. rewrite <- app_assoc. reflexivity. }
      assert (Hu_in : In u (later ++ def :: earlier)).
      { rewrite <- Heq, Heq'. apply in_or_app. right. left. reflexivity. }
      apply in_app_or in Hu_in as [Hl|[<-|He]].
      * rewrite (Hnone u Hl) in Hu. discriminate.
      * congruence.
      * rewrite (Hbefore _ _ Horder u) in Hu; [discriminate|].
        apply in_rev in He. exact He.
    + apply Hnothing; [|rewrite Hb; reflexivity].
      intros u Hlu _.
      apply (proj2 (lastInterestingUser_None isInterestingUser bitNo _)) in Hnone.
      congruence.
  - (* another block *)
    unfold findBoundaryInNonDefBlock in Hfind.
    destruct (lastInterestingUser isInterestingUser bitNo (rev (getInstructions F block)))
      as [lastUser|] eqn:Elast; [|discriminate].
    injection Hfind as <-. apply (Hrecorded lastUser); reflexivity.
Qed.

(** X20: in the single-definition variant too, the last users of the
    boundary are the interesting users that are not within it: when the
    uses follow the definition, [computeBoundary], started on the empty
    boundary, records an instruction as a last user of a bit exactly when
    the instruction is an interesting user of the bit, in a discovered
    block that is live for the bit, for which [isWithinBoundary] answers
    false on the bit. *)
Theorem ssa_computeBoundary_last_users_exact (F : SILFunction)
    (live : FieldSensitivePrunedLiveBlocks) (isInterestingUser : UserOracle)
    (range : FieldSensitiveSSAPrunedLiveRange)
    (boundary' : FieldSensitivePrunedLivenessBoundary) :
  (forall block,
      In block (discoveredBlocks live) ->
      List.NoDup (getInstructions F block)
      /\ forall inst, In inst (getInstructions F block) -> getParent F inst = block) ->
  usesFollowDefinition F isInterestingUser range ->
  computeBoundary F live
    (SSAPrunedLiveRange.findBoundariesInBlock F isInterestingUser range) emptyBoundary
  = Some boundary' ->
  forall user b,
    isLastUser boundary' user b
    <-> (b < numBitsToTrack live)%nat
        /\ exists block,
             In block (discoveredBlocks live)
             /\ In user (getInstructions F block)
             /\ getBlockLiveness live block b <> Dead
             /\ isInteresting isInterestingUser user b = true
             /\ isWithinBoundary (ssaImpl F range) F live isInterestingUser user
                  (mkRange (Z.of_nat b) (Z.of_nat b + 1)) = Some false.
Proof.
  intros Hblocks Hwf Hrun user b.
  assert (Hcall : forall block index (isLiveOut : bool) boundary boundary1,
             In block (discoveredBlocks live) ->
             getBlockLiveness live block index = (if isLiveOut then LiveOut else LiveWithin) ->
             SSAPrunedLiveRange.findBoundariesInBlock F isInterestingUser range
               block index isLiveOut boundary = Some boundary1 ->
             forall user b,
               isLastUser boundary1 user b
               <-> isLastUser boundary user b
                   \/ (b = index
                       /\ In user (getInstructions F block)
                       /\ isInteresting isInterestingUser user index = true
                       /\ isWithinBoundary (ssaImpl F range) F live isInterestingUser
                            user (mkRange (Z.of_nat index) (Z.of_nat index + 1))
                          = Some false)).
  { intros block index isLiveOut boundary boundary1 Hblock Hlive Hfind.
    destruct (Hblocks block Hblock) as [Hnodup Hparents].
    exact (ssa_call_lastUsers F live isInterestingUser range block index isLiveOut
             boundary boundary1 Hnodup Hparents Hlive Hwf Hfind). }
  split.
  - revert user b.
    refine (computeBoundary_invariant F live _
              (fun boundary =>
                 forall user b,
                   isLastUser boundary user b ->
                   (b < numBitsToTrack live)%nat
                   /\ exists block,
                        In block (discoveredBlocks live)
                        /\ In user (getInstructions F block)
                        /\ getBlockLiveness live block b <> Dead
                        /\ isInteresting isInterestingUser user b = true
                        /\ isWithinBoundary (ssaImpl F range) F live isInterestingUser
                             user (mkRange (Z.of_nat b) (Z.of_nat b + 1)) = Some false)
              _ _ emptyBoundary boundary' _ Hrun).
    + intros block index boundary Hold user b.
      unfold isLastUser.
      rewrite (proj1 (markDeadSuccessors_users F live block index boundary)).
      apply Hold.
    + intros block index isLiveOut boundary boundary1 Hblock Hindex Hlive Hold Hfind
             user b Hlast.
      apply (Hcall block index isLiveOut boundary boundary1 Hblock Hlive Hfind) in Hlast
        as [Hlast|(-> & Hin & Hint & Hwithin)]; [exact (Hold user b Hlast)|].
      split; [exact Hindex|]. exists block.
      split; [exact Hblock|]. split; [exact Hin|].
      split; [rewrite Hlive; destruct isLiveOut; discriminate|].
      split; [exact Hint | exact Hwithin].
    + intros u k H. destruct (isLastUser_emptyBoundary _ _ H).
  - intros (Hindex & block & Hblock & Hin & Hlive & Hint & Hwithin).
    unfold computeBoundary in Hrun.
    apply (computeBoundaryBlocks_reaches F live
             (SSAPrunedLiveRange.findBoundariesInBlock F isInterestingUser range)
             (fun boundary => isLastUser boundary user b)
             (discoveredBlocks live)) with (block := block) (index := b)
             (todo := discoveredBlocks live) (boundary := emptyBoundary);
      try assumption.
    + intros blk idx boundary Hold. unfold isLastUser.
      rewrite (proj1 (markDeadSuccessors_users F live blk idx boundary)). exact Hold.
    + intros blk idx isLiveOut boundary boundary1 Hblk Hl Hfind Hold.
      apply (Hcall blk idx isLiveOut boundary boundary1 Hblk Hl Hfind). left. exact Hold.
    + intros blk Hblk. exact Hblk.
    + intros boundary boundary1 Hbit. unfold computeBoundaryBit in Hbit.
      destruct (getBlockLiveness live block b) eqn:El; [congruence| |].
      * apply (Hcall block b false boundary boundary1 Hblock El Hbit). right. auto.
      * apply (Hcall block b true _ boundary1 Hblock El Hbit). right. auto.
Qed.

Lemma branching_usesFollowDefinition :
  usesFollowDefinition branching branchingUsers branchingDef.
Proof.
  intros def bitNo Hdef _. injection Hdef as <-. split.
  - reflexivity.
  - intros before after Heq inst Hin. cbn in Heq.
    destruct before as [|first before]; [destruct Hin|].
    injection Heq as _ Heq. destruct before; discriminate.
Defined.

Lemma ssa_computeBoundary_last_users_exact_witness :
  exists boundary',
    computeBoundary branching branchingLive
      (SSAPrunedLiveRange.findBoundariesInBlock branching branchingUsers branchingDef)
      emptyBoundary
    = Some boundary'
    /\ (isLastUser boundary' 10 0
        <-> (0 < numBitsToTrack branchingLive)%nat
            /\ exists block,
                 In block (discoveredBlocks branchingLive)
                 /\ In 10%nat (getInstructions branching block)
                 /\ getBlockLiveness branchingLive block 0 <> Dead
                 /\ isInteresting branchingUsers 10 0 = true
                 /\ isWithinBoundary (ssaImpl branching branchingDef) branching
                      branchingLive branchingUsers 10
                      (mkRange (Z.of_nat 0) (Z.of_nat 0 + 1)) = Some false).
Proof.
  assert (Hr : is_Some
                 (computeBoundary branching branchingLive
                    (SSAPrunedLiveRange.findBoundariesInBlock branching branchingUsers
                       branchingDef)
                    emptyBoundary))
    by (vm_compute; eauto).
  destruct Hr as [boundary' Hr]. exists boundary'. split; [exact Hr|].
  apply (ssa_computeBoundary_last_users_exact branching branchingLive branchingUsers
           branchingDef boundary').
  - intros block Hblock.
    assert (Hcases : block = 0%nat \/ block = 1%nat \/ block = 2%nat).
    { vm_compute in Hblock. intuition lia. }
    destruct Hcases as [->|[->| ->]]; cbn; split;
      try (repeat constructor; cbn; intuition lia);
      intros inst Hin; cbn in Hin; intuition (subst; reflexivity).
  - exact branching_usesFollowDefinition.
  - exact Hr.
Defined.

(** One call of the block search of the single-definition variant: it adds
    the definition as a dead definition when the block of the definition is
    live within for the bit and holds no interesting user of the bit. *)
Lemma ssa_call_deadDefs F isInterestingUser range block bitNo (isLiveOut : bool)
    boundary boundary' :
  (forall inst, In inst (getInstructions F block) -> getParent F inst = block) ->
  usesFollowDefinition F isInterestingUser range ->
  SSAPrunedLiveRange.findBoundariesInBlock F isInterestingUser range
    block bitNo isLiveOut boundary = Some boundary' ->
  forall node b,
    isDeadDef boundary' node b
    <-> isDeadDef boundary node b
        \/ (b = bitNo
            /\ isLiveOut = false
            /\ node = ssaDefNode range
            /\ SSAPrunedLiveRange.isDefBlock F range block bitNo = true
            /\ forall inst, In inst (getInstructions F block) ->
                            isInteresting isInterestingUser inst bitNo = false).
Proof.
  intros Hparents Hwf Hfind node b.
  assert (Hnothing : deadDefs boundary' = deadDefs boundary ->
                     (isLiveOut = false ->
                      SSAPrunedLiveRange.isDefBlock F range block bitNo = true ->
                      (forall inst, In inst (getInstructions F block) ->
                                    isInteresting isInterestingUser inst bitNo = false) ->
                      False) ->
                     isDeadDef boundary' node b
                     <-> isDeadDef boundary node b
                         \/ (b = bitNo
                             /\ isLiveOut = false
                             /\ node = ssaDefNode range
                             /\ SSAPrunedLiveRange.isDefBlock F range block bitNo = true
                             /\ forall inst, In inst (getInstructions F block) ->
                                  isInteresting isInterestingUser inst bitNo = false)).
  { intros Hsame Hnone. unfold isDeadDef at 1. rewrite Hsame.
    split; [left; assumption|].
    intros [Hold|(_ & Hout & _ & Hdb & Hquiet)]; [exact Hold|].
    destruct (Hnone Hout Hdb Hquiet). }
  unfold SSAPrunedLiveRange.findBoundariesInBlock in Hfind.
  destruct isLiveOut.
  { injection Hfind as <-. apply Hnothing; [reflexivity | discriminate]. }
  destruct (SSAPrunedLiveRange.isDefBlock F range block bitNo) eqn:Hdb;
    cbn [negb] in Hfind.
  - pose proof Hdb as Hdb'. unfold SSAPrunedLiveRange.isDefBlock in Hdb'.
    apply andb_true_iff in Hdb' as [Hparent Hspan]. apply Nat.eqb_eq in Hparent.
    unfold findBoundaryInSSADefBlock in Hfind. rewrite Hparent in Hfind.
    apply findBoundaryInSSADefBlockFrom_walk in Hfind
      as [(later & lastUser & earlier & Heq & Hint & Hnone & Hb)
         |(Hb & [(later & def & earlier & Heq & Hd & Hnone)|(Harg & Hnone)])].
    + apply Hnothing; [rewrite Hb; reflexivity|].
      intros _ _ Hquiet. rewrite Hquiet in Hint; [discriminate|].
      apply in_rev. rewrite Heq. apply in_or_app. right. left. reflexivity.
    + rewrite Hb, isDeadDef_setDeadDefBit. apply or_iff_compat_l. split.
      * intros [-> ->]. split; [reflexivity|]. split; [reflexivity|].
        split; [reflexivity|]. split; [reflexivity|].
        assert (Hdin : In def (getInstructions F block)).
        { apply in_rev. rewrite Heq. apply in_or_app. right. left. reflexivity. }
        destruct (Hwf def bitNo Hd Hspan) as [Hself Hbefore].
        rewrite (Hparents def Hdin) in Hbefore.
        assert (Horder : getInstructions F block = rev earlier ++ def :: rev later).
        { rewrite <- (rev_involutive (getInstructions F block)), Heq, rev_app_distr.
          cbn [rev]. rewrite <- app_assoc. reflexivity. }
        intros inst Hin. rewrite Horder in Hin.
        apply in_app_or in Hin as [He|[<-|Hl]].
        -- exact (Hbefore _ _ Horder inst He).
        -- exact Hself.
        -- apply Hnone, in_rev. exact Hl.
      * intros (-> & _ & -> & _). auto.
    + rewrite Hb, isDeadDef_setDeadDefBit. apply or_iff_compat_l. split.
      * intros [-> ->]. split; [reflexivity|]. split; [reflexivity|].
        split; [reflexivity|]. split; [reflexivity|].
        intros inst Hin. apply Hnone, in_rev. rewrite rev_involutive. exact Hin.
      * intros (-> & _ & -> & _). auto.
  - apply findBoundaryInNonDefBlock_result in Hfind as (user & _ & _ & ->).
    apply Hnothing; [reflexivity | congruence].
Qed.

(** X21: in the single-definition variant, when the uses follow the
    definition, the definition is dead for a bit exactly when its block is
    live within for the bit and holds no interesting user of the bit:
    [computeBoundary], started on the empty boundary, records a node as a
    dead definition of a bit exactly when the node is the definition, the
    bit is in its range, the block of the definition is a discovered block
    that is [LiveWithin] for the bit, and no instruction of that block is
    an interesting user of the bit. *)
Theorem ssa_computeBoundary_dead_def_exact (F : SILFunction)
    (live : FieldSensitivePrunedLiveBlocks) (isInterestingUser : UserOracle)
    (range : FieldSensitiveSSAPrunedLiveRange)
    (boundary' : FieldSensitivePrunedLivenessBoundary) :
  (forall block,
      In block (discoveredBlocks live) ->
      forall inst, In inst (getInstructions F block) -> getParent F inst = block) ->
  usesFollowDefinition F isInterestingUser range ->
  computeBoundary F live
    (SSAPrunedLiveRange.findBoundariesInBlock F isInterestingUser range) emptyBoundary
  = Some boundary' ->
  forall node b,
    isDeadDef boundary' node b
    <-> (b < numBitsToTrack live)%nat
        /\ node = ssaDefNode range
        /\ contains (ssaDefSpan range) b = true
        /\ In (getParentBlock F node) (discoveredBlocks live)
        /\ getBlockLiveness live (getParentBlock F node) b = LiveWithin
        /\ forall inst, In inst (getInstructions F (getParentBlock F node)) ->
                        isInteresting isInterestingUser inst b = false.
Proof.
  intros Hblocks Hwf Hrun node b.
  assert (Hcall : forall block index (isLiveOut : bool) boundary boundary1,
             In block (discoveredBlocks live) ->
             SSAPrunedLiveRange.findBoundariesInBlock F isInterestingUser range
               block index isLiveOut boundary = Some boundary1 ->
             forall node b,
               isDeadDef boundary1 node b
               <-> isDeadDef boundary node b
                   \/ (b = index
                       /\ isLiveOut = false
                       /\ node = ssaDefNode range
                       /\ SSAPrunedLiveRange.isDefBlock F range block index = true
                       /\ forall inst, In inst (getInstructions F block) ->
                                       isInteresting isInterestingUser inst index = false)).
  { intros block index isLiveOut boundary boundary1 Hblock Hfind.
    exact (ssa_call_deadDefs F isInterestingUser range block index isLiveOut
             boundary boundary1 (Hblocks block Hblock) Hwf Hfind). }
  assert (Hdefblock : forall block index,
             SSAPrunedLiveRange.isDefBlock F range block index = true
             <-> getParentBlock F (ssaDefNode range) = block
                 /\ contains (ssaDefSpan range) index = true).
  { intros block index. unfold SSAPrunedLiveRange.isDefBlock.
    rewrite andb_true_iff, Nat.eqb_eq. reflexivity. }
  split.
  - revert node b.
    refine (computeBoundary_invariant F live _
              (fun boundary =>
                 forall node b,
                   isDeadDef boundary node b ->
                   (b < numBitsToTrack live)%nat
                   /\ node = ssaDefNode range
                   /\ contains (ssaDefSpan range) b = true
                   /\ In (getParentBlock F node) (discoveredBlocks live)
                   /\ getBlockLiveness live (getParentBlock F node) b = LiveWithin
                   /\ forall inst, In inst (getInstructions F (getParentBlock F node)) ->
                                   isInteresting isInterestingUser inst b = false)
              _ _ emptyBoundary boundary' _ Hrun).
    + intros block index boundary Hold node b.
      unfold isDeadDef.
      rewrite (proj2 (markDeadSuccessors_users F live block index boundary)).
      apply Hold.
    + intros block index isLiveOut boundary boundary1 Hblock Hindex Hlive Hold Hfind
             node b Hdead.
      apply (Hcall block index isLiveOut boundary boundary1 Hblock Hfind) in Hdead
        as [Hdead|(-> & -> & -> & Hdb & Hquiet)]; [exact (Hold node b Hdead)|].
      apply Hdefblock in Hdb as [Hparent Hspan]. rewrite Hparent.
      split; [exact Hindex|]. split; [reflexivity|]. split; [exact Hspan|].
      split; [exact Hblock|]. split; [exact Hlive | exact Hquiet].
    + intros n k H. destruct (isDeadDef_emptyBoundary _ _ H).
  - intros (Hindex & -> & Hspan & Hblock & Hlive & Hquiet).
    unfold computeBoundary in Hrun.
    apply (computeBoundaryBlocks_reaches F live
             (SSAPrunedLiveRange.findBoundariesInBlock F isInterestingUser range)
             (fun boundary => isDeadDef boundary (ssaDefNode range) b)
             (discoveredBlocks live))
      with (block := getParentBlock F (ssaDefNode range)) (index := b)
           (todo := discoveredBlocks live) (boundary := emptyBoundary);
      try assumption.
    + intros blk idx boundary Hold. unfold isDeadDef.
      rewrite (proj2 (markDeadSuccessors_users F live blk idx boundary)). exact Hold.
    + intros blk idx isLiveOut boundary boundary1 Hblk Hl Hfind Hold.
      apply (Hcall blk idx isLiveOut boundary boundary1 Hblk Hfind). left. exact Hold.
    + intros blk Hblk. exact Hblk.
    + intros boundary boundary1 Hbit. unfold computeBoundaryBit in Hbit.
      rewrite Hlive in Hbit.
      apply (Hcall _ b false boundary boundary1 Hblock Hbit). right.
      split; [reflexivity|]. split; [reflexivity|]. split; [reflexivity|].
      split; [apply Hdefblock; auto | exact Hquiet].
Qed.

Lemma ssa_computeBoundary_dead_def_exact_witness :
  exists boundary',
    computeBoundary branching branchingLive
      (SSAPrunedLiveRange.findBoundariesInBlock branching branchingUsers branchingDef)
      emptyBoundary
    = Some boundary'
    /\ ~ isDeadDef boundary' (InstructionNode 5) 0.
Proof.
  assert (Hr : is_Some
                 (computeBoundary branching branchingLive
                    (SSAPrunedLiveRange.findBoundariesInBlock branching branchingUsers
                       branchingDef)
                    emptyBoundary))
    by (vm_compute; eauto).
  destruct Hr as [boundary' Hr]. exists boundary'. split; [exact Hr|].
  intros Hdead.
  apply (ssa_computeBoundary_dead_def_exact branching branchingLive branchingUsers
           branchingDef boundary') in Hdead.
  - destruct Hdead as (_ & _ & _ & _ & Hlive & _). vm_compute in Hlive. discriminate.
  - intros block Hblock.
    assert (Hcases : block = 0%nat \/ block = 1%nat \/ block = 2%nat).
    { vm_compute in Hblock. intuition lia. }
    destruct Hcases as [->|[->| ->]]; cbn;
      intros inst Hin; cbn in Hin; intuition (subst; reflexivity).
  - exact branching_usesFollowDefinition.
  - exact Hr.
Defined.

(** ** A whole analysis in closed form *)

Lemma set_bits_NoDup (bits : list bool) : List.NoDup (set_bits bits).
Proof.
  unfold set_bits. apply NoDup_ListNoDup, NoDup_filter, NoDup_ListNoDup, seq_NoDup.
Qed.

(** One recording call, bit by bit: a bit the call propagates gets the
    state of one propagation from the block of the user, every other bit
    stays as it is. *)
Lemma runCall_exact {Users : Type} (F : SILFunction) (popFrom : PopOrder)
    (ops : UserMapOps Users) (liveness : FieldSensitivePrunedLiveness Users)
    (call : LivenessCall) :
  LawfulPop popFrom ->
  predecessorsInFunction F ->
  (getParent F (callUser call) < numBlocks F)%nat ->
  liveBlocksSized (liveBlocksOf liveness) ->
  callInRange (numBitsToTrack (liveBlocksOf liveness)) call ->
  exists liveness',
    runCall F popFrom ops liveness call = Some liveness'
    /\ liveBlocksSized (liveBlocksOf liveness')
    /\ numBitsToTrack (liveBlocksOf liveness') = numBitsToTrack (liveBlocksOf liveness)
    /\ forall bb bitNo,
         (callPropagates F (liveBlocksOf liveness) call bitNo ->
          LivenessAfterUse F (liveBlocksOf liveness) bitNo (getParent F (callUser call)) bb
            (getBlockLiveness (liveBlocksOf liveness') bb bitNo))
         /\ (~ callPropagates F (liveBlocksOf liveness) call bitNo ->
             getBlockLiveness (liveBlocksOf liveness') bb bitNo
             = getBlockLiveness (liveBlocksOf liveness) bb bitNo).
Proof.
  intros Hlawful Hpreds Huser Hsized Hrange.
  set (live := liveBlocksOf liveness) in *.
  assert (Hnodup : List.NoDup (callBits call)).
  { destruct call; cbn [callBits]; first [apply seq_NoDup | apply set_bits_NoDup]. }
  assert (Htracked : forall bitNo, In bitNo (callBits call) ->
                                   (bitNo < numBitsToTrack live)%nat).
  { intros bitNo Hin. destruct call; cbn [callBits callInRange] in *;
      first [ apply in_seq in Hin; lia | apply set_bits_lt in Hin; lia ]. }
  destruct (updateForUseLoop_spec F popFrom (getParent F (callUser call)) (callFlags call)
              live (callBits call) Hlawful Hpreds Huser Hnodup Htracked live Hsized
              eq_refl (fun _ _ _ => eq_refl))
    as (live' & Hrun & Hs' & Hn' & Hyes & Hno & Hother).
  assert (Hloop : match call with
                  | UpdateForUseRange user range _ flags
                  | ExtendToNonUseRange user range flags =>
                      updateForUse F popFrom live user
                        (Z.to_nat (startEltOffset range)) (Z.to_nat (endEltOffset range))
                        flags
                  | UpdateForUseBits user bits _ flags
                  | ExtendToNonUseBits user bits flags =>
                      updateForUseSetBits F popFrom user flags live (set_bits bits)
                  end = Some live').
  { destruct call; cbn [callBits callFlags callUser] in *;
      first [ exact Hrun
            | rewrite (updateForUseSetBits_as_loop F popFrom _ _ live _ Hlawful Hpreds
                         Huser Hnodup Htracked live Hsized eq_refl (fun _ _ => eq_refl));
              exact Hrun ]. }
  assert (Hresult : exists liveness',
             runCall F popFrom ops liveness call = Some liveness'
             /\ liveBlocksOf liveness' = live').
  { destruct call; cbn [runCall]; fold live; rewrite Hloop; eexists;
      (split; [reflexivity | reflexivity]). }
  destruct Hresult as (liveness' & Hcall & Hlive').
  exists liveness'. rewrite Hlive'. split; [exact Hcall|]. split; [exact Hs'|].
  split; [exact Hn'|]. intros bb bitNo. split.
  - intros [Hin Hp]. exact (Hyes bb bitNo Hin Hp).
  - intros Hnot. destruct (in_dec Nat.eq_dec bitNo (callBits call)) as [Hin|Hout].
    + apply (Hno bb bitNo Hin). intros Hp. apply Hnot. split; assumption.
    + exact (Hother bb bitNo Hout).
Qed.

Lemma reachesThroughDead_trans F live bitNo userBB middle block :
  reachesThroughDead F live bitNo userBB middle ->
  reachesThroughDead F live bitNo middle block ->
  reachesThroughDead F live bitNo userBB block.
Proof.
  intros Hfirst Hsecond.
  induction Hsecond as [|block predBlock _ IH Hin Hdead]; [exact Hfirst|].
  exact (reachesThroughDead_pred F live bitNo userBB block predBlock IH Hin Hdead).
Qed.

Section OnePropagation.
Variable F : SILFunction.
Variables live0 live1 : FieldSensitivePrunedLiveBlocks.
Variable bitNo : nat.
Variable userBB : SILBasicBlock.
Hypothesis propagated :
  forall bb, LivenessAfterUse F live0 bitNo userBB bb (getBlockLiveness live1 bb bitNo).

Lemma propagation_LiveOut bb :
  getBlockLiveness live1 bb bitNo = LiveOut
  <-> getBlockLiveness live0 bb bitNo = LiveOut
      \/ predecessorOfVisited F live0 bitNo userBB bb.
Proof.
  destruct (propagated bb) as [Hpred Hother]. split.
  - intros Hout. destruct Hother as [Hp|Hsame]; [right; exact Hp|]. left.
    rewrite Hsame in Hout. unfold livenessBeforeLoop in Hout.
    destruct (decide (bb = userBB)); [|exact Hout].
    destruct (getBlockLiveness live0 bb bitNo); [discriminate | discriminate | reflexivity].
  - intros [Hout|Hp]; [|exact (Hpred Hp)].
    destruct Hother as [Hp|Hsame]; [exact (Hpred Hp)|].
    rewrite Hsame. unfold livenessBeforeLoop.
    destruct (decide (bb = userBB)); rewrite Hout; reflexivity.
Qed.

Lemma propagation_live bb :
  getBlockLiveness live1 bb bitNo <> Dead
  <-> getBlockLiveness live0 bb bitNo <> Dead
      \/ bb = userBB
      \/ predecessorOfVisited F live0 bitNo userBB bb.
Proof.
  destruct (propagated bb) as [Hpred Hother]. split.
  - intros Hlive. destruct Hother as [Hp|Hsame]; [right; right; exact Hp|].
    rewrite Hsame in Hlive. unfold livenessBeforeLoop in Hlive.
    destruct (decide (bb = userBB)); [right; left; assumption | left; exact Hlive].
  - intros Hcases.
    destruct Hother as [Hp|Hsame]; [rewrite (Hpred Hp); discriminate|].
    destruct Hcases as [Hlive|[Heq|Hp]]; [| |rewrite (Hpred Hp); discriminate];
      rewrite Hsame; unfold livenessBeforeLoop;
      destruct (decide (bb = userBB)) as [Hu|Hne];
      first [ exact Hlive
            | contradiction
            | destruct (getBlockLiveness live0 bb bitNo); discriminate ].
Qed.

Lemma propagation_Dead bb :
  getBlockLiveness live1 bb bitNo = Dead -> getBlockLiveness live0 bb bitNo = Dead.
Proof.
  intros Hdead. destruct (getBlockLiveness live0 bb bitNo) eqn:E; [reflexivity| |];
    exfalso; apply (proj2 (propagation_live bb)); try exact Hdead;
    left; rewrite E; discriminate.
Qed.

(** A block that was dead and is no longer has been visited. *)
Lemma propagation_visited bb :
  getBlockLiveness live0 bb bitNo = Dead ->
  getBlockLiveness live1 bb bitNo <> Dead ->
  reachesThroughDead F live0 bitNo userBB bb.
Proof.
  intros Hdead Hlive. apply propagation_live in Hlive as [Hlive|[->|(block & Hr & Hin)]].
  - contradiction.
  - constructor.
  - exact (reachesThroughDead_pred F live0 bitNo userBB block bb Hr Hin Hdead).
Qed.

Lemma reaches_after_propagation otherBB block :
  reachesThroughDead F live1 bitNo otherBB block ->
  reachesThroughDead F live0 bitNo otherBB block.
Proof.
  induction 1 as [|block predBlock _ IH Hin Hdead]; [constructor|].
  exact (reachesThroughDead_pred F live0 bitNo otherBB block predBlock IH Hin
           (propagation_Dead predBlock Hdead)).
Qed.

Lemma reaches_before_propagation otherBB block :
  reachesThroughDead F live0 bitNo otherBB block ->
  reachesThroughDead F live1 bitNo otherBB block
  \/ reachesThroughDead F live0 bitNo userBB block.
Proof.
  induction 1 as [|block predBlock _ IH Hin Hdead]; [left; constructor|].
  destruct IH as [Hafter|Hfirst].
  - destruct (getBlockLiveness live1 predBlock bitNo) eqn:E1.
    + left. exact (reachesThroughDead_pred F live1 bitNo otherBB block predBlock
                     Hafter Hin E1).
    + right. apply propagation_visited; [exact Hdead | rewrite E1; discriminate].
    + right. apply propagation_visited; [exact Hdead | rewrite E1; discriminate].
  - right. exact (reachesThroughDead_pred F live0 bitNo userBB block predBlock
                    Hfirst Hin Hdead).
Qed.

Lemma predecessor_before_propagation otherBB bb :
  predecessorOfVisited F live0 bitNo otherBB bb ->
  predecessorOfVisited F live1 bitNo otherBB bb
  \/ predecessorOfVisited F live0 bitNo userBB bb.
Proof.
  intros (block & Hr & Hin).
  destruct (reaches_before_propagation otherBB block Hr) as [Hafter|Hfirst];
    [left | right]; exists block; split; assumption.
Qed.

(** A call that propagated the bit before the propagation and does not
    after it: its block has been visited, and so has all that it reaches. *)
Lemma absorbed_call otherBB flags :
  usePropagates live0 otherBB flags bitNo ->
  ~ usePropagates live1 otherBB flags bitNo ->
  reachesThroughDead F live0 bitNo userBB otherBB.
Proof.
  intros [Hdead|Hflag] Hnot; [|exfalso; apply Hnot; right; exact Hflag].
  apply propagation_visited; [exact Hdead|].
  intros Hdead1. apply Hnot. left. exact Hdead1.
Qed.

End OnePropagation.

Lemma usePropagates_dec live bb flags bitNo :
  usePropagates live bb flags bitNo \/ ~ usePropagates live bb flags bitNo.
Proof.
  unfold usePropagates.
  destruct (getBlockLiveness live bb bitNo); [left; left; reflexivity | |];
    (destruct (testBit flags bitNo);
     [left; right; reflexivity | right; intros [H|H]; discriminate]).
Qed.

Lemma callPropagates_dec F live call bitNo :
  callPropagates F live call bitNo \/ ~ callPropagates F live call bitNo.
Proof.
  unfold callPropagates.
  destruct (in_dec Nat.eq_dec bitNo (callBits call)) as [Hin|Hout];
    [|right; intros [H _]; contradiction].
  destruct (usePropagates_dec live (getParent F (callUser call)) (callFlags call) bitNo)
    as [Hp|Hn]; [left; split; assumption | right; intros [_ H]; contradiction].
Qed.

Lemma predecessorOfVisited_ext F liveA liveB bitNo userBB bb :
  (forall b, getBlockLiveness liveA b bitNo = getBlockLiveness liveB b bitNo) ->
  predecessorOfVisited F liveA bitNo userBB bb ->
  predecessorOfVisited F liveB bitNo userBB bb.
Proof.
  intros Hsame (block & Hr & Hin). exists block. split; [|exact Hin].
  exact (reachesThroughDead_ext F liveA liveB bitNo userBB block Hsame Hr).
Qed.

Lemma callPropagates_ext F liveA liveB call bitNo :
  (forall b, getBlockLiveness liveA b bitNo = getBlockLiveness liveB b bitNo) ->
  callPropagates F liveA call bitNo -> callPropagates F liveB call bitNo.
Proof.
  intros Hsame [Hin Hp]. split; [exact Hin|]. unfold usePropagates in *.
  rewrite <- Hsame. exact Hp.
Qed.

(** The closed form of the calls that follow a call, told from the state
    after the call, is the closed form of all of them, told from the state
    before it. *)
Lemma closed_form_step F live0 live1 call rest bitNo :
  (forall bb,
      (callPropagates F live0 call bitNo ->
       LivenessAfterUse F live0 bitNo (getParent F (callUser call)) bb
         (getBlockLiveness live1 bb bitNo))
      /\ (~ callPropagates F live0 call bitNo ->
          getBlockLiveness live1 bb bitNo = getBlockLiveness live0 bb bitNo)) ->
  forall bb,
    (LiveOutAfterCalls F live1 rest bb bitNo
     <-> LiveOutAfterCalls F live0 (call :: rest) bb bitNo)
    /\ (LiveAfterCalls F live1 rest bb bitNo
        <-> LiveAfterCalls F live0 (call :: rest) bb bitNo).
Proof.
  intros Hcall bb. unfold LiveOutAfterCalls, LiveAfterCalls.
  destruct (callPropagates_dec F live0 call bitNo) as [Hprop|Hquiet].
  - (* the call propagates the bit *)
    assert (Hdesc : forall b, LivenessAfterUse F live0 bitNo (getParent F (callUser call)) b
                                (getBlockLiveness live1 b bitNo))
      by (intros b; apply (proj1 (Hcall b)), Hprop).
    set (userBB := getParent F (callUser call)) in *.
    assert (Hlater : forall other,
               callPropagates F live0 other bitNo ->
               callPropagates F live1 other bitNo
               \/ reachesThroughDead F live0 bitNo userBB (getParent F (callUser other))).
    { intros other [Hin Hp].
      destruct (usePropagates_dec live1 (getParent F (callUser other)) (callFlags other)
                  bitNo) as [Hp1|Hn1]; [left; split; assumption|].
      right. exact (absorbed_call F live0 live1 bitNo userBB Hdesc _ _ Hp Hn1). }
    assert (Hearlier : forall other,
               callPropagates F live1 other bitNo -> callPropagates F live0 other bitNo).
    { intros other [Hin [Hdead|Hflag]]; (split; [exact Hin|]);
        [left; exact (propagation_Dead F live0 live1 bitNo userBB Hdesc _ Hdead)
        | right; exact Hflag]. }
    assert (Hthrough : forall other b,
               reachesThroughDead F live0 bitNo userBB (getParent F (callUser other)) ->
               predecessorOfVisited F live0 bitNo (getParent F (callUser other)) b ->
               predecessorOfVisited F live0 bitNo userBB b).
    { intros other b Hr (block & Hr' & Hin). exists block. split; [|exact Hin].
      exact (reachesThroughDead_trans F live0 bitNo userBB _ block Hr Hr'). }
    split; split.
    + intros [Hout|(other & Hin & Hp & Hpred)].
      * apply (propagation_LiveOut F live0 live1 bitNo userBB Hdesc) in Hout
          as [Hout|Hpred]; [left; exact Hout|].
        right. exists call. split; [left; reflexivity|]. split; [exact Hprop | exact Hpred].
      * right. exists other. split; [right; exact Hin|]. split; [exact (Hearlier _ Hp)|].
        destruct Hpred as (block & Hr & Hb). exists block. split; [|exact Hb].
        exact (reaches_after_propagation F live0 live1 bitNo userBB Hdesc _ _ Hr).
    + intros [Hout|(other & [<-|Hin] & Hp & Hpred)].
      * left. apply (propagation_LiveOut F live0 live1 bitNo userBB Hdesc). left. exact Hout.
      * left. apply (propagation_LiveOut F live0 live1 bitNo userBB Hdesc). right.
        exact Hpred.
      * destruct (Hlater other Hp) as [Hp1|Habsorbed].
        -- destruct (predecessor_before_propagation F live0 live1 bitNo userBB Hdesc _ _
                       Hpred) as [Hafter|Hfirst].
           ++ right. exists other. split; [exact Hin|]. split; assumption.
           ++ left. apply (propagation_LiveOut F live0 live1 bitNo userBB Hdesc). right.
              exact Hfirst.
        -- left. apply (propagation_LiveOut F live0 live1 bitNo userBB Hdesc). right.
           exact (Hthrough other bb Habsorbed Hpred).
    + intros [Hlive|(other & Hin & Hp & Hwhere)].
      * apply (propagation_live F live0 live1 bitNo userBB Hdesc) in Hlive
          as [Hlive|[Hu|Hpred]]; [left; exact Hlive | |];
          right; exists call; (split; [left; reflexivity|]); (split; [exact Hprop|]);
          [left; exact Hu | right; exact Hpred].
      * right. exists other. split; [right; exact Hin|]. split; [exact (Hearlier _ Hp)|].
        destruct Hwhere as [Hu|(block & Hr & Hb)]; [left; exact Hu|].
        right. exists block. split; [|exact Hb].
        exact (reaches_after_propagation F live0 live1 bitNo userBB Hdesc _ _ Hr).
    + intros [Hlive|(other & [<-|Hin] & Hp & Hwhere)].
      * left. apply (propagation_live F live0 live1 bitNo userBB Hdesc). left. exact Hlive.
      * left. apply (propagation_live F live0 live1 bitNo userBB Hdesc). right.
        exact Hwhere.
      * destruct (Hlater other Hp) as [Hp1|Habsorbed].
        -- destruct Hwhere as [Hu|Hpred].
           ++ right. exists other. split; [exact Hin|]. split; [exact Hp1 | left; exact Hu].
           ++ destruct (predecessor_before_propagation F live0 live1 bitNo userBB Hdesc _ _
                          Hpred) as [Hafter|Hfirst].
              ** right. exists other. split; [exact Hin|].
                 split; [exact Hp1 | right; exact Hafter].
              ** left. apply (propagation_live F live0 live1 bitNo userBB Hdesc).
                 right. right. exact Hfirst.
        -- left. apply (propagation_live F live0 live1 bitNo userBB Hdesc).
           destruct Hwhere as [->|Hpred].
           ++ destruct Habsorbed as [|block predBlock Hr Hb Hdead].
              ** right. left. reflexivity.
              ** right. right. exists block. split; assumption.
           ++ right. right. exact (Hthrough other bb Habsorbed Hpred).
  - (* the call leaves the bit as it is *)
    assert (Hsame : forall b, getBlockLiveness live1 b bitNo = getBlockLiveness live0 b bitNo)
      by (intros b; apply (proj2 (Hcall b)), Hquiet).
    assert (Hback : forall b, getBlockLiveness live0 b bitNo = getBlockLiveness live1 b bitNo)
      by (intros b; symmetry; apply Hsame).
    rewrite Hsame. split; split.
    + intros [Hout|(other & Hin & Hp & Hpred)]; [left; exact Hout|].
      right. exists other. split; [right; exact Hin|].
      split; [exact (callPropagates_ext F live1 live0 _ _ Hsame Hp)
             | exact (predecessorOfVisited_ext F live1 live0 _ _ _ Hsame Hpred)].
    + intros [Hout|(other & [<-|Hin] & Hp & Hpred)];
        [left; exact Hout | contradiction |].
      right. exists other. split; [exact Hin|].
      split; [exact (callPropagates_ext F live0 live1 _ _ Hback Hp)
             | exact (predecessorOfVisited_ext F live0 live1 _ _ _ Hback Hpred)].
    + intros [Hlive|(other & Hin & Hp & Hwhere)]; [left; exact Hlive|].
      right. exists other. split; [right; exact Hin|].
      split; [exact (callPropagates_ext F live1 live0 _ _ Hsame Hp)|].
      destruct Hwhere as [Hu|Hpred]; [left; exact Hu|].
      right. exact (predecessorOfVisited_ext F live1 live0 _ _ _ Hsame Hpred).
    + intros [Hlive|(other & [<-|Hin] & Hp & Hwhere)];
        [left; exact Hlive | contradiction |].
      right. exists other. split; [exact Hin|].
      split; [exact (callPropagates_ext F live0 live1 _ _ Hback Hp)|].
      destruct Hwhere as [Hu|Hpred]; [left; exact Hu|].
      right. exact (predecessorOfVisited_ext F live0 live1 _ _ _ Hback Hpred).
Qed.

Lemma runCalls_closed_form {Users : Type} (F : SILFunction) (popFrom : PopOrder)
    (ops : UserMapOps Users) (calls : list LivenessCall) :
  LawfulPop popFrom ->
  predecessorsInFunction F ->
  forall liveness,
    liveBlocksSized (liveBlocksOf liveness) ->
    (forall call, In call calls ->
                  (getParent F (callUser call) < numBlocks F)%nat
                  /\ callInRange (numBitsToTrack (liveBlocksOf liveness)) call) ->
    exists final,
      runCalls F popFrom ops liveness calls = Some final
      /\ forall bb bitNo,
           (getBlockLiveness (liveBlocksOf final) bb bitNo = LiveOut
            <-> LiveOutAfterCalls F (liveBlocksOf liveness) calls bb bitNo)
           /\ (getBlockLiveness (liveBlocksOf final) bb bitNo <> Dead
               <-> LiveAfterCalls F (liveBlocksOf liveness) calls bb bitNo).
Proof.
  intros Hlawful Hpreds.
  induction calls as [|call rest IH]; intros liveness Hsized Hcalls; cbn [runCalls].
  - exists liveness. split; [reflexivity|]. intros bb bitNo.
    unfold LiveOutAfterCalls, LiveAfterCalls. split; split.
    + intros H. left. exact H.
    + intros [H|(call & [] & _)]. exact H.
    + intros H. left. exact H.
    + intros [H|(call & [] & _)]. exact H.
  - destruct (Hcalls call (or_introl eq_refl)) as [Huser Hrange].
    destruct (runCall_exact F popFrom ops liveness call Hlawful Hpreds Huser Hsized Hrange)
      as (liveness1 & Hrun1 & Hs1 & Hn1 & Hexact).
    rewrite Hrun1.
    destruct (IH liveness1 Hs1) as (final & Hrun & Hfinal).
    { intros c Hc. rewrite Hn1. apply Hcalls. right. exact Hc. }
    exists final. split; [exact Hrun|]. intros bb bitNo.
    destruct (Hfinal bb bitNo) as [Hout Hlive].
    destruct (closed_form_step F (liveBlocksOf liveness) (liveBlocksOf liveness1) call rest
                bitNo (fun b => Hexact b bitNo) bb) as [Hout' Hlive'].
    split; [rewrite Hout; exact Hout' | rewrite Hlive; exact Hlive'].
Qed.

(** X22: a whole analysis in closed form.  Any sequence of [updateForUse]
    and [extendToNonUse] calls on tracked bits returns, and it leaves a
    block [LiveOut] for a bit exactly when the block was [LiveOut] before
    the calls or is a predecessor of a block reached, backward through
    blocks that were [Dead] before the calls, from the block of a call
    that propagates the bit (the bit is one of its bits, and its block was
    [Dead] before the calls or the call flags the bit as used before its
    definition); it leaves a block live exactly when the block was live,
    or is the block of such a call, or is [LiveOut] by the above. *)
Theorem liveness_after_calls {Users : Type} (F : SILFunction) (popFrom : PopOrder)
    (ops : UserMapOps Users) (liveness : FieldSensitivePrunedLiveness Users)
    (calls : list LivenessCall) :
  LawfulPop popFrom ->
  predecessorsInFunction F ->
  liveBlocksSized (liveBlocksOf liveness) ->
  (forall call, In call calls ->
                (getParent F (callUser call) < numBlocks F)%nat
                /\ callInRange (numBitsToTrack (liveBlocksOf liveness)) call) ->
  exists final,
    runCalls F popFrom ops liveness calls = Some final
    /\ forall bb bitNo,
         (getBlockLiveness (liveBlocksOf final) bb bitNo = LiveOut
          <-> LiveOutAfterCalls F (liveBlocksOf liveness) calls bb bitNo)
         /\ (getBlockLiveness (liveBlocksOf final) bb bitNo <> Dead
             <-> LiveAfterCalls F (liveBlocksOf liveness) calls bb bitNo).
Proof.
  intros Hlawful Hpreds Hsized Hcalls.
  destruct (runCalls_closed_form F popFrom ops calls Hlawful Hpreds liveness Hsized Hcalls)
    as (final & Hrun & Hfinal).
  exists final. split; [exact Hrun|].
  intros bb bitNo. destruct (Hfinal bb bitNo) as [Hout Hlive].
  split; [exact Hout | exact Hlive].
Qed.

Lemma liveness_after_calls_witness :
  exists final,
    runCalls straightLine popNewest noUserMap (mkLiveness entryDefined tt)
      [UpdateForUseRange 10 (mkRange 0 1) true [false]] = Some final
    /\ (getBlockLiveness (liveBlocksOf final) 1 0 = LiveOut
        <-> LiveOutAfterCalls straightLine entryDefined
              [UpdateForUseRange 10 (mkRange 0 1) true [false]] 1 0).
Proof.
  destruct (liveness_after_calls straightLine popNewest noUserMap
              (mkLiveness entryDefined tt)
              [UpdateForUseRange 10 (mkRange 0 1) true [false]])
    as (final & Hrun & Hfinal).
  - apply popNewest_lawful.
  - apply straightLine_predecessors.
  - apply markBlockLive_sized, liveBlocksSized_empty.
  - intros call [<-|[]]. split; [cbn; lia | vm_compute; lia].
  - exists final. split; [exact Hrun|]. exact (proj1 (Hfinal 1%nat 0%nat)).
Defined.

(** X23: the live blocks do not depend on the order of the calls: two
    sequences of [updateForUse] and [extendToNonUse] calls on tracked bits
    that are permutations of one another both return, and they leave every
    block in the same state for every bit. *)
Theorem liveness_independent_of_call_order {Users : Type} (F : SILFunction)
    (popFrom : PopOrder) (ops : UserMapOps Users)
    (liveness : FieldSensitivePrunedLiveness Users) (calls1 calls2 : list LivenessCall) :
  LawfulPop popFrom ->
  predecessorsInFunction F ->
  liveBlocksSized (liveBlocksOf liveness) ->
  (forall call, In call calls1 ->
                (getParent F (callUser call) < numBlocks F)%nat
                /\ callInRange (numBitsToTrack (liveBlocksOf liveness)) call) ->
  Permutation calls1 calls2 ->
  exists final1 final2,
    runCalls F popFrom ops liveness calls1 = Some final1
    /\ runCalls F popFrom ops liveness calls2 = Some final2
    /\ forall bb bitNo,
         getBlockLiveness (liveBlocksOf final1) bb bitNo
         = getBlockLiveness (liveBlocksOf final2) bb bitNo.
Proof.
  intros Hlawful Hpreds Hsized Hcalls Hperm.
  assert (Hsame : forall call, In call calls2 <-> In call calls1).
  { intros call. split; intros Hin.
    - exact (Permutation_in call (Permutation_sym Hperm) Hin).
    - exact (Permutation_in call Hperm Hin). }
  destruct (runCalls_closed_form F popFrom ops calls1 Hlawful Hpreds liveness Hsized Hcalls)
    as (final1 & Hrun1 & Hfinal1).
  destruct (runCalls_closed_form F popFrom ops calls2 Hlawful Hpreds liveness Hsized)
    as (final2 & Hrun2 & Hfinal2).
  { intros call Hin. apply Hcalls, Hsame, Hin. }
  exists final1, final2. split; [exact Hrun1|]. split; [exact Hrun2|].
  intros bb bitNo.
  destruct (Hfinal1 bb bitNo) as [Hout1 Hlive1].
  destruct (Hfinal2 bb bitNo) as [Hout2 Hlive2].
  assert (Hout : getBlockLiveness (liveBlocksOf final1) bb bitNo = LiveOut
                 <-> getBlockLiveness (liveBlocksOf final2) bb bitNo = LiveOut).
  { rewrite Hout1, Hout2. unfold LiveOutAfterCalls.
    split; (intros [H|(call & Hin & Hrest)]; [left; exact H|]);
      right; exists call; (split; [apply Hsame; exact Hin | exact Hrest]). }
  assert (Hlive : getBlockLiveness (liveBlocksOf final1) bb bitNo <> Dead
                  <-> getBlockLiveness (liveBlocksOf final2) bb bitNo <> Dead).
  { rewrite Hlive1, Hlive2. unfold LiveAfterCalls.
    split; (intros [H|(call & Hin & Hrest)]; [left; exact H|]);
      right; exists call; (split; [apply Hsame; exact Hin | exact Hrest]). }
  destruct (getBlockLiveness (liveBlocksOf final1) bb bitNo) eqn:E1;
    destruct (getBlockLiveness (liveBlocksOf final2) bb bitNo) eqn:E2;
    try reflexivity; exfalso.
  - apply (proj2 Hlive); [discriminate | reflexivity].
  - apply (proj2 Hlive); [discriminate | reflexivity].
  - apply (proj1 Hlive); [discriminate | reflexivity].
  - pose proof (proj2 Hout eq_refl). discriminate.
  - apply (proj1 Hlive); [discriminate | reflexivity].
  - pose proof (proj1 Hout eq_refl). discriminate.
Qed.

Lemma liveness_independent_of_call_order_witness :
  exists final1 final2,
    runCalls straightLine popNewest noUserMap (mkLiveness entryDefined tt)
      [UpdateForUseRange 10 (mkRange 0 1) true [false];
       ExtendToNonUseBits 7 [true] [false]] = Some final1
    /\ runCalls straightLine popNewest noUserMap (mkLiveness entryDefined tt)
         [ExtendToNonUseBits 7 [true] [false];
          UpdateForUseRange 10 (mkRange 0 1) true [false]] = Some final2
    /\ forall bb bitNo,
         getBlockLiveness (liveBlocksOf final1) bb bitNo
         = getBlockLiveness (liveBlocksOf final2) bb bitNo.
Proof.
  apply (liveness_independent_of_call_order straightLine popNewest noUserMap
           (mkLiveness entryDefined tt)).
  - apply popNewest_lawful.
  - apply straightLine_predecessors.
  - apply markBlockLive_sized, liveBlocksSized_empty.
  - intros call [<-|[<-|[]]]; (split; [cbn; lia | vm_compute; lia]).
  - apply perm_swap.
Defined.

(** ** When the boundary computation returns *)

Section BoundaryReturns.
Variable F : SILFunction.
Variable live : FieldSensitivePrunedLiveBlocks.
Variable finder : BoundaryFinder.

Lemma computeBoundaryBits_returns block indices :
  (forall index (isLiveOut : bool) boundary,
      In index indices ->
      getBlockLiveness live block index = (if isLiveOut then LiveOut else LiveWithin) ->
      is_Some (finder block index isLiveOut boundary)) ->
  forall boundary, is_Some (computeBoundaryBits F live finder block boundary indices).
Proof.
  induction indices as [|index rest IH]; intros Hfinder boundary; cbn [computeBoundaryBits].
  - eauto.
  - assert (Hbit : is_Some (computeBoundaryBit F live finder block boundary index)).
    { unfold computeBoundaryBit.
      destruct (getBlockLiveness live block index) eqn:El; [eauto | |].
      - apply (Hfinder index false); [left; reflexivity | exact El].
      - apply (Hfinder index true); [left; reflexivity | exact El]. }
    destruct Hbit as [boundary1 ->].
    apply IH. intros i isLiveOut b Hin. apply Hfinder. right. exact Hin.
Qed.

Lemma computeBoundaryBits_fails block index indices :
  In index indices ->
  (forall boundary, computeBoundaryBit F live finder block boundary index = None) ->
  forall boundary, computeBoundaryBits F live finder block boundary indices = None.
Proof.
  intros Hin Hfail.
  induction indices as [|first rest IH]; intros boundary; [destruct Hin|].
  cbn [computeBoundaryBits].
  destruct (computeBoundaryBit F live finder block boundary first) as [boundary1|] eqn:Ebit;
    [|reflexivity].
  destruct Hin as [->|Hin]; [rewrite Hfail in Ebit; discriminate|].
  exact (IH Hin boundary1).
Qed.

Lemma computeBoundaryBlocks_returns (todo : list SILBasicBlock) :
  (forall block index (isLiveOut : bool) boundary,
      In block todo ->
      (index < numBitsToTrack live)%nat ->
      getBlockLiveness live block index = (if isLiveOut then LiveOut else LiveWithin) ->
      is_Some (finder block index isLiveOut boundary)) ->
  forall boundary, is_Some (computeBoundaryBlocks F live finder boundary todo).
Proof.
  induction todo as [|block rest IH]; intros Hfinder boundary; cbn [computeBoundaryBlocks].
  - eauto.
  - destruct (computeBoundaryBits_returns block (seq 0 (numBitsToTrack live))
                (fun index isLiveOut b Hin =>
                   Hfinder block index isLiveOut b (or_introl eq_refl)
                     ltac:(apply in_seq in Hin; lia))
                boundary) as [boundary1 ->].
    apply IH. intros b index isLiveOut bd Hin. apply Hfinder. right. exact Hin.
Qed.

Lemma computeBoundaryBlocks_fails block index (todo : list SILBasicBlock) :
  In block todo ->
  (index < numBitsToTrack live)%nat ->
  (forall boundary, computeBoundaryBit F live finder block boundary index = None) ->
  forall boundary, computeBoundaryBlocks F live finder boundary todo = None.
Proof.
  intros Hin Hindex Hfail.
  induction todo as [|first rest IH]; intros boundary; [destruct Hin|].
  cbn [computeBoundaryBlocks].
  destruct (computeBoundaryBits F live finder first boundary (seq 0 (numBitsToTrack live)))
    as [boundary1|] eqn:Ebits; [|reflexivity].
  destruct Hin as [->|Hin].
  - rewrite (computeBoundaryBits_fails block index (seq 0 (numBitsToTrack live))
               ltac:(apply in_seq; lia) Hfail boundary) in Ebits.
    discriminate.
  - exact (IH Hin boundary1).
Qed.

End BoundaryReturns.

(** X24: when [computeBoundary] returns.  In the multi-definition variant
    with no or several definitions, [computeBoundary] returns unless it
    meets a discovered block that is [LiveWithin] for a tracked bit and
    holds neither a definition nor an interesting user of the bit; there it
    runs into the [llvm_unreachable] of [findBoundaryInNonDefBlock]. *)
Theorem computeBoundary_returns (F : SILFunction)
    (live : FieldSensitivePrunedLiveBlocks) (isInterestingUser : UserOracle)
    (defs : DefList) (boundary : FieldSensitivePrunedLivenessBoundary) :
  length defs <> 1%nat ->
  let unused block bitNo :=
    getBlockLiveness live block bitNo = LiveWithin
    /\ isDefBlock F defs block bitNo = false
    /\ forall inst, In inst (getInstructions F block) ->
                    isInteresting isInterestingUser inst bitNo = false in
  ((forall block bitNo,
       In block (discoveredBlocks live) -> (bitNo < numBitsToTrack live)%nat ->
       ~ unused block bitNo) ->
   exists boundary',
     computeBoundary F live
       (MultiDefPrunedLiveRange.findBoundariesInBlock F live isInterestingUser defs)
       boundary = Some boundary')
  /\ ((exists block bitNo,
          In block (discoveredBlocks live) /\ (bitNo < numBitsToTrack live)%nat
          /\ unused block bitNo) ->
      computeBoundary F live
        (MultiDefPrunedLiveRange.findBoundariesInBlock F live isInterestingUser defs)
        boundary = None).
Proof.
  intros Hdefs unused. split.
  - intros Hused. unfold computeBoundary.
    apply (computeBoundaryBlocks_returns F live). 
    intros block index isLiveOut bd Hblock Hindex Hlive.
    unfold MultiDefPrunedLiveRange.findBoundariesInBlock.
    destruct (isDefBlock F defs block index) eqn:Hdb; cbn [negb].
    + destruct defs as [|d [|d2 ds]]; [|cbn in Hdefs; congruence|];
        destruct (scanBlockBackward _ _ _ _ _ _ _) as [boundary1 isLive];
        destruct (negb isLive); eauto.
    + destruct isLiveOut; [eauto|].
      unfold findBoundaryInNonDefBlock.
      destruct (lastInterestingUser isInterestingUser index (rev (getInstructions F block)))
        as [user|] eqn:Elast; [eauto|].
      exfalso. apply (Hused block index Hblock Hindex).
      split; [exact Hlive|]. split; [exact Hdb|].
      intros inst Hin.
      apply (proj1 (lastInterestingUser_None isInterestingUser index _) Elast).
      apply in_rev. rewrite rev_involutive. exact Hin.
  - intros (block & bitNo & Hblock & Hindex & Hlive & Hdb & Hquiet).
    unfold computeBoundary.
    apply (computeBoundaryBlocks_fails F live _ block bitNo); [exact Hblock | exact Hindex|].
    intros bd. unfold computeBoundaryBit. rewrite Hlive.
    unfold MultiDefPrunedLiveRange.findBoundariesInBlock. rewrite Hdb. cbn [negb].
    unfold findBoundaryInNonDefBlock.
    rewrite (proj2 (lastInterestingUser_None isInterestingUser bitNo
                      (rev (getInstructions F block)))); [reflexivity|].
    intros inst Hin. apply Hquiet, in_rev. exact Hin.
Qed.

Lemma computeBoundary_returns_witness :
  exists boundary',
    computeBoundary branching redefiningLive
      (MultiDefPrunedLiveRange.findBoundariesInBlock branching redefiningLive
         redefiningUsers redefiningDefs)
      emptyBoundary = Some boundary'.
Proof.
  apply (computeBoundary_returns branching redefiningLive redefiningUsers redefiningDefs
           emptyBoundary).
  - cbn. lia.
  - intros block bitNo Hblock Hindex (Hlive & Hdb & Hquiet).
    assert (Hbit : bitNo = 0%nat) by (vm_compute in Hindex; lia). subst bitNo.
    assert (Hcases : block = 0%nat \/ block = 1%nat \/ block = 2%nat).
    { vm_compute in Hblock. intuition lia. }
    destruct Hcases as [->|[->| ->]].
    + vm_compute in Hdb. discriminate.
    + vm_compute in Hdb. discriminate.
    + specialize (Hquiet 11%nat ltac:(cbn; auto)). vm_compute in Hquiet. discriminate.
Defined.

Lemma findBoundaryInSSADefBlockFrom_returns isInterestingUser ssaDef bitNo boundary
    (reversed : list SILInstruction) :
  match ssaDef with
  | InstructionNode def => In def reversed
  | ArgumentNode _ => True
  end ->
  is_Some (findBoundaryInSSADefBlockFrom isInterestingUser ssaDef bitNo boundary reversed).
Proof.
  induction reversed as [|inst rest IH]; cbn [findBoundaryInSSADefBlockFrom]; intros Hlisted.
  - destruct ssaDef as [def|arg]; [destruct Hlisted | eauto].
  - case_decide as Hdef; [eauto|].
    destruct (isInteresting isInterestingUser inst bitNo); [eauto|].
    apply IH. destruct ssaDef as [def|arg]; [|exact I].
    destruct Hlisted as [->|Hin]; [congruence | exact Hin].
Qed.

(** X25: when [computeBoundary] returns in the single-definition variant,
    the definition being listed in its block: it returns unless it meets a
    discovered block that is [LiveWithin] for a tracked bit, is not the
    block of the definition for the bit, and holds no interesting user of
    the bit. *)
Theorem ssa_computeBoundary_returns (F : SILFunction)
    (live : FieldSensitivePrunedLiveBlocks) (isInterestingUser : UserOracle)
    (range : FieldSensitiveSSAPrunedLiveRange)
    (boundary : FieldSensitivePrunedLivenessBoundary) :
  nodeListed F (ssaDefNode range) ->
  let unused block bitNo :=
    getBlockLiveness live block bitNo = LiveWithin
    /\ SSAPrunedLiveRange.isDefBlock F range block bitNo = false
    /\ forall inst, In inst (getInstructions F block) ->
                    isInteresting isInterestingUser inst bitNo = false in
  ((forall block bitNo,
       In block (discoveredBlocks live) -> (bitNo < numBitsToTrack live)%nat ->
       ~ unused block bitNo) ->
   exists boundary',
     computeBoundary F live
       (SSAPrunedLiveRange.findBoundariesInBlock F isInterestingUser range)
       boundary = Some boundary')
  /\ ((exists block bitNo,
          In block (discoveredBlocks live) /\ (bitNo < numBitsToTrack live)%nat
          /\ unused block bitNo) ->
      computeBoundary F live
        (SSAPrunedLiveRange.findBoundariesInBlock F isInterestingUser range)
        boundary = None).
Proof.
  intros Hlisted unused. split.
  - intros Hused. unfold computeBoundary.
    apply (computeBoundaryBlocks_returns F live).
    intros block index isLiveOut bd Hblock Hindex Hlive.
    unfold SSAPrunedLiveRange.findBoundariesInBlock.
    destruct isLiveOut; [eauto|].
    destruct (SSAPrunedLiveRange.isDefBlock F range block index) eqn:Hdb; cbn [negb].
    + unfold findBoundaryInSSADefBlock.
      apply findBoundaryInSSADefBlockFrom_returns.
      unfold nodeListed in Hlisted.
      destruct (ssaDefNode range) as [def|arg]; [|exact I].
      apply in_rev. rewrite rev_involutive. exact Hlisted.
    + unfold findBoundaryInNonDefBlock.
      destruct (lastInterestingUser isInterestingUser index (rev (getInstructions F block)))
        as [user|] eqn:Elast; [eauto|].
      exfalso. apply (Hused block index Hblock Hindex).
      split; [exact Hlive|]. split; [exact Hdb|].
      intros inst Hin.
      apply (proj1 (lastInterestingUser_None isInterestingUser index _) Elast).
      apply in_rev. rewrite rev_involutive. exact Hin.
  - intros (block & bitNo & Hblock & Hindex & Hlive & Hdb & Hquiet).
    unfold computeBoundary.
    apply (computeBoundaryBlocks_fails F live _ block bitNo); [exact Hblock | exact Hindex|].
    intros bd. unfold computeBoundaryBit. rewrite Hlive.
    unfold SSAPrunedLiveRange.findBoundariesInBlock. rewrite Hdb. cbn [negb].
    unfold findBoundaryInNonDefBlock.
    rewrite (proj2 (lastInterestingUser_None isInterestingUser bitNo
                      (rev (getInstructions F block)))); [reflexivity|].
    intros inst Hin. apply Hquiet, in_rev. exact Hin.
Qed.

Lemma ssa_computeBoundary_returns_witness :
  exists boundary',
    computeBoundary branching branchingLive
      (SSAPrunedLiveRange.findBoundariesInBlock branching branchingUsers branchingDef)
      emptyBoundary = Some boundary'.
Proof.
  apply (ssa_computeBoundary_returns branching branchingLive branchingUsers branchingDef
           emptyBoundary).
  - cbn. auto.
  - intros block bitNo Hblock Hindex (Hlive & Hdb & Hquiet).
    assert (Hbit : bitNo = 0%nat) by (vm_compute in Hindex; lia). subst bitNo.
    assert (Hcases : block = 0%nat \/ block = 1%nat \/ block = 2%nat).
    { vm_compute in Hblock. intuition lia. }
    destruct Hcases as [->|[->| ->]].
    + vm_compute in Hdb. discriminate.
    + specialize (Hquiet 10%nat ltac:(cbn; auto)). vm_compute in Hquiet. discriminate.
    + vm_compute in Hlive. discriminate.
Defined.
